(** * libmusicxml: the Guido and LPSR translators

    A shallow embedding of the translation visitors of libmusicxml
    ([xml2guidovisitor.cpp], [msr2LpsrTranslator.cpp], [msrHarmonies.cpp])
    and the properties their specification states about them.

    Layout: the embedding first (strings and numbers, the Guido output tree
    and visitor, binary32 positions, the MSR store and the LPSR translator,
    the visitor dispatch of [msrHarmony]), then the theorems. *)

From Stdlib Require Import ZArith List String Ascii Lia Bool DecimalString SpecFloat.
From stdpp Require Import base gmap list strings.

Set Warnings "-register-all,-clear-no-such-hyp".

Open Scope Z_scope.

(* ===================================================================== *)
(** * Part I: the embedding *)
(* ===================================================================== *)

(** ** Strings and numbers, as the C++ library calls behave *)

Module Cxx.

(** [std::string::find (c, pos)]: the first index [i >= pos] holding [c];
    [None] stands for [string::npos]. *)
Fixpoint find_char (c : ascii) (s : string) (pos : nat) : option nat :=
  match s with
  | EmptyString => None
  | String a s' =>
      match pos with
      | O => if Ascii.eqb a c then Some O else option_map S (find_char c s' O)
      | S p => option_map S (find_char c s' p)
      end
  end.

(** [s.replace (pos, 1, r)] for [pos] inside [s]. ([std::string] throws for
    [pos > size]; the callers below only pass positions returned by
    [find], which are inside the string.) *)
Fixpoint replace_one (s : string) (pos : nat) (r : string) : string :=
  match s with
  | EmptyString => EmptyString
  | String a s' =>
      match pos with
      | O => r +:+ s'
      | S p => String a (replace_one s' p r)
      end
  end.

(** [isspace] in the C locale: space and the control characters 9 to 13. *)
Definition isspace (c : ascii) : bool :=
  let n := nat_of_ascii c in
  (Nat.eqb n 32 || (Nat.leb 9 n && Nat.leb n 13))%bool.

Fixpoint skip_spaces (s : string) : string :=
  match s with
  | EmptyString => EmptyString
  | String a s' => if isspace a then skip_spaces s' else s
  end.

Fixpoint take_word (s : string) : string :=
  match s with
  | EmptyString => EmptyString
  | String a s' => if isspace a then EmptyString else String a (take_word s')
  end.

(** [stream >> str] on a stream holding [s], [str] being empty before:
    leading white space is skipped and characters are read up to the next
    white space; when nothing is read [str] stays empty. *)
Definition stream_extract (s : string) : string := take_word (skip_spaces s).

(** [stream << n] for an integer. *)
Definition string_of_Z (z : Z) : string := NilZero.string_of_int (Z.to_int z).

Definition is_digit (c : ascii) : bool :=
  let n := nat_of_ascii c in (Nat.leb 48 n && Nat.leb n 57)%bool.

Fixpoint digits_value (s : string) (acc : Z) : Z :=
  match s with
  | EmptyString => acc
  | String a s' =>
      if is_digit a
      then digits_value s' (10 * acc + (Z.of_nat (nat_of_ascii a) - 48))
      else acc
  end.

Definition LONG_MAX : Z := 2 ^ 63 - 1.
Definition LONG_MIN : Z := - 2 ^ 63.

Definition clamp_long (z : Z) : Z := Z.max LONG_MIN (Z.min LONG_MAX z).

(** [strtol (s, 0, 10)]: white space, an optional sign, decimal digits; [0]
    when there is no digit, the nearest [long] on overflow. *)
Definition strtol (s : string) : Z :=
  match skip_spaces s with
  | String "-"%char s' => clamp_long (- digits_value s' 0)
  | String "+"%char s' => clamp_long (digits_value s' 0)
  | s' => clamp_long (digits_value s' 0)
  end.

End Cxx.

(** ** Rationals *)

(** Modelled from the spec: class [rational] (rational.h is not part of the
    sources at hand) is "exact fraction arithmetic". The fields are kept as
    set: [parseTime] below compares the numerator and the denominator of a
    freshly set rational with 4 and 4, so [set] does not reduce. *)
Record rational : Type := mkRational { getNumerator : Z; getDenominator : Z }.

Module Rational.

(** Modelled from the spec: [rational (0, 1)], the value of a rational that
    has been declared without arguments. *)
Definition zero : rational := mkRational 0 1.

(** Modelled from the spec: [a += b] of class [rational], exact addition of
    fractions: the numerators are added over a common denominator. *)
Definition plus_assign (a b : rational) : rational :=
  if Z.eqb (getDenominator a) (getDenominator b)
  then mkRational (getNumerator a + getNumerator b) (getDenominator a)
  else mkRational (getNumerator a * getDenominator b + getNumerator b * getDenominator a)
                  (getDenominator a * getDenominator b).

(** Modelled from the spec: the conversion of a [rational] to a string,
    numerator, a slash, denominator. *)
Definition to_string (r : rational) : string :=
  Cxx.string_of_Z (getNumerator r) +:+ "/" +:+ Cxx.string_of_Z (getDenominator r).

End Rational.

(** ** The Guido output tree *)

(** Modelled from the spec: the Guido output tree is made of "ordered tagged
    nodes, each tag with zero or more quoted/bare parameters" (the classes
    are declared in guido.h, which is not part of the sources at hand).
    [guidoparam::create] is called with a string or with an integer; the
    second argument says whether the printer quotes the value. *)
Inductive guidoparam : Type :=
| param_str (value : string) (quote : bool)
| param_int (value : Z) (quote : bool).

(** Modelled from the spec: the nodes of the Guido output tree, a tag with
    its parameters, a sequence or a chord with ordered elements. *)
Inductive guidoelement : Type :=
| guidotag (name : string) (params : list guidoparam)
| guidoseq (elements : list guidoelement)
| guidochord (elements : list guidoelement).

(** Modelled from the spec: [e->add (child)], which appends [child] to the
    ordered elements of a sequence or chord. *)
Definition add_element (child : guidoelement) (e : guidoelement) : guidoelement :=
  match e with
  | guidoseq es => guidoseq (es ++ [child])
  | guidochord es => guidochord (es ++ [child])
  | guidotag _ _ => e
  end.

(** ** The parsed elements the Guido visitor reads *)

(** The element tree is an external collaborator: it exposes, for each
    node, its text, its attributes and its typed children. Each record
    below is the view of one element kind through the lookups the visitor
    makes on it. *)

(** Modelled from the spec: a [movement-title] or [creator] element of the
    element tree, seen through [getValue ()] and the [type] attribute. *)
Record xmlelement : Type := mkXml { getValue : string; attr_type : string }.

(** Modelled from the spec: a [clef] element of the element tree, seen
    through its attribute [number] (default 1) and its children [sign],
    [line] (default 0) and [clef-octave-change] (default 0). *)
Record clef_elt : Type := mkClef {
  clef_number : Z;
  clef_sign : string;
  clef_line : Z;
  clef_octave_change : Z
}.

(** Modelled from the spec: a [key] element of the element tree, seen
    through its child [fifths] (default 0). *)
Record key_elt : Type := mkKey { key_fifths : Z }.

(** Modelled from the spec: a [time] element of the element tree, seen
    through its attributes [symbol] and [print-object], whether a
    [senza-misura] child exists, and the [beats]/[beat-type] children
    paired in document order. *)
Record time_elt : Type := mkTime {
  time_symbol : string;
  time_print_object : string;
  time_senza_misura : bool;
  time_pairs : list (string * string)
}.

(** Modelled from the spec: a [part] element of the element tree, seen
    through its attribute [id], its first [staff-lines] descendant (default
    0), and its [clef], [key] and [time] descendants in document order. *)
Record part_elt : Type := mkPart {
  part_id : string;
  part_staff_lines : Z;
  part_clefs : list clef_elt;
  part_keys : list key_elt;
  part_times : list time_elt
}.

(** Modelled from the spec: what [partsummary] (partsummary.h is not part
    of the sources at hand) reports after browsing a part: the distinct
    voice numbers in the order of [getVoices ()], the main staff of a voice
    and the number of staves. *)
Record partsummary : Type := mkSummary {
  getVoices : list Z;
  getMainStaff : Z -> Z;
  countStaves : Z
}.

(** ** The Guido visitor *)

Record scoreHeader : Type := mkScoreHeader {
  fTitle : option xmlelement;
  fCreators : list xmlelement
}.

Record partHeader : Type := mkPartHeader {
  fPartName : string;
  ph_visited : bool
}.

Record partGroup : Type := mkPartGroup {
  guidoRange : string;
  guidoRangeStart : Z;
  guidoRangeStop : Z;
  bracket : bool;
  barlineGrouping : bool;
  pg_visited : bool
}.

Record xml2guidovisitor : Type := mkVisitor {
  fStack : list guidoelement;        (* open elements, innermost first *)
  fGenerateBars : bool;
  fPartNum : Z;
  fBeginMeasure : Z;
  fCurrentStaffIndex : Z;
  fCurrentPartStaffOffset : Z;
  fCurrentAccoladeIndex : Z;
  fPartsAvailable : Z;
  fHeader : scoreHeader;
  fPartHeaders : gmap string partHeader;
  fPartGroups : list partGroup;
  currentPart : string;
  stavesInPart : gmap string Z;
  clefsInPart : gmap string (gset string);
  cerr : list string                 (* lines written to the error stream *)
}.

(** The collaborators of [visitStart (S_part&)] that live in other files:
    what the per-voice visitor [xmlpart2guido], initialised with the
    current time signature, adds to the voice sequence while it browses the
    part, the time signature it reports afterwards ([getTimeSign ()]), the
    group lookup of [flushPartGroup] and [checkLonelyBarFormat]. *)
Class PartCollaborators : Type := {
  xmlpart2guido_browse :
    part_elt -> Z (* targetStaff *) -> Z (* staff index *) -> Z (* voice *) ->
    bool (* notesOnly *) -> rational (* currentTimeSign *) -> list guidoelement;
  xmlpart2guido_getTimeSign :
    part_elt -> Z -> Z -> Z -> bool -> rational -> rational;
  find_first_of_partID_inGroup : list partGroup -> string -> option nat;
  checkLonelyBarFormat : Z -> bool
}.

Module Guido.

Definition with_stack (st : list guidoelement) (v : xml2guidovisitor) : xml2guidovisitor :=
  mkVisitor st (fGenerateBars v) (fPartNum v) (fBeginMeasure v)
    (fCurrentStaffIndex v) (fCurrentPartStaffOffset v) (fCurrentAccoladeIndex v)
    (fPartsAvailable v) (fHeader v) (fPartHeaders v) (fPartGroups v) (currentPart v)
    (stavesInPart v) (clefsInPart v) (cerr v).

Definition with_staff_index (i : Z) (v : xml2guidovisitor) : xml2guidovisitor :=
  mkVisitor (fStack v) (fGenerateBars v) (fPartNum v) (fBeginMeasure v)
    i (fCurrentPartStaffOffset v) (fCurrentAccoladeIndex v)
    (fPartsAvailable v) (fHeader v) (fPartHeaders v) (fPartGroups v) (currentPart v)
    (stavesInPart v) (clefsInPart v) (cerr v).

Definition with_staff_offset (o : Z) (v : xml2guidovisitor) : xml2guidovisitor :=
  mkVisitor (fStack v) (fGenerateBars v) (fPartNum v) (fBeginMeasure v)
    (fCurrentStaffIndex v) o (fCurrentAccoladeIndex v)
    (fPartsAvailable v) (fHeader v) (fPartHeaders v) (fPartGroups v) (currentPart v)
    (stavesInPart v) (clefsInPart v) (cerr v).

Definition with_accolade_index (a : Z) (v : xml2guidovisitor) : xml2guidovisitor :=
  mkVisitor (fStack v) (fGenerateBars v) (fPartNum v) (fBeginMeasure v)
    (fCurrentStaffIndex v) (fCurrentPartStaffOffset v) a
    (fPartsAvailable v) (fHeader v) (fPartHeaders v) (fPartGroups v) (currentPart v)
    (stavesInPart v) (clefsInPart v) (cerr v).

Definition with_header (h : scoreHeader) (v : xml2guidovisitor) : xml2guidovisitor :=
  mkVisitor (fStack v) (fGenerateBars v) (fPartNum v) (fBeginMeasure v)
    (fCurrentStaffIndex v) (fCurrentPartStaffOffset v) (fCurrentAccoladeIndex v)
    (fPartsAvailable v) h (fPartHeaders v) (fPartGroups v) (currentPart v)
    (stavesInPart v) (clefsInPart v) (cerr v).

Definition with_part_headers (m : gmap string partHeader) (v : xml2guidovisitor)
  : xml2guidovisitor :=
  mkVisitor (fStack v) (fGenerateBars v) (fPartNum v) (fBeginMeasure v)
    (fCurrentStaffIndex v) (fCurrentPartStaffOffset v) (fCurrentAccoladeIndex v)
    (fPartsAvailable v) (fHeader v) m (fPartGroups v) (currentPart v)
    (stavesInPart v) (clefsInPart v) (cerr v).

Definition with_part_groups (g : list partGroup) (v : xml2guidovisitor) : xml2guidovisitor :=
  mkVisitor (fStack v) (fGenerateBars v) (fPartNum v) (fBeginMeasure v)
    (fCurrentStaffIndex v) (fCurrentPartStaffOffset v) (fCurrentAccoladeIndex v)
    (fPartsAvailable v) (fHeader v) (fPartHeaders v) g (currentPart v)
    (stavesInPart v) (clefsInPart v) (cerr v).

Definition with_current_part (id : string) (staves : gmap string Z) (n : Z)
    (v : xml2guidovisitor) : xml2guidovisitor :=
  mkVisitor (fStack v) (fGenerateBars v) (fPartNum v) (fBeginMeasure v)
    (fCurrentStaffIndex v) (fCurrentPartStaffOffset v) (fCurrentAccoladeIndex v)
    n (fHeader v) (fPartHeaders v) (fPartGroups v) id
    staves (clefsInPart v) (cerr v).

Definition with_clefs (c : gmap string (gset string)) (v : xml2guidovisitor)
  : xml2guidovisitor :=
  mkVisitor (fStack v) (fGenerateBars v) (fPartNum v) (fBeginMeasure v)
    (fCurrentStaffIndex v) (fCurrentPartStaffOffset v) (fCurrentAccoladeIndex v)
    (fPartsAvailable v) (fHeader v) (fPartHeaders v) (fPartGroups v) (currentPart v)
    (stavesInPart v) c (cerr v).

Definition warn (line : string) (v : xml2guidovisitor) : xml2guidovisitor :=
  mkVisitor (fStack v) (fGenerateBars v) (fPartNum v) (fBeginMeasure v)
    (fCurrentStaffIndex v) (fCurrentPartStaffOffset v) (fCurrentAccoladeIndex v)
    (fPartsAvailable v) (fHeader v) (fPartHeaders v) (fPartGroups v) (currentPart v)
    (stavesInPart v) (clefsInPart v) (cerr v ++ [line]).

(** Modelled from the spec: the element stack of the visitor (declared in
    xml2guidovisitor.h, which is not part of the sources at hand) builds
    the ordered output tree. [add] appends to the innermost open element. *)
Definition add (e : guidoelement) (v : xml2guidovisitor) : xml2guidovisitor :=
  match fStack v with
  | top :: rest => with_stack (add_element e top :: rest) v
  | [] => v
  end.

(** Modelled from the spec: [push] opens a new element inside the innermost
    open element. The element is linked into its parent when it is closed,
    which builds the same tree as linking it when it is opened, since
    between the two every [add] goes to the element itself. *)
Definition push (e : guidoelement) (v : xml2guidovisitor) : xml2guidovisitor :=
  with_stack (e :: fStack v) v.

(** Modelled from the spec: [pop] closes the innermost open element. *)
Definition pop (v : xml2guidovisitor) : xml2guidovisitor :=
  match fStack v with
  | e :: parent :: rest => with_stack (add_element e parent :: rest) v
  | _ => with_stack (tl (fStack v)) v
  end.

(** The elements of the innermost open element. *)
Definition elements_of (e : guidoelement) : list guidoelement :=
  match e with
  | guidoseq es | guidochord es => es
  | guidotag _ _ => []
  end.

Definition current_elements (v : xml2guidovisitor) : list guidoelement :=
  match fStack v with
  | top :: _ => elements_of top
  | [] => []
  end.

(** *** [flushHeader] *)

Definition dquote : ascii := ascii_of_nat 34.

(** The loop [while (pos != npos) { title = title.replace (pos, 1, quote);
    pos = title.find (dquote, pos); }], which writes a single quote over
    each double quote; [None] when the fuel runs out first. *)
Fixpoint replace_quotes_loop (fuel : nat) (title : string) (pos : option nat)
  : option string :=
  match pos with
  | None => Some title
  | Some p =>
      match fuel with
      | O => None
      | S fuel' =>
          let title' := Cxx.replace_one title p "'" in
          replace_quotes_loop fuel' title' (Cxx.find_char dquote title' p)
      end
  end.

Definition replace_quotes (title : string) : option string :=
  replace_quotes_loop (String.length title) title (Cxx.find_char dquote title O).

Definition title_tag (title : string) : guidoelement :=
  guidotag "title" [param_str title true].

Definition composer_tag (c : xmlelement) : guidoelement :=
  guidotag "composer" [param_str (getValue c) true; param_str "dy=4hs" false].

Definition is_composer (c : xmlelement) : bool :=
  (String.eqb (attr_type c) "Composer" || String.eqb (attr_type c) "composer")%bool.

Fixpoint flush_creators (cs : list xmlelement) (v : xml2guidovisitor) : xml2guidovisitor :=
  match cs with
  | [] => v
  | c :: cs' =>
      flush_creators cs' (if is_composer c then add (composer_tag c) v else v)
  end.

(** [flushHeader (header)]; the result is [None] only if the quote loop did
    not end within its fuel. *)
Definition flushHeader (header : scoreHeader) (v : xml2guidovisitor)
  : option (scoreHeader * xml2guidovisitor) :=
  match
    match fTitle header with
    | Some t =>
        match replace_quotes (getValue t) with
        | Some title => Some (add (title_tag title) v)
        | None => None
        end
    | None => Some v
    end
  with
  | Some v1 =>
      Some (mkScoreHeader None [], flush_creators (fCreators header) v1)
  | None => None
  end.

(** *** [flushPartHeader] and [flushPartGroup] *)

Definition quoted (s : string) : string := String dquote (s +:+ String dquote EmptyString).

Definition flushPartHeader (header : partHeader) (v : xml2guidovisitor)
  : partHeader * xml2guidovisitor :=
  if (negb (ph_visited header) && negb (Nat.eqb (String.length (fPartName header)) 0))%bool
  then
    let v1 := add (guidotag "auto" [param_str ("autoInstrPos=" +:+ quoted "on") false]) v in
    let v2 := add (guidotag "instr" [param_str (fPartName header) true]) v1 in
    (mkPartHeader (fPartName header) true, v2)
  else (header, v).

Definition range_text (a b : Z) : string :=
  " range=" +:+ quoted (Cxx.string_of_Z a +:+ "-" +:+ Cxx.string_of_Z b).

Definition mark_visited (g : partGroup) : partGroup :=
  mkPartGroup (guidoRange g) (guidoRangeStart g) (guidoRangeStop g)
    (bracket g) (barlineGrouping g) true.

Definition flushPartGroup `{PartCollaborators} (partID : string) (v : xml2guidovisitor)
  : xml2guidovisitor :=
  match find_first_of_partID_inGroup (fPartGroups v) partID with
  | Some i =>
      match fPartGroups v !! i with
      | Some g =>
          if Nat.ltb 0 (String.length (guidoRange g))
          then
            let rangeStart := fCurrentStaffIndex v in
            let rangeEnd := rangeStart + (guidoRangeStop g - guidoRangeStart g) in
            let rangeFixed := range_text rangeStart rangeEnd in
            let v1 :=
              if bracket g
              then add (guidotag "accol" [param_str ("id=1, " +:+ rangeFixed) false]) v
              else v in
            let v2 :=
              if barlineGrouping g
              then add (guidotag "barFormat"
                          [param_str ("style= " +:+ quoted "system" +:+ ", " +:+ rangeFixed)
                             false]) v1
              else v1 in
            with_part_groups (<[i := mark_visited g]> (fPartGroups v2)) v2
          else v
      | None => v
      end
  | None => v
  end.

(** *** [parseClef] and [visitEnd (S_clef&)] *)

Definition clef_letter (clefsign : string) : option string :=
  if String.eqb clefsign "G" then Some "g"
  else if String.eqb clefsign "F" then Some "f"
  else if String.eqb clefsign "C" then Some "c"
  else if String.eqb clefsign "percussion" then Some "perc"
  else if String.eqb clefsign "TAB" then Some "TAB"
  else if String.eqb clefsign "none" then Some "none"
  else None.

Definition unknown_clef_warning (clefsign : string) : string :=
  "warning: unknown clef sign " +:+ quoted clefsign.

Definition parseClef (iter : clef_elt) (staffIndex : Z) (v : xml2guidovisitor)
  : xml2guidovisitor :=
  if Z.eqb (clef_number iter) staffIndex then
    let clefsign := clef_sign iter in
    let clefline := clef_line iter in
    let clefoctavechange := clef_octave_change iter in
    match clef_letter clefsign with
    | None => warn (unknown_clef_warning clefsign) v
    | Some letter =>
        let s := if Z.eqb clefline 0 then letter else letter +:+ Cxx.string_of_Z clefline in
        let param := Cxx.stream_extract s in
        let param :=
          if Z.eqb clefoctavechange 1 then param +:+ "+8"
          else if Z.eqb clefoctavechange (-1) then param +:+ "-8"
          else param in
        add (guidotag "clef" [param_str param true]) v
    end
  else v.

(** The text [visitEnd (S_clef&)] computes from the sign, line and octave
    change the clef visitor has read. *)
Definition clef_key (fSign : string) (fLine fOctaveChange : Z) : string :=
  if (String.eqb fSign "G" && Z.eqb fLine 2 && Z.eqb fOctaveChange 0)%bool then "g2"
  else if (String.eqb fSign "G" && Z.eqb fLine 2 && Z.eqb fOctaveChange (-1))%bool then "g-8"
  else if (String.eqb fSign "G" && Z.eqb fLine 2 && Z.eqb fOctaveChange 1)%bool then "g+8"
  else if (String.eqb fSign "F" && Z.eqb fLine 4 && Z.eqb fOctaveChange 0)%bool then "f4"
  else if (String.eqb fSign "F" && Z.eqb fLine 4 && Z.eqb fOctaveChange (-1))%bool then "f-8"
  else if (String.eqb fSign "F" && Z.eqb fLine 4 && Z.eqb fOctaveChange 1)%bool then "f+8"
  else if (String.eqb fSign "C" && Z.eqb fLine 3 && Z.eqb fOctaveChange 0)%bool then "alto"
  else if (String.eqb fSign "C" && Z.eqb fLine 4 && Z.eqb fOctaveChange 0)%bool then "tenor"
  else "unknown".

Definition visitEnd_clef (elt : clef_elt) (v : xml2guidovisitor) : xml2guidovisitor :=
  let key := clef_key (clef_sign elt) (clef_line elt) (clef_octave_change elt) in
  let old := default ∅ (clefsInPart v !! currentPart v) in
  with_clefs (<[currentPart v := {[key]} ∪ old]> (clefsInPart v)) v.

(** *** [parseTime] *)

(** [rational ts (0,1); if (index < size) { num = strtol (first); denum =
    strtol (second); if (num && denum) ts.set (num, denum); }] for the pair
    at [index]. *)
Definition pair_rational (tss : option (string * string)) : rational :=
  match tss with
  | Some (first, second) =>
      let num := Cxx.strtol first in
      let denum := Cxx.strtol second in
      if (negb (Z.eqb num 0) && negb (Z.eqb denum 0))%bool
      then mkRational num denum
      else Rational.zero
  | None => Rational.zero
  end.

(** The [for] loop of the last branch: the stream [s], the separator and the
    local [fCurrentTimeSign] after the pairs from [i] on. Inside the loop
    the index is below the size, so the pair read is the pair at hand. *)
Fixpoint time_pairs_loop (pairs : list (string * string))
    (s sep : string) (cur : rational) : string * rational :=
  match pairs with
  | [] => (s, cur)
  | (first, second) :: rest =>
      let s' := s +:+ sep +:+ first +:+ "/" +:+ second in
      let ts := pair_rational (Some (first, second)) in
      time_pairs_loop rest s' "+" (Rational.plus_assign cur ts)
  end.

(** The locals [timesign] and [fCurrentTimeSign] of [parseTime] when the
    meter tag is built. [fCurrentTimeSign] is declared in the body of
    [parseTime]; it is neither returned nor stored. *)
Definition parseTime_locals (iter : time_elt) : string * rational :=
  let fTimeSignInternal := time_pairs iter in
  if time_senza_misura iter then (EmptyString, Rational.zero)
  else if String.eqb (time_symbol iter) "common" then
    let ts := pair_rational (fTimeSignInternal !! 0%nat) in
    let timesign :=
      if (Z.eqb (getDenominator ts) 2 && Z.eqb (getNumerator ts) 2)%bool then "C/"
      else if (Z.eqb (getDenominator ts) 4 && Z.eqb (getNumerator ts) 4)%bool then "C"
      else Rational.to_string ts in
    (timesign, ts)
  else if String.eqb (time_symbol iter) "cut" then ("C/", mkRational 2 2)
  else
    let '(s, cur) := time_pairs_loop fTimeSignInternal EmptyString EmptyString Rational.zero in
    (Cxx.stream_extract s, cur).

Definition meter_tag (fGenerateBars : bool) (timesign : string) : guidoelement :=
  guidotag "meter"
    ([param_str timesign true]
       ++ (if fGenerateBars then [param_str ("autoBarlines=" +:+ quoted "off") false] else [])
       ++ [param_str ("autoMeasuresNum=" +:+ quoted "system") false]).

Definition parseTime (iter : time_elt) (v : xml2guidovisitor) : xml2guidovisitor :=
  let timesign := fst (parseTime_locals iter) in
  let tag := meter_tag (fGenerateBars v) timesign in
  if negb (String.eqb (time_print_object iter) "no") then add tag v else v.

(** *** [createStaff] *)

Definition staff_tag (staffIndex : Z) : guidoelement :=
  guidotag "staff" [param_int staffIndex false].

Definition key_tag (k : key_elt) : guidoelement :=
  guidotag "key" [param_int (key_fifths k) false].

Definition createStaff (staffIndex : Z) (elt : part_elt) (v : xml2guidovisitor)
  : xml2guidovisitor :=
  let v := push (guidoseq []) v in
  let v := add (staff_tag staffIndex) v in
  let v := fold_left (fun v c => parseClef c staffIndex v) (part_clefs elt) v in
  let v := fold_left (fun v k => add (key_tag k) v) (part_keys elt) v in
  let v := match part_times elt with
           | t :: _ => parseTime t v
           | [] => v
           end in
  pop v.

(** *** [visitStart (S_part&)] *)

(** [while (fCurrentStaffIndex < bound) { createStaff (fCurrentStaffIndex,
    elt); fCurrentStaffIndex++; }]. The index grows by one in each turn, so
    [bound - fCurrentStaffIndex] turns reach the exit test. *)
Fixpoint intermediate_staves_loop (fuel : nat) (bound : Z) (elt : part_elt)
    (v : xml2guidovisitor) : xml2guidovisitor :=
  match fuel with
  | O => v
  | S fuel' =>
      if fCurrentStaffIndex v <? bound then
        let v1 := createStaff (fCurrentStaffIndex v) elt v in
        intermediate_staves_loop fuel' bound elt
          (with_staff_index (fCurrentStaffIndex v1 + 1) v1)
      else v
  end.

Definition create_intermediate_staves (bound : Z) (elt : part_elt) (v : xml2guidovisitor)
  : xml2guidovisitor :=
  intermediate_staves_loop (Z.to_nat (bound - fCurrentStaffIndex v)) bound elt v.

(** [while (fCurrentStaffIndex < bound) { fCurrentStaffIndex++; createStaff
    (fCurrentStaffIndex, elt); }], the loop for the implicit staves. *)
Fixpoint implicit_staves_loop (fuel : nat) (bound : Z) (elt : part_elt)
    (v : xml2guidovisitor) : xml2guidovisitor :=
  match fuel with
  | O => v
  | S fuel' =>
      if fCurrentStaffIndex v <? bound then
        let v1 := with_staff_index (fCurrentStaffIndex v + 1) v in
        implicit_staves_loop fuel' bound elt (createStaff (fCurrentStaffIndex v1) elt v1)
      else v
  end.

Definition create_implicit_staves (bound : Z) (elt : part_elt) (v : xml2guidovisitor)
  : xml2guidovisitor :=
  implicit_staves_loop (Z.to_nat (bound - fCurrentStaffIndex v)) bound elt v.

(** The head of the voice loop: which staff the voice goes to. Returns the
    new [targetStaff], [notesOnly] and the visitor. *)
Definition select_staff (mainstaff : Z) (elt : part_elt) (targetStaff : Z)
    (v : xml2guidovisitor) : Z * bool * xml2guidovisitor :=
  if targetStaff =? -1 then
    let v := with_staff_index (fCurrentStaffIndex v + 1) v in
    let v := create_intermediate_staves (mainstaff + fCurrentPartStaffOffset v) elt v in
    (mainstaff, false, v)
  else if targetStaff =? mainstaff then
    (targetStaff, true, v)
  else
    let v := if mainstaff >? targetStaff
             then with_staff_index (fCurrentStaffIndex v + 1) v else v in
    let v := create_intermediate_staves (mainstaff + fCurrentPartStaffOffset v) elt v in
    (mainstaff, false, v).

Definition auto_hide_tag : guidoelement :=
  guidotag ("set<autoHideTiedAccidentals=" +:+ quoted "on" +:+ ">") [].

Definition staff_format_tag (stafflines : Z) : guidoelement :=
  guidotag "staffFormat"
    (if stafflines >? 0
     then [param_str ("style=" +:+ quoted (Cxx.string_of_Z stafflines +:+ "-line")) false]
     else []).

Definition system_bar_format (range : string) : guidoelement :=
  guidotag "barFormat" [param_str ("style= " +:+ quoted "system" +:+ ", range=" +:+ quoted range) false].

(** The accolade and bar format tags of a voice. *)
Definition add_accolade `{PartCollaborators} (ps : partsummary) (v : xml2guidovisitor)
  : xml2guidovisitor :=
  if ((countStaves ps >? 1) && (fCurrentStaffIndex v >? fCurrentAccoladeIndex v))%bool then
    let rangeBegin := Z.min (fCurrentStaffIndex v) (fCurrentPartStaffOffset v + 1) in
    let rangeEnd := fCurrentPartStaffOffset v + countStaves ps in
    let range := Cxx.string_of_Z rangeBegin +:+ "-" +:+ Cxx.string_of_Z rangeEnd in
    let v := add (guidotag "accol"
                    [param_str ("id=" +:+ Cxx.string_of_Z (fCurrentAccoladeIndex v)
                                  +:+ ", range=" +:+ quoted range) false]) v in
    let v := add (system_bar_format range) v in
    with_accolade_index rangeEnd v
  else if checkLonelyBarFormat (fCurrentStaffIndex v)
  then add (system_bar_format (Cxx.string_of_Z (fCurrentStaffIndex v))) v
  else v.

(** The rest of the body of the voice loop: the voice sequence. Returns the
    new [currentTimeSign] and the visitor. *)
Definition voice_sequence `{PartCollaborators} (ps : partsummary) (elt : part_elt)
    (targetVoice targetStaff : Z) (notesOnly : bool) (currentTimeSign : rational)
    (v : xml2guidovisitor) : option (rational * xml2guidovisitor) :=
  let v := push (guidoseq []) v in
  let v := add (staff_tag (fCurrentStaffIndex v)) v in
  let v := add auto_hide_tag v in
  let stafflines := part_staff_lines elt in
  let v := if stafflines =? 0 then v else add (staff_format_tag stafflines) v in
  match flushHeader (fHeader v) v with
  | None => None
  | Some (header, v) =>
      let v := with_header header v in
      let '(ph, v) :=
        flushPartHeader (default (mkPartHeader EmptyString false)
                           (fPartHeaders v !! part_id elt)) v in
      let v := with_part_headers (<[part_id elt := ph]> (fPartHeaders v)) v in
      let v := flushPartGroup (part_id elt) v in
      let v := add_accolade ps v in
      let v :=
        if (notesOnly && (fBeginMeasure v <=? 1))%bool then
          match part_clefs elt with
          | iter :: _ => parseClef iter (fCurrentStaffIndex v) v
          | [] => v
          end
        else v in
      let staffIndex := fCurrentStaffIndex v in
      let v := fold_left (fun v e => add e v)
                 (xmlpart2guido_browse elt targetStaff staffIndex
                    targetVoice notesOnly currentTimeSign) v in
      let v := add (staff_tag (fCurrentStaffIndex v)) v in
      let v := add (guidotag "endBar" []) v in
      Some (xmlpart2guido_getTimeSign elt targetStaff staffIndex
              targetVoice notesOnly currentTimeSign,
            pop v)
  end.

(** [for (i = 0; i < voices->size (); i++) { ... }]. *)
Fixpoint voices_loop `{PartCollaborators} (ps : partsummary) (elt : part_elt)
    (voices : list Z) (targetStaff : Z) (currentTimeSign : rational)
    (v : xml2guidovisitor) : option xml2guidovisitor :=
  match voices with
  | [] => Some v
  | targetVoice :: rest =>
      let mainstaff := getMainStaff ps targetVoice in
      let '(targetStaff, notesOnly, v) := select_staff mainstaff elt targetStaff v in
      match voice_sequence ps elt targetVoice targetStaff notesOnly currentTimeSign v with
      | Some (currentTimeSign, v) => voices_loop ps elt rest targetStaff currentTimeSign v
      | None => None
      end
  end.

(** [visitStart (S_part& elt)], [ps] being the summary of the part. The
    fields the visitor copies from the per-voice visitor (positions,
    measure and duration totals) are not part of this model. *)
Definition visitStart_part `{PartCollaborators} (elt : part_elt) (ps : partsummary)
    (v : xml2guidovisitor) : option xml2guidovisitor :=
  let v := with_current_part (part_id elt) (<[part_id elt := 1]> (stavesInPart v))
             (fPartsAvailable v + 1) v in
  if (negb (fPartNum v =? 0)
      && negb (String.eqb (part_id elt) ("P" +:+ Cxx.string_of_Z (fPartNum v))))%bool
  then Some v
  else
    match voices_loop ps elt (getVoices ps) (-1) Rational.zero v with
    | None => None
    | Some v =>
        let v := create_implicit_staves (fCurrentPartStaffOffset v + countStaves ps) elt v in
        Some (with_staff_offset (fCurrentPartStaffOffset v + countStaves ps) v)
    end.

End Guido.

(** ** Positions: binary32 arithmetic *)

(** The C++ type [float] is IEEE 754 binary32; its operations are those of
    [SpecFloat] at precision 24 and maximal exponent 128. *)
Module F32.

Definition prec : Z := 24.
Definition emax : Z := 128.

Definition of_Z (z : Z) : spec_float := binary_normalize prec emax z 0 false.
Definition add : spec_float -> spec_float -> spec_float := SFadd prec emax.
Definition mul : spec_float -> spec_float -> spec_float := SFmul prec emax.
Definition div : spec_float -> spec_float -> spec_float := SFdiv prec emax.

(** The conversion to [bool] of [if (posx)]: everything but a zero is true,
    a NaN included. *)
Definition to_bool (f : spec_float) : bool :=
  match f with
  | S754_zero _ => false
  | _ => true
  end.

Definition is_zero (f : spec_float) : bool := negb (to_bool f).

End F32.

(** An element with a position: [getAttributeFloatValue (name, 0)] for the
    four position attributes. *)
Record position_elt : Type := mkPosition {
  default_x : spec_float;
  relative_x : spec_float;
  default_y : spec_float;
  relative_y : spec_float
}.

(** A tag under construction, with the position parameters it has received.
    The text of such a parameter is [name=value unit], the value printed by
    the stream; the model keeps the value and leaves the digits to the
    stream. *)
Record position_param : Type := mkPosParam {
  pp_name : string;
  pp_value : spec_float;
  pp_unit : string
}.

Module GuidoPosition.

Definition to_half_spaces (pos : spec_float) : spec_float :=
  F32.mul (F32.div pos (F32.of_Z 10)) (F32.of_Z 2).

(** [addPosition (elt, tag, yoffset, xoffset)]: the parameters added to
    [tag], in order. *)
Definition addPosition (elt : position_elt) (tag : list position_param)
    (yoffset xoffset : spec_float) : list position_param :=
  let posx := F32.add (default_x elt) (relative_x elt) in
  let tag :=
    if F32.to_bool posx then
      let posx := to_half_spaces posx in
      let posx := F32.add posx xoffset in
      tag ++ [mkPosParam "dx" posx "hs"]
    else tag in
  let posy := F32.add (default_y elt) (relative_y elt) in
  if F32.to_bool posy then
    let posy := to_half_spaces posy in
    let posy := F32.add posy yoffset in
    tag ++ [mkPosParam "dy" posy "hs"]
  else tag.

(** [addPosY (elt, tag, yoffset, ymultiplier)]. *)
Definition addPosY (elt : position_elt) (tag : list position_param)
    (yoffset ymultiplier : spec_float) : list position_param :=
  let posy := F32.add (relative_y elt) (default_y elt) in
  let posy := to_half_spaces posy in
  let posy := F32.add posy yoffset in
  let posy := F32.mul posy ymultiplier in
  if F32.to_bool posy then tag ++ [mkPosParam "dy" posy "hs"] else tag.

(** [addPosX (elt, tag, xoffset)]. *)
Definition addPosX (elt : position_elt) (tag : list position_param)
    (xoffset : spec_float) : list position_param :=
  let posx := F32.add (default_x elt) (relative_x elt) in
  let posx := to_half_spaces posx in
  let posx := F32.add posx xoffset in
  if F32.to_bool posx then tag ++ [mkPosParam "dx" posx "hs"] else tag.

End GuidoPosition.

(** ** The MSR store *)

(** MSR entities are reference-counted objects handled through smart
    pointers: an entity has an address, and two pointers to one address see
    the same object. The store maps addresses to objects; [None] as a
    pointer is the null pointer. The entity classes are declared in files
    that are not part of the sources at hand: the types below follow the
    data model of the specification and the enumerations and accessors the
    translator uses. *)
Definition loc : Type := nat.

Inductive msrNoteKind : Type :=
| k_NoNoteKind | kRestNote | kSkipNote | kUnpitchedNote | kStandaloneNote
| kDoubleTremoloMemberNote | kGraceNote | kChordMemberNote | kGraceChordMemberNote
| kTupletMemberNote | kGraceTupletMemberNote | kTupletMemberUnpitchedNote.

Inductive msrStaffKind : Type :=
| kStaffRegular | kStaffTablature | kStaffHarmony | kStaffFiguredBass
| kStaffDrum | kStaffRythmic.

Inductive msrVoiceKind : Type := kRegularVoice | kHarmonyVoice | kFiguredBassVoice.

Inductive msrTupletLineShapeKind : Type :=
| kTupletLineShapeStraight | kTupletLineShapeCurved.

Inductive msrNoteEditorialAccidentalKind : Type :=
| kNoteEditorialAccidentalYes | kNoteEditorialAccidentalNo.

Inductive msrRepeatEndingKind : Type := kHookedEnding | kHooklessEnding.

(** The repeat state of a voice, as the specification names its states. *)
Inductive repeatState : Type :=
| Outside
| InCommonPart
| InEnding (number : string) (kind : msrRepeatEndingKind).

(** A repeat wrapper under construction: the repeat it comes from and the
    endings recorded so far. *)
Record repeatWrapper : Type := mkWrapper {
  wrapperRepeat : loc;
  wrapperEndings : list (string * msrRepeatEndingKind)
}.

(** Modelled from the spec: a Note, with the attributes [visitEnd
    (S_msrNote&)] reads through its accessors. *)
Record msrNoteData : Type := mkNote {
  noteInputLineNumber : Z;
  noteKind : msrNoteKind;
  noteIsFirstNoteInADoubleTremolo : bool;
  noteIsSecondNoteInADoubleTremolo : bool;
  noteEditorialAccidentalKind : msrNoteEditorialAccidentalKind
}.

(** Modelled from the spec: a Voice "owns ordered Measures", here its
    elements in order, has an "uplink to Staff", and carries the repeat
    state and the repeat wrappers of the repeat state machine. *)
Record msrVoiceData : Type := mkVoice {
  voiceName : string;
  voiceKind : msrVoiceKind;
  voiceMusicHasBeenInsertedInVoice : bool;
  voiceElements : list loc;
  voiceStaffUplink : option loc;
  voiceRepeatState : repeatState;
  voiceOpenRepeat : option repeatWrapper;
  voiceRepeats : list repeatWrapper
}.

(** Modelled from the spec: the entities of the data model, each with its
    ordered children and its uplink: a Part "owns [an] ordered
    staff-number to Staff mapping", a Tuplet "owns ordered Notes/Chords/
    nested Tuplets". *)
Inductive msrElement : Type :=
| msrScore (partGroups : list loc)
| msrPartGroup (name : string) (elements : list loc)
    (partGroupUplink scoreUplink : option loc)
| msrPart (name abbreviation : string) (stavesMap : gmap Z loc)
    (partGroupUplink : option loc)
| msrStaff (number : Z) (kind : msrStaffKind) (voices : list loc)
    (partUplink : option loc)
| msrVoice (voice : msrVoiceData)
| msrTuplet (inputLineNumber : Z) (shape : msrTupletLineShapeKind)
    (elements : list loc)
| msrNote (note : msrNoteData)
| msrChord (inputLineNumber : Z) (notes : list loc)
| msrGraceNotesGroup (notes : list loc)
| msrDoubleTremolo (first second : option loc)
| msrRepeat (inputLineNumber : Z)
| msrRepeatEnding (inputLineNumber : Z) (number : string) (kind : msrRepeatEndingKind)
| msrPageBreak (inputLineNumber : Z)
| msrRepeatCommonPart (inputLineNumber : Z).

(** The result of a visit: it returns, or it stops in a fatal internal
    error, or it leaves the behaviour the language defines (a null pointer
    followed, an empty stack popped). A fatal error keeps the state in
    which it was raised. *)
Inductive outcome (S A : Type) : Type :=
| Done (a : A) (s : S)
| Fatal (inputLineNumber : Z) (message : string) (s : S)
| Undefined.

Arguments Done {S A} a s.
Arguments Fatal {S A} inputLineNumber message s.
Arguments Undefined {S A}.

Module Msr.

Definition store : Type := gmap loc msrElement.

(** [new]: an address the store does not use yet. *)
Definition alloc (o : msrElement) (σ : gmap loc msrElement) : loc * gmap loc msrElement :=
  let l := fresh (dom σ) in (l, <[l := o]> σ).


(** Modelled from the spec: [createPartGroupNewbornClone] of msrPartGroup, a newborn clone:
    attributes copied, children empty, uplinks set to the owners given. *)
Definition createPartGroupNewbornClone (elt : loc) (partGroupClone scoreClone : option loc)
    (σ : gmap loc msrElement) : option (loc * gmap loc msrElement) :=
  match σ !! elt with
  | Some (msrPartGroup name _ _ _) =>
      Some (alloc (msrPartGroup name [] partGroupClone scoreClone) σ)
  | _ => None
  end.

(** Modelled from the spec: [createPartNewbornClone] of msrPart, a newborn clone: attributes
    copied, no staff, uplink set to the part group given. *)
Definition createPartNewbornClone (elt : loc) (partGroupClone : option loc)
    (σ : gmap loc msrElement) : option (loc * gmap loc msrElement) :=
  match σ !! elt with
  | Some (msrPart name abbreviation _ _) =>
      Some (alloc (msrPart name abbreviation ∅ partGroupClone) σ)
  | _ => None
  end.



(** Modelled from the spec: [createTupletNewbornClone] of msrTuplet, a newborn clone: attributes
    copied, no element. *)
Definition createTupletNewbornClone (elt : loc) (σ : gmap loc msrElement)
  : option (loc * gmap loc msrElement) :=
  match σ !! elt with
  | Some (msrTuplet line shape _) => Some (alloc (msrTuplet line shape []) σ)
  | _ => None
  end.

(** Modelled from the spec: [createNoteNewbornClone] of msrNote, a newborn clone: attributes
    copied; a note has no children. *)
Definition createNoteNewbornClone (elt : loc) (partClone : option loc)
    (σ : gmap loc msrElement) : option (loc * gmap loc msrElement) :=
  match σ !! elt with
  | Some (msrNote n) => Some (alloc (msrNote n) σ)
  | _ => None
  end.

(** Modelled from the spec: [addPartGroupToScore] of msrScore. "Every
    append operation maintains insertion-order containers." The result of
    an append operation is [None] when the receiver is not an entity of the
    kind. *)
Definition addPartGroupToScore (score partGroup : loc) (σ : gmap loc msrElement)
  : option (gmap loc msrElement) :=
  match σ !! score with
  | Some (msrScore pgs) => Some (<[score := msrScore (pgs ++ [partGroup])]> σ)
  | _ => None
  end.

(** Modelled from the spec: [appendPartToPartGroup] and [appendSubPartGroupToPartGroup] of
    msrPartGroup, which append to the elements of the part group. *)
Definition appendToPartGroup (partGroup element : loc) (σ : gmap loc msrElement)
  : option (gmap loc msrElement) :=
  match σ !! partGroup with
  | Some (msrPartGroup name es up sc) =>
      Some (<[partGroup := msrPartGroup name (es ++ [element]) up sc]> σ)
  | _ => None
  end.



Definition with_voice_elements (es : list loc) (v : msrVoiceData) : msrVoiceData :=
  mkVoice (voiceName v) (voiceKind v) (voiceMusicHasBeenInsertedInVoice v) es
    (voiceStaffUplink v) (voiceRepeatState v) (voiceOpenRepeat v) (voiceRepeats v).

(** Modelled from the spec: [appendNoteToVoiceClone], [appendTupletToVoice] and
    [appendPageBreakToVoice] of msrVoice, which append to the elements of
    the voice. *)
Definition appendToVoice (voice element : loc) (σ : gmap loc msrElement)
  : option (gmap loc msrElement) :=
  match σ !! voice with
  | Some (msrVoice v) =>
      Some (<[voice := msrVoice (with_voice_elements (voiceElements v ++ [element]) v)]> σ)
  | _ => None
  end.

(** Modelled from the spec: [addTupletToTupletClone] and [addNoteToTuplet] of msrTuplet, which
    append to the elements of the tuplet. *)
Definition addToTuplet (tuplet element : loc) (σ : gmap loc msrElement)
  : option (gmap loc msrElement) :=
  match σ !! tuplet with
  | Some (msrTuplet line shape es) =>
      Some (<[tuplet := msrTuplet line shape (es ++ [element])]> σ)
  | _ => None
  end.

(** Modelled from the spec: [addAnotherNoteToChord] of msrChord, which appends to the notes of
    the chord. *)
Definition addAnotherNoteToChord (chord note : loc) (σ : gmap loc msrElement)
  : option (gmap loc msrElement) :=
  match σ !! chord with
  | Some (msrChord line notes) => Some (<[chord := msrChord line (notes ++ [note])]> σ)
  | _ => None
  end.

(** Modelled from the spec: [appendNoteToGraceNotesGroup] of msrGraceNotesGroup, which appends
    to the notes of the group. *)
Definition appendNoteToGraceNotesGroup (group note : loc) (σ : gmap loc msrElement)
  : option (gmap loc msrElement) :=
  match σ !! group with
  | Some (msrGraceNotesGroup notes) =>
      Some (<[group := msrGraceNotesGroup (notes ++ [note])]> σ)
  | _ => None
  end.

(** Modelled from the spec: [setDoubleTremoloNoteFirstElement] of msrDoubleTremolo. *)
Definition setDoubleTremoloNoteFirstElement (tremolo note : loc) (σ : gmap loc msrElement)
  : option (gmap loc msrElement) :=
  match σ !! tremolo with
  | Some (msrDoubleTremolo _ second) =>
      Some (<[tremolo := msrDoubleTremolo (Some note) second]> σ)
  | _ => None
  end.

(** Modelled from the spec: [setDoubleTremoloNoteSecondElement] of msrDoubleTremolo. *)
Definition setDoubleTremoloNoteSecondElement (tremolo note : loc) (σ : gmap loc msrElement)
  : option (gmap loc msrElement) :=
  match σ !! tremolo with
  | Some (msrDoubleTremolo first _) =>
      Some (<[tremolo := msrDoubleTremolo first (Some note)]> σ)
  | _ => None
  end.


(** The repeat handlers of msrVoice (not part of the sources at hand)
    follow the repeat state machine of the specification: "RepeatStart:
    Outside to InCommonPart (opens wrapper). RepeatCommonPartStart/End
    bound the common section. RepeatEndingStart/End transition into/out of
    InEnding, recording ending number/kind. RepeatEnd: closes wrapper, to
    Outside. Malformed nesting is fatal"; "EndingStart while already
    InEnding is fatal". The specification does not name the state an ending
    is left for; the model returns to the repeat, [InCommonPart], where a
    further ending or the end of the repeat can follow. The result of a
    handler is the new voice, or the message of the fatal error. *)
Definition with_repeat (s : repeatState) (w : option repeatWrapper)
    (closed : list repeatWrapper) (v : msrVoiceData) : msrVoiceData :=
  mkVoice (voiceName v) (voiceKind v) (voiceMusicHasBeenInsertedInVoice v)
    (voiceElements v) (voiceStaffUplink v) s w closed.

(** Modelled from the spec: [handleRepeatStartInVoiceClone] of msrVoice, "RepeatStart: Outside
    to InCommonPart (opens wrapper)". *)
Definition handleRepeatStartInVoiceClone (repeat : loc) (v : msrVoiceData)
  : msrVoiceData + string :=
  match voiceRepeatState v with
  | Outside => inl (with_repeat InCommonPart (Some (mkWrapper repeat [])) (voiceRepeats v) v)
  | _ => inr "repeat start inside a repeat"
  end.

(** Modelled from the spec: [handleRepeatEndInVoiceClone] of msrVoice, "RepeatEnd: closes
    wrapper, to Outside". *)
Definition handleRepeatEndInVoiceClone (v : msrVoiceData) : msrVoiceData + string :=
  match voiceRepeatState v, voiceOpenRepeat v with
  | InCommonPart, Some w => inl (with_repeat Outside None (voiceRepeats v ++ [w]) v)
  | _, _ => inr "repeat end without a matching start"
  end.

(** Modelled from the spec: [handleRepeatCommonPartStartInVoiceClone] of msrVoice;
    "RepeatCommonPartStart/End bound the common section". *)
Definition handleRepeatCommonPartStartInVoiceClone (v : msrVoiceData)
  : msrVoiceData + string :=
  match voiceRepeatState v with
  | InCommonPart => inl v
  | _ => inr "repeat common part start outside of a repeat"
  end.

(** Modelled from the spec: [handleRepeatCommonPartEndInVoiceClone] of msrVoice. *)
Definition handleRepeatCommonPartEndInVoiceClone (v : msrVoiceData)
  : msrVoiceData + string :=
  match voiceRepeatState v with
  | InCommonPart => inl v
  | _ => inr "repeat common part end outside of a repeat"
  end.

(** Modelled from the spec: [handleRepeatEndingStartInVoiceClone] of msrVoice, which enters
    InEnding "recording ending number/kind"; "EndingStart while already
    InEnding is fatal". *)
Definition handleRepeatEndingStartInVoiceClone (kind : msrRepeatEndingKind)
    (number : string) (v : msrVoiceData) : msrVoiceData + string :=
  match voiceRepeatState v with
  | InCommonPart => inl (with_repeat (InEnding number kind) (voiceOpenRepeat v)
                           (voiceRepeats v) v)
  | InEnding _ _ => inr "repeat ending start inside a repeat ending"
  | Outside => inr "repeat ending start outside of a repeat"
  end.

Definition record_ending (number : string) (kind : msrRepeatEndingKind)
    (w : repeatWrapper) : repeatWrapper :=
  mkWrapper (wrapperRepeat w) (wrapperEndings w ++ [(number, kind)]).

(** Modelled from the spec: [handleRepeatEndingEndInVoiceClone] of msrVoice, which leaves
    InEnding; the number and kind of the ending go to the wrapper. *)
Definition handleRepeatEndingEndInVoiceClone (number : string)
    (kind : msrRepeatEndingKind) (v : msrVoiceData) : msrVoiceData + string :=
  match voiceRepeatState v, voiceOpenRepeat v with
  | InEnding n k, Some w =>
      inl (with_repeat InCommonPart (Some (record_ending n k w)) (voiceRepeats v) v)
  | _, _ => inr "repeat ending end without a matching start"
  end.

End Msr.

(** ** The MSR to LPSR translator *)

(** The part of [lpsrScore] the modelled visits touch: the MSR score clone
    it is created with, the voices appended to it, and two of its "Scheme
    function is needed" flags. *)
Record lpsrScore : Type := mkLpsrScore {
  getMsrScore : loc;
  fScoreElements : list loc;
  fTupletsCurvedBracketsSchemeFunctionIsNeeded : bool;
  fEditorialAccidentalSchemeFunctionIsNeeded : bool
}.

Record currentClones : Type := mkClones {
  fCurrentPartClone : option loc;
  fCurrentStaffClone : option loc;
  fCurrentVoiceClone : option loc;
  fCurrentNonGraceNoteClone : option loc;
  fCurrentGraceNoteClone : option loc;
  fCurrentChordClone : option loc;
  fCurrentGraceNotesGroupClone : option loc;
  fCurrentDoubleTremoloClone : option loc
}.

Record onGoingFlags : Type := mkFlags {
  fOnGoingStaff : bool;
  fOnGoingNote : bool;
  fOnGoingChord : bool;
  fOnGoingGraceNotesGroup : bool;
  fOnGoingDoubleTremolo : bool
}.

Record msr2LpsrTranslator : Type := mkTranslator {
  msrStore : gmap loc msrElement;
  fVisitedMsrScore : option loc;
  fCurrentMsrScoreClone : option loc;
  fLpsrScore : option lpsrScore;
  fPartGroupsStack : list loc;       (* top first *)
  fTupletClonesStack : list loc;     (* top first *)
  current : currentClones;
  onGoing : onGoingFlags
}.

(** The texts [asString ()] and [asShortString ()] give for a note; they
    only appear inside messages. *)
Class NoteRendering : Type := {
  asString : msrNoteData -> string;
  asShortString : msrNoteData -> string
}.

Module Lpsr.

Import Msr.

Definition M (A : Type) : Type := msr2LpsrTranslator -> outcome msr2LpsrTranslator A.

Definition ret {A : Type} (a : A) : M A := fun t => Done a t.

Definition bind {A B : Type} (m : M A) (k : A -> M B) : M B :=
  fun t =>
    match m t with
    | Done a t' => k a t'
    | Fatal line msg t' => Fatal line msg t'
    | Undefined => Undefined
    end.

Notation "x <~ m ;; k" := (bind m (fun x => k))
  (at level 100, m at next level, right associativity).
Notation "m ;;; k" := (bind m (fun _ => k))
  (at level 100, right associativity).

Definition get : M msr2LpsrTranslator := fun t => Done t t.
Definition modify (f : msr2LpsrTranslator -> msr2LpsrTranslator) : M unit :=
  fun t => Done tt (f t).
Definition undefined {A : Type} : M A := fun _ => Undefined.

(** Modelled from the spec: [msrInternalError] is declared in a file that
    is not part of the sources at hand. An "internal/structural error
    (fatal)" is "reported with detecting-code location and input source
    line; process aborts". *)
Definition msrInternalError {A : Type} (inputLineNumber : Z) (message : string) : M A :=
  fun t => Fatal inputLineNumber message t.

(** [p->...]: following a null pointer is not defined. *)
Definition follow (p : option loc) : M loc :=
  match p with
  | Some l => ret l
  | None => undefined
  end.

(** [stack.top ()]. *)
Definition top (stack : list loc) : M loc := follow (head stack).

Definition set_store (σ : gmap loc msrElement) (t : msr2LpsrTranslator) : msr2LpsrTranslator :=
  mkTranslator σ (fVisitedMsrScore t) (fCurrentMsrScoreClone t) (fLpsrScore t)
    (fPartGroupsStack t) (fTupletClonesStack t) (current t) (onGoing t).


Definition set_lpsr_score (s : option lpsrScore) (t : msr2LpsrTranslator)
  : msr2LpsrTranslator :=
  mkTranslator (msrStore t) (fVisitedMsrScore t) (fCurrentMsrScoreClone t) s
    (fPartGroupsStack t) (fTupletClonesStack t) (current t) (onGoing t).

Definition set_part_groups_stack (s : list loc) (t : msr2LpsrTranslator)
  : msr2LpsrTranslator :=
  mkTranslator (msrStore t) (fVisitedMsrScore t) (fCurrentMsrScoreClone t) (fLpsrScore t)
    s (fTupletClonesStack t) (current t) (onGoing t).

Definition set_tuplets_stack (s : list loc) (t : msr2LpsrTranslator) : msr2LpsrTranslator :=
  mkTranslator (msrStore t) (fVisitedMsrScore t) (fCurrentMsrScoreClone t) (fLpsrScore t)
    (fPartGroupsStack t) s (current t) (onGoing t).

Definition set_current (c : currentClones) (t : msr2LpsrTranslator) : msr2LpsrTranslator :=
  mkTranslator (msrStore t) (fVisitedMsrScore t) (fCurrentMsrScoreClone t) (fLpsrScore t)
    (fPartGroupsStack t) (fTupletClonesStack t) c (onGoing t).

Definition set_on_going (f : onGoingFlags) (t : msr2LpsrTranslator) : msr2LpsrTranslator :=
  mkTranslator (msrStore t) (fVisitedMsrScore t) (fCurrentMsrScoreClone t) (fLpsrScore t)
    (fPartGroupsStack t) (fTupletClonesStack t) (current t) f.

Definition set_part_clone (p : option loc) (c : currentClones) : currentClones :=
  mkClones p (fCurrentStaffClone c) (fCurrentVoiceClone c) (fCurrentNonGraceNoteClone c)
    (fCurrentGraceNoteClone c) (fCurrentChordClone c) (fCurrentGraceNotesGroupClone c)
    (fCurrentDoubleTremoloClone c).



Definition set_non_grace_note_clone (p : option loc) (c : currentClones) : currentClones :=
  mkClones (fCurrentPartClone c) (fCurrentStaffClone c) (fCurrentVoiceClone c) p
    (fCurrentGraceNoteClone c) (fCurrentChordClone c) (fCurrentGraceNotesGroupClone c)
    (fCurrentDoubleTremoloClone c).

Definition set_grace_note_clone (p : option loc) (c : currentClones) : currentClones :=
  mkClones (fCurrentPartClone c) (fCurrentStaffClone c) (fCurrentVoiceClone c)
    (fCurrentNonGraceNoteClone c) p (fCurrentChordClone c) (fCurrentGraceNotesGroupClone c)
    (fCurrentDoubleTremoloClone c).


Definition set_note_flag (b : bool) (f : onGoingFlags) : onGoingFlags :=
  mkFlags (fOnGoingStaff f) b (fOnGoingChord f) (fOnGoingGraceNotesGroup f)
    (fOnGoingDoubleTremolo f).

(** A method of an entity that creates an object. *)
Definition create (f : gmap loc msrElement -> option (loc * gmap loc msrElement)) : M loc :=
  fun t =>
    match f (msrStore t) with
    | Some (l, σ) => Done l (set_store σ t)
    | None => Undefined
    end.

(** A method of an entity that updates objects. *)
Definition update (f : gmap loc msrElement -> option (gmap loc msrElement)) : M unit :=
  fun t =>
    match f (msrStore t) with
    | Some σ => Done tt (set_store σ t)
    | None => Undefined
    end.

(** Reading the entity behind a pointer. *)
Definition read (l : loc) : M msrElement :=
  fun t =>
    match msrStore t !! l with
    | Some o => Done o t
    | None => Undefined
    end.

Definition read_note (l : loc) : M msrNoteData :=
  o <~ read l ;;
  match o with
  | msrNote n => ret n
  | _ => undefined
  end.

(** [fLpsrScore->set...IsNeeded ()]. *)
Definition update_lpsr_score (f : lpsrScore -> lpsrScore) : M unit :=
  fun t =>
    match fLpsrScore t with
    | Some s => Done tt (set_lpsr_score (Some (f s)) t)
    | None => Undefined
    end.


Definition setTupletsCurvedBracketsSchemeFunctionIsNeeded (s : lpsrScore) : lpsrScore :=
  mkLpsrScore (getMsrScore s) (fScoreElements s) true
    (fEditorialAccidentalSchemeFunctionIsNeeded s).

Definition setEditorialAccidentalSchemeFunctionIsNeeded (s : lpsrScore) : lpsrScore :=
  mkLpsrScore (getMsrScore s) (fScoreElements s)
    (fTupletsCurvedBracketsSchemeFunctionIsNeeded s) true.

(** *** Score, part groups, parts and staves *)


(** [visitStart (S_msrPartGroup&)]; the part group blocks of the LPSR score
    are not part of this model. *)
Definition visitStart_msrPartGroup (elt : loc) : M unit :=
  t <~ get ;;
  match fLpsrScore t with
  | None => undefined
  | Some lpsr =>
      clone <~ create (createPartGroupNewbornClone elt (head (fPartGroupsStack t))
                         (Some (getMsrScore lpsr))) ;;
      modify (fun t => set_part_groups_stack (clone :: fPartGroupsStack t) t)
  end.

Definition visitEnd_msrPartGroup (elt : loc) : M unit :=
  t <~ get ;;
  currentPartGroup <~ top (fPartGroupsStack t) ;;
  if Nat.eqb (length (fPartGroupsStack t)) 1 then
    score <~ follow (fCurrentMsrScoreClone t) ;;
    update (addPartGroupToScore score currentPartGroup) ;;;
    modify (set_part_groups_stack (tl (fPartGroupsStack t)))
  else
    modify (set_part_groups_stack (tl (fPartGroupsStack t))) ;;;
    enclosing <~ top (tl (fPartGroupsStack t)) ;;
    update (appendToPartGroup enclosing currentPartGroup).

(** [visitStart (S_msrPart&)]. *)
Definition visitStart_msrPart (elt : loc) : M unit :=
  t <~ get ;;
  partGroup <~ top (fPartGroupsStack t) ;;
  clone <~ create (createPartNewbornClone elt (Some partGroup)) ;;
  modify (fun t => set_current (set_part_clone (Some clone) (current t)) t) ;;;
  update (appendToPartGroup partGroup clone).



(** *** Tuplets *)

(** [visitStart (S_msrTuplet&)]. *)
Definition visitStart_msrTuplet (elt : loc) : M unit :=
  tupletClone <~ create (createTupletNewbornClone elt) ;;
  modify (fun t => set_tuplets_stack (tupletClone :: fTupletClonesStack t) t) ;;;
  o <~ read elt ;;
  match o with
  | msrTuplet _ kTupletLineShapeStraight _
  | msrTuplet _ kTupletLineShapeCurved _ =>
      update_lpsr_score setTupletsCurvedBracketsSchemeFunctionIsNeeded
  | _ => undefined
  end.

(** [visitEnd (S_msrTuplet&)]. [pop ()] on an empty stack is not defined;
    the function makes no test before it. What is nested or appended is
    [elt], the tuplet visited. *)
Definition visitEnd_msrTuplet (elt : loc) : M unit :=
  t <~ get ;;
  match fTupletClonesStack t with
  | [] => undefined
  | _ :: rest =>
      modify (set_tuplets_stack rest) ;;;
      if Nat.ltb 0 (length rest) then
        enclosing <~ top rest ;;
        update (addToTuplet enclosing elt)
      else
        voice <~ follow (fCurrentVoiceClone (current t)) ;;
        update (appendToVoice voice elt)
  end.


(** *** Notes *)

(** [visitStart (S_msrNote& elt)]: the note clone is registered as the
    current grace note clone for the three grace kinds, as the current non
    grace note clone otherwise. The map of the voice notes and the first
    note clone of the voice are not part of this model. *)
Definition visitStart_msrNote (elt : loc) : M unit :=
  t <~ get ;;
  noteClone <~ create (createNoteNewbornClone elt (fCurrentPartClone (current t))) ;;
  n <~ read_note elt ;;
  match noteKind n with
  | kGraceNote | kGraceChordMemberNote | kGraceTupletMemberNote =>
      modify (fun t => set_current (set_grace_note_clone (Some noteClone) (current t)) t)
  | _ =>
      modify (fun t => set_current (set_non_grace_note_clone (Some noteClone) (current t))
                         t) ;;;
      modify (fun t => set_on_going (set_note_flag true (onGoing t)) t)
  end.

Definition chord_member_message `{NoteRendering} (elt : msrNoteData) : string :=
  "msr2LpsrTranslator:::visitEnd (S_msrNote& elt): chord member note "
    +:+ asString elt +:+ " appears outside of a chord".

Definition grace_note_message `{NoteRendering} (clone : msrNoteData) : string :=
  "grace note '" +:+ asShortString clone +:+ "' found outside of grace notes".

Definition double_tremolo_outside_message `{NoteRendering} (clone : msrNoteData) : string :=
  "double tremolo note '" +:+ asShortString clone +:+ "' found outside of a double tremolo".

Definition double_tremolo_unmarked_message `{NoteRendering} (clone : msrNoteData) : string :=
  "note '" +:+ asShortString clone +:+ "' belongs to a double tremolo, but is not marked as such".

(** The [switch (elt->getNoteKind ())] of [visitEnd (S_msrNote&)]. *)
Definition append_note_clone `{NoteRendering} (elt : msrNoteData) : M unit :=
  let inputLineNumber := noteInputLineNumber elt in
  t <~ get ;;
  let c := current t in
  match noteKind elt with
  | k_NoNoteKind => ret tt
  | kRestNote | kSkipNote | kUnpitchedNote | kStandaloneNote =>
      voice <~ follow (fCurrentVoiceClone c) ;;
      note <~ follow (fCurrentNonGraceNoteClone c) ;;
      update (appendToVoice voice note)
  | kDoubleTremoloMemberNote =>
      if fOnGoingDoubleTremolo (onGoing t) then
        note <~ follow (fCurrentNonGraceNoteClone c) ;;
        clone <~ read_note note ;;
        if noteIsFirstNoteInADoubleTremolo clone then
          tremolo <~ follow (fCurrentDoubleTremoloClone c) ;;
          update (setDoubleTremoloNoteFirstElement tremolo note)
        else if noteIsSecondNoteInADoubleTremolo clone then
          tremolo <~ follow (fCurrentDoubleTremoloClone c) ;;
          update (setDoubleTremoloNoteSecondElement tremolo note)
        else
          msrInternalError inputLineNumber (double_tremolo_unmarked_message clone)
      else
        note <~ follow (fCurrentNonGraceNoteClone c) ;;
        clone <~ read_note note ;;
        msrInternalError inputLineNumber (double_tremolo_outside_message clone)
  | kGraceNote =>
      if negb (fOnGoingGraceNotesGroup (onGoing t)) then
        note <~ follow (fCurrentNonGraceNoteClone c) ;;
        clone <~ read_note note ;;
        msrInternalError inputLineNumber (grace_note_message clone)
      else
        group <~ follow (fCurrentGraceNotesGroupClone c) ;;
        note <~ follow (fCurrentGraceNoteClone c) ;;
        update (appendNoteToGraceNotesGroup group note)
  | kChordMemberNote =>
      if fOnGoingChord (onGoing t) then
        chord <~ follow (fCurrentChordClone c) ;;
        note <~ follow (fCurrentNonGraceNoteClone c) ;;
        update (addAnotherNoteToChord chord note)
      else
        msrInternalError inputLineNumber (chord_member_message elt)
  | kGraceChordMemberNote =>
      if fOnGoingChord (onGoing t) then
        chord <~ follow (fCurrentChordClone c) ;;
        note <~ follow (fCurrentGraceNoteClone c) ;;
        update (addAnotherNoteToChord chord note)
      else
        msrInternalError inputLineNumber (chord_member_message elt)
  | kTupletMemberNote | kGraceTupletMemberNote | kTupletMemberUnpitchedNote =>
      tuplet <~ top (fTupletClonesStack t) ;;
      note <~ follow (fCurrentNonGraceNoteClone c) ;;
      update (addToTuplet tuplet note)
  end.

(** [visitEnd (S_msrNote& elt)]. *)
Definition visitEnd_msrNote `{NoteRendering} (elt : loc) : M unit :=
  n <~ read_note elt ;;
  append_note_clone n ;;;
  t <~ get ;;
  note <~ follow (fCurrentNonGraceNoteClone (current t)) ;;
  clone <~ read_note note ;;
  match noteEditorialAccidentalKind clone with
  | kNoteEditorialAccidentalYes =>
      update_lpsr_score setEditorialAccidentalSchemeFunctionIsNeeded
  | kNoteEditorialAccidentalNo => ret tt
  end ;;;
  modify (fun t => set_on_going (set_note_flag false (onGoing t)) t).

(** *** Repeats *)

(** [fCurrentVoiceClone->handle...InVoiceClone (inputLineNumber, ...)]: the
    handler runs on the current voice clone; what it reports as malformed
    is a fatal internal error at the line of the element visited. *)
Definition on_current_voice_clone (inputLineNumber : Z)
    (handler : msrVoiceData -> msrVoiceData + string) : M unit :=
  t <~ get ;;
  voice <~ follow (fCurrentVoiceClone (current t)) ;;
  o <~ read voice ;;
  match o with
  | msrVoice v =>
      match handler v with
      | inl v' => modify (fun t => set_store (<[voice := msrVoice v']> (msrStore t)) t)
      | inr message => msrInternalError inputLineNumber message
      end
  | _ => undefined
  end.

Definition visitStart_msrRepeat (elt : loc) : M unit :=
  o <~ read elt ;;
  match o with
  | msrRepeat inputLineNumber =>
      on_current_voice_clone inputLineNumber (handleRepeatStartInVoiceClone elt)
  | _ => undefined
  end.

Definition visitEnd_msrRepeat (elt : loc) : M unit :=
  o <~ read elt ;;
  match o with
  | msrRepeat inputLineNumber =>
      on_current_voice_clone inputLineNumber handleRepeatEndInVoiceClone
  | _ => undefined
  end.

Definition visitStart_msrRepeatCommonPart (elt : loc) : M unit :=
  o <~ read elt ;;
  match o with
  | msrRepeatCommonPart inputLineNumber =>
      on_current_voice_clone inputLineNumber handleRepeatCommonPartStartInVoiceClone
  | _ => undefined
  end.

Definition visitEnd_msrRepeatCommonPart (elt : loc) : M unit :=
  o <~ read elt ;;
  match o with
  | msrRepeatCommonPart inputLineNumber =>
      on_current_voice_clone inputLineNumber handleRepeatCommonPartEndInVoiceClone
  | _ => undefined
  end.

Definition visitStart_msrRepeatEnding (elt : loc) : M unit :=
  o <~ read elt ;;
  match o with
  | msrRepeatEnding inputLineNumber number kind =>
      on_current_voice_clone inputLineNumber
        (handleRepeatEndingStartInVoiceClone kind number)
  | _ => undefined
  end.

Definition visitEnd_msrRepeatEnding (elt : loc) : M unit :=
  o <~ read elt ;;
  match o with
  | msrRepeatEnding inputLineNumber number kind =>
      on_current_voice_clone inputLineNumber
        (handleRepeatEndingEndInVoiceClone number kind)
  | _ => undefined
  end.








(** The visits of a run of tuplets, in order. *)
Inductive tupletVisit : Type :=
| TupletStart (elt : loc)
| TupletEnd (elt : loc).

Definition visit_tuplet (e : tupletVisit) : M unit :=
  match e with
  | TupletStart elt => visitStart_msrTuplet elt
  | TupletEnd elt => visitEnd_msrTuplet elt
  end.

Fixpoint visit_tuplets (es : list tupletVisit) : M unit :=
  match es with
  | [] => ret tt
  | e :: es' => visit_tuplet e ;;; visit_tuplets es'
  end.

(** The visits of the repeats of a voice, in order. *)
Inductive repeatVisit : Type :=
| RepeatStart (elt : loc)
| RepeatCommonPartStart (elt : loc)
| RepeatCommonPartEnd (elt : loc)
| RepeatEndingStart (elt : loc)
| RepeatEndingEnd (elt : loc)
| RepeatEnd (elt : loc).

Definition visit_repeat (e : repeatVisit) : M unit :=
  match e with
  | RepeatStart elt => visitStart_msrRepeat elt
  | RepeatCommonPartStart elt => visitStart_msrRepeatCommonPart elt
  | RepeatCommonPartEnd elt => visitEnd_msrRepeatCommonPart elt
  | RepeatEndingStart elt => visitStart_msrRepeatEnding elt
  | RepeatEndingEnd elt => visitEnd_msrRepeatEnding elt
  | RepeatEnd elt => visitEnd_msrRepeat elt
  end.




Fixpoint visit_repeats (es : list repeatVisit) : M unit :=
  match es with
  | [] => ret tt
  | e :: es' => visit_repeat e ;;; visit_repeats es'
  end.

End Lpsr.

(** ** The visitor dispatch of [msrHarmony] *)

(** [visitor<S_msrHarmony>]: the two handlers a visitor of harmonies has. A
    handler works on the state [W] of the translation and may stop it. *)
Class visitor (W E : Type) : Type := {
  visitStart : E -> W -> outcome W unit;
  visitEnd : E -> W -> outcome W unit
}.

(** [basevisitor]: what a visitor is known as when it reaches [acceptIn].
    [dynamic_cast] to the typed interface gives the handlers exactly when
    the class of the visitor implements it. *)
Record basevisitor (W E : Type) : Type := mkBaseVisitor {
  dynamic_cast : option (visitor W E)
}.

Arguments dynamic_cast {W E} _.
Arguments mkBaseVisitor {W E} _.

(** What a call of [acceptIn] or [acceptOut] did: the lines it wrote to the
    log, the handler calls it made, and the result. *)
Inductive handlerCall (E : Type) : Type :=
| CallVisitStart (elem : E)
| CallVisitEnd (elem : E).

Arguments CallVisitStart {E} elem.
Arguments CallVisitEnd {E} elem.

Record dispatch (W E : Type) : Type := mkDispatch {
  logged : list string;
  calls : list (handlerCall E);
  result : outcome W unit
}.

Arguments mkDispatch {W E} _ _ _.
Arguments logged {W E} _.
Arguments calls {W E} _.
Arguments result {W E} _.

Module MsrHarmony.

Section Accept.

Context {W E : Type}.

(** [gMsrOptions->fTraceMsrVisitors]. *)
Variable fTraceMsrVisitors : bool.

Definition trace (line : string) : list string :=
  if fTraceMsrVisitors then [line] else [].

(** [msrHarmony::acceptIn (basevisitor* v)], [this] being [elem]. *)
Definition acceptIn (elem : E) (v : basevisitor W E) (w : W) : dispatch W E :=
  let log := trace "% ==> msrHarmony::acceptIn ()" in
  match dynamic_cast v with
  | Some p =>
      mkDispatch (log ++ trace "% ==> Launching msrHarmony::visitStart ()")
        [CallVisitStart elem] (@visitStart W E p elem w)
  | None => mkDispatch log [] (Done tt w)
  end.

(** [msrHarmony::acceptOut (basevisitor* v)]. *)
Definition acceptOut (elem : E) (v : basevisitor W E) (w : W) : dispatch W E :=
  let log := trace "% ==> msrHarmony::acceptOut ()" in
  match dynamic_cast v with
  | Some p =>
      mkDispatch (log ++ trace "% ==> Launching msrHarmony::visitEnd ()")
        [CallVisitEnd elem] (@visitEnd W E p elem w)
  | None => mkDispatch log [] (Done tt w)
  end.

End Accept.

End MsrHarmony.

(** ** The properties in the words of the specification *)

Module Spec.

Fixpoint string_map (f : ascii -> ascii) (s : string) : string :=
  match s with
  | EmptyString => EmptyString
  | String a s' => String (f a) (string_map f s')
  end.

(** The title "with every double-quote character replaced by a single
    quote"; the double quote is character 34. *)
Definition single_quoted (title : string) : string :=
  string_map (fun a => if Ascii.eqb a (ascii_of_nat 34) then "'"%char else a) title.

(** The creators "whose type attribute is Composer or composer". *)
Definition composers (creators : list xmlelement) : list xmlelement :=
  filter (fun c => attr_type c = "Composer"%string \/ attr_type c = "composer"%string)
    creators.

(** What a header holds for the output: "a title tag whose text is the
    title with every double-quote character replaced by a single quote" if
    it has a title, and "one composer tag (with parameter dy=4hs) per stored
    creator whose type attribute is Composer or composer". *)
Definition header_elements (header : scoreHeader) : list guidoelement :=
  match fTitle header with
  | Some t => [guidotag "title" [param_str (single_quoted (getValue t)) true]]
  | None => []
  end
  ++ map (fun c => guidotag "composer"
                     [param_str (getValue c) true; param_str "dy=4hs" false])
       (composers (fCreators header)).

Definition add_all (es : list guidoelement) (v : xml2guidovisitor) : xml2guidovisitor :=
  fold_left (fun v e => Guido.add e v) es v.



(** The voice is in an ending. *)
Definition is_in_ending (s : repeatState) : Prop :=
  exists (number : string) (kind : msrRepeatEndingKind), s = InEnding number kind.

(** The translator with the voice at [voice] replaced. *)
Definition put_voice (voice : loc) (v : msrVoiceData) (t : msr2LpsrTranslator)
  : msr2LpsrTranslator :=
  Lpsr.set_store (<[voice := msrVoice v]> (msrStore t)) t.

(** The repeat state machine, in the words of the specification. What a
    voice is in: one of the states "Outside, InCommonPart, InEnding(number,
    kind)", the wrapper that is open, and the wrappers closed so far. *)
Record repeatMachine : Type := mkMachine {
  machineState : repeatState;
  machineOpen : option repeatWrapper;
  machineClosed : list repeatWrapper
}.

(** What the visits of the repeats of a voice tell the machine, each with
    the input line of the element visited. *)
Inductive repeatEvent : Type :=
| StartOfRepeat (line : Z) (repeat : loc)
| StartOfCommonPart (line : Z)
| EndOfCommonPart (line : Z)
| StartOfEnding (line : Z) (number : string) (kind : msrRepeatEndingKind)
| EndOfEnding (line : Z)
| EndOfRepeat (line : Z).

Definition event_line (e : repeatEvent) : Z :=
  match e with
  | StartOfRepeat line _ | StartOfCommonPart line | EndOfCommonPart line
  | StartOfEnding line _ _ | EndOfEnding line | EndOfRepeat line => line
  end.

(** "RepeatStart: Outside to InCommonPart (opens wrapper).
    RepeatCommonPartStart/End bound the common section.
    RepeatEndingStart/End transition into/out of InEnding, recording ending
    number/kind. RepeatEnd: closes wrapper, to Outside. Malformed nesting
    is fatal", [None] here. The ending left is recorded in the open wrapper
    and the voice is in the common part again, where a further ending or
    the end of the repeat can follow. *)
Definition repeat_transition (m : repeatMachine) (e : repeatEvent) : option repeatMachine :=
  match e, machineState m, machineOpen m with
  | StartOfRepeat _ repeat, Outside, _ =>
      Some (mkMachine InCommonPart (Some (mkWrapper repeat [])) (machineClosed m))
  | StartOfCommonPart _, InCommonPart, _ => Some m
  | EndOfCommonPart _, InCommonPart, _ => Some m
  | StartOfEnding _ number kind, InCommonPart, _ =>
      Some (mkMachine (InEnding number kind) (machineOpen m) (machineClosed m))
  | EndOfEnding _, InEnding number kind, Some w =>
      Some (mkMachine InCommonPart
              (Some (mkWrapper (wrapperRepeat w) (wrapperEndings w ++ [(number, kind)])))
              (machineClosed m))
  | EndOfRepeat _, InCommonPart, Some w =>
      Some (mkMachine Outside None (machineClosed m ++ [w]))
  | _, _, _ => None
  end.

(** The machine after the events, or the input line of the first event it
    does not accept. *)
Fixpoint run_machine (m : repeatMachine) (events : list repeatEvent) : repeatMachine + Z :=
  match events with
  | [] => inl m
  | e :: rest =>
      match repeat_transition m e with
      | Some m' => run_machine m' rest
      | None => inr (event_line e)
      end
  end.

(** The event a repeat visit stands for, read from the element visited:
    its input line, and for an ending its number and kind. *)
Definition event_of (σ : gmap loc msrElement) (visit : Lpsr.repeatVisit)
  : option repeatEvent :=
  match visit with
  | Lpsr.RepeatStart elt =>
      match σ !! elt with
      | Some (msrRepeat line) => Some (StartOfRepeat line elt)
      | _ => None
      end
  | Lpsr.RepeatEnd elt =>
      match σ !! elt with
      | Some (msrRepeat line) => Some (EndOfRepeat line)
      | _ => None
      end
  | Lpsr.RepeatCommonPartStart elt =>
      match σ !! elt with
      | Some (msrRepeatCommonPart line) => Some (StartOfCommonPart line)
      | _ => None
      end
  | Lpsr.RepeatCommonPartEnd elt =>
      match σ !! elt with
      | Some (msrRepeatCommonPart line) => Some (EndOfCommonPart line)
      | _ => None
      end
  | Lpsr.RepeatEndingStart elt =>
      match σ !! elt with
      | Some (msrRepeatEnding line number kind) => Some (StartOfEnding line number kind)
      | _ => None
      end
  | Lpsr.RepeatEndingEnd elt =>
      match σ !! elt with
      | Some (msrRepeatEnding line _ _) => Some (EndOfEnding line)
      | _ => None
      end
  end.

Fixpoint events_of (σ : gmap loc msrElement) (visits : list Lpsr.repeatVisit)
  : option (list repeatEvent) :=
  match visits with
  | [] => Some []
  | visit :: rest =>
      match event_of σ visit, events_of σ rest with
      | Some e, Some es => Some (e :: es)
      | _, _ => None
      end
  end.

(** What the voice at [voice] is in, read from the store. *)
Definition repeat_machine_of (voice : loc) (t : msr2LpsrTranslator) : option repeatMachine :=
  match msrStore t !! voice with
  | Some (msrVoice v) => Some (mkMachine (voiceRepeatState v) (voiceOpenRepeat v) (voiceRepeats v))
  | _ => None
  end.

(** A wrapper is open exactly when the machine is not outside of a
    repeat. *)
Definition wrapper_open_inside (m : repeatMachine) : Prop :=
  machineState m = Outside <-> machineOpen m = None.

(** [t'] is [t] but for the repeat state and the wrappers of the voice at
    [voice]: every other object of the store, every other attribute of that
    voice and every field of the translator is the same. *)
Definition only_repeats_differ (voice : loc) (t t' : msr2LpsrTranslator) : Prop :=
  (forall l : loc, l <> voice -> msrStore t' !! l = msrStore t !! l)
  /\ (exists v v' : msrVoiceData,
        msrStore t !! voice = Some (msrVoice v)
        /\ msrStore t' !! voice = Some (msrVoice v')
        /\ (voiceName v', voiceKind v', voiceMusicHasBeenInsertedInVoice v',
            voiceElements v', voiceStaffUplink v')
           = (voiceName v, voiceKind v, voiceMusicHasBeenInsertedInVoice v,
              voiceElements v, voiceStaffUplink v))
  /\ (fVisitedMsrScore t', fCurrentMsrScoreClone t', fLpsrScore t', fPartGroupsStack t',
      fTupletClonesStack t', current t', onGoing t')
     = (fVisitedMsrScore t, fCurrentMsrScoreClone t, fLpsrScore t, fPartGroupsStack t,
        fTupletClonesStack t, current t, onGoing t).

(** Balanced runs of tuplet visits: the visits the browser makes for a
    sequence of tuplets, each with its nested tuplets between its start and
    its end. *)
Inductive balanced : list Lpsr.tupletVisit -> Prop :=
| balanced_nil : balanced []
| balanced_tuplet (elt : loc) (inner rest : list Lpsr.tupletVisit) :
    balanced inner -> balanced rest ->
    balanced (Lpsr.TupletStart elt :: inner ++ Lpsr.TupletEnd elt :: rest).

Definition is_tuplet_at (σ : gmap loc msrElement) (l : loc) : Prop :=
  exists (line : Z) (shape : msrTupletLineShapeKind) (es : list loc),
    σ !! l = Some (msrTuplet line shape es).

Definition is_voice_at (σ : gmap loc msrElement) (l : loc) : Prop :=
  exists v : msrVoiceData, σ !! l = Some (msrVoice v).

(** What a run of tuplet visits keeps: the tuplets and the voices of the
    store stay tuplets and voices. *)
Definition kinds_kept (σ σ' : gmap loc msrElement) : Prop :=
  (forall l : loc, is_tuplet_at σ l -> is_tuplet_at σ' l)
  /\ (forall l : loc, is_voice_at σ l -> is_voice_at σ' l).

(** The tuplets a run starts are tuplets of the store. *)
Definition tuplets_known (w : list Lpsr.tupletVisit) (σ : gmap loc msrElement) : Prop :=
  Forall (fun e => match e with
                   | Lpsr.TupletStart elt => is_tuplet_at σ elt
                   | Lpsr.TupletEnd _ => True
                   end) w.

(** The translator is inside a voice: it has an LPSR score and a current
    voice clone, and its tuplet stack holds tuplets. *)
Definition inside_a_voice (t : msr2LpsrTranslator) : Prop :=
  fLpsrScore t <> None
  /\ (exists voice : loc,
        fCurrentVoiceClone (current t) = Some voice /\ is_voice_at (msrStore t) voice)
  /\ Forall (is_tuplet_at (msrStore t)) (fTupletClonesStack t).




(** The stack after the elements [es] have been added to its innermost
    open element. *)
Definition grow (es : list guidoelement) (stack : list guidoelement) : list guidoelement :=
  match stack with
  | top :: rest => fold_left (fun t e => add_element e t) es top :: rest
  | [] => []
  end.

(** The staff sequences of a part: a staff synthesized without voice, or
    the sequence of a voice, with the staff index in its staff tag. *)
Inductive staffEntry : Type :=
| SynthStaff (index : Z)
| VoiceStaff (index : Z).

Definition entry_index (e : staffEntry) : Z :=
  match e with
  | SynthStaff i | VoiceStaff i => i
  end.

Fixpoint voice_indices (plan : list staffEntry) : list Z :=
  match plan with
  | [] => []
  | SynthStaff _ :: plan' => voice_indices plan'
  | VoiceStaff i :: plan' => i :: voice_indices plan'
  end.

(** The tags [createStaff] puts after the staff tag. *)
Definition is_attribute_tag (e : guidoelement) : Prop :=
  exists (name : string) (params : list guidoparam),
    e = guidotag name params /\ In name ["clef"; "key"; "meter"]%string.

(** A synthesized staff is a sequence opened with its staff tag and holding
    clef, key and meter tags only; a voice sequence is opened with its staff
    tag and the tag that hides tied accidentals, and closed with the staff
    tag again and the end bar. *)
Definition is_staff_sequence (entry : staffEntry) (e : guidoelement) : Prop :=
  match entry with
  | SynthStaff i =>
      exists es : list guidoelement,
        e = guidoseq (Guido.staff_tag i :: es) /\ Forall is_attribute_tag es
  | VoiceStaff i =>
      exists es : list guidoelement,
        e = guidoseq (Guido.staff_tag i :: Guido.auto_hide_tag :: es
                        ++ [Guido.staff_tag i; guidotag "endBar" []])
  end.

(** The main staves of the voices come in order, from [prev] on. *)
Fixpoint non_decreasing_from (prev : Z) (ms : list Z) : Prop :=
  match ms with
  | [] => True
  | m :: ms' => prev <= m /\ non_decreasing_from m ms'
  end.

(** The sequences of the voices whose main staves are [ms], after staff
    [prev] of the part: each staff between two main staves is synthesized
    first. *)
Fixpoint voices_plan (off prev : Z) (ms : list Z) : list staffEntry :=
  match ms with
  | [] => []
  | m :: ms' =>
      map SynthStaff (seqZ (off + prev + 1) (m - prev - 1))
        ++ VoiceStaff (off + m) :: voices_plan off m ms'
  end.

(** The sequences of a part with [count] staves: those of the voices, then
    the staves after the last main staff. *)
Definition staff_plan (off : Z) (ms : list Z) (count : Z) : list staffEntry :=
  voices_plan off 0 ms
    ++ map SynthStaff (seqZ (off + List.last ms 0 + 1) (count - List.last ms 0)).

(** [v'] is [v] with elements that satisfy [P] added to the innermost open
    element, the staff index and the staff offset being the same. *)
Definition grows (P : guidoelement -> Prop) (v v' : xml2guidovisitor) : Prop :=
  fCurrentStaffIndex v' = fCurrentStaffIndex v
  /\ fCurrentPartStaffOffset v' = fCurrentPartStaffOffset v
  /\ exists es : list guidoelement, Forall P es /\ fStack v' = grow es (fStack v).

(** [v'] is [v] with the staff sequences of [plan] added to the innermost
    open element, the staff offset being the same. *)
Definition builds (plan : list staffEntry) (v v' : xml2guidovisitor) : Prop :=
  fCurrentPartStaffOffset v' = fCurrentPartStaffOffset v
  /\ exists seqs : list guidoelement,
       Forall2 is_staff_sequence plan seqs /\ fStack v' = grow seqs (fStack v).

(** The staff index in the staff tag that opens a sequence, and the staff
    indices of the sequences in the innermost open element. *)
Definition staff_of (e : guidoelement) : option Z :=
  match e with
  | guidoseq (guidotag name [param_int i _] :: _) =>
      if String.eqb name "staff" then Some i else None
  | _ => None
  end.

Definition opened_staffs (v : xml2guidovisitor) : list (option Z) :=
  map staff_of (Guido.current_elements v).

(** The part is not filtered out by the part number option. *)
Definition part_selected (v : xml2guidovisitor) (elt : part_elt) : Prop :=
  fPartNum v = 0 \/ part_id elt = ("P" +:+ Cxx.string_of_Z (fPartNum v))%string.

Fixpoint whitespace_free (s : string) : bool :=
  match s with
  | EmptyString => true
  | String a s' => (negb (Cxx.isspace a) && whitespace_free s')%bool
  end.

(** The pairs as "numerator/denominator", joined by "+". *)
Fixpoint join_pairs (pairs : list (string * string)) : string :=
  match pairs with
  | [] => EmptyString
  | [(n, d)] => n +:+ "/" +:+ d
  | (n, d) :: rest => n +:+ "/" +:+ d +:+ "+" +:+ join_pairs rest
  end.

(** The sum of the pairs, from zero. *)
Definition sum_pairs (pairs : list (string * string)) : rational :=
  fold_left (fun acc p => Rational.plus_assign acc (Guido.pair_rational (Some p)))
    pairs Rational.zero.

End Spec.

(** ** Sample inputs *)

Module Sample.

(** A visitor as [visitStart (S_score_partwise&)] leaves it: the score
    chord is open, no part has been seen. *)
Definition visitor0 : xml2guidovisitor :=
  mkVisitor [guidochord []] true 0 0 0 0 0 0 (mkScoreHeader None []) ∅ [] "" ∅ ∅ [].

(** The composite time signature 3/8 + 2/8, with no symbol. *)
Definition time_3_8_2_8 : time_elt :=
  mkTime EmptyString EmptyString false [("3", "8"); ("2", "8")]%string.

(** A part visitor that adds one tag to the voice sequence, holding the
    time signature it was initialised with, and reports that time signature
    unchanged; no part group, no lonely bar format. *)
Definition probe : PartCollaborators :=
  {| xmlpart2guido_browse := fun _ _ _ _ _ currentTimeSign =>
       [guidotag "initialised with"
          [param_int (getNumerator currentTimeSign) false;
           param_int (getDenominator currentTimeSign) false]];
     xmlpart2guido_getTimeSign := fun _ _ _ _ _ currentTimeSign => currentTimeSign;
     find_first_of_partID_inGroup := fun _ _ => None;
     checkLonelyBarFormat := fun _ => false |}.

(** A part visitor that adds nothing. *)
Definition quiet : PartCollaborators :=
  {| xmlpart2guido_browse := fun _ _ _ _ _ _ => [];
     xmlpart2guido_getTimeSign := fun _ _ _ _ _ currentTimeSign => currentTimeSign;
     find_first_of_partID_inGroup := fun _ _ => None;
     checkLonelyBarFormat := fun _ => false |}.

(** A part without clef, key or time, and the summary of a part with
    [count] staves whose voices 1, 2, ... have the main staves [ms]. *)
Definition bare_part : part_elt := mkPart "P1" 0 [] [] [].

Definition summary_of (ms : list Z) (count : Z) : partsummary :=
  mkSummary (seqZ 1 (Z.of_nat (length ms)))
    (fun voice => nth (Z.to_nat (voice - 1)) ms 0) count.

(** A part with one voice, voice 1, whose main staff is staff 2 of 2, and
    the time signature 3/8 + 2/8. *)
Definition part_on_staff_2 : part_elt :=
  mkPart "P1" 0 [] [] [time_3_8_2_8].

Definition summary_on_staff_2 : partsummary :=
  mkSummary [1] (fun _ => 2) 2.

(** An element with no position attribute: the four lookups give their
    default, zero. *)
Definition no_position : position_elt :=
  mkPosition (F32.of_Z 0) (F32.of_Z 0) (F32.of_Z 0) (F32.of_Z 0).

(** An element with [default-x = 10] and nothing else. *)
Definition ten_tenths_right : position_elt :=
  mkPosition (F32.of_Z 10) (F32.of_Z 0) (F32.of_Z 0) (F32.of_Z 0).

(** Notes are rendered by their input line number. *)
Definition by_line : NoteRendering :=
  {| asString := fun n => Cxx.string_of_Z (noteInputLineNumber n);
     asShortString := fun n => Cxx.string_of_Z (noteInputLineNumber n) |}.








(** A voice clone at address 3, outside of any repeat, a repeat at address
    1, its second, hooked ending at address 2 and its common part at
    address 4. *)
Definition translator_before_repeat : msr2LpsrTranslator :=
  mkTranslator
    (<[4%nat := msrRepeatCommonPart 5]>
       (<[3%nat := msrVoice (mkVoice "P1_S1_V1" kRegularVoice false [] None Outside None [])]>
          (<[2%nat := msrRepeatEnding 12 "2" kHookedEnding]>
             (<[1%nat := msrRepeat 5]> ∅))))
    None None None [] []
    (mkClones None None (Some 3%nat) None None None None None)
    (mkFlags false false false false false).

(** Two tuplets of the MSR, at addresses 1 and 2, a page break at address
    4, and a translator inside the voice clone at address 3. *)
Definition translator_in_voice : msr2LpsrTranslator :=
  mkTranslator
    (<[4%nat := msrPageBreak 30]>
       (<[3%nat := msrVoice (mkVoice "P1_S1_V1" kRegularVoice false [] None Outside None [])]>
          (<[2%nat := msrTuplet 21 kTupletLineShapeStraight []]>
             (<[1%nat := msrTuplet 20 kTupletLineShapeCurved [2%nat]]> ∅))))
    None (Some 0%nat) (Some (mkLpsrScore 0%nat [3%nat] false false)) [] []
    (mkClones None None (Some 3%nat) None None None None None)
    (mkFlags false false false false false).






End Sample.

(* ===================================================================== *)
(** * Part I, continued: further functions of the sources *)
(* ===================================================================== *)

(** ** The Guido visitor: header elements, staves and clefs of the parts *)

Module GuidoScore.

Import Guido.

Definition with_staves_in_part (m : gmap string Z) (v : xml2guidovisitor)
  : xml2guidovisitor :=
  with_current_part (currentPart v) m (fPartsAvailable v) v.

(** [visitStart (S_movement_title& elt)]: [fHeader.fTitle = elt]. *)
Definition visitStart_movement_title (elt : xmlelement) (v : xml2guidovisitor)
  : xml2guidovisitor :=
  with_header (mkScoreHeader (Some elt) (fCreators (fHeader v))) v.

(** [visitStart (S_creator& elt)]: [fHeader.fCreators.push_back (elt)]. *)
Definition visitStart_creator (elt : xmlelement) (v : xml2guidovisitor) : xml2guidovisitor :=
  with_header (mkScoreHeader (fTitle (fHeader v)) (fCreators (fHeader v) ++ [elt])) v.

(** [visitStart (S_staves& elt)]: [stavesInPart[currentPart]] becomes the
    number the element holds, [staves]. *)
Definition visitStart_staves (staves : Z) (v : xml2guidovisitor) : xml2guidovisitor :=
  with_staves_in_part (<[currentPart v := staves]> (stavesInPart v)) v.

(** [getTotalStaves ()]: the sum of the staves of the parts. The sum is an
    [int] in the source; the model is exact, as the source is as long as
    the sum stays in the range of [int]. *)
Definition getTotalStaves (v : xml2guidovisitor) : Z :=
  map_fold (fun (_ : string) (staves total : Z) => total + staves) 0 (stavesInPart v).

(** [getPartsAvailable ()]. *)
Definition getPartsAvailable (v : xml2guidovisitor) : Z := fPartsAvailable v.

(** The clefs recorded for a part. *)
Definition clefs_of (part : string) (v : xml2guidovisitor) : gset string :=
  default ∅ (clefsInPart v !! part).

(** What the translation of a part has no reason to change: the options of
    the visitor and what it has recorded about the parts. *)
Definition bookkeeping (v : xml2guidovisitor)
  : bool * Z * Z * Z * string * gmap string Z * gmap string (gset string) :=
  (fGenerateBars v, fPartNum v, fBeginMeasure v, fPartsAvailable v, currentPart v,
   stavesInPart v, clefsInPart v).

(** The tags [flushPartHeader] writes for a part name. *)
Definition part_header_elements (header : partHeader) : list guidoelement :=
  if (negb (ph_visited header) && negb (Nat.eqb (String.length (fPartName header)) 0))%bool
  then [guidotag "auto" [param_str ("autoInstrPos=" +:+ quoted "on") false];
        guidotag "instr" [param_str (fPartName header) true]]
  else [].

(** The tags [flushPartGroup] writes for a group that spans the staves
    from [first] to [last]. *)
Definition part_group_elements (g : partGroup) (first last : Z) : list guidoelement :=
  (if bracket g
   then [guidotag "accol" [param_str ("id=1, " +:+ range_text first last) false]]
   else [])
  ++ (if barlineGrouping g
      then [guidotag "barFormat"
              [param_str ("style= " +:+ quoted "system" +:+ ", " +:+ range_text first last)
                 false]]
      else []).

(** The texts [visitEnd (S_clef&)] can record. *)
Definition clef_names : list string :=
  ["g2"; "g-8"; "g+8"; "f4"; "f-8"; "f+8"; "alto"; "tenor"; "unknown"]%string.

End GuidoScore.

(** ** The Guido visitor: the other position functions *)

Module GuidoAttributes.

Import GuidoPosition.

(** [addPosition (elt, tag, yoffset)], the overload without an x offset. *)
Definition addPosition_yoffset (elt : position_elt) (tag : list position_param)
    (yoffset : spec_float) : list position_param :=
  let posx := F32.add (default_x elt) (relative_x elt) in
  let tag :=
    if F32.to_bool posx then
      let posx := to_half_spaces posx in
      tag ++ [mkPosParam "dx" posx "hs"]
    else tag in
  let posy := F32.add (default_y elt) (relative_y elt) in
  if F32.to_bool posy then
    let posy := to_half_spaces posy in
    let posy := F32.add posy yoffset in
    tag ++ [mkPosParam "dy" posy "hs"]
  else tag.

(** [addRelativeX (elt, tag, xoffset)]: [if (posx == 0.0) return;] compares
    with zero, which a zero of either sign equals and a NaN does not. *)
Definition addRelativeX (elt : position_elt) (tag : list position_param)
    (xoffset : spec_float) : list position_param :=
  let posx := relative_x elt in
  if F32.is_zero posx then tag
  else
    let posx := to_half_spaces posx in
    let posx := F32.add posx xoffset in
    tag ++ [mkPosParam "dx" posx "hs"].

(** The names of the parameters of a tag, in order. *)
Definition param_names (tag : list position_param) : list string := map pp_name tag.

End GuidoAttributes.

(** ** Harmony degrees *)

Inductive msrHarmonyDegreeTypeKind : Type :=
| kHarmonyDegreeTypeAdd
| kHarmonyDegreeTypeAlter
| kHarmonyDegreeTypeSubstract.

(** [msrHarmonyDegree]; the alteration kinds are an enumeration of a file
    that is not part of the sources at hand, [A] here. *)
Record msrHarmonyDegree (A : Type) : Type := mkHarmonyDegree {
  degreeInputLineNumber : Z;
  fHarmonyDegreeValue : Z;
  fHarmonyDegreeAlterationKind : A;
  fHarmonyDegreeTypeKind : msrHarmonyDegreeTypeKind
}.

Arguments mkHarmonyDegree {A} _ _ _ _.
Arguments degreeInputLineNumber {A} _.
Arguments fHarmonyDegreeValue {A} _.
Arguments fHarmonyDegreeAlterationKind {A} _.
Arguments fHarmonyDegreeTypeKind {A} _.

Module MsrHarmonyDegree.

Section Degree.

Context {A : Type}.

(** [msrHarmonyDegree::harmonyDegreeAsSemitones ()]. *)
Definition harmonyDegreeAsSemitones (d : msrHarmonyDegree A) : Z :=
  match fHarmonyDegreeValue d with
  | 0 => 0
  | 1 => 0
  | 2 => 0
  | 3 => 0
  | 4 => 0
  | 5 => 0
  | 6 => 0
  | 7 => 0
  | 8 => 0
  | 9 => 0
  | 10 => 0
  | 11 => 0
  | 12 => 0
  | 13 => 0
  | _ => -1
  end.

End Degree.

End MsrHarmonyDegree.

(** ** Browsing a harmony *)

(** A visitor that reaches a harmony: it is cast once to the visitors of
    harmonies and once to the visitors of harmony degrees. *)
Record harmonyBaseVisitor (W H D : Type) : Type := mkHarmonyBaseVisitor {
  as_harmony_visitor : basevisitor W H;
  as_degree_visitor : basevisitor W D
}.

Arguments mkHarmonyBaseVisitor {W H D} _ _.
Arguments as_harmony_visitor {W H D} _.
Arguments as_degree_visitor {W H D} _.

(** The handler calls of a traversal tell the harmony from its degrees. *)
Inductive harmonyCall (H D : Type) : Type :=
| OnHarmony (call : handlerCall H)
| OnDegree (call : handlerCall D).

Arguments OnHarmony {H D} call.
Arguments OnDegree {H D} call.

Module MsrHarmonyBrowse.

Section Browse.

Context {W H D : Type}.

(** [gMsrOptions->fTraceMsrVisitors]. *)
Variable fTraceMsrVisitors : bool.

(** The degrees of a harmony, [fHarmonyDegreesList]. *)
Variable fHarmonyDegreesList : H -> list D.

(** A step of a traversal: the lines it logs, the handler calls it makes
    and its result. *)
Definition traversal : Type := W -> list string * list (harmonyCall H D) * outcome W unit.

Definition skip : traversal := fun w => ([], [], Done tt w).

(** One step after the other; a step that does not return ends the
    traversal. *)
Definition and_then (a b : traversal) : traversal :=
  fun w =>
    match a w with
    | (log, calls, Done _ w') =>
        let '(log', calls', r) := b w' in (log ++ log', calls ++ calls', r)
    | (log, calls, Fatal line msg w') => (log, calls, Fatal line msg w')
    | (log, calls, Undefined) => (log, calls, Undefined)
    end.

Definition of_dispatch {E : Type} (tag : handlerCall E -> harmonyCall H D)
    (d : dispatch W E) : list string * list (harmonyCall H D) * outcome W unit :=
  (logged d, map tag (calls d), result d).

Definition trace (line : string) : list string :=
  if fTraceMsrVisitors then [line] else [].

(** [msrHarmonyDegree::acceptIn (basevisitor* v)]. *)
Definition degree_acceptIn (elem : D) (v : basevisitor W D) (w : W) : dispatch W D :=
  let log := trace "% ==> msrHarmonyDegree::acceptIn ()" in
  match dynamic_cast v with
  | Some p =>
      mkDispatch (log ++ trace "% ==> Launching msrHarmonyDegree::visitStart ()")
        [CallVisitStart elem] (@visitStart W D p elem w)
  | None => mkDispatch log [] (Done tt w)
  end.

(** [msrHarmonyDegree::acceptOut (basevisitor* v)]. *)
Definition degree_acceptOut (elem : D) (v : basevisitor W D) (w : W) : dispatch W D :=
  let log := trace "% ==> msrHarmonyDegree::acceptOut ()" in
  match dynamic_cast v with
  | Some p =>
      mkDispatch (log ++ trace "% ==> Launching msrHarmonyDegree::visitEnd ()")
        [CallVisitEnd elem] (@visitEnd W D p elem w)
  | None => mkDispatch log [] (Done tt w)
  end.

(** [msrHarmonyDegree::browseData (basevisitor* v)], which has an empty
    body. *)
Definition degree_browseData (elem : D) (v : harmonyBaseVisitor W H D) : traversal := skip.

(** Modelled from the spec: [msrBrowser<msrHarmonyDegree>::browse], of a
    template that is not part of the sources at hand. "browse(node) calls
    node.acceptIn(visitor), then recursively browses children in stored
    order, then node.acceptOut(visitor)." *)
Definition browse_degree (elem : D) (v : harmonyBaseVisitor W H D) : traversal :=
  and_then (fun w => of_dispatch OnDegree (degree_acceptIn elem (as_degree_visitor v) w))
    (and_then (degree_browseData elem v)
       (fun w => of_dispatch OnDegree (degree_acceptOut elem (as_degree_visitor v) w))).

(** [msrHarmony::browseData (basevisitor* v)]: the loop over the degrees. *)
Fixpoint browse_degrees (degrees : list D) (v : harmonyBaseVisitor W H D) : traversal :=
  match degrees with
  | [] => skip
  | d :: rest => and_then (browse_degree d v) (browse_degrees rest v)
  end.

Definition browseData (elem : H) (v : harmonyBaseVisitor W H D) : traversal :=
  if Nat.ltb 0 (length (fHarmonyDegreesList elem))
  then browse_degrees (fHarmonyDegreesList elem) v
  else skip.

(** Modelled from the spec: [msrBrowser<msrHarmony>::browse], as above. *)
Definition browse (elem : H) (v : harmonyBaseVisitor W H D) : traversal :=
  and_then
    (fun w => of_dispatch OnHarmony
                (MsrHarmony.acceptIn fTraceMsrVisitors elem (as_harmony_visitor v) w))
    (and_then (browseData elem v)
       (fun w => of_dispatch OnHarmony
                   (MsrHarmony.acceptOut fTraceMsrVisitors elem (as_harmony_visitor v) w))).

(** The calls a kind of element gets when the visitor handles it. *)
Definition handled {E : Type} (v : basevisitor W E) (l : list (harmonyCall H D))
  : list (harmonyCall H D) :=
  match dynamic_cast v with
  | Some _ => l
  | None => []
  end.

(** The calls of a complete traversal of a harmony: its start, the start
    and end of each degree in stored order, its end. *)
Definition paired_calls (elem : H) (v : harmonyBaseVisitor W H D)
  : list (harmonyCall H D) :=
  handled (as_harmony_visitor v) [OnHarmony (CallVisitStart elem)]
    ++ flat_map (fun d => handled (as_degree_visitor v)
                            [OnDegree (CallVisitStart d); OnDegree (CallVisitEnd d)])
         (fHarmonyDegreesList elem)
    ++ handled (as_harmony_visitor v) [OnHarmony (CallVisitEnd elem)].

(** The calls and the result of a traversal from a state. *)
Definition calls_of (r : list string * list (harmonyCall H D) * outcome W unit)
  : list (harmonyCall H D) := snd (fst r).

Definition result_of (r : list string * list (harmonyCall H D) * outcome W unit)
  : outcome W unit := snd r.

Definition returns (r : list string * list (harmonyCall H D) * outcome W unit) : Prop :=
  exists w' : W, result_of r = Done tt w'.

(** A traversal makes the calls [full] in order, all of them if it
    returns. *)
Definition follows (t : traversal) (full : list (harmonyCall H D)) : Prop :=
  forall w : W,
    calls_of (t w) `prefix_of` full /\ (returns (t w) -> calls_of (t w) = full).

End Browse.

End MsrHarmonyBrowse.

(** ** Harmonies: the constructor and the clones *)

(** [msrHarmony]. The pitches [P], the harmony kinds [K], the tuplet
    factors [F] and the harmony degrees [D] are types of files that are not
    part of the sources at hand. The position in the measure and the note
    uplink, which the constructor leaves to the base class, are not part of
    this record. *)
Record msrHarmony (P K F D : Type) : Type := mkHarmony {
  harmonyInputLineNumber : Z;
  fHarmonyVoiceUpLink : option loc;
  fHarmonyRootQuarterTonesPitchKind : P;
  fHarmonyKind : K;
  fHarmonyKindText : string;
  fHarmonyInversion : Z;
  fHarmonyBassQuarterTonesPitchKind : P;
  fSoundingWholeNotes : rational;
  fHarmonyDisplayWholeNotes : rational;
  fHarmonyStaffNumber : Z;
  fHarmonyTupletFactor : F;
  fHarmonyWholeNotesOffset : rational;
  fHarmonyDegreesList : list D
}.

Arguments mkHarmony {P K F D} _ _ _ _ _ _ _ _ _ _ _ _ _.
Arguments harmonyInputLineNumber {P K F D} _.
Arguments fHarmonyVoiceUpLink {P K F D} _.
Arguments fHarmonyRootQuarterTonesPitchKind {P K F D} _.
Arguments fHarmonyKind {P K F D} _.
Arguments fHarmonyKindText {P K F D} _.
Arguments fHarmonyInversion {P K F D} _.
Arguments fHarmonyBassQuarterTonesPitchKind {P K F D} _.
Arguments fSoundingWholeNotes {P K F D} _.
Arguments fHarmonyDisplayWholeNotes {P K F D} _.
Arguments fHarmonyStaffNumber {P K F D} _.
Arguments fHarmonyTupletFactor {P K F D} _.
Arguments fHarmonyWholeNotesOffset {P K F D} _.
Arguments fHarmonyDegreesList {P K F D} _.

(** What the constructor of [msrHarmony] takes from other files: the pitch
    that stands for no pitch, the interval kind of the bass of a chord of a
    given kind in a given inversion ([msrChordStructure::create], then
    [bassChordIntervalForChordInversion], then
    [getChordIntervalIntervalKind]), the note at an interval from a pitch,
    and the rendering of a pitch in the language of the options. *)
Class HarmonyCollaborators (P K I : Type) : Type := {
  k_NoQuarterTonesPitch_QTP : P;
  pitch_eq_dec :: EqDecision P;
  bassChordIntervalForChordInversion : K -> Z -> Z -> I;
  noteAtIntervalFromQuarterTonesPitch : Z -> I -> P -> P;
  msrQuarterTonesPitchKindAsString : P -> string
}.

Module MsrHarmonyObject.

Section Harmony.

Context {P K I F D : Type} `{HarmonyCollaborators P K I}.

Definition incompatible_inversion_message (inversion : Z) (bass : P) : string :=
  "inversion '" +:+ Cxx.string_of_Z inversion
    +:+ "' is not compatible with bass quaternotes pitch '"
    +:+ msrQuarterTonesPitchKindAsString bass +:+ "'".

(** The constructor [msrHarmony::msrHarmony]: the harmony it builds, and
    the errors it reports through [msrMusicXMLError], each with its input
    line number. [msrMusicXMLError] is declared in a file that is not part
    of the sources at hand; the harmony is the one the constructor builds
    when it returns. The trace output is not part of this model. *)
Definition msrHarmony_new (inputLineNumber : Z) (harmonyVoiceUpLink : option loc)
    (root : P) (harmonyKind : K) (harmonyKindText : string) (harmonyInversion : Z)
    (bass : P) (sounding display : rational) (harmonyStaffNumber : Z)
    (harmonyTupletFactor : F) (harmonyWholeNotesOffset : rational)
  : list (Z * string) * msrHarmony P K F D :=
  if 0 <? harmonyInversion then
    let bassChordInterval :=
      bassChordIntervalForChordInversion harmonyKind inputLineNumber harmonyInversion in
    let invertedChordBassQuarterTonesPitchKind :=
      noteAtIntervalFromQuarterTonesPitch inputLineNumber bassChordInterval root in
    let errors :=
      if decide (bass <> k_NoQuarterTonesPitch_QTP) then
        if decide (invertedChordBassQuarterTonesPitchKind <> bass)
        then [(inputLineNumber, incompatible_inversion_message harmonyInversion bass)]
        else []
      else [] in
    (errors,
     mkHarmony inputLineNumber harmonyVoiceUpLink root harmonyKind harmonyKindText
       harmonyInversion invertedChordBassQuarterTonesPitchKind sounding display
       harmonyStaffNumber harmonyTupletFactor harmonyWholeNotesOffset [])
  else
    ([],
     mkHarmony inputLineNumber harmonyVoiceUpLink root harmonyKind harmonyKindText
       harmonyInversion bass sounding display harmonyStaffNumber harmonyTupletFactor
       harmonyWholeNotesOffset []).

(** [msrHarmony::create], the overload without a voice uplink. *)
Definition create_without_voice (inputLineNumber : Z) (root : P) (harmonyKind : K)
    (harmonyKindText : string) (harmonyInversion : Z) (bass : P)
    (sounding display : rational) (harmonyStaffNumber : Z) (harmonyTupletFactor : F)
    (harmonyWholeNotesOffset : rational) : list (Z * string) * msrHarmony P K F D :=
  msrHarmony_new inputLineNumber None root harmonyKind harmonyKindText harmonyInversion
    bass sounding display harmonyStaffNumber harmonyTupletFactor harmonyWholeNotesOffset.

(** [msrHarmony::create], the overload with a voice uplink. *)
Definition create (inputLineNumber : Z) (harmonyVoiceUpLink : option loc) (root : P)
    (harmonyKind : K) (harmonyKindText : string) (harmonyInversion : Z) (bass : P)
    (sounding display : rational) (harmonyStaffNumber : Z) (harmonyTupletFactor : F)
    (harmonyWholeNotesOffset : rational) : list (Z * string) * msrHarmony P K F D :=
  msrHarmony_new inputLineNumber harmonyVoiceUpLink root harmonyKind harmonyKindText
    harmonyInversion bass sounding display harmonyStaffNumber harmonyTupletFactor
    harmonyWholeNotesOffset.

(** [msrHarmony::createHarmonyNewbornClone (containingVoice)]. The sanity
    check [msrAssert (containingVoice != nullptr, ...)] stops the program
    when the voice is null: there is no clone then, [None]. *)
Definition createHarmonyNewbornClone (h : msrHarmony P K F D) (containingVoice : option loc)
  : option (list (Z * string) * msrHarmony P K F D) :=
  match containingVoice with
  | None => None
  | Some _ =>
      Some (create (harmonyInputLineNumber h) containingVoice
              (fHarmonyRootQuarterTonesPitchKind h) (fHarmonyKind h) (fHarmonyKindText h)
              (fHarmonyInversion h) (fHarmonyBassQuarterTonesPitchKind h)
              (fSoundingWholeNotes h) (fHarmonyDisplayWholeNotes h)
              (fHarmonyStaffNumber h) (fHarmonyTupletFactor h)
              (fHarmonyWholeNotesOffset h))
  end.

(** [msrHarmony::createHarmonyDeepCopy (containingVoice)]. *)
Definition createHarmonyDeepCopy (h : msrHarmony P K F D) (containingVoice : option loc)
  : option (list (Z * string) * msrHarmony P K F D) :=
  match containingVoice with
  | None => None
  | Some _ =>
      Some (create (harmonyInputLineNumber h) containingVoice
              (fHarmonyRootQuarterTonesPitchKind h) (fHarmonyKind h) (fHarmonyKindText h)
              (fHarmonyInversion h) (fHarmonyBassQuarterTonesPitchKind h)
              (fSoundingWholeNotes h) (fHarmonyDisplayWholeNotes h)
              (fHarmonyStaffNumber h) (fHarmonyTupletFactor h)
              (fHarmonyWholeNotesOffset h))
  end.

(** A harmony with another voice uplink and with no degree. *)
Definition in_voice (voice : option loc) (h : msrHarmony P K F D) : msrHarmony P K F D :=
  mkHarmony (harmonyInputLineNumber h) voice (fHarmonyRootQuarterTonesPitchKind h)
    (fHarmonyKind h) (fHarmonyKindText h) (fHarmonyInversion h)
    (fHarmonyBassQuarterTonesPitchKind h) (fSoundingWholeNotes h)
    (fHarmonyDisplayWholeNotes h) (fHarmonyStaffNumber h) (fHarmonyTupletFactor h)
    (fHarmonyWholeNotesOffset h) [].

(** The bass the constructor gives a harmony. *)
Definition bass_of_inversion (inputLineNumber : Z) (root : P) (harmonyKind : K)
    (harmonyInversion : Z) (bass : P) : P :=
  if 0 <? harmonyInversion
  then noteAtIntervalFromQuarterTonesPitch inputLineNumber
         (bassChordIntervalForChordInversion harmonyKind inputLineNumber harmonyInversion)
         root
  else bass.

End Harmony.

End MsrHarmonyObject.

(** ** The translator: identification, header and paper *)

(** The kinds of [msrVarValAssoc] the translator names, and any other kind,
    with the text [varValAssocKindAsString] gives for it. *)
Inductive msrVarValAssocKind : Type :=
| kWorkNumber
| kWorkTitle
| kMovementNumber
| kMovementTitle
| kEncodingDate
| kScoreInstrument
| kMiscellaneousField
| kOtherVarValAssocKind (varValAssocKindAsString : string).

(** An [msrVarValAssoc], seen through its accessors. *)
Record msrVarValAssoc : Type := mkVarValAssoc {
  assocInputLineNumber : Z;
  getVarValAssocKind : msrVarValAssocKind;
  getVariableValue : string
}.

(** Modelled from the spec: the identification of the MSR score and the
    header of the LPSR score (their classes are not part of the sources at
    hand, the header of lpsr.cpp being another version of it) hold
    "variable/value associations". Each field is the value of the
    association a setter has stored, [None] while no setter has been
    called: the accessor then gives a null pointer. *)
Record scoreVariables : Type := mkScoreVariables {
  workNumber : option string;
  workTitle : option string;
  movementNumber : option string;
  movementTitle : option string;
  encodingDate : option string;
  scoreInstrument : option string;
  miscellaneousField : option string
}.

(** Modelled from the spec: the paper of the LPSR score ("paper/layout
    blocks"), whose class is not part of the sources at hand, with the
    values [setIndent] and [setShortIndent] have stored, [None] while not
    called. *)
Record lpsrPaper : Type := mkPaper {
  fIndent : option spec_float;
  fShortIndent : option spec_float
}.

(** The score clone, seen through the four lengths it gives. *)
Record scoreNamesMaxLengths : Type := mkScoreNamesMaxLengths {
  getScorePartGroupNamesMaxLength : Z;
  getScorePartNamesMaxLength : Z;
  getScoreInstrumentNamesMaxLength : Z;
  getScoreInstrumentAbbreviationsMaxLength : Z
}.

(** The fields of the translator that the visits of the identification and
    the end of the visit of the score use, and the warnings it has written:
    [fLpsrScorePaper] is [fLpsrScore], seen through [getPaper ()], and
    [fScoreCloneNames] is [fCurrentMsrScoreClone]. *)
Record identificationState : Type := mkIdentificationState {
  fCurrentIdentification : option scoreVariables;
  fLpsrScoreHeader : option scoreVariables;
  fWorkNumberKnown : bool;
  fWorkTitleKnown : bool;
  fMovementNumberKnown : bool;
  fMovementTitleKnown : bool;
  musicXMLWarnings : list (Z * string);
  fLpsrScorePaper : option lpsrPaper;
  fScoreCloneNames : option scoreNamesMaxLengths
}.

#[global] Instance msrVarValAssocKind_eq_dec : EqDecision msrVarValAssocKind.
Proof. solve_decision. Defined.

Module Identification.

Definition setWorkNumber (val : string) (v : scoreVariables) : scoreVariables :=
  mkScoreVariables (Some val) (workTitle v) (movementNumber v) (movementTitle v)
    (encodingDate v) (scoreInstrument v) (miscellaneousField v).

Definition setWorkTitle (val : string) (v : scoreVariables) : scoreVariables :=
  mkScoreVariables (workNumber v) (Some val) (movementNumber v) (movementTitle v)
    (encodingDate v) (scoreInstrument v) (miscellaneousField v).

Definition setMovementNumber (val : string) (v : scoreVariables) : scoreVariables :=
  mkScoreVariables (workNumber v) (workTitle v) (Some val) (movementTitle v)
    (encodingDate v) (scoreInstrument v) (miscellaneousField v).

Definition setMovementTitle (val : string) (v : scoreVariables) : scoreVariables :=
  mkScoreVariables (workNumber v) (workTitle v) (movementNumber v) (Some val)
    (encodingDate v) (scoreInstrument v) (miscellaneousField v).

Definition setEncodingDate (val : string) (v : scoreVariables) : scoreVariables :=
  mkScoreVariables (workNumber v) (workTitle v) (movementNumber v) (movementTitle v)
    (Some val) (scoreInstrument v) (miscellaneousField v).

Definition setScoreInstrument (val : string) (v : scoreVariables) : scoreVariables :=
  mkScoreVariables (workNumber v) (workTitle v) (movementNumber v) (movementTitle v)
    (encodingDate v) (Some val) (miscellaneousField v).

Definition setMiscellaneousField (val : string) (v : scoreVariables) : scoreVariables :=
  mkScoreVariables (workNumber v) (workTitle v) (movementNumber v) (movementTitle v)
    (encodingDate v) (scoreInstrument v) (Some val).

(** The flags of the four titles and numbers. *)
Inductive knownFlag : Type :=
| WorkNumberKnown | WorkTitleKnown | MovementNumberKnown | MovementTitleKnown.

Definition set_known (f : knownFlag) (s : identificationState) : identificationState :=
  mkIdentificationState (fCurrentIdentification s) (fLpsrScoreHeader s)
    (match f with WorkNumberKnown => true | _ => fWorkNumberKnown s end)
    (match f with WorkTitleKnown => true | _ => fWorkTitleKnown s end)
    (match f with MovementNumberKnown => true | _ => fMovementNumberKnown s end)
    (match f with MovementTitleKnown => true | _ => fMovementTitleKnown s end)
    (musicXMLWarnings s) (fLpsrScorePaper s) (fScoreCloneNames s).

(** [fCurrentIdentification->set... (inputLineNumber, value);
    fLpsrScoreHeader->set... (inputLineNumber, value, kFontStyleNone,
    kFontWeightNone);]. Following a null pointer is not defined. *)
Definition set_both (set : string -> scoreVariables -> scoreVariables) (value : string)
    (s : identificationState) : outcome identificationState unit :=
  match fCurrentIdentification s, fLpsrScoreHeader s with
  | Some identification, Some header =>
      Done tt (mkIdentificationState (Some (set value identification))
                 (Some (set value header))
                 (fWorkNumberKnown s) (fWorkTitleKnown s) (fMovementNumberKnown s)
                 (fMovementTitleKnown s) (musicXMLWarnings s) (fLpsrScorePaper s)
                 (fScoreCloneNames s))
  | _, _ => Undefined
  end.

Definition then_known (f : knownFlag) (r : outcome identificationState unit)
  : outcome identificationState unit :=
  match r with
  | Done _ s => Done tt (set_known f s)
  | other => other
  end.

Definition not_handled_message (kind : string) : string :=
  "### msrVarValAssoc kind '" +:+ kind +:+ "' is not handled".

(** [msrMusicXMLWarning (inputSourceName, inputLineNumber, message)]. *)
Definition msrMusicXMLWarning (inputLineNumber : Z) (message : string)
    (s : identificationState) : identificationState :=
  mkIdentificationState (fCurrentIdentification s) (fLpsrScoreHeader s)
    (fWorkNumberKnown s) (fWorkTitleKnown s) (fMovementNumberKnown s)
    (fMovementTitleKnown s) (musicXMLWarnings s ++ [(inputLineNumber, message)])
    (fLpsrScorePaper s) (fScoreCloneNames s).

Section Visits.

(** [stringQuoteEscaper], of a file that is not part of the sources at
    hand: the value with its quotes escaped. *)
Variable stringQuoteEscaper : string -> string.

(** [visitStart (S_msrVarValAssoc& elt)]. *)
Definition visitStart_msrVarValAssoc (elt : msrVarValAssoc) (s : identificationState)
  : outcome identificationState unit :=
  let inputLineNumber := assocInputLineNumber elt in
  let variableValue := stringQuoteEscaper (getVariableValue elt) in
  match getVarValAssocKind elt with
  | kWorkNumber => then_known WorkNumberKnown (set_both setWorkNumber variableValue s)
  | kWorkTitle => then_known WorkTitleKnown (set_both setWorkTitle variableValue s)
  | kMovementNumber =>
      then_known MovementNumberKnown (set_both setMovementNumber variableValue s)
  | kMovementTitle =>
      then_known MovementTitleKnown (set_both setMovementTitle variableValue s)
  | kEncodingDate => set_both setEncodingDate variableValue s
  | kScoreInstrument => set_both setScoreInstrument variableValue s
  | kMiscellaneousField => set_both setMiscellaneousField variableValue s
  | kOtherVarValAssocKind kind =>
      Done tt (msrMusicXMLWarning inputLineNumber (not_handled_message kind) s)
  end.

(** The visits of the associations of an identification, in order. *)
Fixpoint visit_assocs (elts : list msrVarValAssoc) (s : identificationState)
  : outcome identificationState unit :=
  match elts with
  | [] => Done tt s
  | elt :: rest =>
      match visitStart_msrVarValAssoc elt s with
      | Done _ s' => visit_assocs rest s'
      | other => other
      end
  end.

(** The value of the last association of the kind [kind] among those
    visited, [None] when there is none. *)
Definition seen (kind : msrVarValAssocKind) (elts : list msrVarValAssoc) : option string :=
  last (map (fun elt => stringQuoteEscaper (getVariableValue elt))
          (filter (fun elt => getVarValAssocKind elt = kind) elts)).

(** The value an accessor gives after the visits: the value seen last for
    its kind, or the value it gave before when none was seen. *)
Definition latest (seenValue before : option string) : option string :=
  match seenValue with
  | Some value => Some value
  | None => before
  end.

(** The variables, and a flag, after the visits of [elts]. *)
Definition vars_after (elts : list msrVarValAssoc) (v : scoreVariables) : scoreVariables :=
  mkScoreVariables
    (latest (seen kWorkNumber elts) (workNumber v))
    (latest (seen kWorkTitle elts) (workTitle v))
    (latest (seen kMovementNumber elts) (movementNumber v))
    (latest (seen kMovementTitle elts) (movementTitle v))
    (latest (seen kEncodingDate elts) (encodingDate v))
    (latest (seen kScoreInstrument elts) (scoreInstrument v))
    (latest (seen kMiscellaneousField elts) (miscellaneousField v)).

Definition known_after (kind : msrVarValAssocKind) (elts : list msrVarValAssoc)
    (known : bool) : bool :=
  (known || match seen kind elts with Some _ => true | None => false end)%bool.

End Visits.

(** The two statements "use the movement ... as the work ..." and "forget
    the movement ..." of [visitEnd (S_msrScore&)], each on the
    identification and on the header. *)
Definition use_movement_as_work
    (setWork setMovement : string -> scoreVariables -> scoreVariables)
    (movement : string) (s : identificationState) : outcome identificationState unit :=
  match set_both setWork movement s with
  | Done _ s' => set_both setMovement EmptyString s'
  | other => other
  end.

(** [getWork... ()->getVariableValue ()] on the current identification. *)
Definition identification_value (get : scoreVariables -> option string)
    (s : identificationState) : option string :=
  match fCurrentIdentification s with
  | Some identification => get identification
  | None => None
  end.

(** The same on the header of the LPSR score. *)
Definition header_value (get : scoreVariables -> option string)
    (s : identificationState) : option string :=
  match fLpsrScoreHeader s with
  | Some header => get header
  | None => None
  end.

(** One of the two [if ... else if ...] statements of
    [visitEnd (S_msrScore&)], for the titles or for the numbers. *)
Definition settle (workKnown movementKnown : bool)
    (getWork getMovement : scoreVariables -> option string)
    (setWork setMovement : string -> scoreVariables -> scoreVariables)
    (s : identificationState) : outcome identificationState unit :=
  if (workKnown && movementKnown)%bool then
    match identification_value getWork s, identification_value getMovement s with
    | Some work, Some movement =>
        if (Nat.eqb (String.length work) 0 && Nat.ltb 0 (String.length movement))%bool
        then use_movement_as_work setWork setMovement movement s
        else Done tt s
    | _, _ => Undefined
    end
  else if (negb workKnown && movementKnown)%bool then
    match identification_value getMovement s with
    | Some movement => use_movement_as_work setWork setMovement movement s
    | None => Undefined
    end
  else Done tt s.

(** [setPaperIndentsIfNeeded (pageGeometry)]: the arguments of the calls of
    [setIndent] and [setShortIndent] it makes on the paper, [None] when it
    does not make the call. The four lengths are those the score clone
    gives. *)
Definition setPaperIndentsIfNeeded (scorePartGroupNamesMaxLength scorePartNamesMaxLength
    scoreInstrumentNamesMaxLength scoreInstrumentAbbreviationsMaxLength : Z)
  : option spec_float * option spec_float :=
  let maxValue := -1 in
  let maxValue :=
    if scorePartGroupNamesMaxLength >? maxValue
    then scorePartGroupNamesMaxLength else maxValue in
  let maxValue :=
    if scorePartNamesMaxLength >? maxValue then scorePartNamesMaxLength else maxValue in
  let maxValue :=
    if scoreInstrumentNamesMaxLength >? maxValue
    then scoreInstrumentNamesMaxLength else maxValue in
  let maxShortValue := -1 in
  let maxShortValue :=
    if scoreInstrumentAbbreviationsMaxLength >? maxShortValue
    then scoreInstrumentAbbreviationsMaxLength else maxShortValue in
  let charactersPerCemtimeter := F32.of_Z 4 in
  (if maxValue >? 0
   then Some (F32.div (F32.of_Z maxValue) charactersPerCemtimeter) else None,
   if maxShortValue >? 0
   then Some (F32.div (F32.of_Z maxShortValue) charactersPerCemtimeter) else None).

(** A call of a setter of the paper that is made only when there is a
    value. *)
Definition set_if_needed (value current : option spec_float) : option spec_float :=
  match value with
  | Some x => Some x
  | None => current
  end.

(** The call [setPaperIndentsIfNeeded (elt->getPageGeometry ())] that ends
    [visitEnd (S_msrScore&)]: the paper is the one of [fLpsrScore], the
    four lengths are those of [fCurrentMsrScoreClone]; following either
    pointer when it is null is not defined. The page geometry is only
    traced. *)
Definition set_paper_indents (s : identificationState) : outcome identificationState unit :=
  match fLpsrScorePaper s, fScoreCloneNames s with
  | Some paper, Some names =>
      let indents :=
        setPaperIndentsIfNeeded (getScorePartGroupNamesMaxLength names)
          (getScorePartNamesMaxLength names) (getScoreInstrumentNamesMaxLength names)
          (getScoreInstrumentAbbreviationsMaxLength names) in
      Done tt (mkIdentificationState (fCurrentIdentification s) (fLpsrScoreHeader s)
                 (fWorkNumberKnown s) (fWorkTitleKnown s) (fMovementNumberKnown s)
                 (fMovementTitleKnown s) (musicXMLWarnings s)
                 (Some (mkPaper (set_if_needed (fst indents) (fIndent paper))
                          (set_if_needed (snd indents) (fShortIndent paper))))
                 (fScoreCloneNames s))
  | _, _ => Undefined
  end.

(** [visitEnd (S_msrScore& elt)]. *)
Definition visitEnd_msrScore (s : identificationState) : outcome identificationState unit :=
  match settle (fWorkTitleKnown s) (fMovementTitleKnown s) workTitle movementTitle
          setWorkTitle setMovementTitle s with
  | Done _ s' =>
      match settle (fWorkNumberKnown s') (fMovementNumberKnown s') workNumber
              movementNumber setWorkNumber setMovementNumber s' with
      | Done _ s'' => set_paper_indents s''
      | other => other
      end
  | other => other
  end.

(** The translator as its constructor leaves it, once the visits of the
    score and of the identification have set the four pointers. *)
Definition at_identification (identification header : scoreVariables) (paper : lpsrPaper)
    (names : scoreNamesMaxLengths) : identificationState :=
  mkIdentificationState (Some identification) (Some header) false false false false []
    (Some paper) (Some names).

(** The work title and the movement title after the end of the visit of
    the score, from the titles before the visits and the titles seen: a
    movement title seen without a work title, or beside an empty one when
    it is not empty itself, becomes the work title and leaves the movement
    title empty. The same for the numbers. *)
Definition stand_in (work movement seenWork seenMovement : option string)
  : option string * option string :=
  match seenMovement with
  | Some m =>
      match seenWork with
      | Some w =>
          if decide (w = EmptyString /\ m <> EmptyString)
          then (Some m, Some EmptyString)
          else (Some w, Some m)
      | None => (Some m, Some EmptyString)
      end
  | None => (latest seenWork work, movement)
  end.

(** The warnings of the visits, in order: one for each association of a
    kind the translator does not name. *)
Fixpoint not_handled (elts : list msrVarValAssoc) : list (Z * string) :=
  match elts with
  | [] => []
  | elt :: rest =>
      match getVarValAssocKind elt with
      | kOtherVarValAssocKind kind =>
          (assocInputLineNumber elt, not_handled_message kind) :: not_handled rest
      | _ => not_handled rest
      end
  end.

(** Equality of two numbers of binary32 that are no NaN, decided. *)
Definition same_float (x y : spec_float) : bool :=
  match x, y with
  | S754_zero a, S754_zero b => Bool.eqb a b
  | S754_infinity a, S754_infinity b => Bool.eqb a b
  | S754_finite a m e, S754_finite b m' e' => (Bool.eqb a b && Pos.eqb m m' && Z.eqb e e')%bool
  | _, _ => false
  end.

(** The lengths of names a check by computation covers. *)
Definition name_lengths : list Z := seqZ 1 1024.

End Identification.

(** ** The LPSR header of lpsr.cpp *)

Inductive lpsrCommentedKind : Type := kCommented | kUncommented.
Inductive lpsrBackslashKind : Type := kWithBackslash | kWithoutBackslash.
Inductive lpsrVarValSeparator : Type := kSpace | kEqualSign.
Inductive lpsrQuotesKind : Type := kQuotesAroundValue | kNoQuotesAroundValue.
Inductive lpsrEndlKind : Type := kWithEndl | kWithEndlTwice | kWithoutEndl.

(** [lpsrLilypondVarValAssoc], as its constructor fills it. *)
Record lpsrLilypondVarValAssoc : Type := mkLilypondVarValAssoc {
  lilypondAssocInputLineNumber : Z;
  fCommentedKind : lpsrCommentedKind;
  fBackslashKind : lpsrBackslashKind;
  fVariableName : string;
  fVarValSeparator : lpsrVarValSeparator;
  fQuotesKind : lpsrQuotesKind;
  fVariableValue : string;
  fUnit : string;
  fComment : string;
  fEndlKind : lpsrEndlKind
}.

(** [lpsrHeader]: a null pointer is [None]. *)
Record lpsrHeader : Type := mkLpsrHeader {
  fWorkNumber : option lpsrLilypondVarValAssoc;
  fWorkTitle : option lpsrLilypondVarValAssoc;
  fMovementNumber : option lpsrLilypondVarValAssoc;
  fMovementTitle : option lpsrLilypondVarValAssoc;
  fComposers : list lpsrLilypondVarValAssoc;
  fArrangers : list lpsrLilypondVarValAssoc;
  fLyricists : list lpsrLilypondVarValAssoc;
  fRights : option lpsrLilypondVarValAssoc;
  fSoftwares : list lpsrLilypondVarValAssoc;
  fEncodingDate : option lpsrLilypondVarValAssoc;
  fScoreInstrument : option lpsrLilypondVarValAssoc
}.

Module LpsrHeader.

(** The association every setter of the header creates: uncommented, no
    backslash, an equal sign, quotes around the value, no unit, no comment,
    no end of line. *)
Definition header_assoc (inputLineNumber : Z) (name val : string)
  : lpsrLilypondVarValAssoc :=
  mkLilypondVarValAssoc inputLineNumber kUncommented kWithoutBackslash name kEqualSign
    kQuotesAroundValue val EmptyString EmptyString kWithoutEndl.

(** [lpsrHeader::lpsrHeader]: every pointer null, every list empty. *)
Definition new_header : lpsrHeader :=
  mkLpsrHeader None None None None [] [] [] None [] None None.

Definition setWorkNumber (inputLineNumber : Z) (val : string) (h : lpsrHeader) : lpsrHeader :=
  mkLpsrHeader (Some (header_assoc inputLineNumber "work-number" val)) (fWorkTitle h)
    (fMovementNumber h) (fMovementTitle h) (fComposers h) (fArrangers h) (fLyricists h)
    (fRights h) (fSoftwares h) (fEncodingDate h) (fScoreInstrument h).

Definition setWorkTitle (inputLineNumber : Z) (val : string) (h : lpsrHeader) : lpsrHeader :=
  mkLpsrHeader (fWorkNumber h) (Some (header_assoc inputLineNumber "work-title" val))
    (fMovementNumber h) (fMovementTitle h) (fComposers h) (fArrangers h) (fLyricists h)
    (fRights h) (fSoftwares h) (fEncodingDate h) (fScoreInstrument h).

Definition setMovementNumber (inputLineNumber : Z) (val : string) (h : lpsrHeader)
  : lpsrHeader :=
  mkLpsrHeader (fWorkNumber h) (fWorkTitle h)
    (Some (header_assoc inputLineNumber "movement-number" val)) (fMovementTitle h)
    (fComposers h) (fArrangers h) (fLyricists h) (fRights h) (fSoftwares h)
    (fEncodingDate h) (fScoreInstrument h).

Definition setMovementTitle (inputLineNumber : Z) (val : string) (h : lpsrHeader)
  : lpsrHeader :=
  mkLpsrHeader (fWorkNumber h) (fWorkTitle h) (fMovementNumber h)
    (Some (header_assoc inputLineNumber "movement-title" val))
    (fComposers h) (fArrangers h) (fLyricists h) (fRights h) (fSoftwares h)
    (fEncodingDate h) (fScoreInstrument h).

(** [addComposer (inputLineNumber, type, val)]; the association it returns
    is the last of the composers. *)
Definition addComposer (inputLineNumber : Z) (type val : string) (h : lpsrHeader)
  : lpsrHeader :=
  mkLpsrHeader (fWorkNumber h) (fWorkTitle h) (fMovementNumber h) (fMovementTitle h)
    (fComposers h ++ [header_assoc inputLineNumber type val]) (fArrangers h) (fLyricists h)
    (fRights h) (fSoftwares h) (fEncodingDate h) (fScoreInstrument h).

Definition addArranger (inputLineNumber : Z) (type val : string) (h : lpsrHeader)
  : lpsrHeader :=
  mkLpsrHeader (fWorkNumber h) (fWorkTitle h) (fMovementNumber h) (fMovementTitle h)
    (fComposers h) (fArrangers h ++ [header_assoc inputLineNumber type val]) (fLyricists h)
    (fRights h) (fSoftwares h) (fEncodingDate h) (fScoreInstrument h).

Definition addLyricist (inputLineNumber : Z) (type val : string) (h : lpsrHeader)
  : lpsrHeader :=
  mkLpsrHeader (fWorkNumber h) (fWorkTitle h) (fMovementNumber h) (fMovementTitle h)
    (fComposers h) (fArrangers h) (fLyricists h ++ [header_assoc inputLineNumber type val])
    (fRights h) (fSoftwares h) (fEncodingDate h) (fScoreInstrument h).

Definition setRights (inputLineNumber : Z) (val : string) (h : lpsrHeader) : lpsrHeader :=
  mkLpsrHeader (fWorkNumber h) (fWorkTitle h) (fMovementNumber h) (fMovementTitle h)
    (fComposers h) (fArrangers h) (fLyricists h)
    (Some (header_assoc inputLineNumber "rights" val)) (fSoftwares h) (fEncodingDate h)
    (fScoreInstrument h).

Definition addSoftware (inputLineNumber : Z) (val : string) (h : lpsrHeader) : lpsrHeader :=
  mkLpsrHeader (fWorkNumber h) (fWorkTitle h) (fMovementNumber h) (fMovementTitle h)
    (fComposers h) (fArrangers h) (fLyricists h) (fRights h)
    (fSoftwares h ++ [header_assoc inputLineNumber "software" val]) (fEncodingDate h)
    (fScoreInstrument h).

Definition setEncodingDate (inputLineNumber : Z) (val : string) (h : lpsrHeader)
  : lpsrHeader :=
  mkLpsrHeader (fWorkNumber h) (fWorkTitle h) (fMovementNumber h) (fMovementTitle h)
    (fComposers h) (fArrangers h) (fLyricists h) (fRights h) (fSoftwares h)
    (Some (header_assoc inputLineNumber "encoding-date" val)) (fScoreInstrument h).

Definition setScoreInstrument (inputLineNumber : Z) (val : string) (h : lpsrHeader)
  : lpsrHeader :=
  mkLpsrHeader (fWorkNumber h) (fWorkTitle h) (fMovementNumber h) (fMovementTitle h)
    (fComposers h) (fArrangers h) (fLyricists h) (fRights h) (fSoftwares h)
    (fEncodingDate h) (Some (header_assoc inputLineNumber "score-instrument" val)).

(** [int length = name.size ()]: the size of a string as an [int] of 32
    bits. *)
Definition int_of_size (size : nat) : Z :=
  (Z.of_nat size + 2 ^ 31) mod 2 ^ 32 - 2 ^ 31.

(** [int length = a->getVariableName ().size (); if (length > result)
    result = length;]. *)
Definition longer (a : lpsrLilypondVarValAssoc) (result : Z) : Z :=
  let length := int_of_size (String.length (fVariableName a)) in
  if length >? result then length else result.

(** The same under [if (pointer)]. *)
Definition longer_if_set (a : option lpsrLilypondVarValAssoc) (result : Z) : Z :=
  match a with
  | Some a => longer a result
  | None => result
  end.

(** The same in a loop over a list. *)
Definition longest (l : list lpsrLilypondVarValAssoc) (result : Z) : Z :=
  fold_left (fun result a => longer a result) l result.

(** [lpsrHeader::maxLilyPondVariablesNamesLength ()]. *)
Definition maxLilyPondVariablesNamesLength (h : lpsrHeader) : Z :=
  let result := 0 in
  let result := longer_if_set (fWorkNumber h) result in
  let result := longer_if_set (fWorkTitle h) result in
  let result := longer_if_set (fMovementNumber h) result in
  let result := longer_if_set (fMovementTitle h) result in
  let result := longest (fComposers h) result in
  let result := longest (fArrangers h) result in
  let result := longest (fLyricists h) result in
  let result := longer_if_set (fRights h) result in
  let result := longest (fSoftwares h) result in
  let result := longer_if_set (fEncodingDate h) result in
  result.

Definition pointer_value (p : option lpsrLilypondVarValAssoc)
  : list lpsrLilypondVarValAssoc :=
  match p with
  | Some a => [a]
  | None => []
  end.

(** The associations of a header whose names the maximum looks at. *)
Definition measured (h : lpsrHeader) : list lpsrLilypondVarValAssoc :=
  pointer_value (fWorkNumber h) ++ pointer_value (fWorkTitle h)
    ++ pointer_value (fMovementNumber h) ++ pointer_value (fMovementTitle h)
    ++ fComposers h ++ fArrangers h ++ fLyricists h ++ pointer_value (fRights h)
    ++ fSoftwares h ++ pointer_value (fEncodingDate h).

Definition name_length (a : lpsrLilypondVarValAssoc) : Z :=
  int_of_size (String.length (fVariableName a)).

End LpsrHeader.

(** ** The chords languages of lpsr.cpp *)

Inductive lpsrChordsLanguage : Type :=
| k_IgnatzekChords
| k_GermanChords
| k_SemiGermanChords
| k_ItalianChords
| k_FrenchChords.

Module ChordsLanguages.

(** [std::map<string, lpsrChordsLanguage>]: the entries in the order of
    their keys, which is the order an iterator follows. *)
Definition chordsLanguagesMap : Type := list (string * lpsrChordsLanguage).

(** [map[key] = value]. *)
Fixpoint assign (key : string) (value : lpsrChordsLanguage) (m : chordsLanguagesMap)
  : chordsLanguagesMap :=
  match m with
  | [] => [(key, value)]
  | (key', value') :: rest =>
      match String.compare key key' with
      | Lt => (key, value) :: m
      | Eq => (key, value) :: rest
      | Gt => (key', value') :: assign key value rest
      end
  end.

(** [map.find (key)]. *)
Fixpoint find (key : string) (m : chordsLanguagesMap) : option lpsrChordsLanguage :=
  match m with
  | [] => None
  | (key', value) :: rest => if String.eqb key key' then Some value else find key rest
  end.

(** [initializeLpsrChordsLanguages ()], on the global map. *)
Definition initializeLpsrChordsLanguages (gLpsrChordsLanguagesMap : chordsLanguagesMap)
  : chordsLanguagesMap :=
  let m := assign "Ignatzek" k_IgnatzekChords gLpsrChordsLanguagesMap in
  let m := assign "german" k_GermanChords m in
  let m := assign "semiGerman" k_SemiGermanChords m in
  let m := assign "italian" k_ItalianChords m in
  assign "french" k_FrenchChords m.

(** [lpsrChordsLanguageAsString (language)]. *)
Definition lpsrChordsLanguageAsString (language : lpsrChordsLanguage) : string :=
  match language with
  | k_IgnatzekChords => "IgnatzekChords"
  | k_GermanChords => "german"
  | k_SemiGermanChords => "semiGerman"
  | k_ItalianChords => "italian"
  | k_FrenchChords => "french"
  end.

Definition is_default (language : lpsrChordsLanguage) : bool :=
  match language with
  | k_IgnatzekChords => true
  | _ => false
  end.

(** The loop [for ( ; ; ) { if (second != k_IgnatzekChords) s << first; if
    (++i == iEnd) break; if (second != k_IgnatzekChords) s << " "; }], the
    iterator being at the entry [i], with [rest] after it. *)
Fixpoint existing_loop (i : string * lpsrChordsLanguage) (rest : chordsLanguagesMap)
    (s : string) : string :=
  let s := if is_default (snd i) then s else s +:+ fst i in
  match rest with
  | [] => s
  | j :: rest' =>
      let s := if is_default (snd j) then s else s +:+ " " in
      existing_loop j rest' s
  end.

(** [existingLpsrChordsLanguages ()]. On an empty map the loop reads the
    entry at the end of the map, which is not defined. *)
Definition existingLpsrChordsLanguages (gLpsrChordsLanguagesMap : chordsLanguagesMap)
  : option string :=
  match gLpsrChordsLanguagesMap with
  | [] => None
  | i :: rest => Some (existing_loop i rest EmptyString)
  end.

(** The keys of the entries of another language than the default, each
    after a space. *)
Fixpoint spaced_names (m : chordsLanguagesMap) : string :=
  match m with
  | [] => EmptyString
  | (key, language) :: rest =>
      (if is_default language then EmptyString else " " +:+ key) +:+ spaced_names rest
  end.

End ChordsLanguages.

(** ** The Guido visitor: the parts of a score *)

Module GuidoParts.

Import Guido Spec.

(** The elements of a part that the browser meets after
    [visitStart (S_part&)] and that this file has a visit for: the [staves]
    elements, with the number they hold, and the clefs. *)
Inductive part_child : Type :=
  | staves_child (staves : Z)
  | clef_child (elt : clef_elt).

Definition visit_child (child : part_child) (v : xml2guidovisitor) : xml2guidovisitor :=
  match child with
  | staves_child staves => GuidoScore.visitStart_staves staves v
  | clef_child elt => visitEnd_clef elt v
  end.

(** A part as the browser goes through it: the element, its summary, and
    its children in document order. *)
Record score_part : Type := mkScorePart {
  sp_elt : part_elt;
  sp_summary : partsummary;
  sp_children : list part_child
}.

(** The visits of the parts of a score, in document order: for each part
    [visitStart (S_part&)], then the visits of its children. *)
Fixpoint visit_parts `{PartCollaborators} (parts : list score_part)
    (v : xml2guidovisitor) : option xml2guidovisitor :=
  match parts with
  | [] => Some v
  | part :: rest =>
      match visitStart_part (sp_elt part) (sp_summary part) v with
      | Some v' => visit_parts rest (fold_left (fun v c => visit_child c v) (sp_children part) v')
      | None => None
      end
  end.

(** The main staves of the voices of a part, in the order of the voices. *)
Definition main_staves (ps : partsummary) : list Z := map (getMainStaff ps) (getVoices ps).

(** The voices of a part come staff after staff, on staves the part has. *)
Definition well_numbered (ps : partsummary) : Prop :=
  non_decreasing_from 1 (main_staves ps) /\ List.last (main_staves ps) 0 <= countStaves ps.

(** The staves of the parts together. *)
Definition staves_of_parts (parts : list partsummary) : Z :=
  fold_right (fun ps total => countStaves ps + total) 0 parts.

(** The sequences of the parts of a score, the first part starting after
    staff [off]. *)
Fixpoint score_plan (off : Z) (parts : list partsummary) : list staffEntry :=
  match parts with
  | [] => []
  | ps :: rest =>
      staff_plan off (main_staves ps) (countStaves ps)
        ++ score_plan (off + countStaves ps) rest
  end.

End GuidoParts.

(** ** The Guido visitor: what a synthesized staff holds *)

Module GuidoStaff.

Import Guido.

(** The text of the clef tag of a clef whose sign has the letter
    [letter]. *)
Definition clef_text (letter : string) (iter : clef_elt) : string :=
  let s := if Z.eqb (clef_line iter) 0 then letter
           else letter +:+ Cxx.string_of_Z (clef_line iter) in
  let param := Cxx.stream_extract s in
  if Z.eqb (clef_octave_change iter) 1 then param +:+ "+8"
  else if Z.eqb (clef_octave_change iter) (-1) then param +:+ "-8"
  else param.

(** The clef tags of the clefs of staff [staffIndex], in document order. *)
Fixpoint clef_tags (staffIndex : Z) (clefs : list clef_elt) : list guidoelement :=
  match clefs with
  | [] => []
  | iter :: rest =>
      (if Z.eqb (clef_number iter) staffIndex then
         match clef_letter (clef_sign iter) with
         | Some letter => [guidotag "clef" [param_str (clef_text letter iter) true]]
         | None => []
         end
       else [])
        ++ clef_tags staffIndex rest
  end.

(** The warnings for the clefs of staff [staffIndex] whose sign is not
    known, in document order. *)
Fixpoint clef_warnings (staffIndex : Z) (clefs : list clef_elt) : list string :=
  match clefs with
  | [] => []
  | iter :: rest =>
      (if Z.eqb (clef_number iter) staffIndex then
         match clef_letter (clef_sign iter) with
         | Some _ => []
         | None => [unknown_clef_warning (clef_sign iter)]
         end
       else [])
        ++ clef_warnings staffIndex rest
  end.

(** The meter tag of the first time element, unless it is not to be
    printed. *)
Definition meter_tags (fGenerateBars : bool) (times : list time_elt) : list guidoelement :=
  match times with
  | iter :: _ =>
      if String.eqb (time_print_object iter) "no" then []
      else [meter_tag fGenerateBars (fst (parseTime_locals iter))]
  | [] => []
  end.

(** The sequence of a synthesized staff. *)
Definition staff_sequence (fGenerateBars : bool) (staffIndex : Z) (elt : part_elt)
  : guidoelement :=
  guidoseq (staff_tag staffIndex
              :: clef_tags staffIndex (part_clefs elt)
              ++ map key_tag (part_keys elt)
              ++ meter_tags fGenerateBars (part_times elt)).

End GuidoStaff.

(** ** The Guido visitor: the first part *)

Module GuidoFirstPart.

Import Guido.

(** The keys of a [std::map<std::string, T>] come in the order of
    [std::string], which compares the characters as unsigned bytes: the
    order of [String.compare]. *)
Definition least {A : Type} (key : string) (a : A) (first : option (string * A))
  : option (string * A) :=
  match first with
  | Some (key', _) => if String.ltb key key' then Some (key, a) else first
  | None => Some (key, a)
  end.

(** [m.begin ()]: the entry of the least key; [None] is [m.end ()], which
    is what [begin] gives on an empty map and which cannot be followed. *)
Definition map_begin {A : Type} (m : gmap string A) : option (string * A) :=
  map_fold least None m.

(** [getStavesForFirstPart ()]: [return stavesInPart.begin()->second;]. *)
Definition getStavesForFirstPart (v : xml2guidovisitor) : option Z :=
  snd <$> map_begin (stavesInPart v).

(** The keys of a map that come before [key]. *)
Definition keys_before {A : Type} (key : string) (m : gmap string A) : list string :=
  List.filter (fun key' => String.ltb key' key) (map fst (map_to_list m)).

End GuidoFirstPart.

(** ** The translator: the end of a grace note *)

Module GraceNotes.

Import Msr Lpsr.

(** A grace notes group is on going: its clone [group] holds [notes], and
    [grace] is the clone of the grace note being visited. *)
Definition in_grace_notes_group (group grace : loc) (notes : list loc)
    (t : msr2LpsrTranslator) : Prop :=
  fOnGoingGraceNotesGroup (onGoing t) = true
  /\ fCurrentGraceNotesGroupClone (current t) = Some group
  /\ msrStore t !! group = Some (msrGraceNotesGroup notes)
  /\ fCurrentGraceNoteClone (current t) = Some grace.

(** The translator after the end of a grace note: [grace] is the last note
    of [group], the LPSR score has its editorial accidental flag set if
    [kind] asks for it, and no note is on going. *)
Definition after_grace_note (group grace : loc) (notes : list loc)
    (kind : msrNoteEditorialAccidentalKind) (t : msr2LpsrTranslator) : msr2LpsrTranslator :=
  mkTranslator (<[group := msrGraceNotesGroup (notes ++ [grace])]> (msrStore t))
    (fVisitedMsrScore t) (fCurrentMsrScoreClone t)
    (match kind with
     | kNoteEditorialAccidentalYes =>
         option_map setEditorialAccidentalSchemeFunctionIsNeeded (fLpsrScore t)
     | kNoteEditorialAccidentalNo => fLpsrScore t
     end)
    (fPartGroupsStack t) (fTupletClonesStack t) (current t)
    (set_note_flag false (onGoing t)).

(** A grace note with an editorial accidental, from line 12 of the input,
    at address 1; the clone of the note it ornaments, without editorial
    accidental, at address 2; the clone of its grace notes group at address
    3 and its own clone at address 4. The note it ornaments is on going. *)
Definition editorial_grace_note : msrNoteData :=
  mkNote 12 kGraceNote false false kNoteEditorialAccidentalYes.

Definition plain_note : msrNoteData :=
  mkNote 12 kStandaloneNote false false kNoteEditorialAccidentalNo.

Definition translator_at_grace_note : msr2LpsrTranslator :=
  mkTranslator
    (<[4%nat := msrNote editorial_grace_note]>
       (<[3%nat := msrGraceNotesGroup []]>
          (<[2%nat := msrNote plain_note]>
             (<[1%nat := msrNote editorial_grace_note]> ∅))))
    None (Some 0%nat) (Some (mkLpsrScore 0%nat [] false false)) [] []
    (mkClones None None None (Some 2%nat) (Some 4%nat) None (Some 3%nat) None)
    (mkFlags false true false true false).

End GraceNotes.

(** ** The translator: double tremolos *)

Module DoubleTremolos.

Import Msr Lpsr.

Definition set_double_tremolo_clone (p : option loc) (c : currentClones) : currentClones :=
  mkClones (fCurrentPartClone c) (fCurrentStaffClone c) (fCurrentVoiceClone c)
    (fCurrentNonGraceNoteClone c) (fCurrentGraceNoteClone c) (fCurrentChordClone c)
    (fCurrentGraceNotesGroupClone c) p.

Definition set_double_tremolo_flag (b : bool) (f : onGoingFlags) : onGoingFlags :=
  mkFlags (fOnGoingStaff f) (fOnGoingNote f) (fOnGoingChord f) (fOnGoingGraceNotesGroup f) b.

(** [visitStart (S_msrDoubleTremolo& elt)]: [fCurrentDoubleTremoloClone =
    elt;], the element visited itself, and [fOnGoingDoubleTremolo = true;].
    No clone is created. *)
Definition visitStart_msrDoubleTremolo (elt : loc) : M unit :=
  modify (fun t => set_current (set_double_tremolo_clone (Some elt) (current t)) t) ;;;
  modify (fun t => set_on_going (set_double_tremolo_flag true (onGoing t)) t).

(** The visits the browser makes from the start of a double tremolo to the
    end of one of its two notes. *)
Definition visit_to_member_note `{NoteRendering} (tremolo note : loc) : M unit :=
  visitStart_msrDoubleTremolo tremolo ;;;
  visitStart_msrNote note ;;;
  visitEnd_msrNote note.

(** A double tremolo of the MSR at address 1, between the notes at
    addresses 2 and 3, from lines 10 and 11 of the input, and a translator
    inside the voice clone at address 5. *)
Definition first_tremolo_note : msrNoteData :=
  mkNote 10 kDoubleTremoloMemberNote true false kNoteEditorialAccidentalNo.

Definition translator_at_double_tremolo : msr2LpsrTranslator :=
  mkTranslator
    (<[5%nat := msrVoice (mkVoice "P1_S1_V1" kRegularVoice false [] None Outside None [])]>
       (<[3%nat := msrNote (mkNote 11 kDoubleTremoloMemberNote false true
                              kNoteEditorialAccidentalNo)]>
          (<[2%nat := msrNote first_tremolo_note]>
             (<[1%nat := msrDoubleTremolo (Some 2%nat) (Some 3%nat)]> ∅))))
    (Some 0%nat) (Some 4%nat) (Some (mkLpsrScore 4%nat [] false false)) [] []
    (mkClones None None (Some 5%nat) None None None None None)
    (mkFlags false false false false false).

End DoubleTremolos.

(** ** The translator: nested part groups *)

Module PartGroups.

Import Msr Lpsr.

(** What a part group of the MSR holds, as the browser goes through it: its
    parts and its sub part groups, in order. *)
Inductive groupItem : Type :=
| PartItem (elt : loc)
| GroupItem (elt : loc) (items : list groupItem).

(** The visits of an item: [visitStart (S_msrPart&)] for a part; for a
    part group [visitStart (S_msrPartGroup&)], the visits of what it holds,
    and [visitEnd (S_msrPartGroup&)]. The visits of what a part holds, and
    the end of the visit of a part, are not among them. *)
Fixpoint visit_item (item : groupItem) : M unit :=
  match item with
  | PartItem elt => visitStart_msrPart elt
  | GroupItem elt items =>
      visitStart_msrPartGroup elt ;;;
      (fix visit_items (items : list groupItem) : M unit :=
         match items with
         | [] => ret tt
         | item :: items => visit_item item ;;; visit_items items
         end) items ;;;
      visitEnd_msrPartGroup elt
  end.

Fixpoint visit_items (items : list groupItem) : M unit :=
  match items with
  | [] => ret tt
  | item :: items => visit_item item ;;; visit_items items
  end.

(** The attributes a newborn clone copies. *)
Definition part_attributes (σ : gmap loc msrElement) (elt : loc) : option (string * string) :=
  match σ !! elt with
  | Some (msrPart name abbreviation _ _) => Some (name, abbreviation)
  | _ => None
  end.

Definition group_name (σ : gmap loc msrElement) (elt : loc) : option string :=
  match σ !! elt with
  | Some (msrPartGroup name _ _ _) => Some name
  | _ => None
  end.

(** The pointers of an item lead to parts and part groups. *)
Inductive is_item (σ : gmap loc msrElement) : groupItem -> Prop :=
| is_part (elt : loc) :
    is_Some (part_attributes σ elt) -> is_item σ (PartItem elt)
| is_group (elt : loc) (items : list groupItem) :
    is_Some (group_name σ elt) -> Forall (is_item σ) items ->
    is_item σ (GroupItem elt items).

(** [mirrors σ0 σ score up item c]: in the store [σ], [c] is a clone of
    [item] with the uplink [up]. The clone of a part is as the start of its
    visit leaves it, with the name and the abbreviation of the part and no
    staff; the clone of a part group has the name of the
    part group, the score uplink [score], and holds, in order, clones of
    what the part group holds, whose uplink it is. Every clone is an object
    the store [σ0] did not have. *)
Inductive mirrors (σ0 σ : gmap loc msrElement) (score : option loc)
  : option loc -> groupItem -> loc -> Prop :=
| mirrors_part (up : option loc) (elt c : loc) (name abbreviation : string) :
    σ0 !! c = None ->
    part_attributes σ elt = Some (name, abbreviation) ->
    σ !! c = Some (msrPart name abbreviation ∅ up) ->
    mirrors σ0 σ score up (PartItem elt) c
| mirrors_group (up : option loc) (elt c : loc) (items : list groupItem) (name : string)
    (cs : list loc) :
    σ0 !! c = None ->
    group_name σ elt = Some name ->
    σ !! c = Some (msrPartGroup name cs up score) ->
    Forall2 (mirrors σ0 σ score (Some c)) items cs ->
    mirrors σ0 σ score up (GroupItem elt items) c.

(** The object that receives the clone of an item: the part group clone on
    top of the stack, or the score clone when the stack is empty. *)
Definition receiver (t : msr2LpsrTranslator) : option loc :=
  match fPartGroupsStack t with
  | g :: _ => Some g
  | [] => fCurrentMsrScoreClone t
  end.

Definition receiver_ok (t : msr2LpsrTranslator) : Prop :=
  match fPartGroupsStack t with
  | g :: _ => is_Some (group_name (msrStore t) g)
  | [] => exists (score : loc) (pgs : list loc),
            fCurrentMsrScoreClone t = Some score
            /\ msrStore t !! score = Some (msrScore pgs)
  end.

(** The receiver holds [cs] after what it held. *)
Definition attached (cs : list loc) (t t' : msr2LpsrTranslator) : Prop :=
  match receiver t with
  | Some r =>
      match msrStore t !! r with
      | Some (msrPartGroup name es up sc) =>
          msrStore t' !! r = Some (msrPartGroup name (es ++ cs) up sc)
      | Some (msrScore pgs) => msrStore t' !! r = Some (msrScore (pgs ++ cs))
      | _ => False
      end
  | None => False
  end.

(** The labels of the objects of a store are kept, and no object is lost. *)
Definition labels_kept (σ σ' : gmap loc msrElement) : Prop :=
  (forall (l : loc) (x : string * string),
      part_attributes σ l = Some x -> part_attributes σ' l = Some x)
  /\ (forall (l : loc) (name : string), group_name σ l = Some name -> group_name σ' l = Some name)
  /\ (forall l : loc, σ' !! l = None -> σ !! l = None).

(** What the visits of an item, or of a list of items, do when a part
    group clone is on top of the stack. *)
Definition run_spec (score : option loc) (m : M unit) (items : list groupItem)
    (t : msr2LpsrTranslator) : Prop :=
  forall (g : loc) (rest : list loc) (name : string) (es : list loc) (up sc : option loc),
    fPartGroupsStack t = g :: rest ->
    msrStore t !! g = Some (msrPartGroup name es up sc) ->
    exists (t' : msr2LpsrTranslator) (cs : list loc),
      m t = Done tt t'
      /\ fPartGroupsStack t' = fPartGroupsStack t
      /\ fLpsrScore t' = fLpsrScore t
      /\ fCurrentMsrScoreClone t' = fCurrentMsrScoreClone t
      /\ labels_kept (msrStore t) (msrStore t')
      /\ msrStore t' !! g = Some (msrPartGroup name (es ++ cs) up sc)
      /\ Forall2 (mirrors (msrStore t) (msrStore t') score (Some g)) items cs
      /\ forall l : loc, is_Some (msrStore t !! l) -> l <> g ->
                         msrStore t' !! l = msrStore t !! l.

(** A score clone at address 5 that holds nothing yet, for a score with an
    outer part group (1) that holds a part (2) and an inner part group (3)
    with a part (4). *)
Definition nested_groups : groupItem :=
  GroupItem 1%nat [PartItem 2%nat; GroupItem 3%nat [PartItem 4%nat]].

Definition translator_at_part_groups : msr2LpsrTranslator :=
  mkTranslator
    (<[5%nat := msrScore []]>
       (<[4%nat := msrPart "P2" "Vc." ∅ (Some 3%nat)]>
          (<[3%nat := msrPartGroup "inner" [4%nat] (Some 1%nat) (Some 0%nat)]>
             (<[2%nat := msrPart "P1" "Vl." ∅ (Some 1%nat)]>
                (<[1%nat := msrPartGroup "outer" [2%nat; 3%nat] None (Some 0%nat)]>
                   (<[0%nat := msrScore [1%nat]]> ∅))))))
    (Some 0%nat) (Some 5%nat) (Some (mkLpsrScore 5%nat [] false false)) [] []
    (mkClones None None None None None None None None)
    (mkFlags false false false false false).

End PartGroups.

(** ** The translator: the clone of a harmony *)

Module HarmonyClones.

Section Clones.

Context {P K I F D : Type} `{HarmonyCollaborators P K I}.

(** What [visitStart (S_msrHarmony&)] and [visitStart (S_msrHarmonyDegree&)]
    read and write: the harmonies the translator has created, the errors
    their construction has reported, the current clones and flags, and the
    harmonies registered in note clones, in chord clones and in voice
    clones.

    Modelled from the spec: the note, chord and voice classes are not part
    of the sources at hand; [setNoteHarmony] and [setChordHarmony] set the
    harmony of their object, [appendHarmonyToVoiceClone] appends to the
    harmonies of the voice ("every append operation maintains
    insertion-order containers"). *)
Record harmonyTranslation : Type := mkHarmonyTranslation {
  harmonies : gmap loc (msrHarmony P K F D);
  reported : list (Z * string);
  voiceClone : option loc;
  nonGraceNoteClone : option loc;
  chordClone : option loc;
  fCurrentHarmonyClone : option loc;
  onGoingNote : bool;
  onGoingChord : bool;
  fOnGoingHarmonyVoice : bool;
  noteHarmony : gmap loc loc;
  chordHarmony : gmap loc loc;
  voiceHarmonies : gmap loc (list loc)
}.

(** Modelled from the spec: [appendHarmonyDegreeToHarmony] of msrHarmony,
    which is declared in a header that is not part of the sources at hand,
    appends to the degrees of the harmony. *)
Definition appendHarmonyDegreeToHarmony (d : D) (h : msrHarmony P K F D)
  : msrHarmony P K F D :=
  mkHarmony (harmonyInputLineNumber h) (fHarmonyVoiceUpLink h)
    (fHarmonyRootQuarterTonesPitchKind h) (fHarmonyKind h) (fHarmonyKindText h)
    (fHarmonyInversion h) (fHarmonyBassQuarterTonesPitchKind h) (fSoundingWholeNotes h)
    (fHarmonyDisplayWholeNotes h) (fHarmonyStaffNumber h) (fHarmonyTupletFactor h)
    (fHarmonyWholeNotesOffset h) (fHarmonyDegreesList h ++ [d]).

(** The translator once the clone [clone] has been created at [c]. *)
Definition with_clone (c : loc) (errors : list (Z * string)) (clone : msrHarmony P K F D)
    (w : harmonyTranslation) : harmonyTranslation :=
  mkHarmonyTranslation (<[c := clone]> (harmonies w)) (reported w ++ errors) (voiceClone w)
    (nonGraceNoteClone w) (chordClone w) (Some c) (onGoingNote w) (onGoingChord w)
    (fOnGoingHarmonyVoice w) (noteHarmony w) (chordHarmony w) (voiceHarmonies w).

Definition setNoteHarmony (note c : loc) (w : harmonyTranslation) : harmonyTranslation :=
  mkHarmonyTranslation (harmonies w) (reported w) (voiceClone w) (nonGraceNoteClone w)
    (chordClone w) (fCurrentHarmonyClone w) (onGoingNote w) (onGoingChord w)
    (fOnGoingHarmonyVoice w) (<[note := c]> (noteHarmony w)) (chordHarmony w)
    (voiceHarmonies w).

Definition setChordHarmony (chord c : loc) (w : harmonyTranslation) : harmonyTranslation :=
  mkHarmonyTranslation (harmonies w) (reported w) (voiceClone w) (nonGraceNoteClone w)
    (chordClone w) (fCurrentHarmonyClone w) (onGoingNote w) (onGoingChord w)
    (fOnGoingHarmonyVoice w) (noteHarmony w) (<[chord := c]> (chordHarmony w))
    (voiceHarmonies w).

Definition appendHarmonyToVoiceClone (voice c : loc) (w : harmonyTranslation)
  : harmonyTranslation :=
  mkHarmonyTranslation (harmonies w) (reported w) (voiceClone w) (nonGraceNoteClone w)
    (chordClone w) (fCurrentHarmonyClone w) (onGoingNote w) (onGoingChord w)
    (fOnGoingHarmonyVoice w) (noteHarmony w) (chordHarmony w)
    (<[voice := default [] (voiceHarmonies w !! voice) ++ [c]]> (voiceHarmonies w)).

Definition with_harmonies (m : gmap loc (msrHarmony P K F D)) (w : harmonyTranslation)
  : harmonyTranslation :=
  mkHarmonyTranslation m (reported w) (voiceClone w) (nonGraceNoteClone w)
    (chordClone w) (fCurrentHarmonyClone w) (onGoingNote w) (onGoingChord w)
    (fOnGoingHarmonyVoice w) (noteHarmony w) (chordHarmony w) (voiceHarmonies w).

(** [msr2LpsrTranslator::visitStart (S_msrHarmony& elt)]. The sanity check
    of [createHarmonyNewbornClone] stops the program when there is no
    current voice clone; the clone is a new object. *)
Definition visitStart_msrHarmony (elt : msrHarmony P K F D) (w : harmonyTranslation)
  : outcome harmonyTranslation unit :=
  match MsrHarmonyObject.createHarmonyNewbornClone elt (voiceClone w) with
  | None => Fatal (harmonyInputLineNumber elt) "containingVoice is null" w
  | Some (errors, clone) =>
      let c := fresh (dom (harmonies w)) in
      let w := with_clone c errors clone w in
      if onGoingNote w then
        match nonGraceNoteClone w with
        | Some note => Done tt (setNoteHarmony note c w)
        | None => Undefined
        end
      else if onGoingChord w then
        match chordClone w with
        | Some chord => Done tt (setChordHarmony chord c w)
        | None => Undefined
        end
      else if fOnGoingHarmonyVoice w then
        match voiceClone w with
        | Some voice => Done tt (appendHarmonyToVoiceClone voice c w)
        | None => Undefined
        end
      else Done tt w
  end.

(** [msr2LpsrTranslator::visitStart (S_msrHarmonyDegree& elt)]: the degree
    visited, not a clone of it, goes to the current harmony clone. *)
Definition visitStart_msrHarmonyDegree (elt : D) (w : harmonyTranslation)
  : outcome harmonyTranslation unit :=
  match fCurrentHarmonyClone w with
  | Some c =>
      match harmonies w !! c with
      | Some h => Done tt (with_harmonies (<[c := appendHarmonyDegreeToHarmony elt h]>
                                             (harmonies w)) w)
      | None => Undefined
      end
  | None => Undefined
  end.

(** [msr2LpsrTranslator::visitEnd (S_msrHarmony& elt)] only traces. The
    translator defines no [visitEnd] for harmony degrees; modelled from the
    spec, the one it inherits does nothing: a visitor "merely implements
    no-ops". *)
Definition translator_as_harmony_visitor : visitor harmonyTranslation (msrHarmony P K F D) :=
  {| visitStart := visitStart_msrHarmony;
     visitEnd := fun _ w => Done tt w |}.

Definition translator_as_degree_visitor : visitor harmonyTranslation D :=
  {| visitStart := visitStart_msrHarmonyDegree;
     visitEnd := fun _ w => Done tt w |}.

Definition translator : harmonyBaseVisitor harmonyTranslation (msrHarmony P K F D) D :=
  mkHarmonyBaseVisitor (mkBaseVisitor (Some translator_as_harmony_visitor))
    (mkBaseVisitor (Some translator_as_degree_visitor)).

(** The harmony [h] with the degrees [degrees] after its own. *)
Definition with_degrees (degrees : list D) (h : msrHarmony P K F D) : msrHarmony P K F D :=
  mkHarmony (harmonyInputLineNumber h) (fHarmonyVoiceUpLink h)
    (fHarmonyRootQuarterTonesPitchKind h) (fHarmonyKind h) (fHarmonyKindText h)
    (fHarmonyInversion h) (fHarmonyBassQuarterTonesPitchKind h) (fSoundingWholeNotes h)
    (fHarmonyDisplayWholeNotes h) (fHarmonyStaffNumber h) (fHarmonyTupletFactor h)
    (fHarmonyWholeNotesOffset h) (fHarmonyDegreesList h ++ degrees).

(** The pointers the registration of a harmony follows are not null. *)
Definition can_register (w : harmonyTranslation) : Prop :=
  is_Some (voiceClone w)
  /\ (onGoingNote w = true -> is_Some (nonGraceNoteClone w))
  /\ (onGoingNote w = false -> onGoingChord w = true -> is_Some (chordClone w)).

(** Where the clone [c] of a harmony is registered. *)
Definition registered (c : loc) (w w' : harmonyTranslation) : Prop :=
  if onGoingNote w then
    exists note : loc,
      nonGraceNoteClone w = Some note
      /\ noteHarmony w' = <[note := c]> (noteHarmony w)
      /\ chordHarmony w' = chordHarmony w /\ voiceHarmonies w' = voiceHarmonies w
  else if onGoingChord w then
    exists chord : loc,
      chordClone w = Some chord
      /\ chordHarmony w' = <[chord := c]> (chordHarmony w)
      /\ noteHarmony w' = noteHarmony w /\ voiceHarmonies w' = voiceHarmonies w
  else if fOnGoingHarmonyVoice w then
    exists voice : loc,
      voiceClone w = Some voice
      /\ voiceHarmonies w'
         = <[voice := default [] (voiceHarmonies w !! voice) ++ [c]]> (voiceHarmonies w)
      /\ noteHarmony w' = noteHarmony w /\ chordHarmony w' = chordHarmony w
  else
    noteHarmony w' = noteHarmony w /\ chordHarmony w' = chordHarmony w
    /\ voiceHarmonies w' = voiceHarmonies w.

End Clones.

Arguments harmonyTranslation : clear implicits.

(** Pitches as numbers of quarter tones, zero for no pitch, intervals as
    numbers of quarter tones, and the inversion as the interval of the
    bass. *)
Definition numbered_pitches : HarmonyCollaborators Z unit Z :=
  {| k_NoQuarterTonesPitch_QTP := 0;
     pitch_eq_dec := Z.eq_dec;
     bassChordIntervalForChordInversion := fun _ _ inversion => inversion;
     noteAtIntervalFromQuarterTonesPitch := fun _ interval root => root + interval;
     msrQuarterTonesPitchKindAsString := Cxx.string_of_Z |}.

(** A harmony from line 3 with two degrees, and a translator in a harmony
    voice, its clone at address 1, that has created no harmony yet. *)
Definition harmony_with_two_degrees : msrHarmony Z unit unit nat :=
  mkHarmony 3 None 14 tt "m7" 0 0 Rational.zero Rational.zero 1 tt Rational.zero
    [10%nat; 11%nat].

Definition translator_in_harmony_voice : harmonyTranslation Z unit unit nat :=
  mkHarmonyTranslation ∅ [] (Some 1%nat) None None None false false true ∅ ∅ ∅.

End HarmonyClones.

(** ** The translator: measures and bar checks *)

Inductive msrMeasureKind : Type :=
| kMeasureKindUnknown
| kMeasureKindRegular
| kMeasureKindAnacrusis
| kMeasureKindIncompleteIrrelevantToAnyRepeat
| kMeasureKindIncompleteLastInRepeatCommonPart
| kMeasureKindIncompleteLastInRepeatHookedEnding
| kMeasureKindIncompleteLastInRepeatHooklessEnding
| kMeasureKindOvercomplete
| kMeasureKindCadenza
| kMeasureKindEmpty.

(** A measure of the MSR, seen through the accessors the two visits use;
    [measureVoiceName] is
    [fetchMeasureVoiceUplink ()->getVoiceName ()]. *)
Record msrMeasure : Type := mkMeasure {
  measureInputLineNumber : Z;
  getMeasureNumber : string;
  getMeasureKind : msrMeasureKind;
  measureVoiceName : string
}.

(** Modelled from the spec: the objects the two visits create, of classes
    that are not part of the sources at hand. A measure clone is a newborn
    clone, "attributes copied, children empty, uplink set to owner", that
    [finalizeMeasureClone] finalizes with the line it is given; a bar check
    is created "without next bar number", and "a pending bar-check records
    the next measure's number". *)
Inductive measureObject : Type :=
| aMeasureClone (measureNumber : string) (segmentUplink : loc) (finalized : option Z)
| aBarCheck (inputLineNumber : Z) (nextBarNumber : option string).

Module BarChecks.

(** What [visitStart (S_msrMeasure&)] and [visitEnd (S_msrMeasure&)] read
    and write: the objects they create, the current clones, the pending bar
    check [fLastBarCheck], which no other function of the translator
    writes, the warnings, and, modelled from the spec, the measures of the
    segment clones, the current measure number of the part clones and the
    bar checks of the voice clones, each an insertion-order container. *)
Record measureTranslation : Type := mkMeasureTranslation {
  objects : gmap loc measureObject;
  warnings : list (Z * string);
  partClone : option loc;
  voiceClone : option loc;
  fCurrentSegmentClone : option loc;
  fCurrentMeasureClone : option loc;
  fLastBarCheck : option loc;
  segmentMeasures : gmap loc (list loc);
  partCurrentMeasureNumber : gmap loc string;
  voiceBarChecks : gmap loc (list loc)
}.

Definition with_objects (m : gmap loc measureObject) (w : measureTranslation)
  : measureTranslation :=
  mkMeasureTranslation m (warnings w) (partClone w) (voiceClone w) (fCurrentSegmentClone w)
    (fCurrentMeasureClone w) (fLastBarCheck w) (segmentMeasures w)
    (partCurrentMeasureNumber w) (voiceBarChecks w).

Definition with_last_bar_check (b : option loc) (w : measureTranslation)
  : measureTranslation :=
  mkMeasureTranslation (objects w) (warnings w) (partClone w) (voiceClone w)
    (fCurrentSegmentClone w) (fCurrentMeasureClone w) b (segmentMeasures w)
    (partCurrentMeasureNumber w) (voiceBarChecks w).

(** [fCurrentMeasureClone = elt->createMeasureNewbornClone
    (fCurrentSegmentClone); fCurrentSegmentClone->appendMeasureToSegment
    (fCurrentMeasureClone);]. *)
Definition clone_measure (elt : msrMeasure) (segment : loc) (w : measureTranslation)
  : measureTranslation :=
  let m := fresh (dom (objects w)) in
  mkMeasureTranslation
    (<[m := aMeasureClone (getMeasureNumber elt) segment None]> (objects w))
    (warnings w) (partClone w) (voiceClone w) (fCurrentSegmentClone w) (Some m)
    (fLastBarCheck w)
    (<[segment := default [] (segmentMeasures w !! segment) ++ [m]]> (segmentMeasures w))
    (partCurrentMeasureNumber w) (voiceBarChecks w).

Definition setPartCurrentMeasureNumber (part : loc) (measureNumber : string)
    (w : measureTranslation) : measureTranslation :=
  mkMeasureTranslation (objects w) (warnings w) (partClone w) (voiceClone w)
    (fCurrentSegmentClone w) (fCurrentMeasureClone w) (fLastBarCheck w) (segmentMeasures w)
    (<[part := measureNumber]> (partCurrentMeasureNumber w)) (voiceBarChecks w).

(** [visitStart (S_msrMeasure& elt)]; the trace output is not part of this
    model. *)
Definition visitStart_msrMeasure (elt : msrMeasure) (w : measureTranslation)
  : outcome measureTranslation unit :=
  let measureNumber := getMeasureNumber elt in
  match fCurrentSegmentClone w with
  | None => Undefined
  | Some segment =>
      let w := clone_measure elt segment w in
      match partClone w with
      | None => Undefined
      | Some part =>
          let w := setPartCurrentMeasureNumber part measureNumber w in
          match fLastBarCheck w with
          | Some b =>
              match objects w !! b with
              | Some (aBarCheck line _) =>
                  Done tt (with_last_bar_check None
                             (with_objects (<[b := aBarCheck line (Some measureNumber)]>
                                              (objects w)) w))
              | _ => Undefined
              end
          | None => Done tt w
          end
      end
  end.

(** The kinds for which [doCreateABarCheck] becomes true. *)
Definition doCreateABarCheck (kind : msrMeasureKind) : bool :=
  match kind with
  | kMeasureKindUnknown => false
  | kMeasureKindRegular => true
  | kMeasureKindAnacrusis => true
  | kMeasureKindIncompleteIrrelevantToAnyRepeat
  | kMeasureKindIncompleteLastInRepeatCommonPart
  | kMeasureKindIncompleteLastInRepeatHookedEnding
  | kMeasureKindIncompleteLastInRepeatHooklessEnding => true
  | kMeasureKindOvercomplete => true
  | kMeasureKindCadenza => true
  | kMeasureKindEmpty => false
  end.

Definition unknown_kind_message (elt : msrMeasure) : string :=
  "measure '" +:+ getMeasureNumber elt +:+ "' in voice "
    +:+ Guido.quoted (measureVoiceName elt) +:+ " is of unknown kind".

(** Modelled from the spec: [msrInternalWarning] reports "with input line";
    the translation goes on. *)
Definition msrInternalWarning (inputLineNumber : Z) (message : string)
    (w : measureTranslation) : measureTranslation :=
  mkMeasureTranslation (objects w) (warnings w ++ [(inputLineNumber, message)]) (partClone w)
    (voiceClone w) (fCurrentSegmentClone w) (fCurrentMeasureClone w) (fLastBarCheck w)
    (segmentMeasures w) (partCurrentMeasureNumber w) (voiceBarChecks w).

(** [fLastBarCheck = msrBarCheck::create (inputLineNumber);
    fCurrentVoiceClone->appendBarCheckToVoice (fLastBarCheck);]. *)
Definition create_bar_check (inputLineNumber : Z) (voice : loc) (w : measureTranslation)
  : measureTranslation :=
  let b := fresh (dom (objects w)) in
  mkMeasureTranslation (<[b := aBarCheck inputLineNumber None]> (objects w)) (warnings w)
    (partClone w) (voiceClone w) (fCurrentSegmentClone w) (fCurrentMeasureClone w) (Some b)
    (segmentMeasures w) (partCurrentMeasureNumber w)
    (<[voice := default [] (voiceBarChecks w !! voice) ++ [b]]> (voiceBarChecks w)).

(** [visitEnd (S_msrMeasure& elt)]. *)
Definition visitEnd_msrMeasure (elt : msrMeasure) (w : measureTranslation)
  : outcome measureTranslation unit :=
  let inputLineNumber := measureInputLineNumber elt in
  match fCurrentMeasureClone w with
  | None => Undefined
  | Some m =>
      match objects w !! m with
      | Some (aMeasureClone number segment _) =>
          let w := with_objects (<[m := aMeasureClone number segment (Some inputLineNumber)]>
                                   (objects w)) w in
          let w :=
            match getMeasureKind elt with
            | kMeasureKindUnknown =>
                msrInternalWarning inputLineNumber (unknown_kind_message elt) w
            | _ => w
            end in
          if doCreateABarCheck (getMeasureKind elt) then
            match voiceClone w with
            | Some voice => Done tt (create_bar_check inputLineNumber voice w)
            | None => Undefined
            end
          else Done tt w
      | _ => Undefined
      end
  end.

(** The visits of the measures of a voice, one after the other. *)
Fixpoint visit_measures (measures : list msrMeasure) (w : measureTranslation)
  : outcome measureTranslation unit :=
  match measures with
  | [] => Done tt w
  | elt :: rest =>
      match visitStart_msrMeasure elt w with
      | Done _ w1 =>
          match visitEnd_msrMeasure elt w1 with
          | Done _ w2 => visit_measures rest w2
          | other => other
          end
      | other => other
      end
  end.

(** The bar checks of a run of measures: one for each measure of a kind
    that gets one, from the line of the measure, with the number of the
    measure that comes next in the run, if any. *)
Fixpoint bar_checks_of (measures : list msrMeasure) : list measureObject :=
  match measures with
  | [] => []
  | elt :: rest =>
      (if doCreateABarCheck (getMeasureKind elt)
       then [aBarCheck (measureInputLineNumber elt) (option_map getMeasureNumber (head rest))]
       else [])
        ++ bar_checks_of rest
  end.

(** The warnings of a run of measures. *)
Definition warnings_of (measures : list msrMeasure) : list (Z * string) :=
  flat_map (fun elt => match getMeasureKind elt with
                       | kMeasureKindUnknown =>
                           [(measureInputLineNumber elt, unknown_kind_message elt)]
                       | _ => []
                       end) measures.

(** The clones the visits of measures follow are there, and the pending
    bar check, if any, is a bar check. *)
Definition ready (w : measureTranslation) : Prop :=
  is_Some (fCurrentSegmentClone w) /\ is_Some (partClone w) /\ is_Some (voiceClone w)
  /\ match fLastBarCheck w with
     | Some b => exists (line : Z) (next : option string),
                   objects w !! b = Some (aBarCheck line next)
     | None => True
     end.

(** The bar check that is pending after a run of measures that began with
    [pending]. *)
Definition pending_after (measures : list msrMeasure) (pending : option loc)
    (created : list loc) : option loc :=
  match measures with
  | [] => pending
  | _ :: _ =>
      let last_measure := List.last measures (mkMeasure 0 EmptyString kMeasureKindEmpty EmptyString) in
      if doCreateABarCheck (getMeasureKind last_measure)
      then List.last (map Some created) None
      else None
  end.

(** A voice clone at address 1 in the segment clone 2 of the part clone 3,
    with a bar check from line 8, which the voice clone does not hold,
    pending at address 4; and three measures, the second of an unknown
    kind. *)
Definition translator_at_measures : measureTranslation :=
  mkMeasureTranslation (<[4%nat := aBarCheck 8 None]> ∅) [] (Some 3%nat) (Some 1%nat)
    (Some 2%nat) None (Some 4%nat) ∅ ∅ ∅.

Definition three_measures : list msrMeasure :=
  [mkMeasure 10 "1" kMeasureKindAnacrusis "P1_S1_V2";
   mkMeasure 20 "2" kMeasureKindUnknown "P1_S1_V2";
   mkMeasure 30 "3" kMeasureKindRegular "P1_S1_V2"].

End BarChecks.

(* ===================================================================== *)
(** * Part II: the properties *)
(* ===================================================================== *)

(** ** The score header is flushed once *)

Section FlushHeader.

Import Guido Spec.

(** The loop never touches what lies before the position it is at. *)
Lemma replace_quotes_loop_cons (fuel : nat) (a : ascii) (s : string) (pos : option nat) :
  replace_quotes_loop fuel (String a s) (option_map S pos)
  = option_map (String a) (replace_quotes_loop fuel s pos).
Proof.
  revert s pos. induction fuel as [|fuel IH]; intros s [p|]; simpl; try reflexivity.
  rewrite <- IH. reflexivity.
Qed.

Lemma replace_quotes_loop_spec (s : string) :
  forall fuel : nat, (String.length s <= fuel)%nat ->
    replace_quotes_loop fuel s (Cxx.find_char dquote s O) = Some (single_quoted s).
Proof.
  induction s as [|a s IH]; intros fuel Hfuel.
  - destruct fuel; reflexivity.
  - simpl in Hfuel. unfold single_quoted. simpl.
    change (ascii_of_nat 34) with dquote.
    destruct (Ascii.eqb a dquote) eqn:Ha.
    + destruct fuel as [|fuel]; [lia|]. simpl.
      change ("'" +:+ s) with (String "'"%char s).
      change ("" +:+ s) with s.
      rewrite replace_quotes_loop_cons, IH by lia. reflexivity.
    + rewrite replace_quotes_loop_cons, IH by lia. reflexivity.
Qed.

Lemma replace_quotes_spec (s : string) : replace_quotes s = Some (single_quoted s).
Proof. apply replace_quotes_loop_spec. lia. Qed.

Lemma flush_creators_spec (cs : list xmlelement) (v : xml2guidovisitor) :
  flush_creators cs v
  = add_all (map (fun c => guidotag "composer"
                             [param_str (getValue c) true; param_str "dy=4hs" false])
               (composers cs)) v.
Proof.
  revert v. induction cs as [|c cs IH]; intros v; [reflexivity|].
  simpl. rewrite IH. unfold composers. rewrite filter_cons.
  unfold is_composer, composer_tag.
  destruct (decide (attr_type c = "Composer"%string \/ attr_type c = "composer"%string))
    as [[Hc|Hc]|Hc].
  - rewrite Hc. reflexivity.
  - rewrite Hc. reflexivity.
  - destruct (String.eqb_spec (attr_type c) "Composer");
      [contradiction Hc; left; assumption|].
    destruct (String.eqb_spec (attr_type c) "composer");
      [contradiction Hc; right; assumption|].
    reflexivity.
Qed.

Lemma flushHeader_adds (header : scoreHeader) (v : xml2guidovisitor) :
  flushHeader header v
  = Some (mkScoreHeader None [], add_all (header_elements header) v).
Proof.
  unfold flushHeader, header_elements, add_all, title_tag.
  destruct (fTitle header) as [t|]; simpl.
  - rewrite replace_quotes_spec, flush_creators_spec. reflexivity.
  - rewrite flush_creators_spec. reflexivity.
Qed.

(** C10. [flushHeader] adds to the output the title tag, whose text is the
    title with every double quote replaced by a single quote, if the header
    has a title, and then one composer tag with the parameter [dy=4hs] for
    each creator whose type is Composer or composer, in the order of the
    creators; the header it leaves has no title and no creator, and
    flushing that header again adds nothing. A header whose creators are
    all of another type adds no composer tag. *)
Theorem flushHeader_flushes_once (header : scoreHeader) (v : xml2guidovisitor) :
  flushHeader header v
  = Some (mkScoreHeader None [],
          add_all
            (match fTitle header with
             | Some t => [guidotag "title" [param_str (single_quoted (getValue t)) true]]
             | None => []
             end
             ++ map (fun c => guidotag "composer"
                                [param_str (getValue c) true; param_str "dy=4hs" false])
                  (composers (fCreators header)))
            v)
  /\ (forall c : xmlelement,
        c ∈ composers (fCreators header)
        <-> c ∈ fCreators header
            /\ (attr_type c = "Composer"%string \/ attr_type c = "composer"%string))
  /\ (forall (a : ascii) (s : string),
        single_quoted (String a s)
        = String (if Ascii.eqb a (ascii_of_nat 34) then "'"%char else a) (single_quoted s))
  /\ forall v' : xml2guidovisitor,
       flushHeader (mkScoreHeader None []) v' = Some (mkScoreHeader None [], v').
Proof.
  split; [apply flushHeader_adds|].
  split; [intros c; unfold composers; rewrite list_elem_of_filter; tauto|].
  split; [reflexivity|].
  intros v'. rewrite flushHeader_adds. reflexivity.
Qed.

End FlushHeader.

(** ** Clefs *)

Section Clefs.

Import Guido.

Lemma clef_letter_unknown (sign : string) :
  ~ In sign ["G"; "F"; "C"; "percussion"; "TAB"; "none"]%string ->
  clef_letter sign = None.
Proof.
  intros Hsign. unfold clef_letter.
  repeat match goal with
  | |- context [String.eqb sign ?s] =>
      destruct (String.eqb_spec sign s) as [->|_];
      [exfalso; apply Hsign; simpl; tauto|]
  end.
  reflexivity.
Qed.

(** C5, as the code has it. [visitEnd (S_clef&)] computes the clef text
    [g2] for sign G, line 2, octave change 0, [f-8] for sign F, line 4,
    octave change -1, and [alto] for sign C, line 3, octave change 0; it
    records the text it computes among the clefs of the current part, and
    writes no warning and adds no tag, whatever the sign is. [parseClef],
    which adds the clef tag of a staff, writes the letter of the sign and
    the line, then the octave: [g2], [f4-8] and [c3] for these three clefs;
    given a clef of the staff whose sign it does not know, it writes a
    warning to the error stream and adds no clef tag. *)
Theorem clef_conversion (iter : clef_elt) (staffIndex : Z) (v : xml2guidovisitor) :
  clef_number iter = staffIndex ->
  ~ In (clef_sign iter) ["G"; "F"; "C"; "percussion"; "TAB"; "none"]%string ->
  clef_key "G" 2 0 = "g2"%string
  /\ clef_key "F" 4 (-1) = "f-8"%string
  /\ clef_key "C" 3 0 = "alto"%string
  /\ (forall (elt : clef_elt) (v' : xml2guidovisitor),
        clef_key (clef_sign elt) (clef_line elt) (clef_octave_change elt)
          ∈ default (∅ : gset string) (clefsInPart (visitEnd_clef elt v') !! currentPart v')
        /\ cerr (visitEnd_clef elt v') = cerr v'
        /\ fStack (visitEnd_clef elt v') = fStack v')
  /\ parseClef (mkClef staffIndex "G" 2 0) staffIndex v
     = add (guidotag "clef" [param_str "g2" true]) v
  /\ parseClef (mkClef staffIndex "F" 4 (-1)) staffIndex v
     = add (guidotag "clef" [param_str "f4-8" true]) v
  /\ parseClef (mkClef staffIndex "C" 3 0) staffIndex v
     = add (guidotag "clef" [param_str "c3" true]) v
  /\ cerr (parseClef iter staffIndex v)
     = cerr v ++ [unknown_clef_warning (clef_sign iter)]
  /\ fStack (parseClef iter staffIndex v) = fStack v.
Proof.
  intros Hnumber Hsign.
  split; [reflexivity|]. split; [reflexivity|]. split; [reflexivity|].
  split.
  { intros elt v'. unfold visitEnd_clef. simpl.
    rewrite lookup_insert_eq. simpl. split; [set_solver | split; reflexivity]. }
  split; [unfold parseClef; simpl; rewrite Z.eqb_refl; reflexivity|].
  split; [unfold parseClef; simpl; rewrite Z.eqb_refl; reflexivity|].
  split; [unfold parseClef; simpl; rewrite Z.eqb_refl; reflexivity|].
  unfold parseClef. rewrite Hnumber, Z.eqb_refl, (clef_letter_unknown _ Hsign).
  split; reflexivity.
Qed.

Lemma clef_conversion_witness :
  cerr (parseClef (mkClef 1 "jianpu" 2 0) 1 Sample.visitor0)
  = ["warning: unknown clef sign " +:+ quoted "jianpu"]
  /\ fStack (parseClef (mkClef 1 "jianpu" 2 0) 1 Sample.visitor0) = [guidochord []].
Proof.
  assert (Hnumber : clef_number (mkClef 1 "jianpu" 2 0) = 1) by reflexivity.
  assert (Hsign : ~ In (clef_sign (mkClef 1 "jianpu" 2 0))
                      ["G"; "F"; "C"; "percussion"; "TAB"; "none"]%string).
  { simpl. intros H. repeat (destruct H as [H|H]; [discriminate H|]). exact H. }
  destruct (clef_conversion (mkClef 1 "jianpu" 2 0) 1 Sample.visitor0 Hnumber Hsign)
    as (_ & _ & _ & _ & _ & _ & _ & Hwarn & Hstack).
  split; [exact Hwarn | exact Hstack].
Defined.

(** C5, as the specification has it, fails: no clef conversion has the four
    properties. [parseClef], which warns about an unknown sign, gives the
    clef of sign F, line 4, octave change -1 the text [f4-8] and the clef
    of sign C, line 3 the text [c3]; [visitEnd (S_clef&)], which computes
    [f-8] and [alto], records the text [unknown] for a sign it does not
    know and writes no warning. *)
Lemma clef_texts_differ :
  current_elements (parseClef (mkClef 1 "F" 4 (-1)) 1 Sample.visitor0)
  = [guidotag "clef" [param_str "f4-8" true]]
  /\ current_elements (parseClef (mkClef 1 "C" 3 0) 1 Sample.visitor0)
     = [guidotag "clef" [param_str "c3" true]]
  /\ clef_key "jianpu" 2 0 = "unknown"%string
  /\ cerr (visitEnd_clef (mkClef 1 "jianpu" 2 0) Sample.visitor0) = [].
Proof. repeat split. Qed.

End Clefs.

(** ** Time signatures *)

Section Time.

Import Guido Spec.

Lemma string_app_cons (x : ascii) (a b : string) :
  String x a +:+ b = String x (a +:+ b).
Proof. reflexivity. Qed.

Lemma string_app_assoc (a b c : string) : (a +:+ b) +:+ c = a +:+ (b +:+ c).
Proof.
  induction a as [|x a IH]; [reflexivity|].
  rewrite !string_app_cons, IH. reflexivity.
Qed.

Lemma string_app_nil_r (a : string) : a +:+ EmptyString = a.
Proof.
  induction a as [|x a IH]; [reflexivity|].
  rewrite string_app_cons, IH. reflexivity.
Qed.

Lemma whitespace_free_app (a b : string) :
  whitespace_free (a +:+ b) = (whitespace_free a && whitespace_free b)%bool.
Proof.
  induction a as [|x a IH]; [reflexivity|].
  rewrite string_app_cons. simpl. rewrite IH. apply andb_assoc.
Qed.

Lemma take_word_whitespace_free (s : string) :
  whitespace_free s = true -> Cxx.take_word s = s.
Proof.
  induction s as [|x s IH]; simpl; [reflexivity|].
  intros [Hx Hs]%andb_prop. destruct (Cxx.isspace x); [discriminate|].
  rewrite IH by exact Hs. reflexivity.
Qed.

Lemma stream_extract_whitespace_free (s : string) :
  whitespace_free s = true -> Cxx.stream_extract s = s.
Proof.
  intros Hs. unfold Cxx.stream_extract.
  assert (Hskip : Cxx.skip_spaces s = s).
  { destruct s as [|x s]; [reflexivity|].
    simpl in Hs. apply andb_prop in Hs as [Hx _].
    simpl. destruct (Cxx.isspace x); [discriminate | reflexivity]. }
  rewrite Hskip. apply take_word_whitespace_free, Hs.
Qed.

Definition pairs_whitespace_free (pairs : list (string * string)) : Prop :=
  Forall (fun p => whitespace_free (fst p) = true /\ whitespace_free (snd p) = true) pairs.

Lemma join_pairs_cons (n d : string) (rest : list (string * string)) :
  join_pairs ((n, d) :: rest)
  = n +:+ "/" +:+ d +:+ match rest with [] => EmptyString | _ => "+" +:+ join_pairs rest end.
Proof.
  destruct rest as [|[n' d'] rest]; simpl.
  - rewrite string_app_nil_r. reflexivity.
  - reflexivity.
Qed.

Lemma join_pairs_whitespace_free (pairs : list (string * string)) :
  pairs_whitespace_free pairs -> whitespace_free (join_pairs pairs) = true.
Proof.
  induction 1 as [|[n d] rest [Hn Hd] Hrest IH]; [reflexivity|].
  rewrite join_pairs_cons. simpl in Hn, Hd.
  rewrite !whitespace_free_app, Hn, Hd. simpl.
  destruct rest; [reflexivity|]. rewrite whitespace_free_app, IH. reflexivity.
Qed.

(** The loop writes the pairs after what the stream holds and adds them to
    the sum it has. *)
Lemma time_pairs_loop_spec (pairs : list (string * string)) :
  forall (s sep : string) (cur : rational),
    time_pairs_loop pairs s sep cur
    = (s +:+ match pairs with [] => EmptyString | _ => sep +:+ join_pairs pairs end,
       fold_left (fun acc p => Rational.plus_assign acc (pair_rational (Some p))) pairs cur).
Proof.
  induction pairs as [|[n d] rest IH]; intros s sep cur.
  - simpl. rewrite string_app_nil_r. reflexivity.
  - cbn [time_pairs_loop fold_left]. rewrite IH, join_pairs_cons. f_equal.
    rewrite !string_app_assoc. reflexivity.
Qed.

Lemma with_stack_same (v : xml2guidovisitor) : with_stack (fStack v) v = v.
Proof. destruct v; reflexivity. Qed.

Lemma with_stack_add (e : guidoelement) (v : xml2guidovisitor) :
  with_stack (fStack v) (add e v) = v.
Proof. destruct v as [st ? ? ? ? ? ? ? ? ? ? ? ? ? ?]; destruct st; reflexivity. Qed.

(** C4, as the code has it. For a time element without [senza-misura]
    whose values hold no white space, the meter text [parseTime] builds is
    [C] when the symbol is [common] and the first pair reads 4/4, [C/] when
    the symbol is [cut], and for any other symbol the pairs written
    numerator/denominator and joined by [+]; for the pairs (3,8), (2,8)
    without symbol it is [3/8+2/8]. The sum of the pairs, 5/8 there, is the
    value of a variable local to [parseTime]: the call puts the meter tag
    in the output tree, unless [print-object] is [no], and changes nothing
    else in the visitor. *)
Theorem parseTime_meter (iter : time_elt) (v : xml2guidovisitor) :
  time_senza_misura iter = false ->
  pairs_whitespace_free (time_pairs iter) ->
  let timesign := fst (parseTime_locals iter) in
  let sum := snd (parseTime_locals iter) in
  (time_symbol iter = "common"%string ->
   pair_rational (time_pairs iter !! 0%nat) = mkRational 4 4 ->
   timesign = "C"%string)
  /\ (time_symbol iter = "cut"%string -> timesign = "C/"%string)
  /\ (time_symbol iter <> "common"%string -> time_symbol iter <> "cut"%string ->
      timesign = join_pairs (time_pairs iter) /\ sum = sum_pairs (time_pairs iter))
  /\ parseTime_locals Sample.time_3_8_2_8 = ("3/8+2/8"%string, mkRational 5 8)
  /\ parseTime iter v
     = (if String.eqb (time_print_object iter) "no" then v
        else add (meter_tag (fGenerateBars v) timesign) v)
  /\ with_stack (fStack v) (parseTime iter v) = v.
Proof.
  intros Hsenza Hpairs timesign sum. subst timesign sum.
  unfold parseTime_locals. rewrite Hsenza.
  repeat split.
  - intros -> Hfirst. simpl. rewrite Hfirst. reflexivity.
  - intros ->. reflexivity.
  - apply String.eqb_neq in H. apply String.eqb_neq in H0. rewrite H, H0.
    rewrite time_pairs_loop_spec. simpl.
    destruct (time_pairs iter) eqn:E; [reflexivity|].
    rewrite <- E in *. simpl.
    apply stream_extract_whitespace_free, join_pairs_whitespace_free, Hpairs.
  - apply String.eqb_neq in H. apply String.eqb_neq in H0. rewrite H, H0.
    rewrite time_pairs_loop_spec. reflexivity.
  - unfold parseTime, parseTime_locals. rewrite Hsenza.
    destruct (String.eqb (time_print_object iter) "no"); reflexivity.
  - unfold parseTime.
    destruct (negb _); [apply with_stack_add | apply with_stack_same].
Qed.

Lemma parseTime_meter_witness :
  fst (parseTime_locals Sample.time_3_8_2_8) = "3/8+2/8"%string
  /\ snd (parseTime_locals Sample.time_3_8_2_8) = mkRational 5 8
  /\ with_stack (fStack Sample.visitor0) (parseTime Sample.time_3_8_2_8 Sample.visitor0)
     = Sample.visitor0.
Proof.
  assert (Hsenza : time_senza_misura Sample.time_3_8_2_8 = false) by reflexivity.
  assert (Hpairs : pairs_whitespace_free (time_pairs Sample.time_3_8_2_8)).
  { repeat constructor. }
  destruct (parseTime_meter Sample.time_3_8_2_8 Sample.visitor0 Hsenza Hpairs)
    as (_ & _ & Hother & _ & _ & Hframe).
  assert (Hcommon : time_symbol Sample.time_3_8_2_8 <> "common"%string) by discriminate.
  assert (Hcut : time_symbol Sample.time_3_8_2_8 <> "cut"%string) by discriminate.
  destruct (Hother Hcommon Hcut) as [Htext Hsum].
  split; [exact Htext | split; [exact Hsum | exact Hframe]].
Defined.

(** C4, as the specification has it, fails: the sum of the pairs does not become
    the active time signature. For the pairs (3,8), (2,8) [parseTime]
    computes 5/8 and the visitor only receives the meter tag; in a part
    whose one voice is on staff 2, staff 1 is created with that meter
    through [parseTime], and the voice visitor that follows is initialised
    with the time signature 0/1. *)
Lemma parseTime_sum_is_not_active :
  snd (parseTime_locals Sample.time_3_8_2_8) = mkRational 5 8
  /\ parseTime Sample.time_3_8_2_8 Sample.visitor0
     = add (meter_tag true "3/8+2/8") Sample.visitor0
  /\ option_map (fun v => current_elements v)
       (@visitStart_part Sample.probe Sample.part_on_staff_2 Sample.summary_on_staff_2
          Sample.visitor0)
     = Some
         [guidoseq [staff_tag 1; meter_tag true "3/8+2/8"];
          guidoseq
            [staff_tag 2; auto_hide_tag;
             guidotag "accol" [param_str ("id=0, range=" +:+ quoted "1-2") false];
             system_bar_format "1-2";
             guidotag "initialised with" [param_int 0 false; param_int 1 false];
             staff_tag 2; guidotag "endBar" []]].
Proof. repeat split; vm_compute; reflexivity. Qed.

End Time.

(** ** Positions *)

Section Positions.

Import GuidoPosition.

(** C8, as the code has it. [addPosY] and [addPosX] scale the source
    offset, default plus relative, to half spaces, add the anchor offset
    ([addPosY] then multiplies by its multiplier), and add the parameter
    exactly when the result is not zero. [addPosition] decides on the source
    offset instead: it adds [dx] (and [dy]) exactly when the sum of the
    default and relative attribute is not zero, with the scaled offset plus
    the anchor offset as value. With zero source offsets [addPosition] adds
    no parameter whatever the anchor offsets are, and with zero anchor
    offsets [addPosY] and [addPosX] add none either. *)
Theorem position_conversion (elt : position_elt) (tag : list position_param)
    (yoffset xoffset ymultiplier : spec_float) :
  let source_x := F32.add (default_x elt) (relative_x elt) in
  let source_y := F32.add (default_y elt) (relative_y elt) in
  let result_x := F32.add (to_half_spaces source_x) xoffset in
  let result_y := F32.add (to_half_spaces source_y) yoffset in
  let posy := F32.mul (F32.add (to_half_spaces (F32.add (relative_y elt) (default_y elt)))
                         yoffset) ymultiplier in
  addPosY elt tag yoffset ymultiplier
  = tag ++ (if F32.is_zero posy then [] else [mkPosParam "dy" posy "hs"])
  /\ addPosX elt tag xoffset
     = tag ++ (if F32.is_zero result_x then [] else [mkPosParam "dx" result_x "hs"])
  /\ addPosition elt tag yoffset xoffset
     = tag ++ (if F32.is_zero source_x then [] else [mkPosParam "dx" result_x "hs"])
           ++ (if F32.is_zero source_y then [] else [mkPosParam "dy" result_y "hs"])
  /\ addPosition Sample.no_position tag yoffset xoffset = tag
  /\ addPosY Sample.no_position tag (F32.of_Z 0) (F32.of_Z 1) = tag
  /\ addPosX Sample.no_position tag (F32.of_Z 0) = tag.
Proof.
  cbv zeta. unfold addPosY, addPosX, addPosition, F32.is_zero.
  repeat split.
  - destruct (F32.to_bool _); simpl; [reflexivity | symmetry; apply app_nil_r].
  - destruct (F32.to_bool _); simpl; [reflexivity | symmetry; apply app_nil_r].
  - destruct (F32.to_bool (F32.add (default_x elt) (relative_x elt)));
      destruct (F32.to_bool (F32.add (default_y elt) (relative_y elt)));
      simpl; rewrite ?app_nil_r; try reflexivity.
    rewrite <- app_assoc. reflexivity.
Qed.

(** C8, as the specification has it, fails for [addPosition]: a source offset of
    10 tenths is 2 half spaces, the anchor offset -2 makes the result zero,
    and the [dx] parameter is added with that zero as its value. *)
Lemma addPosition_adds_a_zero :
  addPosition Sample.ten_tenths_right [] (F32.of_Z 0) (F32.of_Z (-2))
  = [mkPosParam "dx" (S754_zero false) "hs"].
Proof. vm_compute. reflexivity. Qed.

End Positions.

(** ** Dispatch to the visitor *)

Section Accept.

Import MsrHarmony.

Context {W E : Type}.

(** C9, as the code has it. [acceptIn] calls [visitStart], and [acceptOut]
    calls [visitEnd], exactly when the cast of the visitor to the typed
    interface succeeds; the result is then the result of the handler. When
    the cast fails no handler is called, the state is returned as it was
    and no error is raised; all the call does is write its trace line if
    tracing the visitors is on, and nothing at all if it is off. *)
Theorem accept_dispatch (fTraceMsrVisitors : bool) (elem : E) (v : basevisitor W E) (w : W) :
  (calls (acceptIn fTraceMsrVisitors elem v w) = [CallVisitStart elem]
   <-> is_Some (dynamic_cast v))
  /\ (calls (acceptOut fTraceMsrVisitors elem v w) = [CallVisitEnd elem]
      <-> is_Some (dynamic_cast v))
  /\ (forall p : visitor W E, dynamic_cast v = Some p ->
        result (acceptIn fTraceMsrVisitors elem v w) = @visitStart W E p elem w
        /\ result (acceptOut fTraceMsrVisitors elem v w) = @visitEnd W E p elem w)
  /\ (dynamic_cast v = None ->
        acceptIn fTraceMsrVisitors elem v w
        = mkDispatch (if fTraceMsrVisitors then ["% ==> msrHarmony::acceptIn ()"%string] else [])
            [] (Done tt w)
        /\ acceptOut fTraceMsrVisitors elem v w
           = mkDispatch (if fTraceMsrVisitors then ["% ==> msrHarmony::acceptOut ()"%string] else [])
               [] (Done tt w))
  /\ (dynamic_cast v = None ->
        acceptIn false elem v w = mkDispatch [] [] (Done tt w)
        /\ acceptOut false elem v w = mkDispatch [] [] (Done tt w)).
Proof.
  unfold acceptIn, acceptOut, trace.
  destruct (dynamic_cast v) as [p|]; simpl.
  - repeat split; eauto; intros; congruence.
  - repeat split; try (intros [? ?]; discriminate); try discriminate; congruence.
Qed.

End Accept.

(** C9, as the specification has it, fails: with the trace of the visitors
    on, [acceptIn] and [acceptOut] on a visitor that implements no handler
    for the element do have an effect, the trace line each writes to the
    log before it tries the cast. *)
Lemma accept_without_handler_traces :
  let v : basevisitor unit nat := mkBaseVisitor None in
  dynamic_cast v = None
  /\ MsrHarmony.acceptIn true 7%nat v tt
     = mkDispatch ["% ==> msrHarmony::acceptIn ()"%string] [] (Done tt tt)
  /\ MsrHarmony.acceptOut true 7%nat v tt
     = mkDispatch ["% ==> msrHarmony::acceptOut ()"%string] [] (Done tt tt)
  /\ logged (MsrHarmony.acceptIn true 7%nat v tt) <> []
  /\ logged (MsrHarmony.acceptOut true 7%nat v tt) <> [].
Proof. cbv zeta. repeat split; discriminate. Qed.

(** ** Notes outside of their scope *)

Section Notes.

Import Lpsr Spec.

Context `{NoteRendering}.




End Notes.



(** ** Repeats *)

Section Repeats.

Import Msr Lpsr Spec.

Lemma read_found (l : loc) (o : msrElement) (t : msr2LpsrTranslator) :
  msrStore t !! l = Some o -> read l t = Done o t.
Proof. intros Hl. unfold read. rewrite Hl. reflexivity. Qed.

(** A handler that accepts the voice replaces it; one that rejects it stops
    the translation at the line given, in the state it was in. *)
Lemma on_current_voice_clone_spec (line : Z) (handler : msrVoiceData -> msrVoiceData + string)
    (voice : loc) (v : msrVoiceData) (t : msr2LpsrTranslator) :
  fCurrentVoiceClone (current t) = Some voice ->
  msrStore t !! voice = Some (msrVoice v) ->
  on_current_voice_clone line handler t
  = match handler v with
    | inl v' => Done tt (put_voice voice v' t)
    | inr message => Fatal line message t
    end.
Proof.
  intros Hptr Hvoice. unfold on_current_voice_clone, bind, get, follow.
  rewrite Hptr. unfold ret. rewrite (read_found _ _ _ Hvoice).
  destruct (handler v); reflexivity.
Qed.

Lemma visit_repeats_cons (visit : repeatVisit) (rest : list repeatVisit) :
  visit_repeats (visit :: rest) = (visit_repeat visit ;;; visit_repeats rest).
Proof. reflexivity. Qed.

(** One visit against one transition of the machine: the visit replaces
    the voice by the voice the machine gives, or stops in a fatal error at
    the line of the element. *)
Lemma visit_repeat_step (visit : repeatVisit) (e : repeatEvent) (t : msr2LpsrTranslator)
    (voice : loc) (v : msrVoiceData) :
  fCurrentVoiceClone (current t) = Some voice ->
  msrStore t !! voice = Some (msrVoice v) ->
  event_of (msrStore t) visit = Some e ->
  match repeat_transition
          (mkMachine (voiceRepeatState v) (voiceOpenRepeat v) (voiceRepeats v)) e with
  | Some m' =>
      visit_repeat visit t
      = Done tt (put_voice voice
                   (with_repeat (machineState m') (machineOpen m') (machineClosed m') v) t)
  | None =>
      exists message : string, visit_repeat visit t = Fatal (event_line e) message t
  end.
Proof.
  intros Hptr Hvoice Hevent.
  destruct visit as [elt|elt|elt|elt|elt|elt]; simpl in Hevent;
    destruct (msrStore t !! elt) as [[]|] eqn:Eelt; try discriminate Hevent;
    injection Hevent as <-;
    unfold visit_repeat, visitStart_msrRepeat, visitEnd_msrRepeat,
      visitStart_msrRepeatCommonPart, visitEnd_msrRepeatCommonPart,
      visitStart_msrRepeatEnding, visitEnd_msrRepeatEnding;
    unfold bind; rewrite (read_found _ _ _ Eelt); cbv beta iota;
    rewrite (on_current_voice_clone_spec _ _ voice v t Hptr Hvoice);
    unfold handleRepeatStartInVoiceClone, handleRepeatEndInVoiceClone,
      handleRepeatCommonPartStartInVoiceClone, handleRepeatCommonPartEndInVoiceClone,
      handleRepeatEndingStartInVoiceClone, handleRepeatEndingEndInVoiceClone,
      repeat_transition, record_ending;
    destruct v as [vname vkind vinserted velements vuplink vstate vopen vclosed]; simpl;
    destruct vstate; simpl; try destruct vopen; simpl;
    try reflexivity; try (eexists; reflexivity).
Qed.

Lemma put_voice_machine (voice : loc) (v : msrVoiceData) (s : repeatState)
    (o : option repeatWrapper) (c : list repeatWrapper) (t : msr2LpsrTranslator) :
  msrStore t !! voice = Some (msrVoice v) ->
  repeat_machine_of voice (put_voice voice (with_repeat s o c v) t) = Some (mkMachine s o c)
  /\ only_repeats_differ voice t (put_voice voice (with_repeat s o c v) t).
Proof.
  intros Hvoice. unfold repeat_machine_of, only_repeats_differ, put_voice, set_store.
  cbn [msrStore fVisitedMsrScore fCurrentMsrScoreClone fLpsrScore fPartGroupsStack
         fTupletClonesStack current onGoing].
  rewrite lookup_insert_eq. split; [reflexivity|]. split.
  - intros l Hl. apply lookup_insert_ne. congruence.
  - split; [|reflexivity]. exists v, (with_repeat s o c v).
    split; [exact Hvoice|]. split; reflexivity.
Qed.

Lemma only_repeats_differ_refl (voice : loc) (v : msrVoiceData) (t : msr2LpsrTranslator) :
  msrStore t !! voice = Some (msrVoice v) -> only_repeats_differ voice t t.
Proof.
  intros Hvoice. split; [reflexivity|]. split; [|reflexivity].
  exists v, v. repeat split; assumption.
Qed.

Lemma only_repeats_differ_trans (voice : loc) (t1 t2 t3 : msr2LpsrTranslator) :
  only_repeats_differ voice t1 t2 -> only_repeats_differ voice t2 t3 ->
  only_repeats_differ voice t1 t3.
Proof.
  intros (Hs1 & (v1 & v2 & Hv1 & Hv2 & Ha1) & Hf1) (Hs2 & (v2' & v3 & Hv2' & Hv3 & Ha2) & Hf2).
  split; [intros l Hl; rewrite Hs2, Hs1 by exact Hl; reflexivity|].
  split; [|congruence].
  exists v1, v3. assert (v2' = v2) as -> by congruence.
  repeat split; [assumption | assumption | congruence].
Qed.

(** The events of the visits are read from elements that the visits do not
    write to. *)
Lemma events_of_put_voice (voice : loc) (v v' : msrVoiceData) (t : msr2LpsrTranslator)
    (visits : list repeatVisit) :
  msrStore t !! voice = Some (msrVoice v) ->
  events_of (msrStore (put_voice voice v' t)) visits = events_of (msrStore t) visits.
Proof.
  intros Hvoice.
  assert (Hone : forall visit : repeatVisit,
             event_of (msrStore (put_voice voice v' t)) visit = event_of (msrStore t) visit).
  { intros [elt|elt|elt|elt|elt|elt]; unfold put_voice; simpl;
      (destruct (decide (elt = voice)) as [->|Hne];
       [rewrite lookup_insert_eq, Hvoice; reflexivity
       | rewrite lookup_insert_ne by congruence; reflexivity]). }
  induction visits as [|visit rest IH]; [reflexivity|].
  cbn [events_of]. rewrite Hone, IH. reflexivity.
Qed.

Lemma transition_keeps_wrapper (m m' : repeatMachine) (e : repeatEvent) :
  wrapper_open_inside m -> repeat_transition m e = Some m' -> wrapper_open_inside m'.
Proof.
  unfold wrapper_open_inside, repeat_transition.
  destruct m as [state open closed]; simpl. intros Hm Hstep.
  destruct e, state, open; simpl in Hstep; try discriminate Hstep;
    injection Hstep as <-; simpl; try exact Hm;
    split; intros Heq; try discriminate Heq; try reflexivity;
    try (apply Hm in Heq; discriminate Heq).
Qed.

Lemma run_keeps_wrapper (events : list repeatEvent) :
  forall m m' : repeatMachine,
    wrapper_open_inside m -> run_machine m events = inl m' -> wrapper_open_inside m'.
Proof.
  induction events as [|e rest IH]; intros m m' Hm Hrun; simpl in Hrun.
  - injection Hrun as <-. exact Hm.
  - destruct (repeat_transition m e) as [m1|] eqn:Estep; [|discriminate Hrun].
    apply (IH m1 m'); [|exact Hrun]. eapply transition_keeps_wrapper; eassumption.
Qed.

(** A run of repeat visits against the machine. *)
Lemma visit_repeats_run (visits : list repeatVisit) :
  forall (events : list repeatEvent) (t : msr2LpsrTranslator) (voice : loc)
         (v : msrVoiceData),
    fCurrentVoiceClone (current t) = Some voice ->
    msrStore t !! voice = Some (msrVoice v) ->
    events_of (msrStore t) visits = Some events ->
    match run_machine (mkMachine (voiceRepeatState v) (voiceOpenRepeat v) (voiceRepeats v))
            events with
    | inl m' =>
        exists t' : msr2LpsrTranslator,
          visit_repeats visits t = Done tt t'
          /\ repeat_machine_of voice t' = Some m'
          /\ only_repeats_differ voice t t'
    | inr line =>
        exists (message : string) (t' : msr2LpsrTranslator),
          visit_repeats visits t = Fatal line message t'
    end.
Proof.
  induction visits as [|visit rest IH]; intros events t voice v Hptr Hvoice Hevents.
  - injection Hevents as <-. simpl. exists t.
    split; [reflexivity|]. split.
    + unfold repeat_machine_of. rewrite Hvoice. reflexivity.
    + eapply only_repeats_differ_refl; eassumption.
  - cbn [events_of] in Hevents.
    destruct (event_of (msrStore t) visit) as [e|] eqn:Eevent; [|discriminate Hevents].
    destruct (events_of (msrStore t) rest) as [es|] eqn:Erest; [|discriminate Hevents].
    injection Hevents as <-.
    pose proof (visit_repeat_step visit e t voice v Hptr Hvoice Eevent) as Hstep.
    cbn [run_machine].
    destruct (repeat_transition _ e) as [[s o c]|].
    + simpl in Hstep.
      destruct (put_voice_machine voice v s o c t Hvoice) as [Hm1 Hframe1].
      set (t1 := put_voice voice (with_repeat s o c v) t) in *.
      assert (Hvoice1 : msrStore t1 !! voice = Some (msrVoice (with_repeat s o c v)))
        by (unfold t1, put_voice; simpl; apply lookup_insert_eq).
      assert (Hevents1 : events_of (msrStore t1) rest = Some es)
        by (unfold t1; rewrite (events_of_put_voice voice v _ t rest Hvoice); exact Erest).
      specialize (IH es t1 voice (with_repeat s o c v) Hptr Hvoice1 Hevents1).
      simpl in IH.
      destruct (run_machine (mkMachine s o c) es) as [m'|line].
      * destruct IH as (t' & Hrun & Hm' & Hframe).
        exists t'. split.
        { rewrite visit_repeats_cons. unfold bind. rewrite Hstep. exact Hrun. }
        split; [exact Hm'|].
        eapply only_repeats_differ_trans; eassumption.
      * destruct IH as (message & t' & Hrun).
        exists message, t'.
        rewrite visit_repeats_cons. unfold bind. rewrite Hstep. exact Hrun.
    + destruct Hstep as [message Hstep].
      exists message, t. rewrite visit_repeats_cons. unfold bind. rewrite Hstep. reflexivity.
Qed.

(** C3. On the current voice clone the repeat visits follow the state
    machine of the specification. A run of repeat visits that the machine
    accepts returns, and leaves the voice in the state, with the open
    wrapper and the closed wrappers, that the machine is in after the
    events of the visits: one state at a time, the one the machine gives;
    nothing else in the store or in the translator has changed, and a
    wrapper is open exactly when the state is not [Outside] if that was so
    before. A run the machine does not accept stops in a fatal error at the
    line of the first element it does not accept. In particular: the start
    of a repeat moves the voice from [Outside] to [InCommonPart] and opens
    a wrapper for the repeat; the start of an ending moves it from
    [InCommonPart] to [InEnding] with the number and kind of the ending;
    the end of an ending leaves [InEnding] and records that number and kind
    in the open wrapper; the end of a repeat closes the wrapper and returns
    to [Outside]; and the start of an ending while the voice is [InEnding]
    is a fatal error at the line of the ending. *)
Theorem repeat_state_machine (visits : list repeatVisit) (events : list repeatEvent)
    (t : msr2LpsrTranslator) (voice : loc) (m : repeatMachine) :
  fCurrentVoiceClone (current t) = Some voice ->
  repeat_machine_of voice t = Some m ->
  events_of (msrStore t) visits = Some events ->
  match run_machine m events with
  | inl m' =>
      exists t' : msr2LpsrTranslator,
        visit_repeats visits t = Done tt t'
        /\ repeat_machine_of voice t' = Some m'
        /\ only_repeats_differ voice t t'
        /\ (wrapper_open_inside m -> wrapper_open_inside m')
  | inr line =>
      exists (message : string) (t' : msr2LpsrTranslator),
        visit_repeats visits t = Fatal line message t'
  end
  /\ (forall (r : loc) (line : Z),
        msrStore t !! r = Some (msrRepeat line) ->
        (machineState m = Outside ->
         exists t' : msr2LpsrTranslator,
           visitStart_msrRepeat r t = Done tt t'
           /\ repeat_machine_of voice t'
              = Some (mkMachine InCommonPart (Some (mkWrapper r [])) (machineClosed m)))
        /\ (forall w : repeatWrapper,
              machineState m = InCommonPart -> machineOpen m = Some w ->
              exists t' : msr2LpsrTranslator,
                visitEnd_msrRepeat r t = Done tt t'
                /\ repeat_machine_of voice t'
                   = Some (mkMachine Outside None (machineClosed m ++ [w]))))
  /\ (forall (e : loc) (line : Z) (number : string) (kind : msrRepeatEndingKind),
        msrStore t !! e = Some (msrRepeatEnding line number kind) ->
        (machineState m = InCommonPart ->
         exists t' : msr2LpsrTranslator,
           visitStart_msrRepeatEnding e t = Done tt t'
           /\ repeat_machine_of voice t'
              = Some (mkMachine (InEnding number kind) (machineOpen m) (machineClosed m)))
        /\ (forall (n : string) (k : msrRepeatEndingKind) (w : repeatWrapper),
              machineState m = InEnding n k -> machineOpen m = Some w ->
              exists t' : msr2LpsrTranslator,
                visitEnd_msrRepeatEnding e t = Done tt t'
                /\ repeat_machine_of voice t'
                   = Some (mkMachine InCommonPart
                             (Some (mkWrapper (wrapperRepeat w)
                                      (wrapperEndings w ++ [(n, k)])))
                             (machineClosed m)))
        /\ (is_in_ending (machineState m) ->
            exists message : string,
              visitStart_msrRepeatEnding e t = Fatal line message t)).
Proof.
  intros Hptr Hm Hevents.
  unfold repeat_machine_of in Hm.
  destruct (msrStore t !! voice) as [[| | | |v| | | | | | | | |]|] eqn:Hvoice;
    try discriminate Hm.
  injection Hm as <-.
  assert (Hone : forall (visit : repeatVisit) (e : repeatEvent),
             event_of (msrStore t) visit = Some e ->
             match repeat_transition
                     (mkMachine (voiceRepeatState v) (voiceOpenRepeat v) (voiceRepeats v))
                     e with
             | Some m' =>
                 exists t' : msr2LpsrTranslator,
                   visit_repeat visit t = Done tt t' /\ repeat_machine_of voice t' = Some m'
             | None =>
                 exists message : string,
                   visit_repeat visit t = Fatal (event_line e) message t
             end).
  { intros visit e Hevent.
    pose proof (visit_repeat_step visit e t voice v Hptr Hvoice Hevent) as Hstep.
    destruct (repeat_transition _ e) as [[s o c]|]; [|exact Hstep].
    simpl in Hstep. eexists. split; [exact Hstep|].
    apply put_voice_machine, Hvoice. }
  split.
  { pose proof (visit_repeats_run visits events t voice v Hptr Hvoice Hevents) as Hrun.
    destruct (run_machine _ events) as [m'|line] eqn:Erun; [|exact Hrun].
    destruct Hrun as (t' & Hrun & Hm' & Hframe).
    exists t'. split; [exact Hrun|]. split; [exact Hm'|]. split; [exact Hframe|].
    intros Hopen. eapply run_keeps_wrapper; eassumption. }
  split.
  { intros r line Hr. split.
    - intros Hstate.
      specialize (Hone (RepeatStart r) (StartOfRepeat line r)).
      simpl in Hone. rewrite Hr in Hone. specialize (Hone eq_refl).
      unfold repeat_transition in Hone. simpl in *. rewrite Hstate in Hone. exact Hone.
    - intros w Hstate Hopen.
      specialize (Hone (RepeatEnd r) (EndOfRepeat line)).
      simpl in Hone. rewrite Hr in Hone. specialize (Hone eq_refl).
      unfold repeat_transition in Hone. simpl in *. rewrite Hstate, Hopen in Hone.
      exact Hone. }
  intros e line number kind He. split; [|split].
  - intros Hstate.
    specialize (Hone (RepeatEndingStart e) (StartOfEnding line number kind)).
    simpl in Hone. rewrite He in Hone. specialize (Hone eq_refl).
    unfold repeat_transition in Hone. simpl in *. rewrite Hstate in Hone. exact Hone.
  - intros n k w Hstate Hopen.
    specialize (Hone (RepeatEndingEnd e) (EndOfEnding line)).
    simpl in Hone. rewrite He in Hone. specialize (Hone eq_refl).
    unfold repeat_transition in Hone. simpl in *. rewrite Hstate, Hopen in Hone.
    exact Hone.
  - intros (n & k & Hstate).
    specialize (Hone (RepeatEndingStart e) (StartOfEnding line number kind)).
    simpl in Hone. rewrite He in Hone. specialize (Hone eq_refl).
    unfold repeat_transition in Hone. simpl in *. rewrite Hstate in Hone. exact Hone.
Qed.

(** A repeat with its common part and one ending, from start to end. *)
Lemma repeat_state_machine_witness :
  exists t' : msr2LpsrTranslator,
    visit_repeats [RepeatStart 1%nat; RepeatCommonPartStart 4%nat; RepeatCommonPartEnd 4%nat;
                   RepeatEndingStart 2%nat; RepeatEndingEnd 2%nat; RepeatEnd 1%nat]
      Sample.translator_before_repeat = Done tt t'
    /\ repeat_machine_of 3%nat t'
       = Some (mkMachine Outside None [mkWrapper 1%nat [("2"%string, kHookedEnding)]]).
Proof.
  assert (Hptr : fCurrentVoiceClone (current Sample.translator_before_repeat) = Some 3%nat)
    by reflexivity.
  assert (Hm : repeat_machine_of 3%nat Sample.translator_before_repeat
               = Some (mkMachine Outside None []))
    by (vm_compute; reflexivity).
  assert (Hevents :
            events_of (msrStore Sample.translator_before_repeat)
              [RepeatStart 1%nat; RepeatCommonPartStart 4%nat; RepeatCommonPartEnd 4%nat;
               RepeatEndingStart 2%nat; RepeatEndingEnd 2%nat; RepeatEnd 1%nat]
            = Some [StartOfRepeat 5 1%nat; StartOfCommonPart 5; EndOfCommonPart 5;
                    StartOfEnding 12 "2" kHookedEnding; EndOfEnding 12; EndOfRepeat 5])
    by (vm_compute; reflexivity).
  destruct (repeat_state_machine _ _ Sample.translator_before_repeat 3%nat _
              Hptr Hm Hevents) as [Hrun _].
  simpl in Hrun. destruct Hrun as (t' & Hrun & Hm' & _).
  exists t'. split; assumption.
Defined.

End Repeats.

(** ** The stack of tuplet clones *)

Section Tuplets.

Import Msr Lpsr Spec.

Lemma fresh_is_free (σ : gmap loc msrElement) : σ !! fresh (dom σ) = None.
Proof. apply not_elem_of_dom, is_fresh. Qed.

Lemma visit_tuplets_app (a b : list tupletVisit) (t : msr2LpsrTranslator) :
  visit_tuplets (a ++ b) t = (visit_tuplets a ;;; visit_tuplets b) t.
Proof.
  revert t. induction a as [|e a IH]; intros t; [reflexivity|].
  simpl. unfold bind. destruct (visit_tuplet e t); try reflexivity.
  rewrite IH. reflexivity.
Qed.

(** The start of a tuplet pushes a newborn clone, at a fresh address. *)
Lemma visitStart_msrTuplet_spec (elt : loc) (line : Z) (shape : msrTupletLineShapeKind)
    (es : list loc) (lpsr : lpsrScore) (t : msr2LpsrTranslator) :
  msrStore t !! elt = Some (msrTuplet line shape es) ->
  fLpsrScore t = Some lpsr ->
  let clone := fresh (dom (msrStore t)) in
  visitStart_msrTuplet elt t
  = Done tt
      (set_lpsr_score (Some (setTupletsCurvedBracketsSchemeFunctionIsNeeded lpsr))
         (set_tuplets_stack (clone :: fTupletClonesStack t)
            (set_store (<[clone := msrTuplet line shape []]> (msrStore t)) t))).
Proof.
  intros Helt Hlpsr clone.
  assert (Hne : clone <> elt).
  { intros Heq. pose proof (fresh_is_free (msrStore t)) as Hfree.
    fold clone in Hfree. rewrite Heq, Helt in Hfree. discriminate. }
  unfold visitStart_msrTuplet, bind, create, createTupletNewbornClone, alloc.
  rewrite Helt. fold clone. unfold modify, read. simpl.
  rewrite lookup_insert_ne by exact Hne. rewrite Helt.
  destruct shape; unfold update_lpsr_score; simpl; rewrite Hlpsr; reflexivity.
Qed.

(** The end of a tuplet with one clone on the stack appends the tuplet
    visited to the current voice clone. *)
Lemma visitEnd_msrTuplet_top_level (elt clone voice : loc) (v : msrVoiceData)
    (t : msr2LpsrTranslator) :
  fTupletClonesStack t = [clone] ->
  fCurrentVoiceClone (current t) = Some voice ->
  msrStore t !! voice = Some (msrVoice v) ->
  visitEnd_msrTuplet elt t
  = Done tt
      (set_store
         (<[voice := msrVoice (with_voice_elements (voiceElements v ++ [elt]) v)]>
            (msrStore t))
         (set_tuplets_stack [] t)).
Proof.
  intros Hstack Hptr Hvoice.
  unfold visitEnd_msrTuplet, bind, get. rewrite Hstack. simpl.
  rewrite Hptr. simpl. unfold update, appendToVoice. simpl. rewrite Hvoice. reflexivity.
Qed.

(** The end of a tuplet with more clones on the stack nests the tuplet
    visited in the clone that is the new top. *)
Lemma visitEnd_msrTuplet_nested (elt clone enclosing : loc) (rest : list loc)
    (line : Z) (shape : msrTupletLineShapeKind) (es : list loc) (t : msr2LpsrTranslator) :
  fTupletClonesStack t = clone :: enclosing :: rest ->
  msrStore t !! enclosing = Some (msrTuplet line shape es) ->
  visitEnd_msrTuplet elt t
  = Done tt
      (set_store (<[enclosing := msrTuplet line shape (es ++ [elt])]> (msrStore t))
         (set_tuplets_stack (enclosing :: rest) t)).
Proof.
  intros Hstack Henclosing.
  unfold visitEnd_msrTuplet, bind, get. rewrite Hstack. simpl.
  unfold update, addToTuplet. simpl. rewrite Henclosing. reflexivity.
Qed.

Lemma is_tuplet_at_insert_tuplet (σ : gmap loc msrElement) (l l' : loc) (line : Z)
    (shape : msrTupletLineShapeKind) (es : list loc) :
  is_tuplet_at σ l' -> is_tuplet_at (<[l := msrTuplet line shape es]> σ) l'.
Proof.
  intros Hl'. destruct (decide (l = l')) as [->|Hne].
  - exists line, shape, es. apply lookup_insert_eq.
  - destruct Hl' as (line' & shape' & es' & Hl'). exists line', shape', es'.
    rewrite lookup_insert_ne by exact Hne. exact Hl'.
Qed.

Lemma is_voice_at_insert_voice (σ : gmap loc msrElement) (l l' : loc) (v : msrVoiceData) :
  is_voice_at σ l' -> is_voice_at (<[l := msrVoice v]> σ) l'.
Proof.
  intros Hl'. destruct (decide (l = l')) as [->|Hne].
  - exists v. apply lookup_insert_eq.
  - destruct Hl' as (v' & Hl'). exists v'.
    rewrite lookup_insert_ne by exact Hne. exact Hl'.
Qed.

Lemma kinds_kept_trans (σ1 σ2 σ3 : gmap loc msrElement) :
  kinds_kept σ1 σ2 -> kinds_kept σ2 σ3 -> kinds_kept σ1 σ3.
Proof. intros [H1 H1'] [H2 H2']. split; auto. Qed.

Lemma tuplets_known_kept (w : list tupletVisit) (σ σ' : gmap loc msrElement) :
  kinds_kept σ σ' -> tuplets_known w σ -> tuplets_known w σ'.
Proof.
  intros [Hk _] Hw. unfold tuplets_known in *.
  eapply Forall_impl; [exact Hw|]. intros [elt|elt]; auto.
Qed.

Lemma balanced_run (w : list tupletVisit) :
  balanced w ->
  forall t : msr2LpsrTranslator,
    tuplets_known w (msrStore t) -> inside_a_voice t ->
    exists t' : msr2LpsrTranslator,
      visit_tuplets w t = Done tt t'
      /\ fTupletClonesStack t' = fTupletClonesStack t
      /\ current t' = current t
      /\ fLpsrScore t' <> None
      /\ kinds_kept (msrStore t) (msrStore t').
Proof.
  induction 1 as [|elt inner rest Hinner IHinner Hrest IHrest]; intros t Hknown Hin.
  - exists t. destruct Hin as (Hlpsr & _). repeat split; auto.
  - destruct Hin as (Hlpsr & (voice & Hptr & Hvoice) & Hstack).
    apply Forall_cons in Hknown as [(line & shape & es & Helt) Hknown].
    apply Forall_app in Hknown as [Hknown_inner Hknown_rest].
    apply Forall_cons in Hknown_rest as [_ Hknown_rest].
    destruct (fLpsrScore t) as [lpsr|] eqn:Elpsr; [clear Hlpsr | congruence].
    pose proof (visitStart_msrTuplet_spec elt line shape es lpsr t Helt Elpsr) as Hstart.
    cbv zeta in Hstart.
    set (clone := fresh (dom (msrStore t))) in *.
    set (t1 := set_lpsr_score _ _) in Hstart.
    assert (Hkept1 : kinds_kept (msrStore t) (msrStore t1)).
    { split; intros l Hl; simpl.
      - apply is_tuplet_at_insert_tuplet, Hl.
      - destruct Hl as (v & Hl). exists v. rewrite lookup_insert_ne; [exact Hl|].
        intros Heq. pose proof (fresh_is_free (msrStore t)) as Hfree.
        fold clone in Hfree. rewrite Heq, Hl in Hfree. discriminate. }
    assert (Hcur1 : current t1 = current t) by reflexivity.
    destruct (IHinner t1) as (t2 & Hrun2 & Hstack2 & Hcur2 & Hlpsr2 & Hkept2).
    { eapply tuplets_known_kept; [exact Hkept1 | exact Hknown_inner]. }
    { split; [discriminate|]. split.
      - exists voice. split; [exact Hptr | apply Hkept1, Hvoice].
      - simpl. constructor.
        + exists line, shape, []. apply lookup_insert_eq.
        + eapply Forall_impl; [exact Hstack|]. intros l Hl.
          apply is_tuplet_at_insert_tuplet, Hl. }
    assert (Hend : exists t3 : msr2LpsrTranslator,
               visitEnd_msrTuplet elt t2 = Done tt t3
               /\ fTupletClonesStack t3 = fTupletClonesStack t
               /\ current t3 = current t2
               /\ fLpsrScore t3 = fLpsrScore t2
               /\ kinds_kept (msrStore t2) (msrStore t3)).
    { simpl in Hstack2. destruct (fTupletClonesStack t) as [|enclosing others] eqn:Est.
      - assert (Hv2 : is_voice_at (msrStore t2) voice) by (apply Hkept2, Hkept1, Hvoice).
        destruct Hv2 as (v2 & Hv2).
        eexists. split.
        + apply (visitEnd_msrTuplet_top_level elt clone voice v2 t2 Hstack2);
            [rewrite Hcur2; exact Hptr | exact Hv2].
        + repeat split; simpl; intros l Hl.
          * destruct Hl as (line' & shape' & es' & Hl). exists line', shape', es'.
            rewrite lookup_insert_ne; [exact Hl|].
            intros Heq. rewrite Heq, Hl in Hv2. discriminate.
          * apply is_voice_at_insert_voice, Hl.
      - assert (He2 : is_tuplet_at (msrStore t2) enclosing).
        { apply Hkept2, Hkept1. apply Forall_cons in Hstack as [He _]. exact He. }
        destruct He2 as (line' & shape' & es' & He2).
        eexists. split.
        + apply (visitEnd_msrTuplet_nested elt clone enclosing others line' shape' es' t2
                   Hstack2 He2).
        + repeat split; simpl; intros l Hl.
          * apply is_tuplet_at_insert_tuplet, Hl.
          * destruct Hl as (v & Hl). exists v. rewrite lookup_insert_ne; [exact Hl|].
            intros Heq. rewrite Heq, Hl in He2. discriminate. }
    destruct Hend as (t3 & Hrun3 & Hstack3 & Hcur3 & Hlpsr3 & Hkept3).
    assert (Hkept03 : kinds_kept (msrStore t) (msrStore t3)).
    { eapply kinds_kept_trans; [exact Hkept1|].
      eapply kinds_kept_trans; [exact Hkept2 | exact Hkept3]. }
    destruct (IHrest t3) as (t4 & Hrun4 & Hstack4 & Hcur4 & Hlpsr4 & Hkept4).
    { eapply tuplets_known_kept; [exact Hkept03 | exact Hknown_rest]. }
    { split; [congruence|]. split.
      - exists voice. split; [congruence | apply Hkept03, Hvoice].
      - rewrite Hstack3. eapply Forall_impl; [exact Hstack|].
        intros l Hl. apply Hkept03, Hl. }
    exists t4. split.
    + cbn [visit_tuplets visit_tuplet]. unfold bind at 1. rewrite Hstart.
      rewrite visit_tuplets_app. unfold bind at 1. rewrite Hrun2.
      cbn [visit_tuplets visit_tuplet]. unfold bind at 1. rewrite Hrun3. exact Hrun4.
    + split; [congruence|]. split; [congruence|]. split; [exact Hlpsr4|].
      eapply kinds_kept_trans; [exact Hkept03 | exact Hkept4].
Qed.

(** C2, as the code has it. A balanced run of tuplet visits, started inside
    a voice, returns with the stack of tuplet clones as it was: empty after
    the end of the outermost tuplet when it was empty before. The end of a
    tuplet pops the stack; if the stack is then not empty one element is
    added to the tuplet that is the new top, and to nothing else, otherwise
    one element is appended to the current voice clone, and to nothing
    else. With an empty stack the end of a tuplet does not stop in a fatal
    error: it pops the empty stack, which is not defined. *)
Theorem tuplet_stack_discipline (w : list tupletVisit) (elt : loc)
    (t : msr2LpsrTranslator) :
  balanced w ->
  tuplets_known w (msrStore t) ->
  inside_a_voice t ->
  (exists t' : msr2LpsrTranslator,
     visit_tuplets w t = Done tt t'
     /\ fTupletClonesStack t' = fTupletClonesStack t)
  /\ (forall (clone voice : loc) (v : msrVoiceData),
        fTupletClonesStack t = [clone] ->
        fCurrentVoiceClone (current t) = Some voice ->
        msrStore t !! voice = Some (msrVoice v) ->
        exists (t' : msr2LpsrTranslator) (v' : msrVoiceData) (x : loc),
          visitEnd_msrTuplet elt t = Done tt t'
          /\ fTupletClonesStack t' = []
          /\ msrStore t' !! voice = Some (msrVoice v')
          /\ voiceElements v' = voiceElements v ++ [x]
          /\ forall l : loc, l <> voice -> msrStore t' !! l = msrStore t !! l)
  /\ (forall (clone enclosing : loc) (rest : list loc) (line : Z)
             (shape : msrTupletLineShapeKind) (es : list loc),
        fTupletClonesStack t = clone :: enclosing :: rest ->
        msrStore t !! enclosing = Some (msrTuplet line shape es) ->
        exists (t' : msr2LpsrTranslator) (x : loc),
          visitEnd_msrTuplet elt t = Done tt t'
          /\ fTupletClonesStack t' = enclosing :: rest
          /\ msrStore t' !! enclosing = Some (msrTuplet line shape (es ++ [x]))
          /\ forall l : loc, l <> enclosing -> msrStore t' !! l = msrStore t !! l)
  /\ (fTupletClonesStack t = [] -> visitEnd_msrTuplet elt t = Undefined).
Proof.
  intros Hbalanced Hknown Hin.
  split.
  { destruct (balanced_run w Hbalanced t Hknown Hin) as (t' & Hrun & Hstack & _).
    exists t'. split; assumption. }
  split.
  { intros clone voice v Hstack Hptr Hvoice.
    eexists _, _, elt. split.
    - exact (visitEnd_msrTuplet_top_level elt clone voice v t Hstack Hptr Hvoice).
    - simpl. split; [reflexivity|]. split; [apply lookup_insert_eq|].
      split; [reflexivity|].
      intros l Hl. apply lookup_insert_ne. congruence. }
  split.
  { intros clone enclosing rest line shape es Hstack Henclosing.
    eexists _, elt. split.
    - exact (visitEnd_msrTuplet_nested elt clone enclosing rest line shape es t Hstack
               Henclosing).
    - simpl. split; [reflexivity|]. split; [apply lookup_insert_eq|].
      intros l Hl. apply lookup_insert_ne. congruence. }
  intros Hempty. unfold visitEnd_msrTuplet, bind, get. rewrite Hempty. reflexivity.
Qed.

Lemma tuplet_stack_discipline_witness :
  exists t' : msr2LpsrTranslator,
    visit_tuplets [TupletStart 1%nat; TupletStart 2%nat; TupletEnd 2%nat; TupletEnd 1%nat]
      Sample.translator_in_voice = Done tt t'
    /\ fTupletClonesStack t' = [].
Proof.
  assert (Hbalanced :
            balanced ([TupletStart 1%nat]
                        ++ ([TupletStart 2%nat] ++ [] ++ TupletEnd 2%nat :: [])
                        ++ TupletEnd 1%nat :: [])).
  { apply (balanced_tuplet 1%nat _ []); [|constructor].
    apply (balanced_tuplet 2%nat [] []); constructor. }
  assert (Hknown :
            tuplets_known
              [TupletStart 1%nat; TupletStart 2%nat; TupletEnd 2%nat; TupletEnd 1%nat]
              (msrStore Sample.translator_in_voice)).
  { repeat constructor.
    - exists 20, kTupletLineShapeCurved, [2%nat]. vm_compute. reflexivity.
    - exists 21, kTupletLineShapeStraight, []. vm_compute. reflexivity. }
  assert (Hin : inside_a_voice Sample.translator_in_voice).
  { split; [discriminate|]. split; [|constructor].
    exists 3%nat. split; [reflexivity|]. eexists. vm_compute. reflexivity. }
  exact (proj1 (tuplet_stack_discipline _ 1%nat Sample.translator_in_voice
                  Hbalanced Hknown Hin)).
Defined.

(** C2, as the specification has it, fails: the end of a tuplet while the stack is
    empty is not a fatal error. *)
Lemma tuplet_end_on_empty_stack_is_not_fatal :
  fTupletClonesStack Sample.translator_in_voice = []
  /\ visitEnd_msrTuplet 1%nat Sample.translator_in_voice = Undefined
  /\ ~ (exists (line : Z) (message : string) (s : msr2LpsrTranslator),
          visitEnd_msrTuplet 1%nat Sample.translator_in_voice = Fatal line message s).
Proof.
  split; [reflexivity|]. split; [reflexivity|].
  intros (line & message & s & Hfatal). discriminate Hfatal.
Qed.

End Tuplets.

(** ** The canonical MSR and its clones *)

Section Clones.

Import Msr Lpsr Spec.

Context `{NoteRendering}.


























































End Clones.


(** ** The staves of a part *)

Section Staves.

Import Guido Spec.

Context `{PartCollaborators}.

Lemma grow_nil (st : list guidoelement) : grow [] st = st.
Proof. destruct st; reflexivity. Qed.

Lemma grow_app (a b : list guidoelement) (st : list guidoelement) :
  grow (a ++ b) st = grow b (grow a st).
Proof. destruct st as [|top rest]; [reflexivity|]. simpl. rewrite fold_left_app. reflexivity. Qed.

Lemma grow_seq (l es : list guidoelement) (rest : list guidoelement) :
  grow es (guidoseq l :: rest) = guidoseq (l ++ es) :: rest.
Proof.
  simpl. f_equal. revert l. induction es as [|e es IH]; intros l; simpl.
  - rewrite app_nil_r. reflexivity.
  - rewrite IH, <- app_assoc. reflexivity.
Qed.

Lemma grows_refl (P : guidoelement -> Prop) (v : xml2guidovisitor) : grows P v v.
Proof.
  split; [reflexivity|]. split; [reflexivity|].
  exists []. split; [constructor | symmetry; apply grow_nil].
Qed.

Lemma grows_trans (P : guidoelement -> Prop) (v1 v2 v3 : xml2guidovisitor) :
  grows P v1 v2 -> grows P v2 v3 -> grows P v1 v3.
Proof.
  intros (Hi1 & Ho1 & es1 & HP1 & Hs1) (Hi2 & Ho2 & es2 & HP2 & Hs2).
  split; [congruence|]. split; [congruence|].
  exists (es1 ++ es2). split; [apply Forall_app; auto|].
  rewrite grow_app, <- Hs1. exact Hs2.
Qed.

Lemma grows_weaken (P Q : guidoelement -> Prop) (v v' : xml2guidovisitor) :
  (forall e, P e -> Q e) -> grows P v v' -> grows Q v v'.
Proof.
  intros HPQ (Hi & Ho & es & HP & Hs). split; [exact Hi|]. split; [exact Ho|].
  exists es. split; [eapply Forall_impl; eauto | exact Hs].
Qed.

Lemma grows_add (P : guidoelement -> Prop) (e : guidoelement) (v : xml2guidovisitor) :
  P e -> grows P v (add e v).
Proof.
  intros He. unfold add. destruct (fStack v) as [|top rest] eqn:Est.
  - apply grows_refl.
  - split; [reflexivity|]. split; [reflexivity|].
    exists [e]. split; [repeat constructor; exact He|]. simpl. rewrite Est. reflexivity.
Qed.

(** A visitor that differs from [v] in other fields only. *)
Lemma grows_same (P : guidoelement -> Prop) (v v' : xml2guidovisitor) :
  fCurrentStaffIndex v' = fCurrentStaffIndex v ->
  fCurrentPartStaffOffset v' = fCurrentPartStaffOffset v ->
  fStack v' = fStack v ->
  grows P v v'.
Proof.
  intros Hi Ho Hs. split; [exact Hi|]. split; [exact Ho|].
  exists []. split; [constructor | rewrite grow_nil; exact Hs].
Qed.

Lemma grows_fold {A : Type} (P : guidoelement -> Prop)
    (f : xml2guidovisitor -> A -> xml2guidovisitor) (l : list A) :
  (forall v a, grows P v (f v a)) ->
  forall v, grows P v (fold_left f l v).
Proof.
  intros Hf. induction l as [|a l IH]; intros v; simpl.
  - apply grows_refl.
  - eapply grows_trans; [apply Hf | apply IH].
Qed.

Lemma attribute_tag (name : string) (params : list guidoparam) :
  In name ["clef"; "key"; "meter"]%string -> is_attribute_tag (guidotag name params).
Proof. intros Hin. exists name, params. auto. Qed.

Lemma grows_parseClef (iter : clef_elt) (staffIndex : Z) (v : xml2guidovisitor) :
  grows is_attribute_tag v (parseClef iter staffIndex v).
Proof.
  unfold parseClef. destruct (clef_number iter =? staffIndex); [|apply grows_refl].
  destruct (clef_letter (clef_sign iter)).
  - apply grows_add, attribute_tag. simpl. tauto.
  - apply grows_same; reflexivity.
Qed.

Lemma grows_parseTime (iter : time_elt) (v : xml2guidovisitor) :
  grows is_attribute_tag v (parseTime iter v).
Proof.
  unfold parseTime. destruct (negb _); [|apply grows_refl].
  apply grows_add, attribute_tag. simpl. tauto.
Qed.

Lemma pop_grows (e : guidoelement) (st : list guidoelement) (v : xml2guidovisitor) :
  fStack v = e :: st ->
  fStack (pop v) = grow [e] st
  /\ fCurrentStaffIndex (pop v) = fCurrentStaffIndex v
  /\ fCurrentPartStaffOffset (pop v) = fCurrentPartStaffOffset v.
Proof.
  intros Hst. unfold pop. rewrite Hst. destruct st as [|parent rest]; simpl; auto.
Qed.

(** [createStaff] adds one synthesized staff. *)
Lemma createStaff_builds (staffIndex : Z) (elt : part_elt) (v : xml2guidovisitor) :
  builds [SynthStaff staffIndex] v (createStaff staffIndex elt v)
  /\ fCurrentStaffIndex (createStaff staffIndex elt v) = fCurrentStaffIndex v.
Proof.
  unfold createStaff.
  set (v2 := add (staff_tag staffIndex) (push (guidoseq []) v)).
  assert (Hv2 : fStack v2 = guidoseq [staff_tag staffIndex] :: fStack v) by reflexivity.
  assert (Hi2 : fCurrentStaffIndex v2 = fCurrentStaffIndex v) by reflexivity.
  assert (Ho2 : fCurrentPartStaffOffset v2 = fCurrentPartStaffOffset v) by reflexivity.
  match goal with
  | |- builds _ _ (pop ?v5) /\ _ =>
      assert (Hgrows : grows is_attribute_tag v2 v5)
  end.
  { eapply grows_trans.
    { apply (grows_fold is_attribute_tag (fun v c => parseClef c staffIndex v)).
      intros; apply grows_parseClef. }
    eapply grows_trans.
    { apply (grows_fold is_attribute_tag (fun v k => add (key_tag k) v)).
      intros; apply grows_add, attribute_tag; simpl; tauto. }
    destruct (part_times elt); [apply grows_refl | apply grows_parseTime]. }
  destruct Hgrows as (Hi & Ho & es & Hes & Hst).
  rewrite Hv2, grow_seq in Hst.
  destruct (pop_grows _ _ _ Hst) as (Hpop & Hpi & Hpo).
  split; [|congruence].
  split; [congruence|].
  eexists. split; [|exact Hpop].
  repeat constructor. exists es. split; [reflexivity | exact Hes].
Qed.

Lemma grows_flushHeader (header : scoreHeader) (v : xml2guidovisitor) :
  exists (header' : scoreHeader) (v' : xml2guidovisitor),
    flushHeader header v = Some (header', v') /\ grows (fun _ => True) v v'.
Proof.
  rewrite flushHeader_adds. eexists _, _. split; [reflexivity|].
  unfold add_all. apply (grows_fold (fun _ => True) (fun v e => add e v)).
  intros; apply grows_add; exact I.
Qed.

Lemma grows_flushPartHeader (header : partHeader) (v : xml2guidovisitor) :
  grows (fun _ => True) v (snd (flushPartHeader header v)).
Proof.
  unfold flushPartHeader. destruct (_ && _)%bool; simpl; [|apply grows_refl].
  eapply grows_trans; apply grows_add; exact I.
Qed.

Lemma grows_flushPartGroup (partID : string) (v : xml2guidovisitor) :
  grows (fun _ => True) v (flushPartGroup partID v).
Proof.
  unfold flushPartGroup.
  destruct (find_first_of_partID_inGroup _ _) as [i|]; [|apply grows_refl].
  destruct (fPartGroups v !! i) as [g|]; [|apply grows_refl].
  destruct (Nat.ltb _ _); [|apply grows_refl].
  cbv zeta.
  match goal with
  | |- grows _ _ (with_part_groups _ ?v2) =>
      apply grows_trans with v2; [|apply grows_same; reflexivity]
  end.
  match goal with
  | |- grows _ _ (if _ then _ else ?v1) => apply grows_trans with v1
  end.
  - destruct (bracket g); [apply grows_add; exact I | apply grows_refl].
  - destruct (barlineGrouping g); [apply grows_add; exact I | apply grows_refl].
Qed.

Lemma grows_add_accolade (ps : partsummary) (v : xml2guidovisitor) :
  grows (fun _ => True) v (add_accolade ps v).
Proof.
  unfold add_accolade. destruct (_ && _)%bool.
  - cbv zeta.
    match goal with
    | |- grows _ _ (with_accolade_index _ ?v2) =>
        apply grows_trans with v2; [|apply grows_same; reflexivity]
    end.
    eapply grows_trans; apply grows_add; exact I.
  - destruct (checkLonelyBarFormat _); [apply grows_add; exact I | apply grows_refl].
Qed.


Lemma add_to_open_seq (e : guidoelement) (l : list guidoelement) (st : list guidoelement)
    (v : xml2guidovisitor) :
  fStack v = guidoseq l :: st ->
  fStack (add e v) = guidoseq (l ++ [e]) :: st
  /\ fCurrentStaffIndex (add e v) = fCurrentStaffIndex v
  /\ fCurrentPartStaffOffset (add e v) = fCurrentPartStaffOffset v.
Proof. intros Hst. unfold add. rewrite Hst. simpl. auto. Qed.

(** The body of the voice loop adds one voice sequence. *)
Lemma voice_sequence_builds (ps : partsummary) (elt : part_elt)
    (targetVoice targetStaff : Z) (notesOnly : bool) (cts : rational)
    (v : xml2guidovisitor) :
  exists (cts' : rational) (v' : xml2guidovisitor),
    voice_sequence ps elt targetVoice targetStaff notesOnly cts v = Some (cts', v')
    /\ builds [VoiceStaff (fCurrentStaffIndex v)] v v'
    /\ fCurrentStaffIndex v' = fCurrentStaffIndex v.
Proof.
  unfold voice_sequence. cbv zeta.
  set (v3 := add auto_hide_tag (add (staff_tag _) (push (guidoseq []) v))).
  assert (Hv3 : fStack v3 = guidoseq [staff_tag (fCurrentStaffIndex v); auto_hide_tag]
                              :: fStack v) by reflexivity.
  assert (Hi3 : fCurrentStaffIndex v3 = fCurrentStaffIndex v) by reflexivity.
  assert (Ho3 : fCurrentPartStaffOffset v3 = fCurrentPartStaffOffset v) by reflexivity.
  set (v4 := if part_staff_lines elt =? 0 then v3 else _).
  assert (H34 : grows (fun _ => True) v3 v4).
  { subst v4. destruct (_ =? _); [apply grows_refl | apply grows_add; exact I]. }
  destruct (grows_flushHeader (fHeader v4) v4) as (header & v5 & Hflush & H45).
  rewrite Hflush.
  set (v6 := with_header header v5).
  assert (H56 : grows (fun _ => True) v5 v6) by (apply grows_same; reflexivity).
  pose proof (grows_flushPartHeader
                (default (mkPartHeader EmptyString false) (fPartHeaders v6 !! part_id elt))
                v6) as H67.
  destruct (flushPartHeader _ v6) as [ph v7]. simpl in H67.
  set (v8 := with_part_headers _ v7).
  assert (H78 : grows (fun _ => True) v7 v8) by (apply grows_same; reflexivity).
  set (v9 := flushPartGroup _ v8).
  assert (H89 : grows (fun _ => True) v8 v9) by apply grows_flushPartGroup.
  set (v10 := add_accolade ps v9).
  assert (H910 : grows (fun _ => True) v9 v10) by apply grows_add_accolade.
  set (v11 := if (notesOnly && _)%bool then _ else v10).
  assert (H1011 : grows (fun _ => True) v10 v11).
  { subst v11. destruct (_ && _)%bool; [|apply grows_refl].
    destruct (part_clefs elt); [apply grows_refl|].
    eapply grows_weaken; [|apply grows_parseClef]. auto. }
  set (v12 := fold_left _ _ v11).
  assert (H1112 : grows (fun _ => True) v11 v12).
  { subst v12. apply (grows_fold (fun _ => True) (fun v e => add e v)).
    intros; apply grows_add; exact I. }
  assert (H312 : grows (fun _ => True) v3 v12).
  { repeat (eapply grows_trans; [eassumption|]). apply grows_refl. }
  destruct H312 as (Hi & Ho & es & _ & Hst).
  rewrite Hv3, grow_seq in Hst.
  destruct (add_to_open_seq (staff_tag (fCurrentStaffIndex v12)) _ _ _ Hst)
    as (Hst13 & Hi13 & Ho13).
  destruct (add_to_open_seq (guidotag "endBar" []) _ _ _ Hst13) as (Hst14 & Hi14 & Ho14).
  destruct (pop_grows _ _ _ Hst14) as (Hpop & Hpi & Hpo).
  eexists _, _. split; [reflexivity|].
  split; [|congruence].
  split; [congruence|].
  eexists. split; [|exact Hpop].
  repeat constructor. exists es.
  rewrite Hi, Hi3. rewrite <- !app_assoc. reflexivity.
Qed.

Lemma builds_refl (v : xml2guidovisitor) : builds [] v v.
Proof.
  split; [reflexivity|]. exists []. split; [constructor | symmetry; apply grow_nil].
Qed.

Lemma builds_trans (p1 p2 : list staffEntry) (v1 v2 v3 : xml2guidovisitor) :
  builds p1 v1 v2 -> builds p2 v2 v3 -> builds (p1 ++ p2) v1 v3.
Proof.
  intros (Ho1 & s1 & Hs1 & Hst1) (Ho2 & s2 & Hs2 & Hst2).
  split; [congruence|]. exists (s1 ++ s2).
  split; [apply Forall2_app; assumption|].
  rewrite grow_app, <- Hst1. exact Hst2.
Qed.

Lemma builds_same (v v' : xml2guidovisitor) :
  fCurrentPartStaffOffset v' = fCurrentPartStaffOffset v ->
  fStack v' = fStack v ->
  builds [] v v'.
Proof.
  intros Ho Hst. split; [exact Ho|].
  exists []. split; [constructor | rewrite grow_nil; exact Hst].
Qed.

(** The loop for the intermediate staves synthesizes the staves from the
    current index up to the bound, the bound excluded, and stops at the
    bound. *)
Lemma intermediate_staves_loop_builds (bound : Z) (elt : part_elt) (fuel : nat) :
  forall v : xml2guidovisitor,
    fuel = Z.to_nat (bound - fCurrentStaffIndex v) ->
    let v' := intermediate_staves_loop fuel bound elt v in
    builds (map SynthStaff (seqZ (fCurrentStaffIndex v) (bound - fCurrentStaffIndex v))) v v'
    /\ fCurrentStaffIndex v' = Z.max (fCurrentStaffIndex v) bound.
Proof.
  induction fuel as [|fuel IH]; intros v Hfuel; cbv zeta.
  - rewrite seqZ_nil by lia. simpl. split; [apply builds_refl | lia].
  - cbn [intermediate_staves_loop].
    assert (Hlt : fCurrentStaffIndex v < bound) by lia.
    apply Z.ltb_lt in Hlt as Hltb. rewrite Hltb.
    destruct (createStaff_builds (fCurrentStaffIndex v) elt v) as [Hb1 Hi1].
    set (v1 := createStaff (fCurrentStaffIndex v) elt v) in *.
    set (v2 := with_staff_index (fCurrentStaffIndex v1 + 1) v1).
    assert (Hi2 : fCurrentStaffIndex v2 = fCurrentStaffIndex v + 1)
      by (subst v2; simpl; lia).
    destruct (IH v2) as [Hb3 Hi3]; [lia|].
    rewrite Hi2 in Hb3, Hi3.
    split; [|lia].
    rewrite seqZ_cons by lia. simpl.
    replace (Z.succ (fCurrentStaffIndex v)) with (fCurrentStaffIndex v + 1) by lia.
    replace (Z.pred (bound - fCurrentStaffIndex v))
      with (bound - (fCurrentStaffIndex v + 1)) by lia.
    apply (builds_trans [SynthStaff (fCurrentStaffIndex v)] _ v v1); [exact Hb1|].
    apply (builds_trans [] _ v1 v2); [apply builds_same; reflexivity | exact Hb3].
Qed.

(** The loop for the implicit staves synthesizes the staves after the
    current index, up to the bound. *)
Lemma implicit_staves_loop_builds (bound : Z) (elt : part_elt) (fuel : nat) :
  forall v : xml2guidovisitor,
    fuel = Z.to_nat (bound - fCurrentStaffIndex v) ->
    let v' := implicit_staves_loop fuel bound elt v in
    builds (map SynthStaff (seqZ (fCurrentStaffIndex v + 1) (bound - fCurrentStaffIndex v)))
      v v'
    /\ fCurrentStaffIndex v' = Z.max (fCurrentStaffIndex v) bound.
Proof.
  induction fuel as [|fuel IH]; intros v Hfuel; cbv zeta.
  - rewrite seqZ_nil by lia. simpl. split; [apply builds_refl | lia].
  - cbn [implicit_staves_loop].
    assert (Hlt : fCurrentStaffIndex v < bound) by lia.
    apply Z.ltb_lt in Hlt as Hltb. rewrite Hltb.
    set (v1 := with_staff_index (fCurrentStaffIndex v + 1) v).
    assert (Hi1 : fCurrentStaffIndex v1 = fCurrentStaffIndex v + 1) by reflexivity.
    destruct (createStaff_builds (fCurrentStaffIndex v1) elt v1) as [Hb2 Hi2].
    set (v2 := createStaff (fCurrentStaffIndex v1) elt v1) in *.
    destruct (IH v2) as [Hb3 Hi3]; [lia|].
    rewrite Hi2, Hi1 in Hb3, Hi3. rewrite Hi1 in Hb2.
    split; [|lia].
    rewrite seqZ_cons by lia. simpl.
    replace (Z.succ (fCurrentStaffIndex v + 1)) with (fCurrentStaffIndex v + 1 + 1) by lia.
    replace (Z.pred (bound - fCurrentStaffIndex v))
      with (bound - (fCurrentStaffIndex v + 1)) by lia.
    apply (builds_trans [] _ v v1); [apply builds_same; reflexivity|].
    apply (builds_trans [SynthStaff (fCurrentStaffIndex v + 1)] _ v1 v2);
      [exact Hb2 | exact Hb3].
Qed.

(** The head of the voice loop, for main staves that come in order: the
    staves between the staff of the voice before and the main staff of the
    voice are synthesized, and the index is that of the main staff. *)
Lemma select_staff_builds (mainstaff prev targetStaff : Z) (elt : part_elt)
    (v : xml2guidovisitor) :
  (prev = 0 /\ targetStaff = -1) \/ (1 <= prev /\ targetStaff = prev) ->
  fCurrentStaffIndex v = fCurrentPartStaffOffset v + prev ->
  1 <= mainstaff -> prev <= mainstaff ->
  exists (notesOnly : bool) (v' : xml2guidovisitor),
    select_staff mainstaff elt targetStaff v = (mainstaff, notesOnly, v')
    /\ builds (map SynthStaff (seqZ (fCurrentPartStaffOffset v + prev + 1)
                                (mainstaff - prev - 1))) v v'
    /\ fCurrentStaffIndex v' = fCurrentPartStaffOffset v + mainstaff.
Proof.
  intros Hprev Hidx Hmain Hle. unfold select_staff.
  assert (Hstep : forall v1 : xml2guidovisitor,
            fCurrentStaffIndex v1 = fCurrentStaffIndex v + 1 ->
            fCurrentPartStaffOffset v1 = fCurrentPartStaffOffset v ->
            fStack v1 = fStack v ->
            prev < mainstaff ->
            let v' := create_intermediate_staves
                        (mainstaff + fCurrentPartStaffOffset v1) elt v1 in
            builds (map SynthStaff (seqZ (fCurrentPartStaffOffset v + prev + 1)
                                      (mainstaff - prev - 1))) v v'
            /\ fCurrentStaffIndex v' = fCurrentPartStaffOffset v + mainstaff).
  { intros v1 Hi1 Ho1 Hs1 Hlt. cbv zeta. unfold create_intermediate_staves.
    destruct (intermediate_staves_loop_builds (mainstaff + fCurrentPartStaffOffset v1) elt
                _ v1 eq_refl) as [Hb Hi].
    cbv zeta in Hb, Hi.
    split; [|lia].
    assert (Heq : seqZ (fCurrentStaffIndex v1)
                    (mainstaff + fCurrentPartStaffOffset v1 - fCurrentStaffIndex v1)
                  = seqZ (fCurrentPartStaffOffset v + prev + 1) (mainstaff - prev - 1))
      by (f_equal; lia).
    rewrite Heq in Hb.
    apply (builds_trans [] _ v v1); [apply builds_same; assumption | exact Hb]. }
  destruct Hprev as [[-> ->]|[Hprev ->]].
  - simpl (-1 =? -1). cbv iota.
    eexists _, _. split; [reflexivity|].
    apply Hstep; [reflexivity | reflexivity | reflexivity | lia].
  - assert (Hne : (prev =? -1) = false) by (apply Z.eqb_neq; lia). rewrite Hne.
    destruct (prev =? mainstaff) eqn:Eeq.
    + apply Z.eqb_eq in Eeq. subst mainstaff.
      eexists _, _. split; [reflexivity|].
      rewrite seqZ_nil by lia. simpl. split; [apply builds_refl | exact Hidx].
    + apply Z.eqb_neq in Eeq.
      assert (Hgt : (mainstaff >? prev) = true) by (apply Z.gtb_lt; lia). rewrite Hgt.
      eexists _, _. split; [reflexivity|].
      apply Hstep; [reflexivity | reflexivity | reflexivity | lia].
Qed.

Lemma last_cons_default (l : list Z) :
  forall x d : Z, List.last (x :: l) d = List.last l x.
Proof.
  induction l as [|y l IH]; intros x d; [reflexivity|].
  change (List.last (x :: y :: l) d) with (List.last (y :: l) d).
  rewrite (IH y d), (IH y x). reflexivity.
Qed.

(** The voice loop builds the sequences of the voices. *)
Lemma voices_loop_builds (ps : partsummary) (elt : part_elt) (voices : list Z) :
  forall (prev targetStaff : Z) (cts : rational) (v : xml2guidovisitor),
    (prev = 0 /\ targetStaff = -1) \/ (1 <= prev /\ targetStaff = prev) ->
    fCurrentStaffIndex v = fCurrentPartStaffOffset v + prev ->
    non_decreasing_from (Z.max 1 prev) (map (getMainStaff ps) voices) ->
    exists v' : xml2guidovisitor,
      voices_loop ps elt voices targetStaff cts v = Some v'
      /\ builds (voices_plan (fCurrentPartStaffOffset v) prev
                   (map (getMainStaff ps) voices)) v v'
      /\ fCurrentStaffIndex v'
         = fCurrentPartStaffOffset v + List.last (map (getMainStaff ps) voices) prev.
Proof.
  induction voices as [|voice voices IH]; intros prev targetStaff cts v Hprev Hidx Hsorted.
  - exists v. split; [reflexivity|]. split; [apply builds_refl | exact Hidx].
  - cbn [map non_decreasing_from] in Hsorted. destruct Hsorted as [Hle Hsorted].
    set (m := getMainStaff ps voice) in *.
    destruct (select_staff_builds m prev targetStaff elt v Hprev Hidx)
      as (notesOnly & v1 & Hselect & Hb1 & Hi1); [lia | lia |].
    destruct (voice_sequence_builds ps elt voice m notesOnly cts v1)
      as (cts' & v2 & Hvoice & Hb2 & Hi2).
    assert (Ho1 : fCurrentPartStaffOffset v1 = fCurrentPartStaffOffset v) by apply Hb1.
    assert (Ho2 : fCurrentPartStaffOffset v2 = fCurrentPartStaffOffset v)
      by (destruct Hb2 as [Ho2 _]; congruence).
    destruct (IH m m cts' v2) as (v3 & Hloop & Hb3 & Hi3).
    { right. split; [lia | reflexivity]. }
    { congruence. }
    { replace (Z.max 1 m) with m by lia. exact Hsorted. }
    exists v3. split.
    + cbn [voices_loop]. fold m. rewrite Hselect, Hvoice. exact Hloop.
    + rewrite Ho2 in Hb3, Hi3. rewrite Hi1 in Hb2. split.
      * cbn [map voices_plan]. fold m.
        apply (builds_trans _ _ v v1); [exact Hb1|].
        apply (builds_trans [VoiceStaff _] _ v1 v2); [exact Hb2 | exact Hb3].
      * rewrite Hi3. cbn [map]. fold m. rewrite last_cons_default. reflexivity.
Qed.

(** *** The plan of the staff sequences *)

Lemma in_seqZ (x m n : Z) : In x (seqZ m n) <-> m <= x < m + n.
Proof. rewrite <- list_elem_of_In. apply elem_of_seqZ. Qed.

Lemma entry_index_synth (l : list Z) : map entry_index (map SynthStaff l) = l.
Proof. induction l as [|x l IH]; simpl; [reflexivity|]. rewrite IH. reflexivity. Qed.

Lemma voice_indices_synth (l : list Z) (plan : list staffEntry) :
  voice_indices (map SynthStaff l ++ plan) = voice_indices plan.
Proof. induction l as [|x l IH]; simpl; [reflexivity | exact IH]. Qed.

Lemma in_synth (i : Z) (l : list Z) : In (SynthStaff i) (map SynthStaff l) <-> In i l.
Proof.
  rewrite in_map_iff. split.
  - intros (x & [= ->] & Hx). exact Hx.
  - intros Hi. exists i. auto.
Qed.

Lemma voice_indices_voices_plan (off : Z) (ms : list Z) :
  forall prev : Z, voice_indices (voices_plan off prev ms) = map (Z.add off) ms.
Proof.
  induction ms as [|m ms IH]; intros prev; [reflexivity|].
  cbn [voices_plan map]. rewrite voice_indices_synth. simpl. rewrite IH. reflexivity.
Qed.

Lemma non_decreasing_bounds (ms : list Z) :
  forall prev : Z,
    non_decreasing_from prev ms ->
    prev <= List.last ms prev
    /\ forall x : Z, In x ms -> prev <= x <= List.last ms prev.
Proof.
  induction ms as [|m ms IH]; intros prev Hsorted.
  - simpl. split; [lia | contradiction].
  - destruct Hsorted as [Hle Hsorted]. rewrite last_cons_default.
    destruct (IH m Hsorted) as [Hlast Hall].
    split; [lia|]. intros x [<-|Hx]; [lia|]. specialize (Hall x Hx). lia.
Qed.

(** The staff indices of the sequences of the voices. *)
Lemma voices_plan_indices (off : Z) (ms : list Z) :
  forall prev : Z,
    non_decreasing_from prev ms ->
    forall i : Z,
      In i (map entry_index (voices_plan off prev ms))
      <-> (off + prev < i <= off + List.last ms prev) \/ (i = off + prev /\ In prev ms).
Proof.
  induction ms as [|m ms IH]; intros prev Hsorted i.
  - simpl. split; [contradiction | intros [?|[_ []]]; lia].
  - destruct Hsorted as [Hle Hsorted].
    destruct (non_decreasing_bounds ms m Hsorted) as [Hlast Hall].
    cbn [voices_plan]. rewrite map_app, entry_index_synth. cbn [map entry_index].
    rewrite in_app_iff, in_seqZ. cbn [In]. rewrite (IH m Hsorted i), last_cons_default.
    split.
    + intros [Hi|[Hi|[Hi|[Hi Hin]]]]; try (left; lia).
      * destruct (decide (m = prev)) as [->|Hne]; [right; split; [lia | left; reflexivity]|].
        left. lia.
      * destruct (decide (m = prev)) as [->|Hne]; [right; split; [lia | left; reflexivity]|].
        left. lia.
    + intros [Hi|[Hi [Hm|Hin]]].
      * destruct (decide (i < off + m)); [left; lia|].
        destruct (decide (i = off + m)); [right; left; lia|].
        right; right; left. lia.
      * right; left. lia.
      * specialize (Hall prev Hin). right; left. lia.
Qed.

(** A synthesized staff lies between main staves and hosts no voice. *)
Lemma voices_plan_synth (off : Z) (ms : list Z) :
  forall prev : Z,
    non_decreasing_from prev ms ->
    forall i : Z,
      In (SynthStaff i) (voices_plan off prev ms) ->
      off + prev < i < off + List.last ms prev /\ ~ In (i - off) ms.
Proof.
  induction ms as [|m ms IH]; intros prev Hsorted i Hin; [contradiction|].
  destruct Hsorted as [Hle Hsorted].
  destruct (non_decreasing_bounds ms m Hsorted) as [Hlast Hall].
  cbn [voices_plan] in Hin. rewrite in_app_iff, in_synth, in_seqZ in Hin.
  rewrite last_cons_default.
  destruct Hin as [Hi|[Hi|Hin]]; [|discriminate Hi|].
  - split; [lia|]. intros [Hm|Hm]; [lia|]. specialize (Hall _ Hm). lia.
  - destruct (IH m Hsorted i Hin) as [Hi Hnot].
    split; [lia|]. intros [Hm|Hm]; [lia | contradiction].
Qed.

(** C6, as the code has it. When a part is visited with the staff index at
    the staff offset, and the main staves of its voices, in the order of
    the voices, are at least 1 and never decrease, the visit opens one
    sequence for each voice, with the staff tag of the offset plus the main
    staff of the voice, and synthesizes one empty staff for each staff
    index that hosts no voice, between main staves and after the last one
    up to the number of staves of the part. The staff indices in use are
    those from offset + 1 to offset + the larger of the number of staves
    and the last main staff, in increasing order, and the index and the
    offset are left at that value and at offset + number of staves. So a
    part whose voices span the staves 1 to N, with N staves, uses exactly
    N staff indices, none of them synthesized, in as many sequences as it
    has voices. *)
Theorem visitStart_part_staves (elt : part_elt) (ps : partsummary) (v : xml2guidovisitor) :
  part_selected v elt ->
  fCurrentStaffIndex v = fCurrentPartStaffOffset v ->
  non_decreasing_from 1 (map (getMainStaff ps) (getVoices ps)) ->
  let ms := map (getMainStaff ps) (getVoices ps) in
  let off := fCurrentPartStaffOffset v in
  let plan := staff_plan off ms (countStaves ps) in
  (exists (v' : xml2guidovisitor) (seqs : list guidoelement),
     visitStart_part elt ps v = Some v'
     /\ Forall2 is_staff_sequence plan seqs
     /\ fStack v' = grow seqs (fStack v)
     /\ fCurrentStaffIndex v' = off + Z.max (countStaves ps) (List.last ms 0)
     /\ fCurrentPartStaffOffset v' = off + countStaves ps)
  /\ voice_indices plan = map (Z.add off) ms
  /\ (forall i : Z,
        In i (map entry_index plan)
        <-> off + 1 <= i <= off + Z.max (countStaves ps) (List.last ms 0))
  /\ (forall i : Z, In (SynthStaff i) plan -> ~ In (i - off) ms).
Proof.
  intros Hselected Hidx Hsorted ms off plan.
  assert (Hsorted0 : non_decreasing_from 0 ms).
  { subst ms. destruct (map _ _); [exact I|]. destruct Hsorted. split; [lia | assumption]. }
  destruct (non_decreasing_bounds ms 1 Hsorted) as [_ Hall1].
  destruct (non_decreasing_bounds ms 0 Hsorted0) as [Hlast0 Hall0].
  split; [|split; [|split]].
  - unfold visitStart_part.
    set (v0 := with_current_part _ _ _ v).
    assert (Hfilter : (negb (fPartNum v0 =? 0)
                       && negb (String.eqb (part_id elt)
                                  ("P" +:+ Cxx.string_of_Z (fPartNum v0))))%bool = false).
    { destruct Hselected as [Hnum|Hid].
      - change (fPartNum v0) with (fPartNum v). rewrite Hnum. reflexivity.
      - change (fPartNum v0) with (fPartNum v). rewrite <- Hid, String.eqb_refl.
        apply andb_false_r. }
    rewrite Hfilter.
    destruct (voices_loop_builds ps elt (getVoices ps) 0 (-1) Rational.zero v0)
      as (v1 & Hloop & Hb1 & Hi1).
    { left. split; reflexivity. }
    { change (fCurrentStaffIndex v0) with (fCurrentStaffIndex v).
      change (fCurrentPartStaffOffset v0) with (fCurrentPartStaffOffset v). lia. }
    { exact Hsorted. }
    rewrite Hloop.
    change (fCurrentPartStaffOffset v0) with off in Hb1, Hi1. fold ms in Hb1, Hi1.
    assert (Ho1 : fCurrentPartStaffOffset v1 = off) by apply Hb1.
    unfold create_implicit_staves.
    destruct (implicit_staves_loop_builds (fCurrentPartStaffOffset v1 + countStaves ps) elt
                _ v1 eq_refl) as [Hb2 Hi2].
    cbv zeta in Hb2, Hi2.
    set (v2 := implicit_staves_loop _ _ elt v1) in *.
    assert (Ho2 : fCurrentPartStaffOffset v2 = off) by (destruct Hb2; congruence).
    assert (Heq : seqZ (fCurrentStaffIndex v1 + 1)
                    (fCurrentPartStaffOffset v1 + countStaves ps - fCurrentStaffIndex v1)
                  = seqZ (off + List.last ms 0 + 1) (countStaves ps - List.last ms 0))
      by (f_equal; lia).
    rewrite Heq in Hb2.
    destruct (builds_trans _ _ v0 v1 v2 Hb1 Hb2) as (_ & seqs & Hseqs & Hst).
    change (fStack v0) with (fStack v) in Hst.
    eexists _, seqs. split; [reflexivity|]. split; [exact Hseqs|]. split; [exact Hst|].
    split; [simpl; lia | simpl; lia].
  - unfold plan, staff_plan. rewrite <- (app_nil_r (voices_plan off 0 ms)) at 1.
    rewrite <- app_assoc. simpl.
    transitivity (voice_indices (voices_plan off 0 ms)); [|apply voice_indices_voices_plan].
    generalize (seqZ (off + List.last ms 0 + 1) (countStaves ps - List.last ms 0)).
    intros l. induction (voices_plan off 0 ms) as [|[i|i] p IH]; simpl.
    + rewrite <- (app_nil_r (map SynthStaff l)). apply voice_indices_synth.
    + exact IH.
    + rewrite IH. reflexivity.
  - intros i. unfold plan, staff_plan.
    rewrite map_app, entry_index_synth, in_app_iff, in_seqZ.
    rewrite (voices_plan_indices off ms 0 Hsorted0 i).
    split.
    + intros [[Hi|[_ Hin]]|Hi]; [lia | | lia]. specialize (Hall1 _ Hin). lia.
    + intros Hi. destruct (decide (i <= off + List.last ms 0)); [left; left; lia | right; lia].
  - intros i Hin. unfold plan, staff_plan in Hin.
    rewrite in_app_iff, in_synth, in_seqZ in Hin.
    destruct Hin as [Hin|Hi].
    + apply (voices_plan_synth off ms 0 Hsorted0 i Hin).
    + intros Hm. specialize (Hall0 _ Hm). lia.
Qed.

End Staves.

Lemma visitStart_part_staves_witness :
  exists (v' : xml2guidovisitor) (seqs : list guidoelement),
    @Guido.visitStart_part Sample.quiet Sample.bare_part (Sample.summary_of [1; 2] 2)
      Sample.visitor0 = Some v'
    /\ Forall2 Spec.is_staff_sequence [Spec.VoiceStaff 1; Spec.VoiceStaff 2] seqs
    /\ fStack v' = Spec.grow seqs [guidochord []]
    /\ fCurrentStaffIndex v' = 2
    /\ fCurrentPartStaffOffset v' = 2.
Proof.
  assert (Hselected : Spec.part_selected Sample.visitor0 Sample.bare_part)
    by (left; reflexivity).
  assert (Hidx : fCurrentStaffIndex Sample.visitor0 = fCurrentPartStaffOffset Sample.visitor0)
    by reflexivity.
  assert (Hsorted : Spec.non_decreasing_from 1
                      (map (getMainStaff (Sample.summary_of [1; 2] 2))
                         (getVoices (Sample.summary_of [1; 2] 2)))).
  { simpl. lia. }
  exact (proj1 (@visitStart_part_staves Sample.quiet Sample.bare_part
                  (Sample.summary_of [1; 2] 2) Sample.visitor0 Hselected Hidx Hsorted)).
Defined.

(** C6, as the specification has it, fails. The main staves 2, 1, 2 of three voices
    span the staves 1 to 2 without gap, and the visit of the part creates
    four sequences, on the staff indices 1, 2, 2 and 3; two voices on the
    one staff of a part get two sequences. *)
Lemma staves_depend_on_the_voices :
  option_map Spec.opened_staffs
    (@Guido.visitStart_part Sample.quiet Sample.bare_part (Sample.summary_of [2; 1; 2] 2)
       Sample.visitor0)
  = Some [Some 1; Some 2; Some 2; Some 3]
  /\ option_map Spec.opened_staffs
       (@Guido.visitStart_part Sample.quiet Sample.bare_part (Sample.summary_of [1; 1] 1)
          Sample.visitor0)
     = Some [Some 1; Some 1].
Proof. split; vm_compute; reflexivity. Qed.

(* ===================================================================== *)
(** * Part III: further properties of the code *)
(* ===================================================================== *)

(** ** The part header and the part group are written once *)

Section PartHeaders.

Import Guido GuidoScore Spec.

(** The part header is written once. [flushPartHeader] adds the two tags
    of a part name, [auto] and [instr], when the header has a name and has
    not been written, and marks it as written; flushing the header it
    leaves adds nothing. A header without a name is never marked. *)
Theorem flushPartHeader_flushes_once (header : partHeader) (v : xml2guidovisitor) :
  let header' := fst (flushPartHeader header v) in
  let v' := snd (flushPartHeader header v) in
  v' = add_all (part_header_elements header) v
  /\ fPartName header' = fPartName header
  /\ ph_visited header'
     = (ph_visited header || negb (Nat.eqb (String.length (fPartName header)) 0))%bool
  /\ forall w : xml2guidovisitor, flushPartHeader header' w = (header', w).
Proof.
  cbv zeta. unfold flushPartHeader, part_header_elements.
  destruct header as [name visited]. simpl.
  destruct visited; simpl.
  - repeat split.
  - destruct (Nat.eqb (String.length name) 0) eqn:E; simpl.
    + repeat split. intros w. rewrite E. reflexivity.
    + repeat split.
Qed.

Context `{PartCollaborators}.

(** [flushPartGroup] writes the group of a part once. When the lookup
    finds a group with a range, it adds the accolade tag if the group has a
    bracket and the bar format tag if it groups bar lines, both with a
    range that starts at the current staff index and is as wide as the
    range of the group, and it marks that group as visited; the other
    groups, their number, and every other field of the visitor stay as
    they are. When no group is found, or the group found has an empty
    range, nothing changes. *)
Theorem flushPartGroup_marks_the_group (partID : string) (v : xml2guidovisitor) :
  let v' := flushPartGroup partID v in
  match find_first_of_partID_inGroup (fPartGroups v) partID with
  | Some i =>
      match fPartGroups v !! i with
      | Some g =>
          if Nat.eqb (String.length (guidoRange g)) 0 then v' = v
          else
            let first := fCurrentStaffIndex v in
            let last := first + (guidoRangeStop g - guidoRangeStart g) in
            with_part_groups (fPartGroups v) v'
              = add_all (part_group_elements g first last) v
            /\ fPartGroups v' = <[i := mark_visited g]> (fPartGroups v)
            /\ length (fPartGroups v') = length (fPartGroups v)
            /\ fPartGroups v' !! i = Some (mark_visited g)
            /\ (forall j : nat, j <> i -> fPartGroups v' !! j = fPartGroups v !! j)
      | None => v' = v
      end
  | None => v' = v
  end.
Proof.
  cbv zeta. unfold flushPartGroup.
  destruct (find_first_of_partID_inGroup (fPartGroups v) partID) as [i|]; [|reflexivity].
  destruct (fPartGroups v !! i) as [g|] eqn:Hg; [|reflexivity].
  destruct (String.length (guidoRange g)) eqn:Hlen; simpl; [reflexivity|].
  unfold part_group_elements, add_all.
  assert (Hgroups : forall (e : guidoelement) (w : xml2guidovisitor),
             fPartGroups (add e w) = fPartGroups w).
  { intros e w. unfold add. destruct (fStack w); reflexivity. }
  assert (Hset : forall (gs : list partGroup) (e : guidoelement) (w : xml2guidovisitor),
             with_part_groups gs (add e w) = add e (with_part_groups gs w)).
  { intros gs e w. unfold add. simpl. destruct (fStack w); reflexivity. }
  assert (Hsame : forall w : xml2guidovisitor, with_part_groups (fPartGroups w) w = w).
  { intros w. destruct w. reflexivity. }
  assert (Hidem : forall (gs gs' : list partGroup) (w : xml2guidovisitor),
             with_part_groups gs (with_part_groups gs' w) = with_part_groups gs w).
  { intros gs gs' w. reflexivity. }
  destruct (bracket g), (barlineGrouping g); simpl;
    rewrite ?Hidem, ?Hset, ?Hgroups, ?Hsame;
    (split; [reflexivity|]); (split; [reflexivity|]);
    (split; [apply length_insert|]);
    (split; [apply list_lookup_insert_eq; apply lookup_lt_Some with g; exact Hg
            | intros j Hj; apply list_lookup_insert_ne; congruence]).
Qed.

End PartHeaders.

(** ** The clefs of a part *)

Section ClefsOfParts.

Import Guido GuidoScore.

Lemma clef_key_is_named (fSign : string) (fLine fOctaveChange : Z) :
  In (clef_key fSign fLine fOctaveChange) clef_names.
Proof.
  unfold clef_key, clef_names.
  repeat match goal with
         | |- context [if ?b then _ else _] => destruct b
         end; simpl; tauto.
Qed.

(** The clefs of the parts only grow. [visitEnd (S_clef&)] records the
    text of the clef, one of nine names, among the clefs of the current
    part: the clefs recorded before, of this part and of the others, are
    all kept, the clefs of the other parts are as they were, and visiting
    the same clef a second time changes nothing. *)
Theorem visitEnd_clef_collects (elt : clef_elt) (v : xml2guidovisitor) :
  let key := clef_key (clef_sign elt) (clef_line elt) (clef_octave_change elt) in
  let v' := visitEnd_clef elt v in
  In key clef_names
  /\ clefs_of (currentPart v) v' = {[key]} ∪ clefs_of (currentPart v) v
  /\ (forall part : string, clefs_of part v ⊆ clefs_of part v')
  /\ (forall part : string, part <> currentPart v -> clefs_of part v' = clefs_of part v)
  /\ visitEnd_clef elt v' = v'.
Proof.
  cbv zeta. unfold clefs_of, visitEnd_clef. simpl.
  split; [apply clef_key_is_named|].
  split; [rewrite lookup_insert_eq; reflexivity|].
  split.
  { intros part. destruct (decide (part = currentPart v)) as [->|Hne].
    - rewrite lookup_insert_eq. simpl. set_solver.
    - rewrite lookup_insert_ne by congruence. reflexivity. }
  split.
  { intros part Hne. rewrite lookup_insert_ne by congruence. reflexivity. }
  unfold with_clefs. simpl. rewrite lookup_insert_eq, insert_insert_eq. simpl.
  f_equal. f_equal. apply leibniz_equiv. set_solver.
Qed.

End ClefsOfParts.

(** ** Every part is counted *)

Section PartsCounted.

Import Guido GuidoScore Spec.

Context `{PartCollaborators}.

Lemma bookkeeping_add (e : guidoelement) (v : xml2guidovisitor) :
  bookkeeping (add e v) = bookkeeping v.
Proof. unfold add. destruct (fStack v); reflexivity. Qed.

Lemma bookkeeping_pop (v : xml2guidovisitor) : bookkeeping (pop v) = bookkeeping v.
Proof. unfold pop. destruct (fStack v) as [|e [|p st]]; reflexivity. Qed.

Lemma bookkeeping_fold_add {A : Type} (f : A -> guidoelement) (l : list A)
    (v : xml2guidovisitor) :
  bookkeeping (fold_left (fun v a => add (f a) v) l v) = bookkeeping v.
Proof.
  revert v. induction l as [|a l IH]; intros v; simpl; [reflexivity|].
  rewrite IH. apply bookkeeping_add.
Qed.

Lemma bookkeeping_parseClef (iter : clef_elt) (staffIndex : Z) (v : xml2guidovisitor) :
  bookkeeping (parseClef iter staffIndex v) = bookkeeping v.
Proof.
  unfold parseClef. destruct (clef_number iter =? staffIndex); [|reflexivity].
  destruct (clef_letter (clef_sign iter)); [apply bookkeeping_add | reflexivity].
Qed.

Lemma bookkeeping_parseTime (iter : time_elt) (v : xml2guidovisitor) :
  bookkeeping (parseTime iter v) = bookkeeping v.
Proof.
  unfold parseTime. destruct (negb _); [apply bookkeeping_add | reflexivity].
Qed.

Lemma bookkeeping_createStaff (staffIndex : Z) (elt : part_elt) (v : xml2guidovisitor) :
  bookkeeping (createStaff staffIndex elt v) = bookkeeping v.
Proof.
  unfold createStaff. rewrite bookkeeping_pop.
  assert (Hclefs : forall (l : list clef_elt) (w : xml2guidovisitor),
             bookkeeping (fold_left (fun v c => parseClef c staffIndex v) l w)
             = bookkeeping w).
  { induction l as [|c l IH]; intros w; simpl; [reflexivity|].
    rewrite IH. apply bookkeeping_parseClef. }
  destruct (part_times elt) as [|t ts].
  - rewrite (bookkeeping_fold_add key_tag), Hclefs, bookkeeping_add. reflexivity.
  - rewrite bookkeeping_parseTime, (bookkeeping_fold_add key_tag), Hclefs, bookkeeping_add.
    reflexivity.
Qed.

Lemma bookkeeping_intermediate_staves_loop (bound : Z) (elt : part_elt) (fuel : nat)
    (v : xml2guidovisitor) :
  bookkeeping (intermediate_staves_loop fuel bound elt v) = bookkeeping v.
Proof.
  revert v. induction fuel as [|fuel IH]; intros v; simpl; [reflexivity|].
  destruct (fCurrentStaffIndex v <? bound); [|reflexivity].
  rewrite IH. apply (bookkeeping_createStaff (fCurrentStaffIndex v) elt v).
Qed.

Lemma bookkeeping_implicit_staves_loop (bound : Z) (elt : part_elt) (fuel : nat)
    (v : xml2guidovisitor) :
  bookkeeping (implicit_staves_loop fuel bound elt v) = bookkeeping v.
Proof.
  revert v. induction fuel as [|fuel IH]; intros v; simpl; [reflexivity|].
  destruct (fCurrentStaffIndex v <? bound); [|reflexivity].
  rewrite IH, bookkeeping_createStaff. reflexivity.
Qed.

Lemma bookkeeping_select_staff (mainstaff : Z) (elt : part_elt) (targetStaff : Z)
    (v : xml2guidovisitor) :
  bookkeeping (snd (select_staff mainstaff elt targetStaff v)) = bookkeeping v.
Proof.
  unfold select_staff, create_intermediate_staves.
  destruct (targetStaff =? -1); simpl.
  { rewrite bookkeeping_intermediate_staves_loop. reflexivity. }
  destruct (targetStaff =? mainstaff); simpl; [reflexivity|].
  rewrite bookkeeping_intermediate_staves_loop.
  destruct (mainstaff >? targetStaff); reflexivity.
Qed.

Lemma bookkeeping_add_all (es : list guidoelement) (v : xml2guidovisitor) :
  bookkeeping (add_all es v) = bookkeeping v.
Proof. apply (bookkeeping_fold_add (fun e => e)). Qed.

Lemma bookkeeping_flushPartGroup (partID : string) (v : xml2guidovisitor) :
  bookkeeping (flushPartGroup partID v) = bookkeeping v.
Proof.
  unfold flushPartGroup.
  destruct (find_first_of_partID_inGroup (fPartGroups v) partID) as [i|]; [|reflexivity].
  destruct (fPartGroups v !! i) as [g|]; [|reflexivity].
  destruct (Nat.ltb 0 (String.length (guidoRange g))); [|reflexivity].
  cbv zeta.
  destruct (bracket g), (barlineGrouping g);
    change (bookkeeping (with_part_groups ?gs ?w)) with (bookkeeping w);
    rewrite ?bookkeeping_add; reflexivity.
Qed.

Lemma bookkeeping_add_accolade (ps : partsummary) (v : xml2guidovisitor) :
  bookkeeping (add_accolade ps v) = bookkeeping v.
Proof.
  unfold add_accolade.
  destruct ((countStaves ps >? 1) && (fCurrentStaffIndex v >? fCurrentAccoladeIndex v))%bool.
  - cbv zeta.
    change (bookkeeping (with_accolade_index ?a ?w)) with (bookkeeping w).
    rewrite !bookkeeping_add. reflexivity.
  - destruct (checkLonelyBarFormat (fCurrentStaffIndex v));
      [apply bookkeeping_add | reflexivity].
Qed.

Lemma flushPartHeader_frame (header : partHeader) (v : xml2guidovisitor) :
  bookkeeping (snd (flushPartHeader header v)) = bookkeeping v.
Proof.
  unfold flushPartHeader. destruct (negb _ && negb _)%bool; simpl; [|reflexivity].
  rewrite !bookkeeping_add. reflexivity.
Qed.

(** The voice sequence of a voice is always written, and it leaves the
    options and the records of the parts as they are. *)
Lemma voice_sequence_returns (ps : partsummary) (elt : part_elt)
    (targetVoice targetStaff : Z) (notesOnly : bool) (currentTimeSign : rational)
    (v : xml2guidovisitor) :
  exists (ts : rational) (v' : xml2guidovisitor),
    voice_sequence ps elt targetVoice targetStaff notesOnly currentTimeSign v
    = Some (ts, v')
    /\ bookkeeping v' = bookkeeping v.
Proof.
  unfold voice_sequence. cbv zeta.
  rewrite flushHeader_adds.
  match goal with
  | |- context [flushPartHeader ?h ?w] =>
      pose proof (flushPartHeader_frame h w) as Hph;
      destruct (flushPartHeader h w) as [ph w'] eqn:Eph
  end.
  simpl in Hph.
  eexists _, _. split; [reflexivity|].
  rewrite bookkeeping_pop, !bookkeeping_add, (bookkeeping_fold_add (fun e => e)).
  match goal with
  | |- bookkeeping (if ?b then _ else _) = _ => destruct b
  end.
  - destruct (part_clefs elt) as [|iter clefs].
    + rewrite bookkeeping_add_accolade, bookkeeping_flushPartGroup.
      change (bookkeeping (with_part_headers ?m ?w)) with (bookkeeping w).
      rewrite Hph.
      change (bookkeeping (with_header ?h ?w)) with (bookkeeping w).
      rewrite bookkeeping_add_all.
      destruct (part_staff_lines elt =? 0); rewrite ?bookkeeping_add; reflexivity.
    + rewrite bookkeeping_parseClef, bookkeeping_add_accolade, bookkeeping_flushPartGroup.
      change (bookkeeping (with_part_headers ?m ?w)) with (bookkeeping w).
      rewrite Hph.
      change (bookkeeping (with_header ?h ?w)) with (bookkeeping w).
      rewrite bookkeeping_add_all.
      destruct (part_staff_lines elt =? 0); rewrite ?bookkeeping_add; reflexivity.
  - rewrite bookkeeping_add_accolade, bookkeeping_flushPartGroup.
    change (bookkeeping (with_part_headers ?m ?w)) with (bookkeeping w).
    rewrite Hph.
    change (bookkeeping (with_header ?h ?w)) with (bookkeeping w).
    rewrite bookkeeping_add_all.
    destruct (part_staff_lines elt =? 0); rewrite ?bookkeeping_add; reflexivity.
Qed.

Lemma voices_loop_returns (ps : partsummary) (elt : part_elt) (voices : list Z) :
  forall (targetStaff : Z) (currentTimeSign : rational) (v : xml2guidovisitor),
  exists v' : xml2guidovisitor,
    voices_loop ps elt voices targetStaff currentTimeSign v = Some v'
    /\ bookkeeping v' = bookkeeping v.
Proof.
  induction voices as [|voice voices IH]; intros targetStaff currentTimeSign v; simpl.
  { exists v. split; reflexivity. }
  pose proof (bookkeeping_select_staff (getMainStaff ps voice) elt targetStaff v) as Hsel.
  destruct (select_staff (getMainStaff ps voice) elt targetStaff v) as [[ts notesOnly] v1].
  simpl in Hsel.
  destruct (voice_sequence_returns ps elt voice ts notesOnly currentTimeSign v1)
    as (cur & v2 & -> & Hseq).
  destruct (IH ts cur v2) as (v3 & -> & Hrest).
  exists v3. split; [reflexivity|]. congruence.
Qed.

Lemma visitStart_part_bookkeeping (elt : part_elt) (ps : partsummary)
    (v : xml2guidovisitor) :
  exists v' : xml2guidovisitor,
    visitStart_part elt ps v = Some v'
    /\ bookkeeping v'
       = (fGenerateBars v, fPartNum v, fBeginMeasure v, fPartsAvailable v + 1, part_id elt,
          <[part_id elt := 1]> (stavesInPart v), clefsInPart v)
    /\ (~ part_selected v elt ->
        v' = with_current_part (part_id elt) (<[part_id elt := 1]> (stavesInPart v))
               (fPartsAvailable v + 1) v).
Proof.
  unfold visitStart_part. cbv zeta.
  set (v0 := with_current_part (part_id elt) (<[part_id elt := 1]> (stavesInPart v))
               (fPartsAvailable v + 1) v).
  change (fPartNum v0) with (fPartNum v).
  destruct (negb (fPartNum v =? 0)
            && negb (String.eqb (part_id elt) ("P" +:+ Cxx.string_of_Z (fPartNum v))))%bool
    eqn:Hfilter.
  { exists v0. repeat split. }
  destruct (voices_loop_returns ps elt (getVoices ps) (-1) Rational.zero v0)
    as (v1 & -> & Hloop).
  eexists. split; [reflexivity|].
  split.
  - unfold create_implicit_staves.
    change (bookkeeping (with_staff_offset ?o ?w)) with (bookkeeping w).
    rewrite bookkeeping_implicit_staves_loop, Hloop. reflexivity.
  - intros Hnot. exfalso. apply Hnot. unfold part_selected.
    apply andb_false_iff in Hfilter. destruct Hfilter as [Hf|Hf].
    + left. apply negb_false_iff, Z.eqb_eq in Hf. exact Hf.
    + right. apply negb_false_iff, String.eqb_eq in Hf. exact Hf.
Qed.

(** Every part is counted, translated or not. The visit of a part always
    returns; it counts the part among the parts available, makes it the
    current part and records one staff for it, and it leaves the options
    of the visitor and the clefs recorded for the parts as they are. A part
    that the part number option filters out gets nothing else: the output
    tree, the staff index and offset, the headers, the groups and the error
    stream are as before. *)
Theorem visitStart_part_counts_the_part (elt : part_elt) (ps : partsummary)
    (v : xml2guidovisitor) :
  exists v' : xml2guidovisitor,
    visitStart_part elt ps v = Some v'
    /\ getPartsAvailable v' = getPartsAvailable v + 1
    /\ currentPart v' = part_id elt
    /\ stavesInPart v' = <[part_id elt := 1]> (stavesInPart v)
    /\ clefsInPart v' = clefsInPart v
    /\ (fGenerateBars v', fPartNum v', fBeginMeasure v')
       = (fGenerateBars v, fPartNum v, fBeginMeasure v)
    /\ (~ part_selected v elt ->
        v' = with_current_part (part_id elt) (<[part_id elt := 1]> (stavesInPart v))
               (fPartsAvailable v + 1) v).
Proof.
  destruct (visitStart_part_bookkeeping elt ps v) as (v' & Hv' & Hall & Hfiltered).
  exists v'. split; [exact Hv'|].
  unfold bookkeeping in Hall.
  injection Hall as Hbars Hnum Hbegin Hparts Hcur Hstaves Hclefs.
  unfold getPartsAvailable.
  repeat split; try assumption; congruence.
Qed.

Lemma total_insert (m : gmap string Z) (part : string) (staves : Z) :
  map_fold (fun (_ : string) (n total : Z) => total + n) 0 (<[part := staves]> m)
  = map_fold (fun (_ : string) (n total : Z) => total + n) 0 m
    - default 0 (m !! part) + staves.
Proof.
  assert (Hcomm : forall (m' : gmap string Z) (j1 j2 : string) (z1 z2 y : Z),
             j1 <> j2 -> m' !! j1 = Some z1 -> m' !! j2 = Some z2 ->
             y + z2 + z1 = y + z1 + z2) by (intros; lia).
  destruct (m !! part) as [old|] eqn:Hold; simpl.
  - rewrite <- insert_delete_eq.
    rewrite (map_fold_insert_L _ 0 part staves (delete part m));
      [|intros; lia | apply lookup_delete_eq].
    rewrite <- (insert_delete_id m part old Hold) at 2.
    rewrite (map_fold_insert_L _ 0 part old (delete part m));
      [|intros; lia | apply lookup_delete_eq].
    lia.
  - rewrite (map_fold_insert_L _ 0 part staves m); [|intros; lia | exact Hold]. lia.
Qed.

(** The total of the staves follows the parts. The visit of a part puts
    the staves of that part at one, and the visit of its [staves] element
    puts them at the number the element holds: after either, the total is
    what it was, less what the part had, plus what the part has now. For a
    part seen for the first time with [n] staves the total grows by [n]. *)
Theorem getTotalStaves_follows_the_parts (elt : part_elt) (ps : partsummary)
    (staves : Z) (v : xml2guidovisitor) :
  getTotalStaves (visitStart_staves staves v)
  = getTotalStaves v - default 0 (stavesInPart v !! currentPart v) + staves
  /\ exists v' : xml2guidovisitor,
       visitStart_part elt ps v = Some v'
       /\ getTotalStaves v' = getTotalStaves v - default 0 (stavesInPart v !! part_id elt) + 1
       /\ getTotalStaves (visitStart_staves staves v')
          = getTotalStaves v - default 0 (stavesInPart v !! part_id elt) + staves.
Proof.
  split; [apply total_insert|].
  destruct (visitStart_part_bookkeeping elt ps v) as (v' & Hv' & Hall & _).
  exists v'. split; [exact Hv'|].
  unfold bookkeeping in Hall.
  injection Hall as _ _ _ _ Hcur Hstaves _.
  unfold getTotalStaves, visitStart_staves, with_staves_in_part. simpl.
  rewrite Hstaves, Hcur. split; [apply total_insert|].
  rewrite insert_insert_eq. apply total_insert.
Qed.

End PartsCounted.

(** ** The position functions agree *)

Section PositionFunctions.

Import GuidoPosition GuidoAttributes.

(** The two overloads of [addPosition] add the same parameters in the same
    cases. With or without an x offset, the parameters added carry the same
    names in the same order, and the [dy] parameters are equal; the x
    offset only changes the value of [dx], by one more addition. *)
Theorem addPosition_overloads_agree (elt : position_elt) (tag : list position_param)
    (yoffset xoffset : spec_float) :
  let with_offset := addPosition elt tag yoffset xoffset in
  let without := addPosition_yoffset elt tag yoffset in
  param_names with_offset = param_names without
  /\ filter (fun p => pp_name p <> "dx"%string) with_offset
     = filter (fun p => pp_name p <> "dx"%string) without
  /\ (F32.is_zero (F32.add (default_x elt) (relative_x elt)) = true ->
      with_offset = without)
  /\ (F32.is_zero (F32.add (default_x elt) (relative_x elt)) = false ->
      exists (before after : list position_param) (x : spec_float),
        without = before ++ mkPosParam "dx" x "hs" :: after
        /\ with_offset = before ++ mkPosParam "dx" (F32.add x xoffset) "hs" :: after).
Proof.
  cbv zeta. unfold addPosition, addPosition_yoffset, param_names, F32.is_zero.
  destruct (F32.to_bool (F32.add (default_x elt) (relative_x elt))); simpl;
    destruct (F32.to_bool (F32.add (default_y elt) (relative_y elt))); simpl.
  - split; [rewrite !map_app; reflexivity|].
    split; [rewrite !filter_app; reflexivity|].
    split; [discriminate|]. intros _.
    eexists tag, [_], _. rewrite <- !app_assoc. split; reflexivity.
  - split; [rewrite !map_app; reflexivity|].
    split; [rewrite !filter_app; reflexivity|].
    split; [discriminate|]. intros _.
    eexists tag, [], _. split; reflexivity.
  - repeat split; discriminate.
  - repeat split; discriminate.
Qed.

(** [addRelativeX] looks at the relative x attribute alone. When that
    attribute is zero it adds nothing, whatever the offset is; otherwise it
    adds exactly one [dx], the attribute scaled to half spaces plus the
    offset, even when this sum is zero. The default x attribute and the y
    attributes have no part in it. *)
Theorem addRelativeX_reads_relative_x (elt : position_elt) (tag : list position_param)
    (xoffset : spec_float) :
  addRelativeX elt tag xoffset
  = tag ++ (if F32.is_zero (relative_x elt) then []
            else [mkPosParam "dx" (F32.add (to_half_spaces (relative_x elt)) xoffset) "hs"])
  /\ (forall dx dy ry : spec_float,
        addRelativeX (mkPosition dx (relative_x elt) dy ry) tag xoffset
        = addRelativeX elt tag xoffset)
  /\ addRelativeX (mkPosition (F32.of_Z 0) (F32.of_Z 10) (F32.of_Z 0) (F32.of_Z 0))
       [] (F32.of_Z (-2))
     = [mkPosParam "dx" (S754_zero false) "hs"]
  /\ addPosX (mkPosition (F32.of_Z 0) (F32.of_Z 10) (F32.of_Z 0) (F32.of_Z 0))
       [] (F32.of_Z (-2))
     = [].
Proof.
  unfold addRelativeX.
  split; [destruct (F32.is_zero (relative_x elt)); simpl; rewrite ?app_nil_r; reflexivity|].
  split; [reflexivity|].
  split; vm_compute; reflexivity.
Qed.

End PositionFunctions.

(** ** Harmony degrees *)

Section HarmonyDegrees.

Import MsrHarmonyDegree.

Context {A : Type}.

(** The semitones of a harmony degree are not computed yet:
    [harmonyDegreeAsSemitones] gives 0 for every degree value from 0 to 13,
    whatever the alteration and the type of the degree are, and -1 for any
    other value. *)
Theorem harmonyDegreeAsSemitones_is_flat (d : msrHarmonyDegree A) :
  harmonyDegreeAsSemitones d
  = (if (0 <=? fHarmonyDegreeValue d) && (fHarmonyDegreeValue d <=? 13) then 0 else -1)
  /\ forall (line : Z) (alteration : A) (kind : msrHarmonyDegreeTypeKind),
       harmonyDegreeAsSemitones (mkHarmonyDegree line (fHarmonyDegreeValue d) alteration kind)
       = harmonyDegreeAsSemitones d.
Proof.
  split; [|reflexivity].
  unfold harmonyDegreeAsSemitones.
  destruct (fHarmonyDegreeValue d) as [|p|p]; [reflexivity| |reflexivity].
  destruct p as [[[[p|p|]|[p|p|]|]|[[p|p|]|[p|p|]|]|]|[[[p|p|]|[p|p|]|]|[[p|p|]|[p|p|]|]|]|];
    try reflexivity;
    match goal with
    | |- _ = (if ?b then _ else _) =>
        assert (Hb : b = false)
          by (apply andb_false_iff; right; apply Z.leb_gt; lia);
        rewrite Hb; reflexivity
    end.
Qed.

End HarmonyDegrees.

(** ** Browsing a harmony *)

Section HarmonyBrowse.

Import MsrHarmonyBrowse.

Context {W H D : Type}.
Variable fTraceMsrVisitors : bool.
Variable fHarmonyDegreesList : H -> list D.

Lemma follows_skip : follows (@skip W H D) [].
Proof. intros w. split; [reflexivity|]. intros _. reflexivity. Qed.

Lemma follows_and_then (a b : @traversal W H D) (la lb : list (harmonyCall H D)) :
  follows a la -> follows b lb -> follows (and_then a b) (la ++ lb).
Proof.
  intros Ha Hb w. unfold and_then.
  destruct (Ha w) as [Hpre Hfull]. unfold calls_of, result_of, returns in *.
  destruct (a w) as [[log calls] r]. simpl in *.
  destruct r as [[] w'|line msg w'|]; simpl.
  - destruct (Hb w') as [Hpre' Hfull']. unfold calls_of, result_of, returns in *.
    destruct (b w') as [[log' calls'] r']. simpl in *.
    assert (Hcalls : calls = la) by (apply Hfull; exists w'; reflexivity).
    subst calls. split.
    + apply prefix_app. exact Hpre'.
    + intros Hret. rewrite (Hfull' Hret). reflexivity.
  - split.
    + apply prefix_app_r. exact Hpre.
    + intros [w'' Hw'']. discriminate Hw''.
  - split.
    + apply prefix_app_r. exact Hpre.
    + intros [w'' Hw'']. discriminate Hw''.
Qed.

Lemma follows_degree_acceptIn (d : D) (v : basevisitor W D) :
  follows (H := H) (fun w => of_dispatch OnDegree (degree_acceptIn fTraceMsrVisitors d v w))
    (handled v [OnDegree (CallVisitStart d)]).
Proof.
  intros w. unfold degree_acceptIn, handled, of_dispatch, calls_of.
  destruct (dynamic_cast v); simpl; (split; [reflexivity | intros _; reflexivity]).
Qed.

Lemma follows_degree_acceptOut (d : D) (v : basevisitor W D) :
  follows (H := H) (fun w => of_dispatch OnDegree (degree_acceptOut fTraceMsrVisitors d v w))
    (handled v [OnDegree (CallVisitEnd d)]).
Proof.
  intros w. unfold degree_acceptOut, handled, of_dispatch, calls_of.
  destruct (dynamic_cast v); simpl; (split; [reflexivity | intros _; reflexivity]).
Qed.

Lemma follows_acceptIn (h : H) (v : basevisitor W H) :
  follows (D := D) (fun w => of_dispatch OnHarmony (MsrHarmony.acceptIn fTraceMsrVisitors h v w))
    (handled v [OnHarmony (CallVisitStart h)]).
Proof.
  intros w. unfold MsrHarmony.acceptIn, handled, of_dispatch, calls_of.
  destruct (dynamic_cast v); simpl; (split; [reflexivity | intros _; reflexivity]).
Qed.

Lemma follows_acceptOut (h : H) (v : basevisitor W H) :
  follows (D := D) (fun w => of_dispatch OnHarmony (MsrHarmony.acceptOut fTraceMsrVisitors h v w))
    (handled v [OnHarmony (CallVisitEnd h)]).
Proof.
  intros w. unfold MsrHarmony.acceptOut, handled, of_dispatch, calls_of.
  destruct (dynamic_cast v); simpl; (split; [reflexivity | intros _; reflexivity]).
Qed.

Lemma follows_browse_degree (d : D) (v : harmonyBaseVisitor W H D) :
  follows (browse_degree fTraceMsrVisitors d v)
    (handled (as_degree_visitor v) [OnDegree (CallVisitStart d); OnDegree (CallVisitEnd d)]).
Proof.
  unfold browse_degree.
  replace (handled (H := H) (as_degree_visitor v)
             [OnDegree (CallVisitStart d); OnDegree (CallVisitEnd d)])
    with (handled (H := H) (as_degree_visitor v) [OnDegree (CallVisitStart d)]
            ++ [] ++ handled (H := H) (as_degree_visitor v) [OnDegree (CallVisitEnd d)])
    by (unfold handled; destruct (dynamic_cast (as_degree_visitor v)); reflexivity).
  apply follows_and_then; [apply follows_degree_acceptIn|].
  apply follows_and_then; [apply follows_skip | apply follows_degree_acceptOut].
Qed.

Lemma follows_browse_degrees (degrees : list D) (v : harmonyBaseVisitor W H D) :
  follows (browse_degrees fTraceMsrVisitors degrees v)
    (flat_map (fun d => handled (as_degree_visitor v)
                          [OnDegree (CallVisitStart d); OnDegree (CallVisitEnd d)]) degrees).
Proof.
  induction degrees as [|d rest IH]; simpl; [apply follows_skip|].
  apply follows_and_then; [apply follows_browse_degree | exact IH].
Qed.

(** Browsing a harmony pairs the visits. The handler calls of [browse] on
    a harmony are, in order: the start of the harmony, then for each of its
    degrees in stored order its start followed at once by its end, then the
    end of the harmony, the calls of a kind the visitor does not handle
    being left out. A traversal that returns has made all of them; one that
    a handler stops has made the calls up to that handler, in this order. A
    visitor that handles neither kind gets no call and the traversal returns
    with the state it was given. *)
Theorem browse_harmony_pairs_the_visits (elem : H) (v : harmonyBaseVisitor W H D) (w : W) :
  let run := browse fTraceMsrVisitors fHarmonyDegreesList elem v w in
  calls_of run `prefix_of` paired_calls fHarmonyDegreesList elem v
  /\ (returns run -> calls_of run = paired_calls fHarmonyDegreesList elem v)
  /\ (dynamic_cast (as_harmony_visitor v) = None ->
      dynamic_cast (as_degree_visitor v) = None ->
      calls_of run = [] /\ result_of run = Done tt w).
Proof.
  cbv zeta.
  assert (Hfollows : follows (browse fTraceMsrVisitors fHarmonyDegreesList elem v)
                       (paired_calls fHarmonyDegreesList elem v)).
  { unfold browse, paired_calls.
    apply follows_and_then; [apply follows_acceptIn|].
    apply follows_and_then; [|apply follows_acceptOut].
    unfold browseData.
    destruct (fHarmonyDegreesList elem) as [|d rest] eqn:E; simpl.
    - apply follows_skip.
    - apply (follows_browse_degrees (d :: rest)). }
  destruct (Hfollows w) as [Hpre Hfull].
  split; [exact Hpre|]. split; [exact Hfull|].
  intros Hh Hd.
  assert (Hnone : paired_calls fHarmonyDegreesList elem v = []).
  { unfold paired_calls, handled. rewrite Hh, Hd.
    induction (fHarmonyDegreesList elem); simpl; [reflexivity | assumption]. }
  rewrite Hnone in Hpre. apply prefix_nil_inv in Hpre.
  split; [exact Hpre|].
  unfold browse, browseData, result_of, and_then, of_dispatch,
    MsrHarmony.acceptIn, MsrHarmony.acceptOut. rewrite Hh. simpl.
  assert (Hdegrees : forall (l : list D) (w0 : W),
             snd (browse_degrees fTraceMsrVisitors l v w0) = Done tt w0).
  { induction l as [|d l IH]; intros w0; simpl; [reflexivity|].
    unfold and_then at 1. unfold browse_degree, and_then, of_dispatch, degree_acceptIn,
      degree_acceptOut, degree_browseData, skip. rewrite Hd. simpl.
    specialize (IH w0). destruct (browse_degrees fTraceMsrVisitors l v w0) as [[lg cs] r].
    simpl in *. exact IH. }
  destruct (0 <? length (fHarmonyDegreesList elem))%nat.
  - specialize (Hdegrees (fHarmonyDegreesList elem) w).
    destruct (browse_degrees fTraceMsrVisitors (fHarmonyDegreesList elem) v w) as [[lg cs] r].
    simpl in *. rewrite Hdegrees. reflexivity.
  - reflexivity.
Qed.

End HarmonyBrowse.

(** ** Harmonies: inversions and clones *)

Section Harmonies.

Import MsrHarmonyObject.

Context {P K I F D : Type} `{HarmonyCollaborators P K I}.

(** The inversion decides the bass of a harmony. The harmony the
    constructor builds has the arguments it was given as attributes and no
    degree, except for the bass: with an inversion above zero the bass is
    the note of the inverted chord, whatever bass was given, and an error is
    reported exactly when a bass was given that is another pitch; with no
    inversion the bass is the one given and nothing is reported. *)
Theorem harmony_inversion_sets_the_bass (line : Z) (voice : option loc) (root : P)
    (kind : K) (text : string) (inversion : Z) (bass : P) (sounding display : rational)
    (staff : Z) (factor : F) (offset : rational) :
  let built := msrHarmony_new (D := D) line voice root kind text inversion bass sounding
                 display staff factor offset in
  let inverted := bass_of_inversion line root kind inversion bass in
  snd built
  = mkHarmony line voice root kind text inversion inverted sounding display staff factor
      offset []
  /\ (fst built = [] <-> bass = k_NoQuarterTonesPitch_QTP \/ inverted = bass)
  /\ (fst built = []
      \/ fst built = [(line, incompatible_inversion_message inversion bass)]).
Proof.
  cbv zeta. unfold msrHarmony_new, bass_of_inversion.
  destruct (0 <? inversion); simpl.
  - split; [reflexivity|].
    destruct (decide (bass <> k_NoQuarterTonesPitch_QTP)) as [Hb|Hb].
    + destruct (decide (_ <> bass)) as [Hi|Hi].
      * split; [|right; reflexivity].
        split; [discriminate|]. intros [Hno|Heq]; [contradiction | contradiction].
      * split; [|left; reflexivity].
        split; [|reflexivity]. intros _. right.
        destruct (decide (noteAtIntervalFromQuarterTonesPitch line
                            (bassChordIntervalForChordInversion kind line inversion) root
                          = bass)); [assumption | contradiction].
    + split; [|left; reflexivity].
      split; [|reflexivity]. intros _. left.
      destruct (decide (bass = k_NoQuarterTonesPitch_QTP)); [assumption | contradiction].
  - split; [reflexivity|]. split; [|left; reflexivity].
    split; [|reflexivity]. intros _. right. reflexivity.
Qed.

(** A clone of a harmony is the harmony again, in the voice given. For a
    harmony the constructor has built, [createHarmonyNewbornClone] gives
    the same harmony with the containing voice as its voice uplink, and
    reports no error, whether the construction of the original reported
    one or not. For any harmony the clone has no degree, whatever degrees
    the harmony has; it has the root, the kind and the inversion of the
    harmony, and the bass the constructor gives them. The deep copy is the
    same as the newborn clone, and there is no clone in a null voice. *)
Theorem harmony_clone_is_the_harmony (line : Z) (voice : option loc) (root : P)
    (kind : K) (text : string) (inversion : Z) (bass : P) (sounding display : rational)
    (staff : Z) (factor : F) (offset : rational) (containingVoice : loc) :
  let h := snd (msrHarmony_new (D := D) line voice root kind text inversion bass sounding
                  display staff factor offset) in
  createHarmonyNewbornClone h (Some containingVoice)
  = Some ([], in_voice (Some containingVoice) h)
  /\ (forall (g : msrHarmony P K F D) (p : option loc),
        createHarmonyDeepCopy g p = createHarmonyNewbornClone g p)
  /\ (forall g : msrHarmony P K F D,
        createHarmonyNewbornClone g None = None
        /\ exists (errors : list (Z * string)) (clone : msrHarmony P K F D),
             createHarmonyNewbornClone g (Some containingVoice) = Some (errors, clone)
             /\ fHarmonyDegreesList clone = []
             /\ fHarmonyVoiceUpLink clone = Some containingVoice
             /\ fHarmonyBassQuarterTonesPitchKind clone
                = bass_of_inversion (harmonyInputLineNumber g)
                    (fHarmonyRootQuarterTonesPitchKind g) (fHarmonyKind g)
                    (fHarmonyInversion g) (fHarmonyBassQuarterTonesPitchKind g)
             /\ fHarmonyRootQuarterTonesPitchKind clone = fHarmonyRootQuarterTonesPitchKind g
             /\ fHarmonyKind clone = fHarmonyKind g
             /\ fHarmonyInversion clone = fHarmonyInversion g).
Proof.
  cbv zeta. split.
  - unfold createHarmonyNewbornClone, create, msrHarmony_new, in_voice.
    destruct (0 <? inversion) eqn:Einv; simpl; rewrite Einv.
    + destruct (decide (_ <> k_NoQuarterTonesPitch_QTP)); [|reflexivity].
      destruct (decide (_ <> _)) as [Hne|]; [contradiction Hne; reflexivity | reflexivity].
    + reflexivity.
  - split; [reflexivity|].
    intros g. split; [reflexivity|].
    unfold createHarmonyNewbornClone, create, msrHarmony_new, bass_of_inversion.
    destruct (0 <? fHarmonyInversion g); eexists _, _; repeat split.
Qed.

End Harmonies.

(** ** The movement title stands in for a missing work title *)

Section Titles.

Import Identification.

Variable stringQuoteEscaper : string -> string.

Lemma seen_cons (kind : msrVarValAssocKind) (elt : msrVarValAssoc)
    (rest : list msrVarValAssoc) :
  seen stringQuoteEscaper kind (elt :: rest)
  = latest (seen stringQuoteEscaper kind rest)
      (if decide (getVarValAssocKind elt = kind)
       then Some (stringQuoteEscaper (getVariableValue elt)) else None).
Proof.
  unfold seen. rewrite filter_cons.
  destruct (decide (getVarValAssocKind elt = kind)).
  - simpl map. rewrite last_cons. destruct (last _); reflexivity.
  - destruct (last _); reflexivity.
Qed.

(** What the visit of one association does to the variables. *)
Lemma vars_after_cons (elt : msrVarValAssoc) (rest : list msrVarValAssoc)
    (v : scoreVariables) :
  vars_after stringQuoteEscaper (elt :: rest) v
  = vars_after stringQuoteEscaper rest
      (let value := stringQuoteEscaper (getVariableValue elt) in
       match getVarValAssocKind elt with
       | kWorkNumber => setWorkNumber value v
       | kWorkTitle => setWorkTitle value v
       | kMovementNumber => setMovementNumber value v
       | kMovementTitle => setMovementTitle value v
       | kEncodingDate => setEncodingDate value v
       | kScoreInstrument => setScoreInstrument value v
       | kMiscellaneousField => setMiscellaneousField value v
       | kOtherVarValAssocKind _ => v
       end).
Proof.
  unfold vars_after. rewrite !seen_cons. cbv zeta.
  destruct (getVarValAssocKind elt) eqn:Ekind; repeat case_decide; try congruence;
    simpl; f_equal; unfold latest; destruct (seen _ _ rest); reflexivity.
Qed.

Lemma known_after_cons (kind : msrVarValAssocKind) (elt : msrVarValAssoc)
    (rest : list msrVarValAssoc) (known : bool) :
  known_after stringQuoteEscaper kind (elt :: rest) known
  = known_after stringQuoteEscaper kind rest
      (known || bool_decide (getVarValAssocKind elt = kind)).
Proof.
  unfold known_after. rewrite seen_cons. unfold latest.
  destruct (seen _ kind rest); [rewrite !orb_true_r; reflexivity|].
  case_bool_decide; case_decide; try contradiction;
    rewrite ?orb_true_r, ?orb_false_r; reflexivity.
Qed.

Lemma visit_assocs_spec (elts : list msrVarValAssoc) :
  forall (identification header : scoreVariables) (kwn kwt kmn kmt : bool)
         (warnings : list (Z * string)) (paper : option lpsrPaper)
         (names : option scoreNamesMaxLengths),
    visit_assocs stringQuoteEscaper elts
      (mkIdentificationState (Some identification) (Some header) kwn kwt kmn kmt warnings
         paper names)
    = Done tt
        (mkIdentificationState (Some (vars_after stringQuoteEscaper elts identification))
           (Some (vars_after stringQuoteEscaper elts header))
           (known_after stringQuoteEscaper kWorkNumber elts kwn)
           (known_after stringQuoteEscaper kWorkTitle elts kwt)
           (known_after stringQuoteEscaper kMovementNumber elts kmn)
           (known_after stringQuoteEscaper kMovementTitle elts kmt)
           (warnings ++ not_handled elts) paper names).
Proof.
  induction elts as [|elt rest IH]; intros identification header kwn kwt kmn kmt warnings
    paper names.
  - destruct identification, header. unfold vars_after, known_after, seen. simpl.
    rewrite !orb_false_r, app_nil_r. reflexivity.
  - rewrite !vars_after_cons, !known_after_cons.
    cbn [visit_assocs not_handled]. unfold visitStart_msrVarValAssoc, set_both, then_known,
      set_known, msrMusicXMLWarning. cbv zeta.
    destruct (getVarValAssocKind elt) eqn:Ekind;
      cbn [fCurrentIdentification fLpsrScoreHeader fWorkNumberKnown fWorkTitleKnown
             fMovementNumberKnown fMovementTitleKnown musicXMLWarnings fLpsrScorePaper
             fScoreCloneNames];
      rewrite IH;
      repeat (case_bool_decide; try congruence);
      rewrite ?orb_true_r, ?orb_false_r, <- ?app_assoc; reflexivity.
Qed.

Lemma length_zero (w : string) : Nat.eqb (String.length w) 0 = bool_decide (w = EmptyString).
Proof. destruct w; reflexivity. Qed.

Lemma length_positive (m : string) :
  Nat.ltb 0 (String.length m) = bool_decide (m <> EmptyString).
Proof. destruct m; reflexivity. Qed.

(** One of the two statements of the end of the visit of the score, on
    variables that the visits have left: it changes the work and the
    movement it is about, in the identification and in the header, and
    nothing else. *)
Lemma settle_stand_in (getWork getMovement : scoreVariables -> option string)
    (setWork setMovement : string -> scoreVariables -> scoreVariables)
    (seenWork seenMovement : option string) (id0 h0 id1 h1 : scoreVariables)
    (kwn kwt kmn kmt : bool) (warnings : list (Z * string)) (paper : option lpsrPaper)
    (names : option scoreNamesMaxLengths) :
  (forall (value : string) (v : scoreVariables), getWork (setWork value v) = Some value) ->
  (forall (value : string) (v : scoreVariables),
      getMovement (setMovement value v) = Some value) ->
  (forall (value : string) (v : scoreVariables), getWork (setMovement value v) = getWork v) ->
  (forall (value : string) (v : scoreVariables),
      getMovement (setWork value v) = getMovement v) ->
  getWork id1 = latest seenWork (getWork id0) ->
  getMovement id1 = latest seenMovement (getMovement id0) ->
  getWork h1 = latest seenWork (getWork h0) ->
  getMovement h1 = latest seenMovement (getMovement h0) ->
  exists id2 h2 : scoreVariables,
    settle (match seenWork with Some _ => true | None => false end)
      (match seenMovement with Some _ => true | None => false end)
      getWork getMovement setWork setMovement
      (mkIdentificationState (Some id1) (Some h1) kwn kwt kmn kmt warnings paper names)
    = Done tt (mkIdentificationState (Some id2) (Some h2) kwn kwt kmn kmt warnings paper
                 names)
    /\ (getWork id2, getMovement id2)
       = stand_in (getWork id0) (getMovement id0) seenWork seenMovement
    /\ (getWork h2, getMovement h2)
       = stand_in (getWork h0) (getMovement h0) seenWork seenMovement
    /\ forall get : scoreVariables -> option string,
         (forall (value : string) (v : scoreVariables), get (setWork value v) = get v) ->
         (forall (value : string) (v : scoreVariables), get (setMovement value v) = get v) ->
         get id2 = get id1 /\ get h2 = get h1.
Proof.
  intros Hww Hmm Hwm Hmw Hw1 Hm1 Hwh Hmh.
  unfold settle, use_movement_as_work, set_both, identification_value, stand_in.
  cbn [fCurrentIdentification fLpsrScoreHeader fWorkNumberKnown fWorkTitleKnown
         fMovementNumberKnown fMovementTitleKnown musicXMLWarnings fLpsrScorePaper
         fScoreCloneNames].
  assert (Hstand : exists id2 h2 : scoreVariables,
             id2 = setMovement EmptyString
                     (setWork (default EmptyString seenMovement) id1)
             /\ h2 = setMovement EmptyString
                       (setWork (default EmptyString seenMovement) h1)) by eauto.
  destruct seenMovement as [m|]; simpl in Hm1, Hmh.
  - destruct seenWork as [w|]; simpl in Hw1, Hwh; cbn [andb negb].
    + rewrite Hw1, Hm1, length_zero, length_positive.
      destruct (decide (w = EmptyString /\ m <> EmptyString)) as [[Hw Hm]|Hno].
      * rewrite !bool_decide_eq_true_2 by assumption. cbn [andb].
        eexists _, _. split; [reflexivity|].
        rewrite !Hmm, !Hwm, !Hww.
        split; [reflexivity|]. split; [reflexivity|].
        intros get Hgw Hgm. rewrite !Hgm, !Hgw. split; reflexivity.
      * assert (Hfalse : (bool_decide (w = EmptyString) && bool_decide (m <> EmptyString))%bool
                         = false).
        { apply andb_false_iff.
          destruct (decide (w = EmptyString)) as [Hw|Hw].
          - right. apply bool_decide_eq_false_2. intros Hm. apply Hno. split; assumption.
          - left. apply bool_decide_eq_false_2. exact Hw. }
        rewrite Hfalse.
        exists id1, h1. split; [reflexivity|].
        rewrite Hw1, Hm1, Hwh, Hmh.
        split; [reflexivity|]. split; [reflexivity|].
        intros get _ _. split; reflexivity.
    + rewrite Hm1.
      eexists _, _. split; [reflexivity|].
      rewrite !Hmm, !Hwm, !Hww.
      split; [reflexivity|]. split; [reflexivity|].
      intros get Hgw Hgm. rewrite !Hgm, !Hgw. split; reflexivity.
  - rewrite !andb_false_r. cbn [andb].
    exists id1, h1. split; [reflexivity|].
    rewrite Hw1, Hm1, Hwh, Hmh.
    split; [reflexivity|]. split; [reflexivity|].
    intros get _ _. split; reflexivity.
Qed.

(** The movement title stands in for a missing work title. After the
    associations of the identification have been visited, in any number
    and order, the end of the visit of the score returns. Then, in the
    identification as in the header: a movement title that has been seen
    while no work title has, or beside a work title seen last that is
    empty when it is not empty itself, is the work title, and the movement
    title is empty; otherwise each title is the one seen last, or the one
    from before the visits when none has been seen. The same holds of the
    numbers. The encoding date, the score instrument and the miscellaneous
    field are the values seen last, or those from before. The warnings are
    those of the associations of other kinds, in order, and the indents of
    the paper are those [setPaperIndentsIfNeeded] computes from the lengths
    of the score clone, an indent it does not compute being left as it
    was. *)
Theorem movement_title_stands_in (elts : list msrVarValAssoc)
    (identification header : scoreVariables) (paper : lpsrPaper)
    (names : scoreNamesMaxLengths) :
  exists s1 s2 : identificationState,
    visit_assocs stringQuoteEscaper elts
      (at_identification identification header paper names)
    = Done tt s1
    /\ visitEnd_msrScore s1 = Done tt s2
    /\ (identification_value workTitle s2, identification_value movementTitle s2)
       = stand_in (workTitle identification) (movementTitle identification)
           (seen stringQuoteEscaper kWorkTitle elts)
           (seen stringQuoteEscaper kMovementTitle elts)
    /\ (header_value workTitle s2, header_value movementTitle s2)
       = stand_in (workTitle header) (movementTitle header)
           (seen stringQuoteEscaper kWorkTitle elts)
           (seen stringQuoteEscaper kMovementTitle elts)
    /\ (identification_value workNumber s2, identification_value movementNumber s2)
       = stand_in (workNumber identification) (movementNumber identification)
           (seen stringQuoteEscaper kWorkNumber elts)
           (seen stringQuoteEscaper kMovementNumber elts)
    /\ (header_value workNumber s2, header_value movementNumber s2)
       = stand_in (workNumber header) (movementNumber header)
           (seen stringQuoteEscaper kWorkNumber elts)
           (seen stringQuoteEscaper kMovementNumber elts)
    /\ (identification_value encodingDate s2, identification_value scoreInstrument s2,
        identification_value miscellaneousField s2)
       = (latest (seen stringQuoteEscaper kEncodingDate elts) (encodingDate identification),
          latest (seen stringQuoteEscaper kScoreInstrument elts)
            (scoreInstrument identification),
          latest (seen stringQuoteEscaper kMiscellaneousField elts)
            (miscellaneousField identification))
    /\ (header_value encodingDate s2, header_value scoreInstrument s2,
        header_value miscellaneousField s2)
       = (latest (seen stringQuoteEscaper kEncodingDate elts) (encodingDate header),
          latest (seen stringQuoteEscaper kScoreInstrument elts) (scoreInstrument header),
          latest (seen stringQuoteEscaper kMiscellaneousField elts)
            (miscellaneousField header))
    /\ musicXMLWarnings s2 = not_handled elts
    /\ fLpsrScorePaper s2
       = (let indents :=
            setPaperIndentsIfNeeded (getScorePartGroupNamesMaxLength names)
              (getScorePartNamesMaxLength names) (getScoreInstrumentNamesMaxLength names)
              (getScoreInstrumentAbbreviationsMaxLength names) in
          Some (mkPaper (set_if_needed (fst indents) (fIndent paper))
                  (set_if_needed (snd indents) (fShortIndent paper)))).
Proof.
  pose proof (visit_assocs_spec elts identification header false false false false []
                (Some paper) (Some names)) as Hs1.
  fold (at_identification identification header paper names) in Hs1.
  unfold known_after in Hs1. cbn [orb app] in Hs1.
  set (id1 := vars_after stringQuoteEscaper elts identification) in *.
  set (h1 := vars_after stringQuoteEscaper elts header) in *.
  destruct (settle_stand_in workTitle movementTitle setWorkTitle setMovementTitle
              (seen stringQuoteEscaper kWorkTitle elts)
              (seen stringQuoteEscaper kMovementTitle elts)
              identification header id1 h1
              (match seen stringQuoteEscaper kWorkNumber elts with
               | Some _ => true | None => false end)
              (match seen stringQuoteEscaper kWorkTitle elts with
               | Some _ => true | None => false end)
              (match seen stringQuoteEscaper kMovementNumber elts with
               | Some _ => true | None => false end)
              (match seen stringQuoteEscaper kMovementTitle elts with
               | Some _ => true | None => false end)
              (not_handled elts) (Some paper) (Some names))
    as (id2 & h2 & Htitles & Hid2 & Hh2 & Hframe2); try reflexivity.
  destruct (settle_stand_in workNumber movementNumber setWorkNumber setMovementNumber
              (seen stringQuoteEscaper kWorkNumber elts)
              (seen stringQuoteEscaper kMovementNumber elts)
              identification header id2 h2
              (match seen stringQuoteEscaper kWorkNumber elts with
               | Some _ => true | None => false end)
              (match seen stringQuoteEscaper kWorkTitle elts with
               | Some _ => true | None => false end)
              (match seen stringQuoteEscaper kMovementNumber elts with
               | Some _ => true | None => false end)
              (match seen stringQuoteEscaper kMovementTitle elts with
               | Some _ => true | None => false end)
              (not_handled elts) (Some paper) (Some names))
    as (id3 & h3 & Hnumbers & Hid3 & Hh3 & Hframe3); try reflexivity;
    try (destruct (Hframe2 workNumber) as [Hkept1 Hkept2];
         [reflexivity | reflexivity | rewrite ?Hkept1, ?Hkept2; reflexivity]);
    try (destruct (Hframe2 movementNumber) as [Hkept1 Hkept2];
         [reflexivity | reflexivity | rewrite ?Hkept1, ?Hkept2; reflexivity]).
  eexists _, _. split; [exact Hs1|]. split.
  { unfold visitEnd_msrScore.
    cbn [fWorkTitleKnown fMovementTitleKnown]. rewrite Htitles.
    cbn [fWorkNumberKnown fMovementNumberKnown]. rewrite Hnumbers.
    reflexivity. }
  unfold identification_value, header_value.
  cbn [fCurrentIdentification fLpsrScoreHeader musicXMLWarnings fLpsrScorePaper].
  destruct (Hframe3 workTitle) as [-> ->]; try reflexivity.
  destruct (Hframe3 movementTitle) as [-> ->]; try reflexivity.
  destruct (Hframe3 encodingDate) as [-> ->]; try reflexivity.
  destruct (Hframe3 scoreInstrument) as [-> ->]; try reflexivity.
  destruct (Hframe3 miscellaneousField) as [-> ->]; try reflexivity.
  destruct (Hframe2 encodingDate) as [-> ->]; try reflexivity.
  destruct (Hframe2 scoreInstrument) as [-> ->]; try reflexivity.
  destruct (Hframe2 miscellaneousField) as [-> ->]; try reflexivity.
  repeat split; assumption || reflexivity.
Qed.

End Titles.

(** ** The indents of the paper *)

Section PaperIndents.

Import Identification.

Lemma same_float_eq (x y : spec_float) : same_float x y = true -> x = y.
Proof.
  destruct x as [a|a| |a m e], y as [b|b| |b m' e']; simpl; try discriminate.
  - intros E. apply Bool.eqb_prop in E. congruence.
  - intros E. apply Bool.eqb_prop in E. congruence.
  - intros E. apply andb_true_iff in E. destruct E as [E E3].
    apply andb_true_iff in E. destruct E as [E1 E2].
    apply Bool.eqb_prop in E1. apply Pos.eqb_eq in E2. apply Z.eqb_eq in E3. congruence.
Qed.

(** The indent of the paper is a quarter of the longest name. The
    function sets the indent exactly when the longest of the part group
    names, part names and instrument names has a length above zero, and the
    short indent exactly when the longest instrument abbreviation has; the
    value is that length divided by four characters per centimeter, so that
    four times the indent is the length again, as a check of every length
    up to 1024 shows. The abbreviations have no part in the indent, and the
    names none in the short indent. *)
Theorem paper_indent_is_a_quarter_of_the_longest_name
    (partGroupNames partNames instrumentNames instrumentAbbreviations : Z) :
  let longest := Z.max (Z.max partGroupNames partNames) instrumentNames in
  setPaperIndentsIfNeeded partGroupNames partNames instrumentNames instrumentAbbreviations
  = (if 0 <? longest then Some (F32.div (F32.of_Z longest) (F32.of_Z 4)) else None,
     if 0 <? instrumentAbbreviations
     then Some (F32.div (F32.of_Z instrumentAbbreviations) (F32.of_Z 4)) else None)
  /\ Forall (fun n => F32.mul (F32.div (F32.of_Z n) (F32.of_Z 4)) (F32.of_Z 4) = F32.of_Z n)
       name_lengths.
Proof.
  cbv zeta. split.
  - unfold setPaperIndentsIfNeeded. cbv zeta.
    assert (Hmax : forall a b : Z, (if a >? b then a else b) = Z.max a b)
      by (intros a b; destruct (Z.gtb_spec a b); lia).
    rewrite !Hmax.
    assert (Hpos : forall a b : Z, (a >? b) = (b <? a))
      by (intros a b; destruct (Z.gtb_spec a b), (Z.ltb_spec b a); lia || reflexivity).
    rewrite !Hpos.
    f_equal.
    + destruct (Z.ltb_spec 0 (Z.max instrumentNames
                                (Z.max partNames (Z.max partGroupNames (-1))))),
        (Z.ltb_spec 0 (Z.max (Z.max partGroupNames partNames) instrumentNames));
        try lia; [|reflexivity].
      do 3 f_equal. lia.
    + destruct (Z.ltb_spec 0 (Z.max instrumentAbbreviations (-1))),
        (Z.ltb_spec 0 instrumentAbbreviations); try lia; [|reflexivity].
      do 3 f_equal. lia.
  - assert (Hcheck : forallb (fun n => same_float
                                         (F32.mul (F32.div (F32.of_Z n) (F32.of_Z 4))
                                            (F32.of_Z 4)) (F32.of_Z n)) name_lengths = true)
      by (vm_compute; reflexivity).
    rewrite forallb_forall in Hcheck.
    apply List.Forall_forall. intros n Hn. apply same_float_eq, Hcheck, Hn.
Qed.

End PaperIndents.

(** ** The header of lpsr.cpp: the longest variable name *)

Section HeaderNames.

Import LpsrHeader.

Lemma longer_spec (a : lpsrLilypondVarValAssoc) (result : Z) :
  longer a result = Z.max result (name_length a).
Proof.
  unfold longer, name_length. cbv zeta.
  destruct (Z.gtb_spec (int_of_size (String.length (fVariableName a))) result); lia.
Qed.

Lemma longest_spec (l : list lpsrLilypondVarValAssoc) (result : Z) :
  result <= longest l result
  /\ Forall (fun a => name_length a <= longest l result) l
  /\ (longest l result = result
      \/ exists a : lpsrLilypondVarValAssoc, In a l /\ longest l result = name_length a).
Proof.
  unfold longest. revert result.
  induction l as [|a l IH]; intros result; simpl.
  - split; [lia|]. split; [constructor | left; reflexivity].
  - destruct (IH (longer a result)) as (Hle & Hall & Hmax).
    rewrite longer_spec in *.
    split; [lia|]. split.
    + constructor; [lia | exact Hall].
    + destruct Hmax as [Hmax | (b & Hb & Hmax)].
      * destruct (Z.max_spec result (name_length a)) as [[_ Hm]|[_ Hm]].
        -- right. exists a. split; [left; reflexivity | lia].
        -- left. lia.
      * right. exists b. split; [right; exact Hb | exact Hmax].
Qed.

Lemma longest_app (l1 l2 : list lpsrLilypondVarValAssoc) (result : Z) :
  longest (l1 ++ l2) result = longest l2 (longest l1 result).
Proof. unfold longest. apply fold_left_app. Qed.

Lemma maxLilyPondVariablesNamesLength_longest (h : lpsrHeader) :
  maxLilyPondVariablesNamesLength h = longest (measured h) 0.
Proof.
  unfold maxLilyPondVariablesNamesLength, measured. cbv zeta.
  rewrite !longest_app.
  destruct (fWorkNumber h), (fWorkTitle h), (fMovementNumber h), (fMovementTitle h),
    (fRights h), (fEncodingDate h); reflexivity.
Qed.

(** [maxLilyPondVariablesNamesLength] is the length of the longest variable
    name among the associations of the header it looks at: the work number
    and title, the movement number and title, the composers, arrangers and
    lyricists, the rights, the softwares and the encoding date. It is not
    negative, no such name is longer, and it is zero or the length of one
    of these names. The score instrument is not looked at: its name, the
    longest one a setter gives, does not count. *)
Theorem maxLilyPondVariablesNamesLength_is_the_longest (h : lpsrHeader) :
  0 <= maxLilyPondVariablesNamesLength h
  /\ Forall (fun a => name_length a <= maxLilyPondVariablesNamesLength h) (measured h)
  /\ (maxLilyPondVariablesNamesLength h = 0
      \/ exists a : lpsrLilypondVarValAssoc,
           In a (measured h) /\ maxLilyPondVariablesNamesLength h = name_length a)
  /\ (forall (line : Z) (val : string),
        maxLilyPondVariablesNamesLength (setScoreInstrument line val h)
        = maxLilyPondVariablesNamesLength h)
  /\ (forall (line : Z) (val : string),
        maxLilyPondVariablesNamesLength (setScoreInstrument line val new_header) = 0
        /\ maxLilyPondVariablesNamesLength (setMovementNumber line val new_header) = 15).
Proof.
  rewrite maxLilyPondVariablesNamesLength_longest.
  destruct (longest_spec (measured h) 0) as (Hle & Hall & Hmax).
  split; [exact Hle|]. split; [exact Hall|]. split; [exact Hmax|].
  split; [intros line val; rewrite maxLilyPondVariablesNamesLength_longest; reflexivity|].
  intros line val. split; reflexivity.
Qed.

End HeaderNames.

(** ** The chords languages *)

Section ChordsLanguagesProperties.

Import ChordsLanguages.

Lemma existing_loop_spec (rest : chordsLanguagesMap) :
  forall (i : string * lpsrChordsLanguage) (s : string),
    existing_loop i rest s
    = s +:+ (if is_default (snd i) then EmptyString else fst i) +:+ spaced_names rest.
Proof.
  induction rest as [|[key language] rest IH]; intros i s; simpl.
  - destruct (is_default (snd i)); rewrite !string_app_nil_r; reflexivity.
  - rewrite IH. simpl.
    destruct (is_default (snd i)), (is_default language);
      rewrite ?string_app_assoc, ?string_app_nil_r; reflexivity.
Qed.

(** The languages a user can ask for. After
    [initializeLpsrChordsLanguages] the name [lpsrChordsLanguageAsString]
    gives a language other than the default is the key of that language in
    the map, while the name it gives the default, [IgnatzekChords], is no
    key at all: the key of the default is [Ignatzek].
    [existingLpsrChordsLanguages] lists the keys of the languages other
    than the default in the order of the keys, with a space before each but
    the first entry of the map; the key of the default, with its capital,
    is the first entry, so the list is [french german italian semiGerman]
    after a space. On an empty map the function is not defined. *)
Theorem chords_languages_round_trip (language : lpsrChordsLanguage) :
  let m := initializeLpsrChordsLanguages [] in
  find (lpsrChordsLanguageAsString language) m
  = (if is_default language then None else Some language)
  /\ find "Ignatzek" m = Some k_IgnatzekChords
  /\ (forall (i : string * lpsrChordsLanguage) (rest : chordsLanguagesMap),
        existingLpsrChordsLanguages (i :: rest)
        = Some ((if is_default (snd i) then EmptyString else fst i) +:+ spaced_names rest))
  /\ existingLpsrChordsLanguages m = Some " french german italian semiGerman"%string
  /\ existingLpsrChordsLanguages [] = None.
Proof.
  cbv zeta. split; [destruct language; reflexivity|].
  split; [reflexivity|]. split.
  - intros i rest. unfold existingLpsrChordsLanguages. rewrite existing_loop_spec.
    reflexivity.
  - split; reflexivity.
Qed.

End ChordsLanguagesProperties.

(** ** The staves of a score are numbered through *)

Section ScoreStaves.

Import Guido GuidoScore GuidoParts Spec.

Context `{PartCollaborators}.

Lemma visitStart_part_plan (elt : part_elt) (ps : partsummary) (v : xml2guidovisitor) :
  fPartNum v = 0 ->
  fCurrentStaffIndex v = fCurrentPartStaffOffset v ->
  well_numbered ps ->
  exists (v' : xml2guidovisitor) (seqs : list guidoelement),
    visitStart_part elt ps v = Some v'
    /\ Forall2 is_staff_sequence
         (staff_plan (fCurrentPartStaffOffset v) (main_staves ps) (countStaves ps)) seqs
    /\ fStack v' = grow seqs (fStack v)
    /\ fCurrentStaffIndex v' = fCurrentPartStaffOffset v + countStaves ps
    /\ fCurrentPartStaffOffset v' = fCurrentPartStaffOffset v + countStaves ps
    /\ fPartNum v' = 0
    /\ fPartsAvailable v' = fPartsAvailable v + 1.
Proof.
  intros Hnum Hidx [Hsorted Hlast].
  destruct (visitStart_part_bookkeeping elt ps v) as (w & Hw & Hall & _).
  unfold bookkeeping in Hall. injection Hall as _ Hnum' _ Hparts _ _ _.
  unfold main_staves in *.
  set (ms := map (getMainStaff ps) (getVoices ps)) in *.
  set (off := fCurrentPartStaffOffset v) in *.
  unfold visitStart_part in Hw |- *.
  set (v0 := with_current_part _ _ _ v) in *.
  change (fPartNum v0) with (fPartNum v) in Hw |- *.
  rewrite Hnum in Hw |- *. simpl in Hw |- *.
  destruct (voices_loop_builds ps elt (getVoices ps) 0 (-1) Rational.zero v0)
    as (v1 & Hloop & Hb1 & Hi1).
  { left. split; reflexivity. }
  { change (fCurrentStaffIndex v0) with (fCurrentStaffIndex v).
    change (fCurrentPartStaffOffset v0) with (fCurrentPartStaffOffset v). lia. }
  { exact Hsorted. }
  rewrite Hloop in Hw |- *.
  change (fCurrentPartStaffOffset v0) with off in Hb1, Hi1. fold ms in Hb1, Hi1.
  assert (Ho1 : fCurrentPartStaffOffset v1 = off) by apply Hb1.
  unfold create_implicit_staves in Hw |- *.
  destruct (implicit_staves_loop_builds (fCurrentPartStaffOffset v1 + countStaves ps) elt
              _ v1 eq_refl) as [Hb2 Hi2].
  cbv zeta in Hb2, Hi2.
  set (v2 := implicit_staves_loop _ _ elt v1) in *.
  assert (Ho2 : fCurrentPartStaffOffset v2 = off) by (destruct Hb2; congruence).
  assert (Heq : seqZ (fCurrentStaffIndex v1 + 1)
                  (fCurrentPartStaffOffset v1 + countStaves ps - fCurrentStaffIndex v1)
                = seqZ (off + List.last ms 0 + 1) (countStaves ps - List.last ms 0))
    by (f_equal; lia).
  rewrite Heq in Hb2.
  destruct (builds_trans _ _ v0 v1 v2 Hb1 Hb2) as (_ & seqs & Hseqs & Hst).
  change (fStack v0) with (fStack v) in Hst.
  injection Hw as Hw. subst w.
  eexists _, seqs. split; [reflexivity|]. split; [exact Hseqs|]. split; [exact Hst|].
  simpl in Hnum', Hparts |- *.
  repeat split; try lia; try congruence.
Qed.

Lemma visit_children_frame (children : list part_child) (v : xml2guidovisitor) :
  let v' := fold_left (fun v c => visit_child c v) children v in
  fStack v' = fStack v
  /\ fCurrentStaffIndex v' = fCurrentStaffIndex v
  /\ fCurrentPartStaffOffset v' = fCurrentPartStaffOffset v
  /\ fPartNum v' = fPartNum v
  /\ fPartsAvailable v' = fPartsAvailable v.
Proof.
  revert v. induction children as [|c children IH]; intros v; cbv zeta; [repeat split|].
  cbn [fold_left]. destruct (IH (visit_child c v)) as (-> & -> & -> & -> & ->).
  destruct c; repeat split.
Qed.

Lemma staff_plan_indices (off : Z) (ps : partsummary) (i : Z) :
  well_numbered ps ->
  In i (map entry_index (staff_plan off (main_staves ps) (countStaves ps)))
  <-> off + 1 <= i <= off + countStaves ps.
Proof.
  intros [Hsorted Hlast].
  set (ms := main_staves ps) in *.
  assert (Hsorted0 : non_decreasing_from 0 ms).
  { destruct ms; [exact I|]. destruct Hsorted. split; [lia | assumption]. }
  destruct (non_decreasing_bounds ms 1 Hsorted) as [_ Hall1].
  destruct (non_decreasing_bounds ms 0 Hsorted0) as [Hlast0 Hall0].
  unfold staff_plan.
  rewrite map_app, entry_index_synth, in_app_iff, in_seqZ.
  rewrite (voices_plan_indices off ms 0 Hsorted0 i).
  split.
  - intros [[Hi|[_ Hin]]|Hi]; [lia | | lia]. specialize (Hall1 _ Hin). lia.
  - intros Hi. destruct (decide (i <= off + List.last ms 0)); [left; left; lia | right; lia].
Qed.

Lemma staves_of_parts_nonnegative (parts : list partsummary) :
  Forall well_numbered parts -> 0 <= staves_of_parts parts.
Proof.
  induction 1 as [|ps parts [Hsorted Hlast] _ IH]; simpl; [lia|].
  assert (Hsorted0 : non_decreasing_from 0 (main_staves ps)).
  { destruct (main_staves ps); [exact I|]. destruct Hsorted. split; [lia | assumption]. }
  destruct (non_decreasing_bounds _ 0 Hsorted0) as [Hlast0 _]. lia.
Qed.

Lemma score_plan_indices (parts : list partsummary) :
  Forall well_numbered parts ->
  forall off i : Z,
    In i (map entry_index (score_plan off parts))
    <-> off + 1 <= i <= off + staves_of_parts parts.
Proof.
  induction 1 as [|ps parts Hps Hparts IH]; intros off i; simpl.
  - split; [tauto | lia].
  - rewrite map_app, in_app_iff, (staff_plan_indices off ps i Hps), IH.
    pose proof (staves_of_parts_nonnegative parts Hparts) as Hrest.
    assert (Hcount : 0 <= countStaves ps).
    { destruct Hps as [Hsorted Hlast].
      assert (Hsorted0 : non_decreasing_from 0 (main_staves ps)).
      { destruct (main_staves ps); [exact I|]. destruct Hsorted. split; [lia | assumption]. }
      destruct (non_decreasing_bounds _ 0 Hsorted0) as [Hlast0 _]. lia. }
    lia.
Qed.

(** The staves of a score are numbered through. When no part is filtered
    out, the staff index starts at the staff offset, and in each part the
    main staves of the voices come in order on staves the part has, the
    visits of the parts of a score and of their [staves] and clef elements
    all return, and they add to the output
    the sequences of the first part, numbered from the offset on, then
    those of the second part, numbered from where the first part ends, and
    so on. The staff indices in use are exactly those from the offset plus
    one to the offset plus the number of staves of all the parts; the staff
    index and the staff offset both end at that number, and every part has
    been counted. *)
Theorem staves_are_numbered_through (parts : list score_part)
    (v : xml2guidovisitor) :
  fPartNum v = 0 ->
  fCurrentStaffIndex v = fCurrentPartStaffOffset v ->
  Forall well_numbered (map sp_summary parts) ->
  let off := fCurrentPartStaffOffset v in
  let total := staves_of_parts (map sp_summary parts) in
  exists (v' : xml2guidovisitor) (seqs : list guidoelement),
    visit_parts parts v = Some v'
    /\ Forall2 is_staff_sequence (score_plan off (map sp_summary parts)) seqs
    /\ fStack v' = grow seqs (fStack v)
    /\ fCurrentStaffIndex v' = off + total
    /\ fCurrentPartStaffOffset v' = off + total
    /\ getPartsAvailable v' = getPartsAvailable v + Z.of_nat (length parts)
    /\ forall i : Z,
         In i (map entry_index (score_plan off (map sp_summary parts)))
         <-> off + 1 <= i <= off + total.
Proof.
  intros Hnum Hidx Hparts. cbv zeta.
  assert (Hruns : exists (v' : xml2guidovisitor) (seqs : list guidoelement),
             visit_parts parts v = Some v'
             /\ Forall2 is_staff_sequence
                  (score_plan (fCurrentPartStaffOffset v) (map sp_summary parts)) seqs
             /\ fStack v' = grow seqs (fStack v)
             /\ fCurrentStaffIndex v'
                = fCurrentPartStaffOffset v + staves_of_parts (map sp_summary parts)
             /\ fCurrentPartStaffOffset v'
                = fCurrentPartStaffOffset v + staves_of_parts (map sp_summary parts)
             /\ fPartsAvailable v' = fPartsAvailable v + Z.of_nat (length parts)).
  { revert v Hnum Hidx Hparts.
    induction parts as [|[elt ps children] parts IH]; intros v Hnum Hidx Hparts.
    - exists v, []. simpl. split; [reflexivity|]. split; [constructor|].
      split; [destruct (fStack v); reflexivity|]. repeat split; lia.
    - simpl in Hparts. apply Forall_cons in Hparts. destruct Hparts as [Hps Hparts].
      destruct (visitStart_part_plan elt ps v Hnum Hidx Hps)
        as (v1 & seqs1 & Hv1 & Hseqs1 & Hst1 & Hi1 & Ho1 & Hn1 & Hp1).
      destruct (visit_children_frame children v1) as (Hcs & Hci & Hco & Hcn & Hcp).
      set (w := fold_left (fun v c => visit_child c v) children v1) in *.
      destruct (IH w) as (v2 & seqs2 & Hv2 & Hseqs2 & Hst2 & Hi2 & Ho2 & Hp2);
        [congruence | congruence | exact Hparts |].
      exists v2, (seqs1 ++ seqs2).
      cbn [visit_parts map sp_elt sp_summary sp_children score_plan staves_of_parts
             fold_right length].
      rewrite Hv1. fold w. split; [exact Hv2|].
      split; [apply Forall2_app; [exact Hseqs1 | rewrite <- Ho1, <- Hco; exact Hseqs2]|].
      split; [rewrite grow_app, <- Hst1, <- Hcs; exact Hst2|].
      unfold staves_of_parts in *. repeat split; lia. }
  destruct Hruns as (v' & seqs & Hv' & Hseqs & Hst & Hi & Ho & Hp).
  exists v', seqs. unfold getPartsAvailable.
  repeat (split; [assumption|]).
  apply score_plan_indices, Hparts.
Qed.

End ScoreStaves.

(** The score of two parts, a piano on two staves with a voice on each and
    a flute on one staff, gets the staff indices 1, 2 and 3. *)
Lemma staves_are_numbered_through_witness :
  exists (v' : xml2guidovisitor) (seqs : list guidoelement),
    @GuidoParts.visit_parts Sample.quiet
      [GuidoParts.mkScorePart Sample.bare_part (Sample.summary_of [1; 2] 2)
         [GuidoParts.staves_child 2];
       GuidoParts.mkScorePart (mkPart "P2" 0 [] [] []) (Sample.summary_of [1] 1) []]
      Sample.visitor0 = Some v'
    /\ Forall2 Spec.is_staff_sequence
         [Spec.VoiceStaff 1; Spec.VoiceStaff 2; Spec.VoiceStaff 3] seqs
    /\ fStack v' = Spec.grow seqs [guidochord []]
    /\ fCurrentStaffIndex v' = 3
    /\ fCurrentPartStaffOffset v' = 3
    /\ GuidoScore.getPartsAvailable v' = 2.
Proof.
  assert (Hnum : fPartNum Sample.visitor0 = 0) by reflexivity.
  assert (Hidx : fCurrentStaffIndex Sample.visitor0 = fCurrentPartStaffOffset Sample.visitor0)
    by reflexivity.
  assert (Hparts : Forall GuidoParts.well_numbered
                     (map GuidoParts.sp_summary
                        [GuidoParts.mkScorePart Sample.bare_part (Sample.summary_of [1; 2] 2)
                           [GuidoParts.staves_child 2];
                         GuidoParts.mkScorePart (mkPart "P2" 0 [] [] [])
                           (Sample.summary_of [1] 1) []])).
  { repeat constructor; simpl; lia. }
  destruct (@staves_are_numbered_through Sample.quiet _ Sample.visitor0 Hnum Hidx Hparts)
    as (v' & seqs & Hv' & Hseqs & Hst & Hi & Ho & Hp & _).
  exists v', seqs. repeat (split; [assumption|]). exact Hp.
Defined.

(** ** What a synthesized staff holds *)

Section SynthesizedStaff.

Import Guido GuidoScore GuidoStaff Spec.

Lemma parseClef_on_sequence (iter : clef_elt) (staffIndex : Z) (es : list guidoelement)
    (rest : list guidoelement) (v : xml2guidovisitor) :
  fStack v = guidoseq es :: rest ->
  fStack (parseClef iter staffIndex v)
  = guidoseq (es ++ clef_tags staffIndex [iter]) :: rest
  /\ cerr (parseClef iter staffIndex v) = cerr v ++ clef_warnings staffIndex [iter]
  /\ fGenerateBars (parseClef iter staffIndex v) = fGenerateBars v.
Proof.
  intros Hst. unfold parseClef, clef_text. simpl.
  destruct (clef_number iter =? staffIndex); simpl.
  - destruct (clef_letter (clef_sign iter)) as [letter|]; simpl.
    + unfold add. rewrite Hst. simpl. rewrite !app_nil_r. repeat split; reflexivity.
    + rewrite !app_nil_r. repeat split; assumption.
  - rewrite !app_nil_r. repeat split; assumption.
Qed.

Lemma parseClefs_on_sequence (staffIndex : Z) (clefs : list clef_elt) :
  forall (es rest : list guidoelement) (v : xml2guidovisitor),
    fStack v = guidoseq es :: rest ->
    let v' := fold_left (fun v c => parseClef c staffIndex v) clefs v in
    fStack v' = guidoseq (es ++ clef_tags staffIndex clefs) :: rest
    /\ cerr v' = cerr v ++ clef_warnings staffIndex clefs
    /\ fGenerateBars v' = fGenerateBars v.
Proof.
  induction clefs as [|iter clefs IH]; intros es rest v Hst; cbv zeta.
  - simpl. rewrite !app_nil_r. repeat split. exact Hst.
  - cbn [fold_left].
    destruct (parseClef_on_sequence iter staffIndex es rest v Hst) as (Hst1 & Hc1 & Hb1).
    destruct (IH _ rest _ Hst1) as (Hst2 & Hc2 & Hb2). cbv zeta in Hst2, Hc2, Hb2.
    rewrite Hst2, Hc2, Hc1, Hb2, Hb1.
    cbn [clef_tags clef_warnings]. simpl in *. rewrite !app_nil_r, <- !app_assoc.
    repeat split.
Qed.

Lemma keys_on_sequence (keys : list key_elt) :
  forall (es rest : list guidoelement) (v : xml2guidovisitor),
    fStack v = guidoseq es :: rest ->
    let v' := fold_left (fun v k => add (key_tag k) v) keys v in
    fStack v' = guidoseq (es ++ map key_tag keys) :: rest
    /\ cerr v' = cerr v
    /\ fGenerateBars v' = fGenerateBars v.
Proof.
  induction keys as [|k keys IH]; intros es rest v Hst; cbv zeta.
  - simpl. rewrite app_nil_r. repeat split. exact Hst.
  - cbn [fold_left map].
    assert (Hst1 : fStack (add (key_tag k) v) = guidoseq (es ++ [key_tag k]) :: rest)
      by (unfold add; rewrite Hst; reflexivity).
    destruct (IH _ rest _ Hst1) as (Hst2 & Hc2 & Hb2). cbv zeta in Hst2, Hc2, Hb2.
    rewrite Hst2, Hc2, Hb2, <- app_assoc.
    unfold add. rewrite Hst. repeat split.
Qed.

(** What a synthesized staff holds. [createStaff] adds one sequence to the
    innermost open element: the staff tag, then a clef tag for each clef of
    the part that bears the number of the staff and a sign it knows, in
    document order, then a key tag for every key of the part, whatever
    staff the key is for, then the meter tag of the first time element of
    the part unless that element is not to be printed. A clef of the staff
    with an unknown sign gives a warning instead of a tag. The stack is as
    deep as before, and the staff index and offset are unchanged. *)
Theorem createStaff_holds_the_attributes (staffIndex : Z) (elt : part_elt)
    (v : xml2guidovisitor) :
  let v' := createStaff staffIndex elt v in
  fStack v' = grow [staff_sequence (fGenerateBars v) staffIndex elt] (fStack v)
  /\ cerr v' = cerr v ++ clef_warnings staffIndex (part_clefs elt)
  /\ length (fStack v') = length (fStack v)
  /\ fCurrentStaffIndex v' = fCurrentStaffIndex v
  /\ fCurrentPartStaffOffset v' = fCurrentPartStaffOffset v
  /\ bookkeeping v' = bookkeeping v.
Proof.
  cbv zeta.
  assert (Hmain : fStack (createStaff staffIndex elt v)
                  = grow [staff_sequence (fGenerateBars v) staffIndex elt] (fStack v)
                  /\ cerr (createStaff staffIndex elt v)
                     = cerr v ++ clef_warnings staffIndex (part_clefs elt)).
  { unfold createStaff, staff_sequence.
    set (v1 := add (staff_tag staffIndex) (push (guidoseq []) v)).
    assert (Hst1 : fStack v1 = guidoseq [staff_tag staffIndex] :: fStack v) by reflexivity.
    destruct (parseClefs_on_sequence staffIndex (part_clefs elt) _ _ v1 Hst1)
      as (Hst2 & Hc2 & Hb2). cbv zeta in Hst2, Hc2, Hb2.
    set (v2 := fold_left (fun v c => parseClef c staffIndex v) (part_clefs elt) v1) in *.
    destruct (keys_on_sequence (part_keys elt) _ _ v2 Hst2) as (Hst3 & Hc3 & Hb3).
    cbv zeta in Hst3, Hc3, Hb3.
    set (v3 := fold_left (fun v k => add (key_tag k) v) (part_keys elt) v2) in *.
    assert (Hbars : fGenerateBars v3 = fGenerateBars v) by (rewrite Hb3, Hb2; reflexivity).
    assert (Hcerr : cerr v3 = cerr v ++ clef_warnings staffIndex (part_clefs elt))
      by (rewrite Hc3, Hc2; reflexivity).
    unfold meter_tags.
    destruct (part_times elt) as [|t ts].
    - rewrite app_nil_r. unfold pop. rewrite Hst3.
      destruct (fStack v) as [|parent rest]; simpl; split; try assumption; reflexivity.
    - unfold parseTime. rewrite Hbars.
      destruct (String.eqb (time_print_object t) "no"); simpl.
      + rewrite app_nil_r. unfold pop. rewrite Hst3.
        destruct (fStack v) as [|parent rest]; simpl; split; try assumption; reflexivity.
      + unfold pop, add. rewrite Hst3. simpl.
        rewrite <- !app_assoc.
        destruct (fStack v) as [|parent rest]; simpl; split; try assumption; reflexivity. }
  destruct Hmain as [Hst Hcerr].
  split; [exact Hst|]. split; [exact Hcerr|].
  split; [rewrite Hst; destruct (fStack v); reflexivity|].
  destruct (createStaff_builds staffIndex elt v) as ((Hoff & _) & Hidx).
  split; [exact Hidx|]. split; [exact Hoff|].
  apply bookkeeping_createStaff.
Qed.

End SynthesizedStaff.

(** ** The first part is the part of the least id *)

Section FirstPart.

Import Guido GuidoScore GuidoFirstPart.

Lemma ascii_compare_refl (a : ascii) : Ascii.compare a a = Eq.
Proof. unfold Ascii.compare. apply N.compare_refl. Qed.

Lemma string_compare_refl (s : string) : String.compare s s = Eq.
Proof.
  induction s as [|a s IH]; simpl; [reflexivity|]. rewrite ascii_compare_refl. exact IH.
Qed.

Lemma string_compare_lt_trans (s1 : string) :
  forall s2 s3 : string,
    String.compare s1 s2 = Lt -> String.compare s2 s3 = Lt -> String.compare s1 s3 = Lt.
Proof.
  induction s1 as [|a s1 IH]; intros [|b s2] [|c s3]; simpl; try discriminate; auto.
  unfold Ascii.compare.
  destruct (N.compare_spec (N_of_ascii a) (N_of_ascii b)) as [Hab|Hab|Hab];
    destruct (N.compare_spec (N_of_ascii b) (N_of_ascii c)) as [Hbc|Hbc|Hbc];
    try discriminate; intros H12 H23.
  - rewrite Hab, Hbc, N.compare_refl. eapply IH; eassumption.
  - rewrite Hab. apply N.compare_lt_iff in Hbc. rewrite Hbc. reflexivity.
  - rewrite <- Hbc. apply N.compare_lt_iff in Hab. rewrite Hab. reflexivity.
  - assert (Hac : (N_of_ascii a < N_of_ascii c)%N) by lia.
    apply N.compare_lt_iff in Hac. rewrite Hac. reflexivity.
Qed.

Lemma string_ltb_leb (s1 s2 : string) : String.ltb s1 s2 = negb (String.leb s2 s1).
Proof.
  unfold String.ltb, String.leb. rewrite (String.compare_antisym s1 s2).
  destruct (String.compare s2 s1); reflexivity.
Qed.

Lemma string_leb_refl (s : string) : String.leb s s = true.
Proof. unfold String.leb. rewrite string_compare_refl. reflexivity. Qed.

Lemma string_leb_trans (s1 s2 s3 : string) :
  String.leb s1 s2 = true -> String.leb s2 s3 = true -> String.leb s1 s3 = true.
Proof.
  unfold String.leb. intros H12 H23.
  destruct (String.compare s1 s2) eqn:E12; try discriminate;
    destruct (String.compare s2 s3) eqn:E23; try discriminate.
  - apply String.compare_eq_iff in E12, E23. subst. rewrite string_compare_refl. reflexivity.
  - apply String.compare_eq_iff in E12. subst. rewrite E23. reflexivity.
  - apply String.compare_eq_iff in E23. subst. rewrite E12. reflexivity.
  - rewrite (string_compare_lt_trans _ _ _ E12 E23). reflexivity.
Qed.

(** The entry [map_begin] gives is an entry of the map, and no key of the
    map comes before its key; on the empty map alone there is none. *)
Lemma map_begin_spec {A : Type} (m : gmap string A) :
  match map_begin m with
  | Some (key, a) =>
      m !! key = Some a
      /\ forall (key' : string) (a' : A), m !! key' = Some a' -> String.leb key key' = true
  | None => m = ∅
  end.
Proof.
  unfold map_begin.
  apply (map_fold_weak_ind
           (fun (first : option (string * A)) (m : gmap string A) =>
              match first with
              | Some (key, a) =>
                  m !! key = Some a
                  /\ forall (key' : string) (a' : A),
                       m !! key' = Some a' -> String.leb key key' = true
              | None => m = ∅
              end)); [reflexivity|].
  intros i x m' r Hfree IH. unfold least.
  destruct r as [[key a]|].
  - destruct IH as [Hkey Hleast].
    destruct (String.ltb i key) eqn:Hlt.
    + split; [apply lookup_insert_eq|].
      intros key' a' Hin. destruct (decide (key' = i)) as [->|Hne].
      * apply string_leb_refl.
      * rewrite lookup_insert_ne in Hin by congruence.
        apply string_leb_trans with key; [|eapply Hleast; exact Hin].
        rewrite string_ltb_leb in Hlt. apply negb_true_iff in Hlt.
        destruct (String.leb_total i key) as [H|H]; [exact H | congruence].
    + split.
      * rewrite lookup_insert_ne; [exact Hkey | congruence].
      * intros key' a' Hin. destruct (decide (key' = i)) as [->|Hne].
        -- rewrite string_ltb_leb in Hlt. apply negb_false_iff in Hlt. exact Hlt.
        -- rewrite lookup_insert_ne in Hin by congruence. eapply Hleast; exact Hin.
  - subst m'. split; [apply lookup_insert_eq|].
    intros key' a' Hin. destruct (decide (key' = i)) as [->|Hne].
    + apply string_leb_refl.
    + rewrite lookup_insert_ne in Hin by congruence. rewrite lookup_empty in Hin.
      discriminate.
Qed.

Lemma map_begin_least {A : Type} (m : gmap string A) (key : string) (a : A) :
  m !! key = Some a ->
  (forall (key' : string) (a' : A), m !! key' = Some a' -> String.leb key key' = true) ->
  map_begin m = Some (key, a).
Proof.
  intros Hkey Hleast. pose proof (map_begin_spec m) as Hspec.
  destruct (map_begin m) as [[k b]|].
  - destruct Hspec as [Hk Hk_least].
    assert (k = key).
    { apply String.leb_antisym; [eapply Hk_least | eapply Hleast]; eassumption. }
    subst k. congruence.
  - subst m. rewrite lookup_empty in Hkey. discriminate.
Qed.

Lemma keys_before_nil {A : Type} (key : string) (m : gmap string A) :
  keys_before key m = []
  <-> forall (key' : string) (a' : A), m !! key' = Some a' -> String.leb key key' = true.
Proof.
  unfold keys_before. split.
  - intros Hnil key' a' Hin.
    destruct (String.leb key key') eqn:Hle; [reflexivity|]. exfalso.
    assert (Hmem : In key' (List.filter (fun k => String.ltb k key) (map fst (map_to_list m)))).
    { apply filter_In. split.
      - apply in_map_iff. exists (key', a'). split; [reflexivity|].
        apply list_elem_of_In, elem_of_map_to_list. exact Hin.
      - rewrite string_ltb_leb, Hle. reflexivity. }
    rewrite Hnil in Hmem. exact Hmem.
  - intros Hleast.
    destruct (List.filter (fun k => String.ltb k key) (map fst (map_to_list m))) as [|k l] eqn:E;
      [reflexivity|]. exfalso.
    assert (Hmem : In k (List.filter (fun k => String.ltb k key) (map fst (map_to_list m))))
      by (rewrite E; left; reflexivity).
    apply filter_In in Hmem. destruct Hmem as [Hin Hlt].
    apply in_map_iff in Hin. destruct Hin as ([k' a'] & Hk & Hin). simpl in Hk. subst k'.
    apply list_elem_of_In, elem_of_map_to_list in Hin.
    rewrite string_ltb_leb, (Hleast _ _ Hin) in Hlt. discriminate.
Qed.

(** The first part is the part of the least id, not the first part of the
    document. [getStavesForFirstPart] is not defined before any part has
    been visited; after that it gives the staves recorded for the part
    whose id comes first in the order of strings. So the visit of a part
    makes that part the first part, with one staff, exactly when no part
    visited before has an id that comes before its id; the visit of a part
    whose id comes after the id of an earlier part leaves the answer as it
    was. After the parts [P2] and [P10], in either order, the first part is
    [P10]. *)
Theorem first_part_is_the_least_id (elt : part_elt) (ps : partsummary)
    (v : xml2guidovisitor) `{PartCollaborators} :
  (getStavesForFirstPart v = None <-> stavesInPart v = ∅)
  /\ (forall staves : Z,
        getStavesForFirstPart v = Some staves ->
        exists part : string,
          stavesInPart v !! part = Some staves
          /\ forall (part' : string) (staves' : Z),
               stavesInPart v !! part' = Some staves' -> String.leb part part' = true)
  /\ (exists v' : xml2guidovisitor,
        visitStart_part elt ps v = Some v'
        /\ getStavesForFirstPart v'
           = (if decide (keys_before (part_id elt) (stavesInPart v) = []) then Some 1
              else getStavesForFirstPart v)
        /\ forall staves : Z,
             getStavesForFirstPart (visitStart_staves staves v')
             = (if decide (keys_before (part_id elt) (stavesInPart v) = []) then Some staves
                else getStavesForFirstPart v))
  /\ map_begin (<["P10" := 1]> (<["P2" := 2]> (∅ : gmap string Z))) = Some ("P10"%string, 1)
  /\ map_begin (<["P2" := 2]> (<["P10" := 1]> (∅ : gmap string Z))) = Some ("P10"%string, 1).
Proof.
  unfold getStavesForFirstPart.
  pose proof (map_begin_spec (stavesInPart v)) as Hspec.
  split; [|split; [|split; [|split; vm_compute; reflexivity]]].
  - destruct (map_begin (stavesInPart v)) as [[key a]|]; simpl.
    + split; [discriminate|]. intros Hempty. destruct Hspec as [Hkey _].
      rewrite Hempty, lookup_empty in Hkey. discriminate.
    + split; [intros _; exact Hspec | reflexivity].
  - intros staves Hfirst.
    destruct (map_begin (stavesInPart v)) as [[key a]|]; simpl in Hfirst; [|discriminate].
    injection Hfirst as ->. exists key. exact Hspec.
  - destruct (visitStart_part_bookkeeping elt ps v) as (v' & Hv' & Hall & _).
    exists v'. split; [exact Hv'|].
    unfold bookkeeping in Hall. injection Hall as _ _ _ _ Hcur Hstaves _.
    assert (Hinsert : forall staves : Z,
               snd <$> map_begin (<[part_id elt := staves]> (stavesInPart v))
               = (if decide (keys_before (part_id elt) (stavesInPart v) = [])
                  then Some staves
                  else snd <$> map_begin (stavesInPart v))).
    { intros staves.
      destruct (decide (keys_before (part_id elt) (stavesInPart v) = [])) as [Hnil|Hsome].
      - rewrite (map_begin_least _ (part_id elt) staves); [reflexivity | apply lookup_insert_eq |].
        intros key' a' Hin. destruct (decide (key' = part_id elt)) as [->|Hne].
        + apply string_leb_refl.
        + rewrite lookup_insert_ne in Hin by congruence.
          apply (proj1 (keys_before_nil _ _) Hnil key' a' Hin).
      - destruct (map_begin (stavesInPart v)) as [[key a]|].
        + destruct Hspec as [Hkey Hleast].
          assert (Hlt : String.leb (part_id elt) key = false).
          { destruct (String.leb (part_id elt) key) eqn:Hle; [|reflexivity].
            exfalso. apply Hsome. apply keys_before_nil.
            intros key' a' Hin. apply string_leb_trans with key; [exact Hle|].
            eapply Hleast; exact Hin. }
          assert (Hne : key <> part_id elt).
          { intros ->. rewrite string_leb_refl in Hlt. discriminate. }
          rewrite (map_begin_least _ key a); [reflexivity | |].
          * rewrite lookup_insert_ne; [exact Hkey | congruence].
          * intros key' a' Hin. destruct (decide (key' = part_id elt)) as [->|Hne'].
            -- destruct (String.leb_total key (part_id elt)) as [Hle|Hle];
                 [exact Hle | congruence].
            -- rewrite lookup_insert_ne in Hin by congruence. eapply Hleast; exact Hin.
        + exfalso. apply Hsome. apply keys_before_nil.
          intros key' a' Hin. rewrite Hspec, lookup_empty in Hin. discriminate. }
    split.
    + rewrite Hstaves. apply Hinsert.
    + intros staves. unfold visitStart_staves, with_staves_in_part. simpl.
      rewrite Hcur, Hstaves, insert_insert_eq. apply Hinsert.
Qed.

End FirstPart.

(** ** The end of a grace note *)

Section GraceNoteEnd.

Import Msr Lpsr GraceNotes.

Context `{NoteRendering}.

(** The end of a grace note looks at the note it ornaments. In an on-going
    grace notes group, [visitEnd (S_msrNote&)] of a grace note appends the
    current grace note clone to the clone of the group; the editorial
    accidental that makes the LPSR score need its Scheme function is then
    read from the current non grace note clone, not from the grace note
    or its clone, and the on-going note flag is cleared, also when the
    ornamented note is still being visited. With no non grace note clone,
    or one that is no note, the visit is not defined. *)
Theorem grace_note_follows_the_principal_note (elt group grace : loc) (n : msrNoteData)
    (notes : list loc) (lpsr : lpsrScore) (t : msr2LpsrTranslator) :
  msrStore t !! elt = Some (msrNote n) ->
  noteKind n = kGraceNote ->
  in_grace_notes_group group grace notes t ->
  fLpsrScore t = Some lpsr ->
  match fCurrentNonGraceNoteClone (current t) with
  | Some principal =>
      match msrStore t !! principal with
      | Some (msrNote p) =>
          visitEnd_msrNote elt t
          = Done tt (after_grace_note group grace notes (noteEditorialAccidentalKind p) t)
      | _ => visitEnd_msrNote elt t = Undefined
      end
  | None => visitEnd_msrNote elt t = Undefined
  end.
Proof.
  intros Helt Hkind (Hflag & Hgroup & Hnotes & Hgrace) Hlpsr.
  assert (Happend : append_note_clone n t
                    = Done tt (set_store (<[group := msrGraceNotesGroup (notes ++ [grace])]>
                                            (msrStore t)) t)).
  { unfold append_note_clone. unfold bind at 1. unfold get. rewrite Hkind, Hflag. simpl.
    rewrite Hgroup, Hgrace. unfold bind, follow, ret, update, appendNoteToGraceNotesGroup.
    rewrite Hnotes. reflexivity. }
  set (t1 := set_store (<[group := msrGraceNotesGroup (notes ++ [grace])]> (msrStore t)) t)
    in *.
  assert (Hrun : visitEnd_msrNote elt t
                 = (note <~ follow (fCurrentNonGraceNoteClone (current t)) ;;
                    clone <~ read_note note ;;
                    match noteEditorialAccidentalKind clone with
                    | kNoteEditorialAccidentalYes =>
                        update_lpsr_score setEditorialAccidentalSchemeFunctionIsNeeded
                    | kNoteEditorialAccidentalNo => ret tt
                    end ;;;
                    modify (fun t => set_on_going (set_note_flag false (onGoing t)) t)) t1).
  { unfold visitEnd_msrNote.
    unfold bind at 1. unfold read_note at 1, bind at 1, read. rewrite Helt. unfold ret at 1.
    unfold bind at 1. rewrite Happend.
    unfold bind at 1. unfold get. reflexivity. }
  rewrite Hrun. clear Hrun.
  destruct (fCurrentNonGraceNoteClone (current t)) as [principal|]; [|reflexivity].
  assert (Hread : read_note principal t1
                  = match msrStore t !! principal with
                    | Some (msrNote p) => Done p t1
                    | _ => Undefined
                    end).
  { unfold read_note, bind, read, t1. simpl.
    destruct (decide (principal = group)) as [->|Hne].
    - rewrite lookup_insert_eq, Hnotes. reflexivity.
    - rewrite lookup_insert_ne by congruence.
      destruct (msrStore t !! principal) as [o|]; [|reflexivity].
      destruct o; reflexivity. }
  cbv beta iota delta [bind follow ret]. rewrite Hread.
  destruct (msrStore t !! principal) as [o|]; [|reflexivity].
  destruct o; try reflexivity.
  unfold update_lpsr_score, modify, after_grace_note, t1.
  destruct (noteEditorialAccidentalKind note); simpl; [rewrite Hlpsr|]; reflexivity.
Qed.

End GraceNoteEnd.

(** A grace note with an editorial accidental on a note without one: the
    LPSR score does not get the flag, and the note is no longer on going. *)
Lemma grace_note_follows_the_principal_note_witness :
  @Lpsr.visitEnd_msrNote Sample.by_line 1%nat GraceNotes.translator_at_grace_note
  = Done tt (GraceNotes.after_grace_note 3%nat 4%nat [] kNoteEditorialAccidentalNo
               GraceNotes.translator_at_grace_note)
  /\ fLpsrScore (GraceNotes.after_grace_note 3%nat 4%nat [] kNoteEditorialAccidentalNo
                   GraceNotes.translator_at_grace_note)
     = Some (mkLpsrScore 0%nat [] false false)
  /\ fOnGoingNote (onGoing (GraceNotes.after_grace_note 3%nat 4%nat []
                              kNoteEditorialAccidentalNo
                              GraceNotes.translator_at_grace_note))
     = false.
Proof.
  split; [|split; reflexivity].
  apply (@grace_note_follows_the_principal_note Sample.by_line 1%nat 3%nat 4%nat
           GraceNotes.editorial_grace_note [] (mkLpsrScore 0%nat [] false false)
           GraceNotes.translator_at_grace_note).
  - vm_compute. reflexivity.
  - reflexivity.
  - repeat split.
  - reflexivity.
Defined.

(** *** Double tremolos *)

Section DoubleTremoloVisits.

Import Msr Lpsr DoubleTremolos.

Context `{NoteRendering}.

(** An address in use is not the next one allocated. *)
Lemma fresh_is_unused (σ : gmap loc msrElement) (l : loc) (o : msrElement) :
  σ !! l = Some o -> fresh (dom σ) <> l.
Proof.
  intros Hl Heq. apply (is_fresh (dom σ)). rewrite Heq.
  apply elem_of_dom. exists o. exact Hl.
Qed.

(** Sequencing is associative. *)
Lemma bind_bind {A B C : Type} (m : M A) (k : A -> M B) (k' : B -> M C)
    (t : msr2LpsrTranslator) :
  bind m (fun a => bind (k a) k') t = bind (bind m k) k' t.
Proof. unfold bind. destruct (m t); reflexivity. Qed.

(** X23. A double tremolo is not cloned. From the start of a double tremolo
    to the end of one of its member notes, the current double tremolo clone
    is the double tremolo visited itself, and the clone of the note, a new
    object, becomes the first element of that double tremolo when the note
    is marked first, its second element when it is marked second and not
    first; the other element and every other object stay as they were. A
    member note marked neither first nor second is a fatal internal error
    at the line of the note, and the double tremolo is unchanged. *)
Theorem double_tremolo_is_written_in_place (elt note : loc) (first second : option loc)
    (n : msrNoteData) (lpsr : lpsrScore) (t : msr2LpsrTranslator) :
  msrStore t !! elt = Some (msrDoubleTremolo first second) ->
  msrStore t !! note = Some (msrNote n) ->
  noteKind n = kDoubleTremoloMemberNote ->
  fLpsrScore t = Some lpsr ->
  let clone := fresh (dom (msrStore t)) in
  let elements :=
    if noteIsFirstNoteInADoubleTremolo n then Some (Some clone, second)
    else if noteIsSecondNoteInADoubleTremolo n then Some (first, Some clone)
    else None in
  match elements with
  | Some (first', second') =>
      exists t' : msr2LpsrTranslator,
        visit_to_member_note elt note t = Done tt t'
        /\ fCurrentDoubleTremoloClone (current t') = Some elt
        /\ msrStore t' !! elt = Some (msrDoubleTremolo first' second')
        /\ msrStore t !! clone = None
        /\ msrStore t' !! clone = Some (msrNote n)
        /\ (forall l : loc, l <> elt -> l <> clone -> msrStore t' !! l = msrStore t !! l)
  | None =>
      exists (message : string) (t' : msr2LpsrTranslator),
        visit_to_member_note elt note t = Fatal (noteInputLineNumber n) message t'
        /\ fCurrentDoubleTremoloClone (current t') = Some elt
        /\ msrStore t' !! elt = Some (msrDoubleTremolo first second)
  end.
Proof.
  intros Helt Hnote Hkind Hlpsr clone elements.
  assert (Hne1 : clone <> elt).
  { apply fresh_is_unused with (o := msrDoubleTremolo first second). exact Helt. }
  assert (Hne2 : clone <> note).
  { apply fresh_is_unused with (o := msrNote n). exact Hnote. }
  assert (Hfree : msrStore t !! clone = None).
  { apply not_elem_of_dom. apply is_fresh. }
  set (t0 := set_on_going (set_double_tremolo_flag true (onGoing t))
               (set_current (set_double_tremolo_clone (Some elt) (current t)) t)).
  set (t1 := set_on_going (set_note_flag true (onGoing t0))
               (set_current (set_non_grace_note_clone (Some clone) (current t0))
                  (set_store (<[clone := msrNote n]> (msrStore t)) t0))).
  assert (Hstart : (visitStart_msrDoubleTremolo elt ;;; visitStart_msrNote note) t = Done tt t1).
  { unfold visitStart_msrDoubleTremolo, visitStart_msrNote, bind, modify, get, create,
      createNoteNewbornClone, alloc, read_note, read, ret.
    cbn [msrStore set_on_going set_current set_store current].
    rewrite Hnote. fold clone.
    cbn [msrStore set_on_going set_current set_store current].
    unfold bind. cbv beta. cbn [msrStore set_on_going set_current set_store current].
    rewrite lookup_insert_ne by exact Hne2. rewrite Hnote, Hkind. reflexivity. }
  assert (Hread : read_note note t1 = Done n t1).
  { unfold read_note, read, bind, ret, t1.
    cbn [msrStore set_on_going set_current set_store current].
    rewrite lookup_insert_ne by exact Hne2. unfold t0.
    cbn [msrStore set_on_going set_current set_store current].
    rewrite Hnote. reflexivity. }
  assert (Hrun : visit_to_member_note elt note t
                 = (append_note_clone n ;;;
                    t <~ get ;;
                    note <~ follow (fCurrentNonGraceNoteClone (current t)) ;;
                    clone <~ read_note note ;;
                    match noteEditorialAccidentalKind clone with
                    | kNoteEditorialAccidentalYes =>
                        update_lpsr_score setEditorialAccidentalSchemeFunctionIsNeeded
                    | kNoteEditorialAccidentalNo => ret tt
                    end ;;;
                    modify (fun t => set_on_going (set_note_flag false (onGoing t)) t)) t1).
  { unfold visit_to_member_note.
    change (visit_to_member_note elt note t) with
      (bind (visitStart_msrDoubleTremolo elt)
         (fun _ => bind (visitStart_msrNote note) (fun _ => visitEnd_msrNote note)) t).
    rewrite (bind_bind (visitStart_msrDoubleTremolo elt) (fun _ => visitStart_msrNote note)
               (fun _ => visitEnd_msrNote note)).
    unfold bind at 1. rewrite Hstart.
    unfold visitEnd_msrNote. unfold bind at 1. rewrite Hread. reflexivity. }
  rewrite Hrun. clear Hrun.
  assert (Hflag : fOnGoingDoubleTremolo (onGoing t1) = true) by reflexivity.
  assert (Hnon : fCurrentNonGraceNoteClone (current t1) = Some clone) by reflexivity.
  assert (Htrem : fCurrentDoubleTremoloClone (current t1) = Some elt) by reflexivity.
  assert (Hclone : msrStore t1 !! clone = Some (msrNote n)).
  { unfold t1. cbn [msrStore set_on_going set_current set_store current].
    apply lookup_insert_eq. }
  assert (Helt1 : msrStore t1 !! elt = Some (msrDoubleTremolo first second)).
  { unfold t1. cbn [msrStore set_on_going set_current set_store current].
    rewrite lookup_insert_ne by exact Hne1. exact Helt. }
  assert (Hstore1 : msrStore t1 = <[clone := msrNote n]> (msrStore t)) by reflexivity.
  assert (Hlpsr1 : fLpsrScore t1 = Some lpsr) by exact Hlpsr.
  clearbody t1. clear Hstart Hread t0.
  assert (Hread : forall t2 : msr2LpsrTranslator,
             msrStore t2 !! clone = Some (msrNote n) -> read_note clone t2 = Done n t2).
  { intros t2 H2. unfold read_note, read, bind, ret. rewrite H2. reflexivity. }
  assert (Happend : append_note_clone n t1
                    = if noteIsFirstNoteInADoubleTremolo n
                      then update (setDoubleTremoloNoteFirstElement elt clone) t1
                      else if noteIsSecondNoteInADoubleTremolo n
                           then update (setDoubleTremoloNoteSecondElement elt clone) t1
                           else Fatal (noteInputLineNumber n)
                                  (double_tremolo_unmarked_message n) t1).
  { unfold append_note_clone, bind, get. rewrite Hkind, Hflag, Hnon.
    unfold follow, ret. cbv beta. rewrite (Hread t1 Hclone), Htrem.
    destruct (noteIsFirstNoteInADoubleTremolo n); [reflexivity|].
    destruct (noteIsSecondNoteInADoubleTremolo n); reflexivity. }
  assert (Htail : forall σ : gmap loc msrElement,
             σ !! clone = Some (msrNote n) ->
             exists t' : msr2LpsrTranslator,
               (t <~ get ;;
                note <~ follow (fCurrentNonGraceNoteClone (current t)) ;;
                clone <~ read_note note ;;
                match noteEditorialAccidentalKind clone with
                | kNoteEditorialAccidentalYes =>
                    update_lpsr_score setEditorialAccidentalSchemeFunctionIsNeeded
                | kNoteEditorialAccidentalNo => ret tt
                end ;;;
                modify (fun t => set_on_going (set_note_flag false (onGoing t)) t))
                 (set_store σ t1) = Done tt t'
               /\ msrStore t' = σ /\ current t' = current t1).
  { intros σ Hσ. unfold bind, get.
    change (fCurrentNonGraceNoteClone (current (set_store σ t1)))
      with (fCurrentNonGraceNoteClone (current t1)).
    rewrite Hnon. unfold follow, ret. cbv beta.
    rewrite (Hread (set_store σ t1) Hσ).
    unfold update_lpsr_score, modify.
    destruct (noteEditorialAccidentalKind n).
    - change (fLpsrScore (set_store σ t1)) with (fLpsrScore t1). rewrite Hlpsr1.
      eexists. split; [reflexivity|]. split; reflexivity.
    - eexists. split; [reflexivity|]. split; reflexivity. }
  unfold elements. clear elements.
  unfold update, setDoubleTremoloNoteFirstElement, setDoubleTremoloNoteSecondElement
    in Happend.
  rewrite Helt1 in Happend. revert Happend.
  destruct (noteIsFirstNoteInADoubleTremolo n);
    [|destruct (noteIsSecondNoteInADoubleTremolo n)];
    intros Happend; unfold bind at 1; rewrite Happend.
  - destruct (Htail (<[elt := msrDoubleTremolo (Some clone) second]> (msrStore t1)))
      as (t' & Hrun & Hstore & Hcurrent).
    { rewrite lookup_insert_ne by congruence. exact Hclone. }
    exists t'. split; [exact Hrun|]. rewrite Hcurrent, Hstore, Hstore1.
    split; [exact Htrem|]. split; [apply lookup_insert_eq|]. split; [exact Hfree|].
    split.
    + rewrite lookup_insert_ne by congruence. apply lookup_insert_eq.
    + intros l Hl1 Hl2. rewrite !lookup_insert_ne by congruence. reflexivity.
  - destruct (Htail (<[elt := msrDoubleTremolo first (Some clone)]> (msrStore t1)))
      as (t' & Hrun & Hstore & Hcurrent).
    { rewrite lookup_insert_ne by congruence. exact Hclone. }
    exists t'. split; [exact Hrun|]. rewrite Hcurrent, Hstore, Hstore1.
    split; [exact Htrem|]. split; [apply lookup_insert_eq|]. split; [exact Hfree|].
    split.
    + rewrite lookup_insert_ne by congruence. apply lookup_insert_eq.
    + intros l Hl1 Hl2. rewrite !lookup_insert_ne by congruence. reflexivity.
  - exists (double_tremolo_unmarked_message n), t1.
    split; [reflexivity|]. split; [exact Htrem | exact Helt1].
Qed.

End DoubleTremoloVisits.

(** The first note of the double tremolo at address 1: its clone is the new
    object at address 6, and the double tremolo of the MSR now leads to it. *)
Lemma double_tremolo_is_written_in_place_witness :
  exists t' : msr2LpsrTranslator,
    @DoubleTremolos.visit_to_member_note Sample.by_line 1%nat 2%nat
      DoubleTremolos.translator_at_double_tremolo = Done tt t'
    /\ msrStore t' !! 1%nat = Some (msrDoubleTremolo (Some 6%nat) (Some 3%nat))
    /\ msrStore t' !! 6%nat = Some (msrNote DoubleTremolos.first_tremolo_note).
Proof.
  destruct (@double_tremolo_is_written_in_place Sample.by_line 1%nat 2%nat (Some 2%nat) (Some 3%nat)
              DoubleTremolos.first_tremolo_note (mkLpsrScore 4%nat [] false false)
              DoubleTremolos.translator_at_double_tremolo eq_refl eq_refl eq_refl eq_refl)
    as (t' & Hrun & _ & Helt & _ & Hclone & _).
  exists t'. split; [exact Hrun|]. split; [exact Helt | exact Hclone].
Defined.

(** ** The part group clones mirror the part groups *)

Section PartGroupClones.

Import Msr Lpsr PartGroups.

Lemma groupItem_induction (P : groupItem -> Prop) :
  (forall elt : loc, P (PartItem elt)) ->
  (forall (elt : loc) (items : list groupItem), Forall P items -> P (GroupItem elt items)) ->
  forall item : groupItem, P item.
Proof.
  intros Hpart Hgroup. fix IH 1. intros [elt|elt items].
  - apply Hpart.
  - apply Hgroup. induction items as [|item items IHitems]; constructor.
    + apply IH.
    + exact IHitems.
Qed.

Lemma visit_item_group (elt : loc) (items : list groupItem) :
  visit_item (GroupItem elt items)
  = (visitStart_msrPartGroup elt ;;; visit_items items ;;; visitEnd_msrPartGroup elt).
Proof. reflexivity. Qed.

Lemma labels_kept_refl (σ : gmap loc msrElement) : labels_kept σ σ.
Proof. repeat split; auto. Qed.

Lemma labels_kept_trans (σ1 σ2 σ3 : gmap loc msrElement) :
  labels_kept σ1 σ2 -> labels_kept σ2 σ3 -> labels_kept σ1 σ3.
Proof. intros (A1 & B1 & C1) (A2 & B2 & C2). repeat split; auto. Qed.

Lemma labels_kept_alloc (σ : gmap loc msrElement) (l : loc) (o : msrElement) :
  σ !! l = None -> labels_kept σ (<[l := o]> σ).
Proof.
  intros Hfree. unfold labels_kept, part_attributes, group_name.
  split; [|split]; intros l'; destruct (decide (l' = l)) as [->|Hne];
    rewrite ?Hfree, ?lookup_insert_eq, ?lookup_insert_ne by congruence;
    try discriminate; auto.
Qed.

Lemma labels_kept_append (σ : gmap loc msrElement) (g : loc) (name : string)
    (es es' : list loc) (up sc : option loc) :
  σ !! g = Some (msrPartGroup name es up sc) ->
  labels_kept σ (<[g := msrPartGroup name es' up sc]> σ).
Proof.
  intros Hg. unfold labels_kept, part_attributes, group_name.
  split; [|split]; intros l'; destruct (decide (l' = g)) as [->|Hne];
    rewrite ?Hg, ?lookup_insert_eq, ?lookup_insert_ne by congruence;
    try discriminate; auto.
Qed.

Lemma labels_kept_score (σ : gmap loc msrElement) (score : loc) (pgs pgs' : list loc) :
  σ !! score = Some (msrScore pgs) ->
  labels_kept σ (<[score := msrScore pgs']> σ).
Proof.
  intros Hs. unfold labels_kept, part_attributes, group_name.
  split; [|split]; intros l'; destruct (decide (l' = score)) as [->|Hne];
    rewrite ?Hs, ?lookup_insert_eq, ?lookup_insert_ne by congruence;
    try discriminate; auto.
Qed.

Lemma is_item_kept (σ σ' : gmap loc msrElement) (item : groupItem) :
  labels_kept σ σ' -> is_item σ item -> is_item σ' item.
Proof.
  intros (Hparts & Hgroups & _). revert item.
  apply (groupItem_induction (fun item => is_item σ item -> is_item σ' item)).
  - intros elt Hitem. inversion Hitem as [? [x Hx]|]; subst.
    constructor. exists x. apply Hparts, Hx.
  - intros elt items IH Hitem. inversion Hitem as [|? ? [name Hname] Hitems]; subst.
    constructor; [exists name; apply Hgroups, Hname|].
    clear Hitem Hname. induction Hitems as [|item items Hi _ IHitems]; constructor.
    + apply Forall_cons in IH. destruct IH as [IHi _]. apply IHi, Hi.
    + apply Forall_cons in IH. destruct IH as [_ IHrest]. apply IHitems, IHrest.
Qed.

(** A clone stays a clone when the store changes outside of the new
    objects and keeps its labels. *)
Lemma mirrors_kept (σ0 σ0' σ σ' : gmap loc msrElement) (score : option loc)
    (item : groupItem) :
  labels_kept σ σ' ->
  (forall l : loc, σ0 !! l = None -> σ0' !! l = None) ->
  (forall l : loc, σ0 !! l = None -> is_Some (σ !! l) -> σ' !! l = σ !! l) ->
  forall (up : option loc) (c : loc),
    mirrors σ0 σ score up item c -> mirrors σ0' σ' score up item c.
Proof.
  intros Hlabels Hold Hsame. destruct Hlabels as (Hparts & Hgroups & _).
  revert item.
  apply (groupItem_induction
           (fun item => forall (up : option loc) (c : loc),
                mirrors σ0 σ score up item c -> mirrors σ0' σ' score up item c)).
  - intros elt up c Hm. inversion Hm as [? ? ? name abbr Hnew Hattr Hc|]; subst.
    apply mirrors_part with name abbr; [apply Hold, Hnew | apply Hparts, Hattr |].
    rewrite Hsame; [exact Hc | exact Hnew | rewrite Hc; eauto].
  - intros elt items IH up c Hm.
    inversion Hm as [|? ? ? ? name cs Hnew Hname Hc Hcs]; subst.
    apply mirrors_group with name cs; [apply Hold, Hnew | apply Hgroups, Hname | |].
    + rewrite Hsame; [exact Hc | exact Hnew | rewrite Hc; eauto].
    + clear Hm Hc. induction Hcs as [|item c' items cs Hi _ IHcs]; constructor.
      * apply Forall_cons in IH. destruct IH as [IHi _]. apply IHi, Hi.
      * apply Forall_cons in IH. destruct IH as [_ IHrest]. apply IHcs, IHrest.
Qed.

(** *** What each visit does *)

Lemma visitStart_msrPartGroup_run (elt : loc) (name : string) (lpsr : lpsrScore)
    (t : msr2LpsrTranslator) :
  fLpsrScore t = Some lpsr ->
  group_name (msrStore t) elt = Some name ->
  visitStart_msrPartGroup elt t
  = Done tt (mkTranslator
               (<[fresh (dom (msrStore t))
                  := msrPartGroup name [] (head (fPartGroupsStack t))
                       (Some (getMsrScore lpsr))]> (msrStore t))
               (fVisitedMsrScore t) (fCurrentMsrScoreClone t) (fLpsrScore t)
               (fresh (dom (msrStore t)) :: fPartGroupsStack t) (fTupletClonesStack t)
               (current t) (onGoing t)).
Proof.
  intros Hlpsr Hname. unfold visitStart_msrPartGroup, bind, get. rewrite Hlpsr.
  unfold create, createPartGroupNewbornClone, group_name in *.
  destruct (msrStore t !! elt) as [o|]; [|discriminate].
  destruct o; try discriminate. injection Hname as ->.
  unfold alloc, modify, set_part_groups_stack, set_store. simpl. rewrite Hlpsr. reflexivity.
Qed.

Lemma visitEnd_msrPartGroup_nested (elt c g : loc) (rest : list loc) (name : string)
    (es : list loc) (up sc : option loc) (t : msr2LpsrTranslator) :
  fPartGroupsStack t = c :: g :: rest ->
  msrStore t !! g = Some (msrPartGroup name es up sc) ->
  visitEnd_msrPartGroup elt t
  = Done tt (mkTranslator
               (<[g := msrPartGroup name (es ++ [c]) up sc]> (msrStore t))
               (fVisitedMsrScore t) (fCurrentMsrScoreClone t) (fLpsrScore t)
               (g :: rest) (fTupletClonesStack t) (current t) (onGoing t)).
Proof.
  intros Hstack Hg. unfold visitEnd_msrPartGroup, bind, get, top, follow. rewrite Hstack.
  simpl. unfold update, appendToPartGroup. simpl. rewrite Hg. reflexivity.
Qed.

Lemma visitEnd_msrPartGroup_top (elt c score : loc) (pgs : list loc)
    (t : msr2LpsrTranslator) :
  fPartGroupsStack t = [c] ->
  fCurrentMsrScoreClone t = Some score ->
  msrStore t !! score = Some (msrScore pgs) ->
  visitEnd_msrPartGroup elt t
  = Done tt (mkTranslator
               (<[score := msrScore (pgs ++ [c])]> (msrStore t))
               (fVisitedMsrScore t) (fCurrentMsrScoreClone t) (fLpsrScore t)
               [] (fTupletClonesStack t) (current t) (onGoing t)).
Proof.
  intros Hstack Hscore Hs. unfold visitEnd_msrPartGroup, bind, get, top, follow.
  rewrite Hstack. simpl. rewrite Hscore. unfold ret, update, addPartGroupToScore.
  rewrite Hs. unfold modify, set_part_groups_stack, set_store. simpl.
  rewrite ?Hscore. reflexivity.
Qed.

Lemma visitStart_msrPart_run (elt g : loc) (rest : list loc) (name abbreviation gname : string)
    (es : list loc) (up sc : option loc) (t : msr2LpsrTranslator) :
  fPartGroupsStack t = g :: rest ->
  part_attributes (msrStore t) elt = Some (name, abbreviation) ->
  msrStore t !! g = Some (msrPartGroup gname es up sc) ->
  visitStart_msrPart elt t
  = Done tt (mkTranslator
               (<[g := msrPartGroup gname (es ++ [fresh (dom (msrStore t))]) up sc]>
                  (<[fresh (dom (msrStore t)) := msrPart name abbreviation ∅ (Some g)]>
                     (msrStore t)))
               (fVisitedMsrScore t) (fCurrentMsrScoreClone t) (fLpsrScore t)
               (fPartGroupsStack t) (fTupletClonesStack t)
               (set_part_clone (Some (fresh (dom (msrStore t)))) (current t)) (onGoing t)).
Proof.
  intros Hstack Hattr Hg.
  assert (Hne : g <> fresh (dom (msrStore t))).
  { intros Heq. pose proof (fresh_is_free (msrStore t)) as Hfree.
    rewrite <- Heq, Hg in Hfree. discriminate. }
  unfold visitStart_msrPart, bind, get, top, follow. rewrite Hstack. simpl.
  unfold create, createPartNewbornClone, part_attributes in *.
  destruct (msrStore t !! elt) as [o|]; [|discriminate].
  destruct o; try discriminate. injection Hattr as -> ->.
  unfold alloc, modify, update, appendToPartGroup. simpl.
  rewrite lookup_insert_ne by congruence. rewrite Hg.
  unfold set_store, set_current. simpl. rewrite ?Hstack. reflexivity.
Qed.

(** *** The visits of what a part group holds *)

Lemma visit_items_run (lpsr : lpsrScore) (items : list groupItem) :
  Forall (fun item => forall t : msr2LpsrTranslator,
              is_item (msrStore t) item -> fLpsrScore t = Some lpsr ->
              run_spec (Some (getMsrScore lpsr)) (visit_item item) [item] t) items ->
  forall t : msr2LpsrTranslator,
    Forall (is_item (msrStore t)) items -> fLpsrScore t = Some lpsr ->
    run_spec (Some (getMsrScore lpsr)) (visit_items items) items t.
Proof.
  induction 1 as [|item items Hitem _ IH]; intros t Hitems Hlpsr g rest name es up sc Hstack Hg.
  - exists t, []. simpl. rewrite app_nil_r.
    repeat split; auto.
  - apply Forall_cons in Hitems. destruct Hitems as [Hi Hrest].
    destruct (Hitem t Hi Hlpsr g rest name es up sc Hstack Hg)
      as (t1 & cs1 & Hrun1 & Hstack1 & Hlpsr1 & Hscore1 & Hlabels1 & Hg1 & Hm1 & Hframe1).
    assert (Hrest1 : Forall (is_item (msrStore t1)) items).
    { eapply Forall_impl; [exact Hrest|]. intros a. apply is_item_kept, Hlabels1. }
    destruct (IH t1 Hrest1 (eq_trans Hlpsr1 Hlpsr) g rest name (es ++ cs1) up sc
                (eq_trans Hstack1 Hstack) Hg1)
      as (t2 & cs2 & Hrun2 & Hstack2 & Hlpsr2 & Hscore2 & Hlabels2 & Hg2 & Hm2 & Hframe2).
    exists t2, (cs1 ++ cs2).
    split; [cbn [visit_items]; unfold bind; rewrite Hrun1; exact Hrun2|].
    split; [congruence|]. split; [congruence|]. split; [congruence|].
    split; [eapply labels_kept_trans; eassumption|].
    split; [rewrite Hg2, <- app_assoc; reflexivity|].
    split.
    + inversion Hm1 as [|? c1 ? ? Hmi Hnil]; subst. inversion Hnil; subst.
      cbn [app]. constructor.
      * apply (mirrors_kept (msrStore t) (msrStore t) (msrStore t1) (msrStore t2));
          [exact Hlabels2 | auto | | exact Hmi].
        intros l Hnew Hl. apply Hframe2; [exact Hl|].
        intros ->. rewrite Hg in Hnew. discriminate.
      * eapply Forall2_impl; [exact Hm2|]. intros a c.
        apply (mirrors_kept (msrStore t1) (msrStore t) (msrStore t2) (msrStore t2));
          [apply labels_kept_refl | apply Hlabels1 | auto].
    + intros l Hl Hne. rewrite Hframe2; [apply Hframe1; assumption | | exact Hne].
      rewrite Hframe1; assumption.
Qed.

Lemma visit_item_run (lpsr : lpsrScore) (item : groupItem) :
  forall t : msr2LpsrTranslator,
    is_item (msrStore t) item -> fLpsrScore t = Some lpsr ->
    run_spec (Some (getMsrScore lpsr)) (visit_item item) [item] t.
Proof.
  revert item.
  apply (groupItem_induction
           (fun item => forall t : msr2LpsrTranslator,
                is_item (msrStore t) item -> fLpsrScore t = Some lpsr ->
                run_spec (Some (getMsrScore lpsr)) (visit_item item) [item] t)).
  - intros elt t Hitem Hlpsr g rest gname es up sc Hstack Hg.
    inversion Hitem as [? [[name abbr] Hattr]|]; subst.
    pose proof (fresh_is_free (msrStore t)) as Hfree.
    set (c := fresh (dom (msrStore t))) in *.
    assert (Hne : g <> c) by (intros ->; rewrite Hg in Hfree; discriminate).
    eexists _, [c]. split.
    { cbn [visit_item]. apply (visitStart_msrPart_run elt g rest name abbr gname es up sc);
        assumption. }
    cbn [msrStore fPartGroupsStack fLpsrScore fCurrentMsrScoreClone]. fold c.
    split; [reflexivity|]. split; [reflexivity|]. split; [reflexivity|].
    assert (Hlabels : labels_kept (msrStore t)
                        (<[g := msrPartGroup gname (es ++ [c]) up sc]>
                           (<[c := msrPart name abbr ∅ (Some g)]> (msrStore t)))).
    { apply labels_kept_trans with (<[c := msrPart name abbr ∅ (Some g)]> (msrStore t)).
      - apply labels_kept_alloc, Hfree.
      - apply labels_kept_append with es. rewrite lookup_insert_ne by congruence. exact Hg. }
    split; [exact Hlabels|].
    split; [apply lookup_insert_eq|].
    split.
    + constructor; [|constructor].
      apply mirrors_part with name abbr; [exact Hfree | apply Hlabels, Hattr |].
      rewrite lookup_insert_ne by congruence. apply lookup_insert_eq.
    + intros l Hl Hneg. rewrite lookup_insert_ne by congruence.
      assert (Hlc : l <> c).
      { intros Heq. rewrite Heq, Hfree in Hl. destruct Hl as [? Hl]. discriminate. }
      rewrite lookup_insert_ne by congruence. reflexivity.
  - intros elt items IH t Hitem Hlpsr g rest gname es up sc Hstack Hg.
    inversion Hitem as [|? ? [name Hname] Hitems]; subst.
    pose proof (fresh_is_free (msrStore t)) as Hfree.
    set (c := fresh (dom (msrStore t))) in *.
    assert (Hne : g <> c) by (intros ->; rewrite Hg in Hfree; discriminate).
    pose proof (visitStart_msrPartGroup_run elt name lpsr t Hlpsr Hname) as Hstart.
    fold c in Hstart. rewrite Hstack in Hstart. cbn [head] in Hstart.
    set (t1 := mkTranslator _ _ _ _ _ _ _ _) in Hstart.
    assert (Hlabels1 : labels_kept (msrStore t) (msrStore t1))
      by (apply labels_kept_alloc, Hfree).
    assert (Hitems1 : Forall (is_item (msrStore t1)) items).
    { eapply Forall_impl; [exact Hitems|]. intros a. apply is_item_kept, Hlabels1. }
    destruct (visit_items_run lpsr items IH t1 Hitems1 Hlpsr c (g :: rest) name [] (Some g)
                (Some (getMsrScore lpsr)) eq_refl (lookup_insert_eq _ _ _))
      as (t2 & cs & Hrun2 & Hstack2 & Hlpsr2 & Hscore2 & Hlabels2 & Hc2 & Hm2 & Hframe2).
    cbn [app] in Hc2.
    assert (Hg2 : msrStore t2 !! g = Some (msrPartGroup gname es up sc)).
    { rewrite Hframe2; [| |exact Hne].
      - unfold t1. cbn [msrStore]. rewrite lookup_insert_ne by congruence. exact Hg.
      - unfold t1. cbn [msrStore]. rewrite lookup_insert_ne by congruence. rewrite Hg. eauto. }
    pose proof (visitEnd_msrPartGroup_nested elt c g rest gname es up sc t2
                  (eq_trans Hstack2 eq_refl) Hg2) as Hend.
    set (t3 := mkTranslator _ _ _ _ _ _ _ _) in Hend.
    exists t3, [c].
    split.
    { rewrite visit_item_group. unfold bind at 1. rewrite Hstart.
      unfold bind. rewrite Hrun2. exact Hend. }
    assert (Hlabels3 : labels_kept (msrStore t2) (msrStore t3))
      by (apply labels_kept_append with es, Hg2).
    unfold t3. cbn [msrStore fPartGroupsStack fLpsrScore fCurrentMsrScoreClone].
    split; [symmetry; exact Hstack|].
    split; [rewrite Hlpsr2; reflexivity|].
    split; [rewrite Hscore2; reflexivity|].
    split; [eapply labels_kept_trans; [exact Hlabels1|];
            eapply labels_kept_trans; [exact Hlabels2 | exact Hlabels3]|].
    split; [apply lookup_insert_eq|].
    split.
    + constructor; [|constructor].
      apply mirrors_group with name cs; [exact Hfree | | |].
      * apply Hlabels3, Hlabels2, Hlabels1, Hname.
      * rewrite lookup_insert_ne by congruence. exact Hc2.
      * eapply Forall2_impl; [exact Hm2|]. intros a c'.
        apply (mirrors_kept (msrStore t1) (msrStore t) (msrStore t2) (msrStore t3));
          [exact Hlabels3 | apply Hlabels1 |].
        intros l Hnew Hl. unfold t3. cbn [msrStore].
        apply lookup_insert_ne. intros <-.
        unfold t1 in Hnew. cbn [msrStore] in Hnew.
        rewrite lookup_insert_ne in Hnew by congruence. rewrite Hg in Hnew. discriminate.
    + intros l Hl Hneg. rewrite lookup_insert_ne by congruence.
      assert (Hlc : l <> c).
      { intros Heq. rewrite Heq, Hfree in Hl. destruct Hl as [? Hl]. discriminate. }
      rewrite Hframe2; [| |exact Hlc].
      * unfold t1. cbn [msrStore]. apply lookup_insert_ne. congruence.
      * unfold t1. cbn [msrStore]. rewrite lookup_insert_ne by congruence. exact Hl.
Qed.

(** The part group clones mirror the part groups. The visits of a part
    group, of the part groups nested in it and the start visits of their
    parts, return and leave the stack of part group clones as it was. They
    build one clone of the part group, attached last to the part group
    clone that was on top of the stack, or to the score clone when the
    stack was empty: a new object with the name of the part group that
    holds, in the order of the visits, a clone of each part and of each
    nested part group, each with its enclosing clone as uplink. No other
    object that existed before is changed. *)
Theorem part_group_clones_mirror_the_part_groups (elt : loc) (items : list groupItem)
    (lpsr : lpsrScore) (t : msr2LpsrTranslator) :
  is_item (msrStore t) (GroupItem elt items) ->
  fLpsrScore t = Some lpsr ->
  receiver_ok t ->
  exists (t' : msr2LpsrTranslator) (c : loc),
    visit_item (GroupItem elt items) t = Done tt t'
    /\ fPartGroupsStack t' = fPartGroupsStack t
    /\ mirrors (msrStore t) (msrStore t') (Some (getMsrScore lpsr))
         (head (fPartGroupsStack t)) (GroupItem elt items) c
    /\ attached [c] t t'
    /\ forall l : loc, is_Some (msrStore t !! l) -> receiver t <> Some l ->
                       msrStore t' !! l = msrStore t !! l.
Proof.
  intros Hitem Hlpsr Hrec. unfold receiver_ok in Hrec.
  destruct (fPartGroupsStack t) as [|g rest] eqn:Hstack.
  - destruct Hrec as (score & pgs & Hscore & Hs).
    inversion Hitem as [|? ? [name Hname] Hitems]; subst.
    pose proof (fresh_is_free (msrStore t)) as Hfree.
    set (c := fresh (dom (msrStore t))) in *.
    assert (Hne : score <> c) by (intros ->; rewrite Hs in Hfree; discriminate).
    pose proof (visitStart_msrPartGroup_run elt name lpsr t Hlpsr Hname) as Hstart.
    fold c in Hstart. rewrite Hstack in Hstart. cbn [head] in Hstart.
    set (t1 := mkTranslator _ _ _ _ _ _ _ _) in Hstart.
    assert (Hlabels1 : labels_kept (msrStore t) (msrStore t1))
      by (apply labels_kept_alloc, Hfree).
    assert (Hitems1 : Forall (is_item (msrStore t1)) items).
    { eapply Forall_impl; [exact Hitems|]. intros a. apply is_item_kept, Hlabels1. }
    assert (IH : Forall (fun item => forall t : msr2LpsrTranslator,
                            is_item (msrStore t) item -> fLpsrScore t = Some lpsr ->
                            run_spec (Some (getMsrScore lpsr)) (visit_item item) [item] t)
                   items).
    { apply Forall_forall. intros item _. apply visit_item_run. }
    destruct (visit_items_run lpsr items IH t1 Hitems1 Hlpsr c [] name [] None
                (Some (getMsrScore lpsr)) eq_refl (lookup_insert_eq _ _ _))
      as (t2 & cs & Hrun2 & Hstack2 & Hlpsr2 & Hscore2 & Hlabels2 & Hc2 & Hm2 & Hframe2).
    cbn [app] in Hc2.
    assert (Hs2 : msrStore t2 !! score = Some (msrScore pgs)).
    { rewrite Hframe2; [| |exact Hne].
      - unfold t1. cbn [msrStore]. rewrite lookup_insert_ne by congruence. exact Hs.
      - unfold t1. cbn [msrStore]. rewrite lookup_insert_ne by congruence. rewrite Hs. eauto. }
    pose proof (visitEnd_msrPartGroup_top elt c score pgs t2 Hstack2
                  (eq_trans Hscore2 Hscore) Hs2) as Hend.
    set (t3 := mkTranslator _ _ _ _ _ _ _ _) in Hend.
    assert (Hlabels3 : labels_kept (msrStore t2) (msrStore t3))
      by (apply labels_kept_score with pgs, Hs2).
    exists t3, c.
    split.
    { rewrite visit_item_group. unfold bind at 1. rewrite Hstart.
      unfold bind. rewrite Hrun2. exact Hend. }
    split; [reflexivity|].
    split.
    { cbn [head]. apply mirrors_group with name cs; [exact Hfree | | |].
      - apply Hlabels3, Hlabels2, Hlabels1, Hname.
      - unfold t3. cbn [msrStore]. rewrite lookup_insert_ne by congruence. exact Hc2.
      - eapply Forall2_impl; [exact Hm2|]. intros a c'.
        apply (mirrors_kept (msrStore t1) (msrStore t) (msrStore t2) (msrStore t3));
          [exact Hlabels3 | apply Hlabels1 |].
        intros l Hnew Hl. unfold t3. cbn [msrStore].
        apply lookup_insert_ne. intros <-.
        unfold t1 in Hnew. cbn [msrStore] in Hnew.
        rewrite lookup_insert_ne in Hnew by congruence. rewrite Hs in Hnew. discriminate. }
    split.
    { unfold attached, receiver. rewrite Hstack, Hscore, Hs.
      unfold t3. cbn [msrStore]. apply lookup_insert_eq. }
    intros l Hl Hneg. unfold receiver in Hneg. rewrite Hstack, Hscore in Hneg.
    unfold t3. cbn [msrStore]. rewrite lookup_insert_ne by congruence.
    assert (Hlc : l <> c).
    { intros ->. rewrite Hfree in Hl. destruct Hl as [? Hl]. discriminate. }
    rewrite Hframe2; [| |exact Hlc].
    + unfold t1. cbn [msrStore]. apply lookup_insert_ne. congruence.
    + unfold t1. cbn [msrStore]. rewrite lookup_insert_ne by congruence. exact Hl.
  - destruct Hrec as [gname Hgname].
    unfold group_name in Hgname.
    destruct (msrStore t !! g) as [o|] eqn:Hg; [|discriminate].
    destruct o as [| name' es up sc | | | | | | | | | | | |]; try discriminate.
    destruct (visit_item_run lpsr (GroupItem elt items) t Hitem Hlpsr g rest name' es up sc
                Hstack Hg)
      as (t' & cs & Hrun & Hstack' & _ & _ & _ & Hg' & Hm & Hframe).
    inversion Hm as [|? c ? ? Hmc Hnil]; subst. inversion Hnil; subst.
    exists t', c.
    split; [exact Hrun|]. split; [congruence|].
    split; [exact Hmc|].
    split; [unfold attached, receiver; rewrite Hstack, Hg; exact Hg'|].
    intros l Hl Hneg. apply Hframe; [exact Hl|].
    unfold receiver in Hneg. rewrite Hstack in Hneg. congruence.
Qed.

End PartGroupClones.

(** The outer part group with a part and an inner part group with a part:
    the score clone gets one part group clone, which holds the clone of the
    part and the clone of the inner part group. *)
Lemma part_group_clones_mirror_the_part_groups_witness :
  exists (t' : msr2LpsrTranslator) (c : loc),
    PartGroups.visit_item PartGroups.nested_groups PartGroups.translator_at_part_groups
    = Done tt t'
    /\ fPartGroupsStack t' = []
    /\ PartGroups.mirrors (msrStore PartGroups.translator_at_part_groups) (msrStore t')
         (Some 5%nat) None PartGroups.nested_groups c
    /\ PartGroups.attached [c] PartGroups.translator_at_part_groups t'.
Proof.
  assert (Hitem : PartGroups.is_item (msrStore PartGroups.translator_at_part_groups)
                    PartGroups.nested_groups).
  { repeat constructor; vm_compute; eauto. }
  assert (Hrec : PartGroups.receiver_ok PartGroups.translator_at_part_groups).
  { exists 5%nat, []. split; [reflexivity | vm_compute; reflexivity]. }
  destruct (part_group_clones_mirror_the_part_groups 1%nat
              [PartGroups.PartItem 2%nat; PartGroups.GroupItem 3%nat [PartGroups.PartItem 4%nat]]
              (mkLpsrScore 5%nat [] false false) PartGroups.translator_at_part_groups
              Hitem eq_refl Hrec)
    as (t' & c & Hrun & Hstack & Hm & Hatt & _).
  exists t', c. repeat split; assumption.
Defined.

(** ** The translator rebuilds a harmony with its degrees *)

Section HarmonyRebuilt.

Import MsrHarmonyBrowse MsrHarmonyObject HarmonyClones.

Context {P K I F D : Type} `{HarmonyCollaborators P K I}.

Variable fTraceMsrVisitors : bool.

Lemma browse_degree_run (d : D) (c : loc) (h : msrHarmony P K F D)
    (w : harmonyTranslation P K F D) :
  fCurrentHarmonyClone w = Some c ->
  harmonies w !! c = Some h ->
  result_of (browse_degree fTraceMsrVisitors d translator w)
  = Done tt (with_harmonies (<[c := appendHarmonyDegreeToHarmony d h]> (harmonies w)) w).
Proof.
  intros Hc Hh.
  unfold browse_degree, and_then, of_dispatch, degree_acceptIn, degree_acceptOut,
    degree_browseData, skip, result_of. simpl.
  unfold visitStart_msrHarmonyDegree. rewrite Hc, Hh. reflexivity.
Qed.

Lemma with_degrees_append (d : D) (degrees : list D) (h : msrHarmony P K F D) :
  with_degrees degrees (appendHarmonyDegreeToHarmony d h) = with_degrees (d :: degrees) h.
Proof.
  unfold with_degrees, appendHarmonyDegreeToHarmony. simpl. rewrite <- app_assoc.
  reflexivity.
Qed.

Lemma with_degrees_nil (h : msrHarmony P K F D) : with_degrees [] h = h.
Proof. destruct h. unfold with_degrees. simpl. rewrite app_nil_r. reflexivity. Qed.

Lemma browse_degrees_run (degrees : list D) (c : loc) :
  forall (h : msrHarmony P K F D) (w : harmonyTranslation P K F D),
    fCurrentHarmonyClone w = Some c ->
    harmonies w !! c = Some h ->
    result_of (browse_degrees fTraceMsrVisitors degrees translator w)
    = Done tt (with_harmonies (<[c := with_degrees degrees h]> (harmonies w)) w).
Proof.
  induction degrees as [|d degrees IH]; intros h w Hc Hh.
  - simpl. unfold skip, result_of. simpl. rewrite with_degrees_nil.
    rewrite insert_id by exact Hh. destruct w. reflexivity.
  - cbn [browse_degrees]. unfold and_then.
    pose proof (browse_degree_run d c h w Hc Hh) as Hd. unfold result_of in Hd.
    destruct (browse_degree fTraceMsrVisitors d translator w) as [[log calls] r].
    simpl in Hd. subst r.
    set (w1 := with_harmonies _ w).
    specialize (IH (appendHarmonyDegreeToHarmony d h) w1 Hc (lookup_insert_eq _ _ _)).
    unfold result_of in IH |- *.
    destruct (browse_degrees fTraceMsrVisitors degrees translator w1) as [[log' calls'] r'].
    simpl in IH |- *. rewrite IH, with_degrees_append.
    unfold w1, with_harmonies. simpl. rewrite insert_insert_eq. reflexivity.
Qed.

(** The translator rebuilds a harmony with its degrees. When the current
    voice clone and the clone the harmony is registered in are not null,
    browsing a harmony with the translator returns. The current harmony
    clone is then a new object: the newborn clone of the harmony in the
    current voice clone, with the degrees of the harmony after it, the
    very degrees of the harmony visited in their order. The errors of its
    construction are reported. The clone is registered in the current non
    grace note clone if a note is on going, else in the current chord clone
    if a chord is on going, else appended to the harmonies of the current
    voice clone if a harmony voice is on going, and otherwise nowhere. *)
Theorem translator_rebuilds_the_harmony (elt : msrHarmony P K F D)
    (w : harmonyTranslation P K F D) :
  can_register w ->
  exists (w' : harmonyTranslation P K F D) (c : loc) (errors : list (Z * string))
         (newborn : msrHarmony P K F D),
    result_of (browse fTraceMsrVisitors (@fHarmonyDegreesList P K F D) elt translator w)
    = Done tt w'
    /\ createHarmonyNewbornClone elt (voiceClone w) = Some (errors, newborn)
    /\ harmonies w !! c = None
    /\ fCurrentHarmonyClone w' = Some c
    /\ harmonies w' = <[c := with_degrees (fHarmonyDegreesList elt) newborn]> (harmonies w)
    /\ fHarmonyDegreesList newborn = []
    /\ reported w' = reported w ++ errors
    /\ registered c w w'.
Proof.
  intros ([voice Hvoice] & Hnote & Hchord).
  set (c := fresh (dom (harmonies w))).
  assert (Hfree : harmonies w !! c = None) by (apply not_elem_of_dom, is_fresh).
  destruct (createHarmonyNewbornClone elt (voiceClone w)) as [[errors newborn]|] eqn:Hclone;
    [|rewrite Hvoice in Hclone; discriminate].
  assert (Hnil : fHarmonyDegreesList newborn = []).
  { rewrite Hvoice in Hclone. unfold createHarmonyNewbornClone, create, msrHarmony_new in Hclone.
    destruct (0 <? fHarmonyInversion elt); injection Hclone as _ <-; reflexivity. }
  assert (Hstart : exists w1 : harmonyTranslation P K F D,
             visitStart_msrHarmony elt w = Done tt w1
             /\ fCurrentHarmonyClone w1 = Some c
             /\ harmonies w1 = <[c := newborn]> (harmonies w)
             /\ reported w1 = reported w ++ errors
             /\ registered c w w1).
  { unfold visitStart_msrHarmony, registered. rewrite Hclone. cbv zeta. fold c.
    cbn [with_clone onGoingNote onGoingChord fOnGoingHarmonyVoice nonGraceNoteClone
           chordClone voiceClone].
    destruct (onGoingNote w) eqn:En.
    - destruct (Hnote eq_refl) as [note Hn]. rewrite Hn.
      eexists. split; [reflexivity|]. simpl. repeat split. exists note. repeat split.
    - destruct (onGoingChord w) eqn:Ec.
      + destruct (Hchord eq_refl eq_refl) as [chord Hch]. rewrite Hch.
        eexists. split; [reflexivity|]. simpl. repeat split. exists chord. repeat split.
      + destruct (fOnGoingHarmonyVoice w) eqn:Ev.
        * rewrite Hvoice. eexists. split; [reflexivity|]. simpl. repeat split.
          exists voice. repeat split.
        * eexists. split; [reflexivity|]. simpl. repeat split. }
  destruct Hstart as (w1 & Hstart & Hc1 & Hh1 & Hr1 & Hreg1).
  assert (Hlookup : harmonies w1 !! c = Some newborn)
    by (rewrite Hh1; apply lookup_insert_eq).
  assert (Hdata : result_of (browseData fTraceMsrVisitors (@fHarmonyDegreesList P K F D)
                               elt translator w1)
                  = Done tt (with_harmonies
                               (<[c := with_degrees (fHarmonyDegreesList elt) newborn]>
                                  (harmonies w1)) w1)).
  { unfold browseData.
    destruct (fHarmonyDegreesList elt) as [|d degrees] eqn:Ed.
    - simpl. unfold skip, result_of. simpl. rewrite with_degrees_nil.
      rewrite insert_id by exact Hlookup. destruct w1. reflexivity.
    - cbn [length Nat.ltb Nat.leb]. apply browse_degrees_run; assumption. }
  set (w2 := with_harmonies _ w1) in Hdata.
  exists w2, c, errors, newborn.
  split.
  { unfold browse, and_then, of_dispatch, MsrHarmony.acceptIn, MsrHarmony.acceptOut,
      result_of in *. simpl. rewrite Hstart.
    destruct (browseData fTraceMsrVisitors (@fHarmonyDegreesList P K F D) elt translator w1)
      as [[log calls] r]. simpl in Hdata. subst r. reflexivity. }
  split; [reflexivity|]. split; [exact Hfree|].
  unfold w2, with_harmonies. cbn [fCurrentHarmonyClone harmonies reported].
  split; [exact Hc1|].
  split; [rewrite Hh1, insert_insert_eq; reflexivity|].
  split; [exact Hnil|]. split; [exact Hr1|].
  unfold registered in *. simpl.
  destruct (onGoingNote w); [exact Hreg1|].
  destruct (onGoingChord w); [exact Hreg1|].
  destruct (fOnGoingHarmonyVoice w); exact Hreg1.
Qed.

End HarmonyRebuilt.

(** In a harmony voice, the clone of a harmony with two degrees has these
    two degrees and is the one harmony of the voice clone. *)
Lemma translator_rebuilds_the_harmony_witness :
  exists (w' : HarmonyClones.harmonyTranslation Z unit unit nat) (c : loc),
    MsrHarmonyBrowse.result_of
      (MsrHarmonyBrowse.browse false (@fHarmonyDegreesList Z unit unit nat)
         HarmonyClones.harmony_with_two_degrees
         (@HarmonyClones.translator Z unit Z unit nat HarmonyClones.numbered_pitches)
         HarmonyClones.translator_in_harmony_voice)
    = Done tt w'
    /\ HarmonyClones.fCurrentHarmonyClone w' = Some c
    /\ option_map fHarmonyDegreesList (HarmonyClones.harmonies w' !! c)
       = Some [10%nat; 11%nat]
    /\ HarmonyClones.voiceHarmonies w' = {[1%nat := [c]]}.
Proof.
  assert (Hcan : HarmonyClones.can_register HarmonyClones.translator_in_harmony_voice).
  { split; [exists 1%nat; reflexivity|]. split; discriminate. }
  destruct (@translator_rebuilds_the_harmony Z unit Z unit nat HarmonyClones.numbered_pitches
              false HarmonyClones.harmony_with_two_degrees
              HarmonyClones.translator_in_harmony_voice Hcan)
    as (w' & c & errors & newborn & Hrun & _ & _ & Hc & Hh & Hnil & _ & Hreg).
  exists w', c. split; [exact Hrun|]. split; [exact Hc|].
  split.
  - rewrite Hh, lookup_insert_eq. simpl. rewrite Hnil. reflexivity.
  - destruct Hreg as (voice & Hvoice & Hv & _). injection Hvoice as <-.
    rewrite Hv. reflexivity.
Defined.

(** ** A bar check bears the number of the next measure *)

Section BarCheckNumbers.

Import BarChecks.

Local Ltac differ := first [assumption | apply not_eq_sym; assumption | congruence].

Lemma fresh_object_is_free (σ : gmap loc measureObject) : σ !! fresh (dom σ) = None.
Proof. apply not_elem_of_dom, is_fresh. Qed.

Lemma used_is_not_free (σ : gmap loc measureObject) (l l' : loc) (o : measureObject) :
  σ !! l = Some o -> σ !! l' = None -> l <> l' /\ l' <> l.
Proof. intros Hl Hl'. split; intros Heq; rewrite Heq in *; congruence. Qed.

(** The visit of one measure. *)
Lemma visit_measure_run (elt : msrMeasure) (w : measureTranslation) :
  ready w ->
  exists (w2 : measureTranslation) (created : list loc),
    visit_measures [elt] w = Done tt w2
    /\ ready w2
    /\ voiceClone w2 = voiceClone w
    /\ (forall voice : loc,
          voiceClone w = Some voice ->
          voiceBarChecks w2 !! voice
          = Some (default [] (voiceBarChecks w !! voice) ++ created)
          \/ (created = [] /\ voiceBarChecks w2 = voiceBarChecks w))
    /\ Forall2 (fun b o => objects w !! b = None /\ objects w2 !! b = Some o) created
         (if doCreateABarCheck (getMeasureKind elt)
          then [aBarCheck (measureInputLineNumber elt) None] else [])
    /\ fLastBarCheck w2
       = (if doCreateABarCheck (getMeasureKind elt) then List.last (map Some created) None
          else None)
    /\ warnings w2 = warnings w ++ warnings_of [elt]
    /\ (forall (b : loc) (line : Z) (next : option string),
          fLastBarCheck w = Some b -> objects w !! b = Some (aBarCheck line next) ->
          objects w2 !! b = Some (aBarCheck line (Some (getMeasureNumber elt))))
    /\ (forall (l : loc) (o : measureObject),
          objects w !! l = Some o -> fLastBarCheck w <> Some l -> objects w2 !! l = Some o).
Proof.
  intros ([segment Hseg] & [part Hpart] & [voice Hvoice] & Hpending).
  pose proof (fresh_object_is_free (objects w)) as Hfree.
  set (m := fresh (dom (objects w))) in *.
  set (σ1 := <[m := aMeasureClone (getMeasureNumber elt) segment None]> (objects w)).
  assert (Hstart : exists w1 : measureTranslation,
             visitStart_msrMeasure elt w = Done tt w1
             /\ fLastBarCheck w1 = None
             /\ fCurrentMeasureClone w1 = Some m
             /\ objects w1 !! m = Some (aMeasureClone (getMeasureNumber elt) segment None)
             /\ voiceClone w1 = voiceClone w /\ partClone w1 = partClone w
             /\ fCurrentSegmentClone w1 = fCurrentSegmentClone w
             /\ voiceBarChecks w1 = voiceBarChecks w /\ warnings w1 = warnings w
             /\ (forall (b : loc) (line : Z) (next : option string),
                   fLastBarCheck w = Some b -> objects w !! b = Some (aBarCheck line next) ->
                   objects w1 !! b = Some (aBarCheck line (Some (getMeasureNumber elt))))
             /\ (forall (l : loc) (o : measureObject),
                   objects w !! l = Some o -> fLastBarCheck w <> Some l ->
                   objects w1 !! l = Some o)
             /\ (forall l : loc, objects w1 !! l = None -> objects w !! l = None)).
  { unfold visitStart_msrMeasure. rewrite Hseg.
    cbv zeta. unfold clone_measure at 1. cbn [partClone]. rewrite Hpart.
    unfold setPartCurrentMeasureNumber, clone_measure.
    cbn [fLastBarCheck objects]. fold m. fold σ1.
    destruct (fLastBarCheck w) as [b|] eqn:Hb.
    - destruct Hpending as (line & next & Hline).
      assert (Hbm : b <> m) by apply (used_is_not_free _ _ _ _ Hline Hfree).
      assert (Hσ1b : σ1 !! b = Some (aBarCheck line next))
        by (unfold σ1; rewrite lookup_insert_ne by differ; exact Hline).
      rewrite Hσ1b.
      eexists. split; [reflexivity|]. cbn.
      split; [reflexivity|]. split; [reflexivity|].
      split; [rewrite lookup_insert_ne by differ; apply lookup_insert_eq|].
      repeat (split; [first [reflexivity | assumption]|]).
      split; [|split].
      + intros b' line' next' Hb' Hline'. injection Hb' as <-.
        rewrite Hline in Hline'. injection Hline' as <- <-. apply lookup_insert_eq.
      + intros l o Hl Hne.
        rewrite lookup_insert_ne by differ.
        unfold σ1. rewrite lookup_insert_ne; [exact Hl|].
        apply (used_is_not_free _ _ _ _ Hl Hfree).
      + intros l Hl. destruct (decide (l = b)) as [->|Hlb];
          [rewrite lookup_insert_eq in Hl; discriminate|].
        rewrite lookup_insert_ne in Hl by differ. unfold σ1 in Hl.
        destruct (decide (l = m)) as [Heq|Hlm]; [rewrite Heq; exact Hfree|].
        rewrite lookup_insert_ne in Hl by differ. exact Hl.
    - eexists. split; [reflexivity|]. cbn.
      split; [reflexivity|]. split; [reflexivity|].
      split; [apply lookup_insert_eq|].
      repeat (split; [first [reflexivity | assumption]|]).
      split; [|split].
      + intros b' line' next' Hb'. discriminate.
      + intros l o Hl _. unfold σ1. rewrite lookup_insert_ne; [exact Hl|].
        apply (used_is_not_free _ _ _ _ Hl Hfree).
      + intros l Hl. unfold σ1 in Hl.
        destruct (decide (l = m)) as [Heq|Hlm]; [rewrite Heq; exact Hfree|].
        rewrite lookup_insert_ne in Hl by differ. exact Hl. }
  destruct Hstart as (w1 & Hstart & Hlast1 & Hm1 & Hobj1 & Hv1 & Hp1 & Hs1 & Hbc1 & Hw1
                      & Hres1 & Hframe1 & Hold1).
  cbn [visit_measures]. rewrite Hstart.
  unfold visitEnd_msrMeasure. rewrite Hm1, Hobj1. cbv zeta.
  set (σ2 := <[m := aMeasureClone (getMeasureNumber elt) segment
                      (Some (measureInputLineNumber elt))]> (objects w1)).
  set (w2 := match getMeasureKind elt with
             | kMeasureKindUnknown => msrInternalWarning _ _ _
             | _ => with_objects σ2 w1
             end).
  assert (Hw2 : objects w2 = σ2 /\ voiceClone w2 = voiceClone w /\ partClone w2 = partClone w
                /\ fCurrentSegmentClone w2 = fCurrentSegmentClone w
                /\ fLastBarCheck w2 = None /\ voiceBarChecks w2 = voiceBarChecks w
                /\ warnings w2 = warnings w ++ warnings_of [elt]).
  { unfold w2, warnings_of. cbn [flat_map]. rewrite app_nil_r.
    destruct (getMeasureKind elt); cbn; rewrite ?app_nil_r, ?Hw1; repeat split;
      assumption. }
  destruct Hw2 as (Ho2 & Hv2 & Hp2 & Hs2 & Hl2 & Hbc2 & Hwarn2).
  clearbody w2.
  assert (Hσ2 : forall l : loc, l <> m -> σ2 !! l = objects w1 !! l)
    by (intros l Hl; unfold σ2; apply lookup_insert_ne; differ).
  assert (Hkeep : forall (l : loc) (o : measureObject),
             objects w !! l = Some o -> σ2 !! l = objects w1 !! l).
  { intros l o Hl. apply Hσ2. apply (used_is_not_free _ _ _ _ Hl Hfree). }
  destruct (doCreateABarCheck (getMeasureKind elt)) eqn:Hcreate.
  - rewrite Hv2, Hvoice.
    pose proof (fresh_object_is_free (objects w2)) as Hbfree.
    set (b := fresh (dom (objects w2))) in *.
    assert (Hbold : objects w !! b = None).
    { apply Hold1. rewrite Ho2 in Hbfree.
      destruct (decide (b = m)) as [Heq|Hbm].
      - rewrite Heq in Hbfree. unfold σ2 in Hbfree. rewrite lookup_insert_eq in Hbfree.
        discriminate.
      - rewrite <- Hσ2 by exact Hbm. exact Hbfree. }
    exists (create_bar_check (measureInputLineNumber elt) voice w2), [b].
    split; [reflexivity|].
    unfold create_bar_check. fold b.
    cbn [objects warnings partClone voiceClone fCurrentSegmentClone fCurrentMeasureClone
           fLastBarCheck segmentMeasures partCurrentMeasureNumber voiceBarChecks].
    split.
    { split; [rewrite Hs2, Hseg; eauto|]. split; [rewrite Hp2, Hpart; eauto|].
      split; [rewrite Hv2, Hvoice; eauto|].
      exists (measureInputLineNumber elt), None. apply lookup_insert_eq. }
    split; [congruence|].
    split.
    { intros voice' Hvoice'. left. assert (voice' = voice) as -> by congruence.
      rewrite Hbc2. apply lookup_insert_eq. }
    split; [constructor; [split; [exact Hbold | apply lookup_insert_eq] | constructor]|].
    split; [reflexivity|]. split; [exact Hwarn2|].
    split.
    + intros b' line' next' Hb' Hline'.
      rewrite lookup_insert_ne by apply (used_is_not_free _ _ _ _ Hline' Hbold).
      rewrite Ho2, (Hkeep _ _ Hline'). eapply Hres1; eassumption.
    + intros l o Hl Hne.
      rewrite lookup_insert_ne by apply (used_is_not_free _ _ _ _ Hl Hbold).
      rewrite Ho2, (Hkeep _ _ Hl). apply Hframe1; assumption.
  - exists w2, []. split; [reflexivity|].
    split.
    { split; [rewrite Hs2, Hseg; eauto|]. split; [rewrite Hp2, Hpart; eauto|].
      split; [rewrite Hv2, Hvoice; eauto|]. rewrite Hl2. exact I. }
    split; [congruence|].
    split; [intros voice' _; right; split; [reflexivity | exact Hbc2]|].
    split; [constructor|]. split; [exact Hl2|]. split; [exact Hwarn2|].
    split.
    + intros b' line' next' Hb' Hline'.
      rewrite Ho2, (Hkeep _ _ Hline'). eapply Hres1; eassumption.
    + intros l o Hl Hne. rewrite Ho2, (Hkeep _ _ Hl). apply Hframe1; assumption.
Qed.

Lemma visit_measures_cons (elt : msrMeasure) (rest : list msrMeasure)
    (w w2 : measureTranslation) :
  visit_measures [elt] w = Done tt w2 ->
  visit_measures (elt :: rest) w = visit_measures rest w2.
Proof.
  cbn [visit_measures].
  destruct (visitStart_msrMeasure elt w) as [[] w1|line msg w1|]; try discriminate.
  destruct (visitEnd_msrMeasure elt w1) as [[] w2'|line msg w2'|]; try discriminate.
  intros Heq. injection Heq as ->. reflexivity.
Qed.

Lemma last_after {A : Type} (l : list A) (c : A) (cs : list A) (d : A) :
  List.last (l ++ c :: cs) d = List.last (c :: cs) d.
Proof.
  induction l as [|a l IH]; [reflexivity|].
  change ((a :: l) ++ c :: cs) with (a :: (l ++ c :: cs)).
  destruct (l ++ c :: cs) as [|x xs] eqn:E; [destruct l; discriminate|].
  cbn [List.last]. cbn [List.last] in IH. exact IH.
Qed.

Lemma last_measure_has_a_bar_check (measures : list msrMeasure) (d : msrMeasure) :
  measures <> [] ->
  doCreateABarCheck (getMeasureKind (List.last measures d)) = true ->
  bar_checks_of measures <> [].
Proof.
  induction measures as [|elt rest IH]; intros Hne Hlast; [contradiction|].
  destruct rest as [|elt' rest'].
  - cbn in Hlast |- *. rewrite Hlast. discriminate.
  - cbn [bar_checks_of]. intros Happ. apply app_eq_nil in Happ. destruct Happ as [_ Hnil].
    apply IH; [discriminate | exact Hlast | exact Hnil].
Qed.

(** A bar check bears the number of the next measure. When the clones the
    visits follow are there, the visits of a run of measures return. The
    current voice clone gets, after the bar checks it had, one new bar
    check for each measure that is neither of unknown kind nor empty, in
    the order of the measures, from the line of its measure; it bears the
    number of the measure that comes next in the run, of whatever kind, and
    the bar check of the last measure bears none and is left pending. A
    bar check that was pending before the run, in whatever voice it is,
    gets the number of the first measure of the run. Each measure of
    unknown kind gives one warning, and no other object that existed before
    is changed. *)
Theorem bar_check_bears_the_next_measure_number (measures : list msrMeasure) (voice : loc)
    (w : measureTranslation) :
  ready w ->
  voiceClone w = Some voice ->
  exists (w' : measureTranslation) (created : list loc),
    visit_measures measures w = Done tt w'
    /\ default [] (voiceBarChecks w' !! voice)
       = default [] (voiceBarChecks w !! voice) ++ created
    /\ Forall2 (fun b o => objects w !! b = None /\ objects w' !! b = Some o) created
         (bar_checks_of measures)
    /\ fLastBarCheck w' = pending_after measures (fLastBarCheck w) created
    /\ warnings w' = warnings w ++ warnings_of measures
    /\ (forall (b : loc) (line : Z) (next : option string),
          fLastBarCheck w = Some b -> objects w !! b = Some (aBarCheck line next) ->
          objects w' !! b
          = Some (aBarCheck line (match measures with
                                  | [] => next
                                  | elt :: _ => Some (getMeasureNumber elt)
                                  end)))
    /\ (forall (l : loc) (o : measureObject),
          objects w !! l = Some o -> fLastBarCheck w <> Some l -> objects w' !! l = Some o).
Proof.
  revert w. induction measures as [|elt rest IH]; intros w Hready Hvoice.
  { exists w, []. cbn. rewrite !app_nil_r. repeat split; auto. }
  destruct (visit_measure_run elt w Hready)
    as (w2 & created1 & Hrun1 & Hready2 & Hv2 & Hbc2 & Hnew1 & Hlast2 & Hwarn2 & Hres2
        & Hframe2).
  destruct (IH w2 Hready2 (eq_trans Hv2 Hvoice))
    as (w' & created2 & Hrun & Hbc & Hnew & Hlast & Hwarn & Hres & Hframe).
  assert (Hkept : forall l : loc, objects w2 !! l = None -> objects w !! l = None).
  { intros l Hl. destruct (objects w !! l) as [o|] eqn:Ho; [|reflexivity]. exfalso.
    destruct (decide (fLastBarCheck w = Some l)) as [Hp|Hp].
    - destruct Hready as (_ & _ & _ & Hpending). rewrite Hp in Hpending.
      destruct Hpending as (line & next & Hline).
      rewrite (Hres2 l line next Hp Hline) in Hl. discriminate.
    - rewrite (Hframe2 l o Ho Hp) in Hl. discriminate. }
  assert (Hpending2 : forall l : loc, fLastBarCheck w2 = Some l -> objects w !! l = None).
  { intros l Hl. rewrite Hlast2 in Hl.
    destruct (doCreateABarCheck (getMeasureKind elt)); [|discriminate].
    inversion Hnew1 as [|b o ? ? [Hb _] Hnil]; subst. inversion Hnil; subst.
    cbn in Hl. injection Hl as <-. exact Hb. }
  exists w', (created1 ++ created2).
  split; [rewrite (visit_measures_cons elt rest w w2 Hrun1); exact Hrun|].
  split.
  { rewrite Hbc, app_assoc. f_equal.
    destruct (Hbc2 voice Hvoice) as [Hsome|[-> Hsame]].
    - rewrite Hsome. reflexivity.
    - rewrite Hsame, app_nil_r. reflexivity. }
  split.
  { cbn [bar_checks_of]. apply Forall2_app.
    - destruct (doCreateABarCheck (getMeasureKind elt)) eqn:Hcreate.
      + inversion Hnew1 as [|b o ? ? [Hb Hb2] Hnil]; subst. inversion Hnil; subst.
        constructor; [|constructor]. split; [exact Hb|].
        rewrite (Hres b (measureInputLineNumber elt) None); [|rewrite Hlast2; reflexivity
                                                             |exact Hb2].
        destruct rest; reflexivity.
      + inversion Hnew1; subst. constructor.
    - eapply Forall2_impl; [exact Hnew|]. intros b o [Hb Hb']. split; [|exact Hb'].
      apply Hkept, Hb. }
  split.
  { rewrite Hlast. unfold pending_after.
    destruct rest as [|elt' rest'].
    - inversion Hnew; subst. rewrite app_nil_r. exact Hlast2.
    - change (List.last (elt :: elt' :: rest') ?d) with (List.last (elt' :: rest') d).
      destruct (doCreateABarCheck (getMeasureKind (List.last (elt' :: rest') _))) eqn:Hc;
        [|reflexivity].
      assert (Hne : created2 <> []).
      { intros ->. apply Forall2_nil_inv_l in Hnew.
        eapply last_measure_has_a_bar_check; [|exact Hc|exact Hnew]. discriminate. }
      rewrite map_app. destruct created2 as [|c cs]; [contradiction|].
      cbn [map]. symmetry. apply last_after. }
  split; [rewrite Hwarn, Hwarn2; unfold warnings_of; cbn [flat_map];
          rewrite !app_nil_r, <- app_assoc; reflexivity|].
  split.
  - intros b line next Hb Hline.
    apply Hframe; [eapply Hres2; eassumption|].
    intros Hp. rewrite (Hpending2 b Hp) in Hline. discriminate.
  - intros l o Hl Hne.
    apply Hframe; [apply Hframe2; assumption|].
    intros Hp. rewrite (Hpending2 l Hp) in Hl. discriminate.
Qed.

End BarCheckNumbers.

(** Three measures in a voice, while a bar check of another voice is
    pending: that bar check gets the number of the first measure; the first
    and the third measure get a bar check, the first with the number of the
    second measure, which is of unknown kind and gives a warning. *)
Lemma bar_check_bears_the_next_measure_number_witness :
  exists (w' : BarChecks.measureTranslation) (b1 b3 : loc),
    BarChecks.visit_measures BarChecks.three_measures BarChecks.translator_at_measures
    = Done tt w'
    /\ BarChecks.voiceBarChecks w' !! 1%nat = Some [b1; b3]
    /\ BarChecks.objects w' !! 4%nat = Some (aBarCheck 8 (Some "1"%string))
    /\ BarChecks.objects w' !! b1 = Some (aBarCheck 10 (Some "2"%string))
    /\ BarChecks.objects w' !! b3 = Some (aBarCheck 30 None)
    /\ BarChecks.fLastBarCheck w' = Some b3
    /\ length (BarChecks.warnings w') = 1%nat.
Proof.
  assert (Hready : BarChecks.ready BarChecks.translator_at_measures).
  { split; [eexists; reflexivity|]. split; [eexists; reflexivity|].
    split; [eexists; reflexivity|]. exists 8, None. vm_compute. reflexivity. }
  destruct (bar_check_bears_the_next_measure_number BarChecks.three_measures 1%nat
              BarChecks.translator_at_measures Hready eq_refl)
    as (w' & created & Hrun & Hbc & Hnew & Hlast & Hwarn & Hres & _).
  cbn in Hnew.
  inversion Hnew as [|b1 o1 cs1 os1 [_ Hb1] Hrest]; subst.
  inversion Hrest as [|b3 o3 cs3 os3 [_ Hb3] Hnil]; subst. inversion Hnil; subst.
  exists w', b1, b3.
  split; [exact Hrun|].
  split.
  { assert (Hbc' : default [] (BarChecks.voiceBarChecks w' !! 1%nat) = [b1; b3])
      by exact Hbc.
    destruct (BarChecks.voiceBarChecks w' !! 1%nat) as [l|]; simpl in Hbc';
      [rewrite Hbc'; reflexivity | discriminate]. }
  split; [apply (Hres 4%nat 8 None); [reflexivity | vm_compute; reflexivity]|].
  split; [exact Hb1|]. split; [exact Hb3|].
  split; [exact Hlast|].
  rewrite Hwarn. reflexivity.
Defined.
